(** * Simple_MRP_CN: a shallow embedding of the MRP engine

    The development follows the Python sources module by module:
    - [PyDict]     the insertion-ordered dictionaries the code builds
                   ([dict(zip(..))], [d[k] = v], [d.get(k, default)]);
    - [LotSizing]  [apply_lot_sizing]                     (advanced_mrp.py);
    - [Bom]        [build_bom_tree]                       (advanced_mrp.py, app.py);
    - [Explosion]  [get_all_requirements], both versions  (advanced_mrp.py, app.py);
    - [Netting]    the per-material solver call and result loop of
                   [calculate_advanced_mrp]               (advanced_mrp.py);
    - [Capacity]   [check_capacity_constraints]           (advanced_mrp.py);
    - [Classify]   [classify_materials]                   (advanced_mrp.py);
    - [BasicMrp]   the solver call and result loop of
                   [calculate_mrp]                        (app.py);
    - [Numeric]    the result loops of both functions in float64, the
                   solver answering within its tolerance
                                                 (advanced_mrp.py, app.py);
    - [Frames]     the column assignments of the validators and
                   [check_bom_circular_reference] (utils.py), and the
                   column assignments of [calculate_mrp] (app.py);
    - [Consistency]   [check_data_consistency]            (utils.py);
    - [BomStructure]  [analyze_bom_structure]             (utils.py).

    Quantities and lead times are integers ([Z]), but in [Numeric], where
    they are rational numbers and the arithmetic rounds; a date is a day
    number ([Z]), so that [pd.to_datetime(d) - pd.Timedelta(days=n)] is
    [d - n]. Material and resource codes are strings. *)

From stdpp Require Import base list strings gmap.
From Stdlib Require Import ZArith Lia Classical_Prop.
From Stdlib Require QArith Lqa.

Local Open Scope Z_scope.

(* ================================================================== *)
(** ** Python dictionaries *)
(* ================================================================== *)

(** A Python [dict] keeps its keys in insertion order and holds each key
    once; [d[k] = v] overwrites the value of a key that is present and
    leaves it at its place, and appends the key otherwise. *)
Module PyDict.

Section dict.
Context {K V : Type} `{EqDecision K}.

(** [d.get(k)] *)
Fixpoint get (d : list (K * V)) (k : K) : option V :=
  match d with
  | [] => None
  | (k', v) :: d' => if decide (k' = k) then Some v else get d' k
  end.

(** [d.get(k, dflt)] *)
Definition get_default (d : list (K * V)) (k : K) (dflt : V) : V :=
  match get d k with Some v => v | None => dflt end.

(** [d[k] = v] *)
Fixpoint set (d : list (K * V)) (k : K) (v : V) : list (K * V) :=
  match d with
  | [] => [(k, v)]
  | (k', v') :: d' =>
      if decide (k' = k) then (k, v) :: d' else (k', v') :: set d' k v
  end.

(** [dict(zip(keys, values))]: later pairs overwrite earlier ones. *)
Definition of_zip (kvs : list (K * V)) : list (K * V) :=
  foldl (fun d kv => set d kv.1 kv.2) [] kvs.

Definition keys (d : list (K * V)) : list K := d.*1.

Lemma get_set_eq d k v : get (set d k v) k = Some v.
Proof.
  induction d as [|[k' v'] d IH]; simpl.
  - by rewrite decide_True.
  - destruct (decide (k' = k)) as [->|Hne]; simpl.
    + by rewrite decide_True.
    + by rewrite decide_False.
Qed.

Lemma get_set_ne d k k' v : k ≠ k' → get (set d k v) k' = get d k'.
Proof.
  intros Hne. induction d as [|[k0 v0] d IH]; simpl.
  - by rewrite decide_False.
  - destruct (decide (k0 = k)) as [->|Hne0]; simpl.
    + by rewrite !decide_False.
    + by rewrite IH.
Qed.

Lemma get_set d k k' v :
  get (set d k v) k' = if decide (k = k') then Some v else get d k'.
Proof.
  destruct (decide (k = k')) as [->|Hne].
  - apply get_set_eq.
  - by apply get_set_ne.
Qed.

Lemma get_None d k : get d k = None ↔ k ∉ keys d.
Proof.
  unfold keys. induction d as [|[k' v'] d IH]; simpl.
  - split; [intros _; apply not_elem_of_nil | done].
  - rewrite not_elem_of_cons. destruct (decide (k' = k)) as [->|Hne].
    + split; [done | intros [? _]; done].
    + rewrite IH. split; [intros ?; split; [congruence | done] | intros [_ ?]; done].
Qed.

Lemma get_Some_elem d k v : get d k = Some v → (k, v) ∈ d.
Proof.
  induction d as [|[k' v'] d IH]; simpl; [done|].
  destruct (decide (k' = k)) as [->|Hne].
  - intros [= ->]. apply list_elem_of_here.
  - intros H. apply list_elem_of_further. by apply IH.
Qed.

Lemma elem_get_Some d k v : NoDup (keys d) → (k, v) ∈ d → get d k = Some v.
Proof.
  unfold keys. induction d as [|[k' v'] d IH]; simpl.
  - intros _ H. by apply elem_of_nil in H.
  - intros Hnd H. apply NoDup_cons in Hnd as [Hk' Hnd].
    apply elem_of_cons in H as [[= -> ->]|H].
    + by rewrite decide_True.
    + destruct (decide (k' = k)) as [->|Hne].
      * exfalso. apply Hk'. apply list_elem_of_fmap. by exists (k, v).
      * by apply IH.
Qed.

Lemma keys_set d k v :
  keys (set d k v) = if decide (k ∈ keys d) then keys d else keys d ++ [k].
Proof.
  unfold keys. induction d as [|[k' v'] d IH]; [done|]. cbn [set fmap list_fmap fst].
  destruct (decide (k' = k)) as [->|Hne]; cbn [fmap list_fmap fst].
  - rewrite decide_True; [done | apply list_elem_of_here].
  - rewrite IH. destruct (decide (k ∈ d.*1)) as [Hin|Hnin].
    + rewrite decide_True; [done | by apply list_elem_of_further].
    + rewrite decide_False; [done|].
      rewrite not_elem_of_cons. split; [congruence | done].
Qed.

Lemma NoDup_keys_set d k v : NoDup (keys d) → NoDup (keys (set d k v)).
Proof.
  intros Hnd. rewrite keys_set. case_decide; [done|].
  apply NoDup_app. split_and!; [done | | apply NoDup_singleton].
  intros x Hx Hx'. apply list_elem_of_singleton in Hx' as ->. done.
Qed.

Lemma NoDup_keys_of_zip kvs : NoDup (keys (of_zip kvs)).
Proof.
  unfold of_zip.
  assert (∀ d, NoDup (keys d) →
    NoDup (keys (foldl (fun d kv => set d kv.1 kv.2) d kvs))) as Hgen.
  { induction kvs as [|kv kvs IH]; simpl; [done|].
    intros d Hd. apply IH. by apply NoDup_keys_set. }
  apply Hgen. apply NoDup_nil_2.
Qed.

Lemma elem_of_set d k v kv : kv ∈ set d k v → kv = (k, v) ∨ kv ∈ d.
Proof.
  induction d as [|[k' v'] d IH]; simpl.
  - intros ->%list_elem_of_singleton. by left.
  - destruct (decide (k' = k)) as [->|Hne].
    + intros [->|Hin]%elem_of_cons; [by left | right; by apply list_elem_of_further].
    + intros [->|Hin]%elem_of_cons; [right; apply list_elem_of_here|].
      destruct (IH Hin) as [->|Hin']; [by left|].
      right. by apply list_elem_of_further.
Qed.

Lemma set_present d k v : get d k = Some v → set d k v = d.
Proof.
  induction d as [|[k' v'] d IH]; simpl; [done|].
  destruct (decide (k' = k)) as [->|Hne]; [by intros [= ->]|].
  intros Hget. by rewrite IH.
Qed.

End dict.

(** Dictionaries of dictionaries: [m[k1][k2]]. *)
Section nested.
Context {K1 K2 V : Type} `{EqDecision K1, EqDecision K2}.

(** [m.get(k1, {}).get(k2)] *)
Definition get2 (m : list (K1 * list (K2 * V))) (k1 : K1) (k2 : K2)
  : option V :=
  match get m k1 with
  | Some inner => get inner k2
  | None => None
  end.

(** [if k1 not in m: m[k1] = {}] followed by [m[k1][k2] = v] *)
Definition set2 (m : list (K1 * list (K2 * V))) (k1 : K1) (k2 : K2) (v : V)
  : list (K1 * list (K2 * V)) :=
  set m k1 (set (get_default m k1 []) k2 v).

(** Every key once, at both levels. *)
Definition wf2 (m : list (K1 * list (K2 * V))) : Prop :=
  NoDup (keys m) ∧ Forall (fun kv => NoDup (keys kv.2)) m.

Lemma get2_set2 m k1 k2 v k1' k2' :
  get2 (set2 m k1 k2 v) k1' k2'
  = if decide (k1 = k1' ∧ k2 = k2') then Some v else get2 m k1' k2'.
Proof.
  unfold get2, set2. rewrite get_set.
  destruct (decide (k1 = k1')) as [->|Hne1].
  - rewrite get_set. unfold get_default.
    destruct (decide (k2 = k2')) as [->|Hne2].
    + by rewrite decide_True.
    + rewrite decide_False by tauto. by destruct (get m k1').
  - by rewrite decide_False by tauto.
Qed.

Lemma Forall_set {A} (P : K1 * A → Prop) (d : list (K1 * A)) k v :
  Forall P d → P (k, v) → Forall P (set d k v).
Proof.
  intros Hd Hkv. induction Hd as [|[k' v'] d Hk' Hd IH]; simpl.
  - by constructor.
  - destruct (decide (k' = k)); constructor; done.
Qed.

Lemma wf2_nil : wf2 [].
Proof. split; constructor. Qed.

Lemma wf2_set2 m k1 k2 v : wf2 m → wf2 (set2 m k1 k2 v).
Proof.
  intros [Hnd Hall]. split.
  - by apply NoDup_keys_set.
  - apply Forall_set; [done|]. simpl. apply NoDup_keys_set.
    unfold get_default. destruct (get m k1) as [inner|] eqn:Hget;
      [|apply NoDup_nil_2].
    apply get_Some_elem in Hget.
    rewrite Forall_forall in Hall. by apply (Hall _ Hget).
Qed.

Lemma get2_Some_elem m k1 k2 v :
  get2 m k1 k2 = Some v ↔
  ∃ inner, get m k1 = Some inner ∧ get inner k2 = Some v.
Proof.
  unfold get2. destruct (get m k1) as [inner|].
  - split; [by exists inner | by intros (? & [= <-] & ?)].
  - split; [done | by intros (? & ? & ?)].
Qed.

(** [[(k1, k2, v) for k1 in m for k2, v in m[k1].items()]] *)
Definition items2 (m : list (K1 * list (K2 * V))) : list (K1 * K2 * V) :=
  flat_map (fun kv => (fun e => (kv.1, e.1, e.2)) <$> kv.2) m.

Lemma elem_of_items2 m k1 k2 v :
  wf2 m → (k1, k2, v) ∈ items2 m ↔ get2 m k1 k2 = Some v.
Proof.
  intros [Hnd Hall]. rewrite get2_Some_elem. unfold items2. split.
  - intros Hin. apply list_elem_of_In, in_flat_map in Hin
      as ([k inner] & Hk & Hin).
    apply list_elem_of_In in Hk. apply list_elem_of_In in Hin.
    apply list_elem_of_fmap in Hin as ([k2' v'] & [= -> -> ->] & He).
    simpl in *. exists inner. split.
    + by apply elem_get_Some.
    + apply elem_get_Some; [|done].
      rewrite Forall_forall in Hall. by apply (Hall _ Hk).
  - intros (inner & Hget & Hget2).
    apply get_Some_elem in Hget. apply get_Some_elem in Hget2.
    apply list_elem_of_In, in_flat_map. exists (k1, inner).
    split; [by apply list_elem_of_In|].
    apply list_elem_of_In, list_elem_of_fmap. by exists (k2, v).
Qed.

Lemma NoDup_items2 m : wf2 m → NoDup ((fun t => (t.1.1, t.1.2)) <$> items2 m).
Proof.
  intros [Hnd Hall]. unfold items2, keys in *.
  induction m as [|[k inner] m IH]; [constructor|].
  cbn [flat_map fmap list_fmap fst snd] in *.
  apply NoDup_cons in Hnd as [Hk Hnd].
  apply Forall_cons in Hall as [Hinner Hall]. simpl in Hinner.
  rewrite fmap_app. apply NoDup_app. split_and!.
  - rewrite <- list_fmap_compose.
    apply (NoDup_fmap_2_strong _); [|by apply NoDup_fmap_1 in Hinner].
    intros [a b] [a' b'] Ha Ha' [= Heq]. simpl in Heq. subst a'.
    f_equal. 
    pose proof (elem_get_Some inner a b Hinner Ha).
    pose proof (elem_get_Some inner a b' Hinner Ha'). congruence.
  - intros [a b] Hin Hin'.
    apply list_elem_of_fmap in Hin as ([[a1 b1] c1] & [= -> ->] & Hin).
    apply list_elem_of_fmap in Hin as ([b2 c2] & [= -> -> ->] & Hin).
    apply list_elem_of_fmap in Hin' as ([[a3 b3] c3] & [= Ha Hb] & Hin').
    simpl in *. subst a3 b3.
    apply list_elem_of_In, in_flat_map in Hin' as ([k' inner'] & Hk' & Hin').
    apply list_elem_of_In in Hk'. apply list_elem_of_In in Hin'.
    apply list_elem_of_fmap in Hin' as ([b4 c4] & [= -> -> ->] & Hin').
    apply Hk. apply list_elem_of_fmap. by exists (k', inner').
  - by apply IH.
Qed.

End nested.

End PyDict.

(* ================================================================== *)
(** ** Lot sizing: [apply_lot_sizing] *)
(* ================================================================== *)

Module LotSizing.

(** advanced_mrp.py, [apply_lot_sizing]. Python's [%] takes the sign of
    the divisor, as [Z.modulo] does. *)
Definition apply_lot_sizing (quantity min_lot_size lot_multiple : Z) : Z :=
  if quantity <=? 0 then 0
  else
    let adjusted_quantity := Z.max quantity min_lot_size in
    if 1 <? lot_multiple then
      let remainder := adjusted_quantity mod lot_multiple in
      if 0 <? remainder
      then adjusted_quantity + (lot_multiple - remainder)
      else adjusted_quantity
    else adjusted_quantity.

Lemma apply_lot_sizing_nonpos quantity min_lot_size lot_multiple :
  quantity ≤ 0 → apply_lot_sizing quantity min_lot_size lot_multiple = 0.
Proof.
  intros Hq. unfold apply_lot_sizing.
  destruct (Z.leb_spec quantity 0); [done | lia].
Qed.

Lemma apply_lot_sizing_no_multiple quantity min_lot_size lot_multiple :
  0 < quantity → lot_multiple ≤ 1 →
  apply_lot_sizing quantity min_lot_size lot_multiple
  = Z.max quantity min_lot_size.
Proof.
  intros Hq Hm. unfold apply_lot_sizing.
  destruct (Z.leb_spec quantity 0); [lia|].
  destruct (Z.ltb_spec 1 lot_multiple); [lia | done].
Qed.

(** With a multiple above 1 the result is the least multiple of
    [lot_multiple] that is not below [max quantity min_lot_size]. *)
Lemma apply_lot_sizing_round_up quantity min_lot_size lot_multiple :
  0 < quantity → 1 < lot_multiple →
  let base := Z.max quantity min_lot_size in
  let r := apply_lot_sizing quantity min_lot_size lot_multiple in
  (lot_multiple | r) ∧ base ≤ r < base + lot_multiple.
Proof.
  intros Hq Hm base r. subst r. unfold apply_lot_sizing.
  destruct (Z.leb_spec quantity 0); [lia|].
  destruct (Z.ltb_spec 1 lot_multiple); [|lia].
  fold base.
  pose proof (Z.mod_pos_bound base lot_multiple ltac:(lia)) as Hb.
  pose proof (Z.div_mod base lot_multiple ltac:(lia)) as Hdm.
  destruct (Z.ltb_spec 0 (base mod lot_multiple)) as [Hr|Hr].
  - split; [|lia].
    exists (base `div` lot_multiple + 1). lia.
  - split; [|lia].
    exists (base `div` lot_multiple). lia.
Qed.

Lemma multiple_in_window (m a b : Z) :
  0 < m → (m | a) → (m | b) → a ≤ b < a + m → b = a.
Proof.
  intros Hm [i ->] [j ->] H.
  assert (j = i) as -> by nia. done.
Qed.

(** C5. [apply_lot_sizing] returns 0 for a quantity that is not
    positive; otherwise, with [base = max quantity min_lot_size], it
    returns [base] rounded up to the next multiple of [lot_multiple] when
    the multiple is above 1 (the least multiple not below [base], so
    [base] itself when that is a multiple), and [base] when not. The four
    examples of the specification evaluate as stated. *)
Theorem apply_lot_sizing_spec :
  (∀ raw minLot multiple,
     raw ≤ 0 → apply_lot_sizing raw minLot multiple = 0) ∧
  (∀ raw minLot multiple,
     0 < raw → 1 < multiple →
     let base := Z.max raw minLot in
     let r := apply_lot_sizing raw minLot multiple in
     (multiple | r) ∧ base ≤ r ∧
     (∀ k, (multiple | k) → base ≤ k → r ≤ k) ∧
     ((multiple | base) → r = base)) ∧
  (∀ raw minLot multiple,
     0 < raw → multiple ≤ 1 →
     apply_lot_sizing raw minLot multiple = Z.max raw minLot) ∧
  apply_lot_sizing 5 20 10 = 20 ∧
  apply_lot_sizing 25 20 10 = 30 ∧
  apply_lot_sizing 0 20 10 = 0 ∧
  apply_lot_sizing (-3) 20 10 = 0.
Proof.
  split_and!; try reflexivity.
  - apply apply_lot_sizing_nonpos.
  - intros raw minLot multiple Hraw Hm base r.
    destruct (apply_lot_sizing_round_up raw minLot multiple Hraw Hm)
      as [Hdiv Hwin].
    fold base r in Hdiv, Hwin. split_and!; [done | lia | |].
    + intros k [j ->] Hk. destruct Hdiv as [i Hi].
      clearbody r base. subst r.
      assert (i < j + 1) by nia. nia.
    + intros Hbase.
      apply (multiple_in_window multiple base r); [lia | done | done | lia].
  - apply apply_lot_sizing_no_multiple.
Qed.

(** *** The function applied again, and to a larger request *)

Lemma apply_lot_sizing_lower quantity min_lot_size lot_multiple :
  0 < quantity →
  Z.max quantity min_lot_size
  ≤ apply_lot_sizing quantity min_lot_size lot_multiple.
Proof.
  intros Hq. destruct (Z.lt_ge_cases 1 lot_multiple) as [Hm|Hm].
  - pose proof (apply_lot_sizing_round_up quantity min_lot_size lot_multiple
                  Hq Hm) as [_ Hwin]. simpl in Hwin. lia.
  - rewrite apply_lot_sizing_no_multiple by done. lia.
Qed.

Lemma apply_lot_sizing_nonneg quantity min_lot_size lot_multiple :
  0 ≤ apply_lot_sizing quantity min_lot_size lot_multiple.
Proof.
  destruct (Z.le_gt_cases quantity 0) as [Hq|Hq].
  - by rewrite apply_lot_sizing_nonpos.
  - pose proof (apply_lot_sizing_lower quantity min_lot_size lot_multiple).
    lia.
Qed.

(** A quantity that already meets the rule is returned as it is. *)
Lemma apply_lot_sizing_fixed quantity min_lot_size lot_multiple :
  0 < quantity → min_lot_size ≤ quantity →
  (1 < lot_multiple → (lot_multiple | quantity)) →
  apply_lot_sizing quantity min_lot_size lot_multiple = quantity.
Proof.
  intros Hq Hmin Hdiv. destruct (Z.lt_ge_cases 1 lot_multiple) as [Hm|Hm].
  - pose proof (apply_lot_sizing_round_up quantity min_lot_size lot_multiple
                  Hq Hm) as [Hr Hwin]. simpl in Hwin.
    rewrite Z.max_l in Hwin by done.
    apply (multiple_in_window lot_multiple); [lia | by apply Hdiv | done | lia].
  - rewrite apply_lot_sizing_no_multiple by done. lia.
Qed.

(** X1. [apply_lot_sizing] is idempotent: a quantity it has returned
    meets the lot-size rule, and the function gives it back unchanged.
    The result is never negative, and for a positive request it is at
    least the request and at least the minimum lot. *)
Theorem apply_lot_sizing_idempotent :
  ∀ quantity min_lot_size lot_multiple,
    let adjusted := apply_lot_sizing quantity min_lot_size lot_multiple in
    apply_lot_sizing adjusted min_lot_size lot_multiple = adjusted ∧
    0 ≤ adjusted ∧
    (0 < quantity → quantity ≤ adjusted ∧ min_lot_size ≤ adjusted).
Proof.
  intros quantity min_lot_size lot_multiple adjusted. subst adjusted.
  split_and!.
  - destruct (Z.le_gt_cases quantity 0) as [Hq|Hq].
    + rewrite (apply_lot_sizing_nonpos quantity) by done.
      by apply apply_lot_sizing_nonpos.
    + pose proof (apply_lot_sizing_lower quantity min_lot_size lot_multiple Hq).
      apply apply_lot_sizing_fixed; [lia | lia |].
      intros Hm.
      by destruct (apply_lot_sizing_round_up quantity min_lot_size lot_multiple
                     Hq Hm) as [Hr _].
  - apply apply_lot_sizing_nonneg.
  - intros Hq.
    pose proof (apply_lot_sizing_lower quantity min_lot_size lot_multiple Hq).
    lia.
Qed.

(** X2. [apply_lot_sizing] is monotone: a larger request, or a larger
    minimum lot, never gives a smaller lot (the multiple being the
    same). *)
Theorem apply_lot_sizing_monotone :
  ∀ quantity quantity' min_lot_size min_lot_size' lot_multiple,
    quantity ≤ quantity' → min_lot_size ≤ min_lot_size' →
    apply_lot_sizing quantity min_lot_size lot_multiple
    ≤ apply_lot_sizing quantity' min_lot_size' lot_multiple.
Proof.
  intros q q' m m' k Hq Hm.
  destruct (Z.le_gt_cases q 0) as [Hq0|Hq0].
  - rewrite (apply_lot_sizing_nonpos q) by done. apply apply_lot_sizing_nonneg.
  - assert (0 < q') as Hq0' by lia.
    destruct (Z.lt_ge_cases 1 k) as [Hk|Hk].
    + destruct (apply_lot_sizing_round_up q m k Hq0 Hk) as [[i Hi] Hwin].
      destruct (apply_lot_sizing_round_up q' m' k Hq0' Hk) as [[j Hj] Hwin'].
      simpl in Hwin, Hwin'. rewrite Hi, Hj in *.
      assert (i < j + 1) by nia. nia.
    + rewrite !apply_lot_sizing_no_multiple by done. lia.
Qed.

Lemma apply_lot_sizing_monotone_witness :
  apply_lot_sizing 5 20 10 ≤ apply_lot_sizing 25 20 10.
Proof. apply apply_lot_sizing_monotone; lia. Defined.

End LotSizing.

(* ================================================================== *)
(** ** BOM tree construction: [build_bom_tree] *)
(* ================================================================== *)

Module Bom.

(** A row of the BOM table: 父项编码, 子项编码, 用量. *)
Record bom_row := BomRow {
  parent_code : string;
  child_code : string;
  usage : Z
}.

#[global] Instance bom_row_eq_dec : EqDecision bom_row.
Proof. solve_decision. Defined.

(** The value [build_bom_tree] returns: a dictionary from a child code
    to its ['quantity'], its ['level'] and its ['children'], again such a
    dictionary. *)
#[local] Set Warnings "-register-all".
Inductive bom_tree :=
| BomTree (entries : list (string * (Z * Z * bom_tree))).

Definition entries (t : bom_tree) : list (string * (Z * Z * bom_tree)) :=
  match t with BomTree es => es end.

(** [raise ValueError(f"检测到BOM循环引用: {' -> '.join(path + [parent_item])}")] *)
Definition cycle_message (cycle : list string) : string :=
  String.append "检测到BOM循环引用: " (String.concat " -> " cycle).

(** A call of [build_bom_tree] returns a tree or raises the
    circular-reference [ValueError]; [OutOfFuel] is the model's own, for
    a recursion cut short. *)
Inductive build_result :=
| OutOfFuel
| CircularReference (message : string)
| Built (tree : bom_tree).

(** [bom_data[bom_data['父项编码'] == parent_item]] *)
Definition children_rows (bom_data : list bom_row) (parent_item : string)
  : list bom_row :=
  filter (fun row => parent_code row = parent_item) bom_data.

(** The loop [for _, row in children.iterrows()] of [build_bom_tree],
    over the recursive call [build]: an exception raised for a child
    leaves the loop at once. *)
Fixpoint build_children (build : string → build_result) (level : Z)
    (rows : list bom_row) (result : list (string * (Z * Z * bom_tree)))
  : build_result :=
  match rows with
  | [] => Built (BomTree result)
  | row :: rows' =>
      match build (child_code row) with
      | Built child_tree =>
          build_children build level rows'
            (PyDict.set result (child_code row)
               (usage row, level + 1, child_tree))
      | failure => failure
      end
  end.

(** advanced_mrp.py (and app.py), [build_bom_tree]. *)
Fixpoint build_bom_tree (fuel : nat) (parent_item : string)
    (bom_data : list bom_row) (level : Z) (path : list string)
  : build_result :=
  match fuel with
  | O => OutOfFuel
  | S fuel' =>
      if decide (parent_item ∈ path)
      then CircularReference (cycle_message (path ++ [parent_item]))
      else
        build_children
          (fun child_item =>
             build_bom_tree fuel' child_item bom_data (level + 1)
               (path ++ [parent_item]))
          level (children_rows bom_data parent_item) []
  end.

(** Fuel that always suffices: a path never repeats a material, and
    holds the root and child codes only. *)
Definition enough_fuel (bom_data : list bom_row) : nat :=
  S (S (length bom_data)).

(** [bom_trees[product] = build_bom_tree(product, bom_data)] *)
Definition build (product : string) (bom_data : list bom_row) : build_result :=
  build_bom_tree (enough_fuel bom_data) product bom_data 0 [].

(** *** The BOM as a graph *)

Definition edge (bom_data : list bom_row) (p c : string) : Prop :=
  ∃ row, row ∈ bom_data ∧ parent_code row = p ∧ child_code row = c.

(** [walk bom_data w]: [w] is a non-empty sequence of materials, each the
    parent of the next in some row. *)
Inductive walk (bom_data : list bom_row) : list string → Prop :=
| walk_one x : walk bom_data [x]
| walk_step x y w :
    edge bom_data x y → walk bom_data (y :: w) → walk bom_data (x :: y :: w).

(** The edges reachable from [root] form an acyclic graph. *)
Definition acyclic_from (bom_data : list bom_row) (root : string) : Prop :=
  ∀ w, walk bom_data (root :: w) → NoDup (root :: w).

(** [anc ++ [x]] is a path from [root] whose last material [x] is the
    first to reappear. *)
Definition revisiting_path (bom_data : list bom_row) (root : string)
    (anc : list string) (x : string) : Prop :=
  walk bom_data (anc ++ [x]) ∧ head (anc ++ [x]) = Some root ∧
  NoDup anc ∧ x ∈ anc.

(** *** Results of the loop over the children *)

Lemma build_children_Built build level rows result tree :
  build_children build level rows result = Built tree →
  ∀ row, row ∈ rows → ∃ t, build (child_code row) = Built t.
Proof.
  revert result. induction rows as [|row rows IH]; intros result Hb r Hr.
  - by apply elem_of_nil in Hr.
  - simpl in Hb. destruct (build (child_code row)) as [| |t] eqn:Hrow;
      try discriminate.
    apply elem_of_cons in Hr as [->|Hr]; [by exists t | by eapply IH].
Qed.

Lemma build_children_Circular build level rows result msg :
  build_children build level rows result = CircularReference msg →
  ∃ row, row ∈ rows ∧ build (child_code row) = CircularReference msg.
Proof.
  revert result. induction rows as [|row rows IH]; intros result Hb;
    [discriminate|].
  simpl in Hb. destruct (build (child_code row)) as [| |t] eqn:Hrow.
  - discriminate.
  - injection Hb as ->. exists row. split; [apply list_elem_of_here | done].
  - destruct (IH _ Hb) as (r & Hr & Hbr).
    exists r. split; [by apply list_elem_of_further | done].
Qed.

Lemma build_children_fuel build level rows result :
  (∀ row, row ∈ rows → build (child_code row) ≠ OutOfFuel) →
  build_children build level rows result ≠ OutOfFuel.
Proof.
  revert result. induction rows as [|row rows IH]; intros result Hall;
    [done|].
  simpl. pose proof (Hall row (list_elem_of_here _ _)) as Hrow.
  destruct (build (child_code row)) as [| |t]; [done | done |].
  apply IH. intros r Hr. apply Hall. by apply list_elem_of_further.
Qed.

Lemma build_children_ext build1 build2 level rows result r :
  (∀ row r', row ∈ rows → build1 (child_code row) = r' → r' ≠ OutOfFuel →
             build2 (child_code row) = r') →
  build_children build1 level rows result = r → r ≠ OutOfFuel →
  build_children build2 level rows result = r.
Proof.
  revert result. induction rows as [|row rows IH]; intros result Hext Hb Hr;
    [done|].
  simpl in *.
  destruct (build1 (child_code row)) as [| |t] eqn:Hrow.
  - congruence.
  - rewrite (Hext row _ (list_elem_of_here _ _) Hrow); [done | done].
  - rewrite (Hext row _ (list_elem_of_here _ _) Hrow); [|done].
    apply IH; [|done..].
    intros r0 r' Hr0. apply Hext. by apply list_elem_of_further.
Qed.

(** *** More fuel changes no result *)

Lemma build_bom_tree_fuel_S fuel parent_item bom_data level path r :
  build_bom_tree fuel parent_item bom_data level path = r →
  r ≠ OutOfFuel →
  build_bom_tree (S fuel) parent_item bom_data level path = r.
Proof.
  revert parent_item level path r.
  induction fuel as [|fuel IH]; intros parent_item level path r Hb Hr.
  - simpl in Hb. congruence.
  - change (build_bom_tree (S (S fuel)) parent_item bom_data level path)
      with (if decide (parent_item ∈ path)
            then CircularReference (cycle_message (path ++ [parent_item]))
            else build_children
                   (fun child_item =>
                      build_bom_tree (S fuel) child_item bom_data (level + 1)
                        (path ++ [parent_item]))
                   level (children_rows bom_data parent_item) []).
    simpl in Hb. destruct (decide (parent_item ∈ path)); [done|].
    eapply build_children_ext; [|exact Hb|done].
    intros row r' _ Hrow Hr'. by apply IH.
Qed.

Lemma build_bom_tree_fuel_le fuel fuel' parent_item bom_data level path r :
  (fuel ≤ fuel')%nat →
  build_bom_tree fuel parent_item bom_data level path = r →
  r ≠ OutOfFuel →
  build_bom_tree fuel' parent_item bom_data level path = r.
Proof.
  induction 1 as [|fuel' _ IH]; intros Hb Hr; [done|].
  apply build_bom_tree_fuel_S; [by apply IH | done].
Qed.

(** *** The recursion ends *)

Definition materials (bom_data : list bom_row) (root : string) : list string :=
  root :: (child_code <$> bom_data).

Lemma build_bom_tree_total bom_data root fuel parent_item level path :
  NoDup path →
  (∀ x, x ∈ path → x ∈ materials bom_data root) →
  parent_item ∈ materials bom_data root →
  (length (materials bom_data root) < fuel + length path)%nat →
  build_bom_tree fuel parent_item bom_data level path ≠ OutOfFuel.
Proof.
  revert parent_item level path.
  induction fuel as [|fuel IH]; intros parent_item level path Hnd Hsub Hp Hlen.
  - pose proof (submseteq_length _ _ (NoDup_submseteq _ _ Hnd Hsub)) as Hle.
    exfalso. lia.
  - simpl. destruct (decide (parent_item ∈ path)) as [Hin|Hnin]; [done|].
    apply build_children_fuel. intros row Hrow.
    apply list_elem_of_filter in Hrow as [_ Hrow].
    apply IH.
    + apply NoDup_app. split_and!; [done | | apply NoDup_singleton].
      intros x Hx Hx'. apply list_elem_of_singleton in Hx' as ->. done.
    + intros x Hx. apply elem_of_app in Hx as [Hx|Hx]; [by apply Hsub|].
      apply list_elem_of_singleton in Hx as ->. done.
    + apply list_elem_of_further. by apply list_elem_of_fmap_2.
    + rewrite length_app. cbn [length]. lia.
Qed.

Lemma build_total product bom_data : build product bom_data ≠ OutOfFuel.
Proof.
  unfold build. apply (build_bom_tree_total bom_data product).
  - apply NoDup_nil_2.
  - intros x Hx. by apply elem_of_nil in Hx.
  - apply list_elem_of_here.
  - unfold enough_fuel, materials. simpl. rewrite length_fmap. lia.
Qed.

(** *** What each result says about the graph *)

Lemma elem_children_rows bom_data row :
  row ∈ bom_data → row ∈ children_rows bom_data (parent_code row).
Proof. intros Hrow. by apply list_elem_of_filter. Qed.

Lemma build_bom_tree_Built_NoDup bom_data fuel parent_item level path tree :
  build_bom_tree fuel parent_item bom_data level path = Built tree →
  NoDup path →
  ∀ w, walk bom_data (parent_item :: w) → NoDup (path ++ parent_item :: w).
Proof.
  revert parent_item level path tree.
  induction fuel as [|fuel IH]; intros parent_item level path tree Hb Hnd w Hw;
    [discriminate|].
  simpl in Hb. destruct (decide (parent_item ∈ path)) as [Hin|Hnin];
    [discriminate|].
  assert (NoDup (path ++ [parent_item])) as Hnd'.
  { apply NoDup_app. split_and!; [done | | apply NoDup_singleton].
    intros x Hx Hx'. apply list_elem_of_singleton in Hx' as ->. done. }
  inversion Hw as [|x y w' (row & Hrow & Hp & Hc) Hw' ]; subst; [done|].
  destruct (build_children_Built _ _ _ _ _ Hb row
              (elem_children_rows _ _ Hrow)) as [t Ht].
  pose proof (IH _ _ _ _ Ht Hnd' _ Hw') as Hres.
  by rewrite <- app_assoc in Hres.
Qed.

Lemma build_bom_tree_Circular bom_data fuel parent_item level path msg :
  build_bom_tree fuel parent_item bom_data level path = CircularReference msg →
  NoDup path →
  ∃ chain x,
    msg = cycle_message (path ++ chain ++ [x]) ∧
    walk bom_data (chain ++ [x]) ∧
    head (chain ++ [x]) = Some parent_item ∧
    NoDup (path ++ chain) ∧ x ∈ path ++ chain.
Proof.
  revert parent_item level path.
  induction fuel as [|fuel IH]; intros parent_item level path Hb Hnd;
    [discriminate|].
  simpl in Hb. destruct (decide (parent_item ∈ path)) as [Hin|Hnin].
  - injection Hb as <-. exists [], parent_item. simpl.
    rewrite app_nil_r. split_and!; [done | constructor | done..].
  - assert (NoDup (path ++ [parent_item])) as Hnd'.
    { apply NoDup_app. split_and!; [done | | apply NoDup_singleton].
      intros x Hx Hx'. apply list_elem_of_singleton in Hx' as ->. done. }
    destruct (build_children_Circular _ _ _ _ _ Hb) as (row & Hrow & Hres).
    apply list_elem_of_filter in Hrow as [Hp Hrow].
    destruct (IH _ _ _ Hres Hnd') as (chain & x & -> & Hw & Hhd & Hnd'' & Hx).
    exists (parent_item :: chain), x.
    rewrite <- !app_assoc in *. simpl in *.
    split_and!; [done | | done..].
    destruct (chain ++ [x]) as [|y rest] eqn:Hch; [discriminate|].
    injection Hhd as ->. apply walk_step; [|done]. by exists row.
Qed.

(** The two ways a call for a root ends. *)
Lemma build_bom_tree_outcomes (bom_data : list bom_row) (root : string) :
  (acyclic_from bom_data root →
   ∃ tree, ∀ fuel, (enough_fuel bom_data ≤ fuel)%nat →
     build_bom_tree fuel root bom_data 0 [] = Built tree) ∧
  (∀ w, walk bom_data (root :: w) → ¬ NoDup (root :: w) →
   ∃ anc x,
     revisiting_path bom_data root anc x ∧
     ∀ fuel, (enough_fuel bom_data ≤ fuel)%nat →
       build_bom_tree fuel root bom_data 0 []
       = CircularReference (cycle_message (anc ++ [x]))).
Proof.
  pose proof (build_total root bom_data) as Htot. unfold build in Htot.
  destruct (build_bom_tree (enough_fuel bom_data) root bom_data 0 [])
    as [| msg | tree] eqn:Hb; [done | |].
  - destruct (build_bom_tree_Circular _ _ _ _ _ _ Hb (NoDup_nil_2))
      as (anc & x & -> & Hw & Hhd & Hnd & Hx).
    simpl in *. split.
    + intros Hacyc. exfalso.
      destruct anc as [|a anc]; [by apply elem_of_nil in Hx|].
      simpl in Hhd. injection Hhd as ->.
      pose proof (Hacyc _ Hw) as Hnd'.
      change (NoDup ((root :: anc) ++ [x])) in Hnd'.
      apply NoDup_app in Hnd' as (_ & Hdisj & _).
      apply (Hdisj x Hx). apply list_elem_of_here.
    + intros w Hw' Hdup. exists anc, x. split; [done|].
      intros fuel Hfuel.
      by apply (build_bom_tree_fuel_le (enough_fuel bom_data)).
  - split.
    + intros _. exists tree. intros fuel Hfuel.
      by apply (build_bom_tree_fuel_le (enough_fuel bom_data)).
    + intros w Hw Hdup. exfalso. apply Hdup.
      apply (build_bom_tree_Built_NoDup _ _ _ _ [] _ Hb); [apply NoDup_nil_2 | done].
Qed.

(** *** The text of the error message *)

(** A material code without a space in it. *)
Fixpoint no_space (s : string) : Prop :=
  match s with
  | EmptyString => True
  | String a s' => a ≠ Ascii.Space ∧ no_space s'
  end.

Lemma append_inj_l (p s1 s2 : string) :
  String.append p s1 = String.append p s2 → s1 = s2.
Proof.
  induction p as [|a p IH]; simpl; [done|].
  intros Heq. injection Heq as Heq. by apply IH.
Qed.

(** A code ends where the first space stands. *)
Lemma code_before_space (c d t1 t2 : string) :
  no_space c → no_space d →
  String.append c (String Ascii.Space t1)
  = String.append d (String Ascii.Space t2) →
  c = d ∧ t1 = t2.
Proof.
  revert d. induction c as [|a c IH]; intros [|b d]; simpl.
  - intros _ _ Heq. by injection Heq as ->.
  - intros _ [Hb _] Heq. injection Heq as Hb' _. by destruct Hb.
  - intros [Ha _] _ Heq. injection Heq as Ha' _. by destruct Ha.
  - intros [_ Hc] [_ Hd] Heq. injection Heq as -> Heq.
    destruct (IH d Hc Hd Heq) as [-> ->]. done.
Qed.

Lemma no_space_before_space (c t : string) :
  ¬ no_space (String.append c (String Ascii.Space t)).
Proof.
  induction c as [|a c IH]; simpl.
  - by intros [Hne _].
  - intros [_ Hc]. by apply IH.
Qed.

(** The codes joined by [' -> '] can be read back, when no code holds a
    space. *)
Lemma concat_arrow_inj (path path' : list string) :
  path ≠ [] → path' ≠ [] →
  (∀ code, code ∈ path → no_space code) →
  (∀ code, code ∈ path' → no_space code) →
  String.concat " -> " path = String.concat " -> " path' →
  path = path'.
Proof.
  revert path'. induction path as [|x xs IH]; intros [|y ys] Hne Hne' Hp Hp' Heq;
    try done.
  assert (no_space x) as Hx by apply Hp, list_elem_of_here.
  assert (no_space y) as Hy by apply Hp', list_elem_of_here.
  destruct xs as [|x' xs]; destruct ys as [|y' ys].
  - simpl in Heq. by subst.
  - exfalso. cbn [String.concat] in Heq. rewrite Heq in Hx.
    by apply (no_space_before_space y) in Hx.
  - exfalso. cbn [String.concat] in Heq. rewrite <- Heq in Hy.
    by apply (no_space_before_space x) in Hy.
  - change (String.append x (String Ascii.Space (String.append "-> "
              (String.concat " -> " (x' :: xs))))
            = String.append y (String Ascii.Space (String.append "-> "
                (String.concat " -> " (y' :: ys))))) in Heq.
    destruct (code_before_space _ _ _ _ Hx Hy Heq) as [-> Hrest].
    apply append_inj_l in Hrest.
    f_equal. apply IH; [done | done | | | done].
    + intros code Hcode. apply Hp. by apply list_elem_of_further.
    + intros code Hcode. apply Hp'. by apply list_elem_of_further.
Qed.

(** C3. When the edges reachable from the root form an acyclic graph,
    [build_bom_tree] returns a tree (with any fuel from [enough_fuel] on).
    When some path from the root revisits a material, it raises the
    circular-reference error and returns no tree. The text of the error
    is [检测到BOM循环引用: ] followed by the codes of a path of the BOM
    from the root, joined by [ -> ]: the ancestors, pairwise distinct, in
    their order, then the material that reappears among them. When no
    code holds a space the path can be read back from the text: two
    different paths never give the same message. *)
Theorem build_bom_tree_acyclic_or_circular (bom_data : list bom_row)
    (root : string) :
  (acyclic_from bom_data root →
   ∃ tree, ∀ fuel, (enough_fuel bom_data ≤ fuel)%nat →
     build_bom_tree fuel root bom_data 0 [] = Built tree) ∧
  (∀ w, walk bom_data (root :: w) → ¬ NoDup (root :: w) →
   ∃ anc x,
     revisiting_path bom_data root anc x ∧
     ∀ fuel, (enough_fuel bom_data ≤ fuel)%nat →
       build_bom_tree fuel root bom_data 0 []
       = CircularReference
           (String.append "检测到BOM循环引用: "
              (String.concat " -> " (anc ++ [x])))) ∧
  (∀ path path',
     path ≠ [] → path' ≠ [] →
     (∀ code, code ∈ path ++ path' → no_space code) →
     cycle_message path = cycle_message path' → path = path').
Proof.
  destruct (build_bom_tree_outcomes bom_data root) as [Hacyclic Hcircular].
  split_and!; [exact Hacyclic | exact Hcircular |].
  intros path path' Hne Hne' Hcodes Heq.
  apply append_inj_l in Heq.
  apply concat_arrow_inj; [done | done | | | done].
  - intros code Hcode. apply Hcodes, elem_of_app. by left.
  - intros code Hcode. apply Hcodes, elem_of_app. by right.
Qed.

(** *** The builder on two small BOMs *)

Definition bom_chain : list bom_row :=
  [BomRow "A" "B" 2; BomRow "B" "C" 3].

Definition bom_loop : list bom_row :=
  [BomRow "A" "B" 2; BomRow "B" "C" 3; BomRow "C" "A" 1].

Ltac invert_edge H :=
  let row := fresh "row" in
  let Hin := fresh "Hin" in
  let Hp := fresh "Hp" in
  let Hc := fresh "Hc" in
  destruct H as (row & Hin & Hp & Hc);
  repeat (apply elem_of_cons in Hin as [->|Hin]);
  try (by apply elem_of_nil in Hin);
  simpl in Hp, Hc; try discriminate; subst.

Ltac by_evaluation := apply (bool_decide_unpack _); vm_compute; exact I.

Lemma bom_chain_acyclic : acyclic_from bom_chain "A".
Proof.
  intros w Hw.
  inversion Hw as [|? y1 w1 He1 Hw1]; subst; [by_evaluation|].
  invert_edge He1.
  inversion Hw1 as [|? y2 w2 He2 Hw2]; subst; [by_evaluation|].
  invert_edge He2.
  inversion Hw2 as [|? y3 w3 He3 Hw3]; subst; [by_evaluation|].
  invert_edge He3.
Qed.

Lemma bom_loop_walk : walk bom_loop ["A"; "B"; "C"; "A"].
Proof.
  apply walk_step; [exists (BomRow "A" "B" 2); by split_and!; [by_evaluation|..] |].
  apply walk_step; [exists (BomRow "B" "C" 3); by split_and!; [by_evaluation|..] |].
  apply walk_step; [exists (BomRow "C" "A" 1); by split_and!; [by_evaluation|..] |].
  apply walk_one.
Qed.

Example build_bom_chain :
  build "A" bom_chain
  = Built (BomTree [("B", (2, 1, BomTree [("C", (3, 2, BomTree []))]))]).
Proof. reflexivity. Qed.

Example build_bom_loop :
  build "A" bom_loop
  = CircularReference (cycle_message ["A"; "B"; "C"; "A"]).
Proof. reflexivity. Qed.

Lemma build_bom_tree_acyclic_or_circular_witness :
  (∃ tree, ∀ fuel, (enough_fuel bom_chain ≤ fuel)%nat →
     build_bom_tree fuel "A" bom_chain 0 [] = Built tree) ∧
  (∃ anc x,
     revisiting_path bom_loop "A" anc x ∧
     ∀ fuel, (enough_fuel bom_loop ≤ fuel)%nat →
       build_bom_tree fuel "A" bom_loop 0 []
       = CircularReference
           (String.append "检测到BOM循环引用: "
              (String.concat " -> " (anc ++ [x])))) ∧
  (∀ path',
     path' ≠ [] → (∀ code, code ∈ path' → no_space code) →
     cycle_message ["A"; "B"; "C"; "A"] = cycle_message path' →
     ["A"; "B"; "C"; "A"] = path').
Proof.
  split_and!.
  - apply (proj1 (build_bom_tree_acyclic_or_circular bom_chain "A")).
    exact bom_chain_acyclic.
  - apply (proj1 (proj2 (build_bom_tree_acyclic_or_circular bom_loop "A"))
             ["B"; "C"; "A"]).
    + exact bom_loop_walk.
    + intros Hnd. apply NoDup_cons in Hnd as [Hnin _]. apply Hnin.
      by_evaluation.
  - intros path' Hne Hcodes.
    apply (proj2 (proj2 (build_bom_tree_acyclic_or_circular bom_loop "A")));
      [done | done |].
    intros code [Hcode|Hcode]%elem_of_app; [|by apply Hcodes].
    repeat (apply elem_of_cons in Hcode as [->|Hcode];
            [by repeat split|]).
    by apply elem_of_nil in Hcode.
Defined.

(** *** The entries of a tree against the rows of its parent *)

Lemma build_children_get build level rows result tree c :
  build_children build level rows result = Built tree →
  PyDict.get (entries tree) c
  = match last (filter (fun row => child_code row = c) rows) with
    | Some row =>
        match build c with
        | Built t => Some (usage row, level + 1, t)
        | _ => None
        end
    | None => PyDict.get result c
    end.
Proof.
  revert result. induction rows as [|row rows IH]; intros result Hb.
  - injection Hb as <-. done.
  - simpl in Hb. destruct (build (child_code row)) as [| |t0] eqn:Hrow;
      try discriminate.
    rewrite (IH _ Hb). rewrite filter_cons.
    destruct (decide (child_code row = c)) as [Hc|Hc].
    + rewrite last_cons.
      destruct (last (filter (fun row => child_code row = c) rows)); [done|].
      rewrite <- Hc, PyDict.get_set_eq. by rewrite Hrow.
    + destruct (last (filter (fun row => child_code row = c) rows)); [done|].
      by rewrite PyDict.get_set_ne.
Qed.

Lemma build_children_NoDup build level rows result tree :
  NoDup (PyDict.keys result) →
  build_children build level rows result = Built tree →
  NoDup (PyDict.keys (entries tree)).
Proof.
  revert result. induction rows as [|row rows IH]; intros result Hnd Hb.
  - injection Hb as <-. done.
  - simpl in Hb. destruct (build (child_code row)) as [| |t0]; try discriminate.
    eapply IH; [|exact Hb]. by apply PyDict.NoDup_keys_set.
Qed.

Lemma last_filter_None {A} (P : A → Prop) `{∀ x, Decision (P x)} (l : list A) :
  last (filter P l) = None ↔ ∀ x, x ∈ l → ¬ P x.
Proof.
  rewrite last_None. split.
  - intros Hnil x Hx HP.
    assert (x ∈ filter P l) as Hin by by apply list_elem_of_filter.
    rewrite Hnil in Hin. by apply elem_of_nil in Hin.
  - intros Hall. destruct (filter P l) as [|x l'] eqn:Hf; [done|].
    assert (x ∈ filter P l) as Hin by (rewrite Hf; apply list_elem_of_here).
    apply list_elem_of_filter in Hin as [HP Hx]. by destruct (Hall x Hx).
Qed.

Lemma last_filter_Some {A} (P : A → Prop) `{∀ x, Decision (P x)} (l : list A) x :
  last (filter P l) = Some x → P x ∧ x ∈ l.
Proof.
  intros Hlast. apply last_Some in Hlast as [l' Hl'].
  assert (x ∈ filter P l) as Hin.
  { rewrite Hl'. apply elem_of_app. right. apply list_elem_of_here. }
  by apply list_elem_of_filter in Hin.
Qed.

(** X3. The dictionary [build_bom_tree] returns for a material has one
    entry for each material that some BOM row gives it as a child, and
    for no other. The entry carries the usage of the last such row (rows
    that repeat a parent and child overwrite one another), the level of
    the call plus 1, and the tree built for the child with the material
    added to the path. *)
Theorem build_bom_tree_entries :
  ∀ fuel parent_item bom_data level path tree,
    build_bom_tree fuel parent_item bom_data level path = Built tree →
    NoDup (PyDict.keys (entries tree)) ∧
    (∀ child_item,
       child_item ∈ PyDict.keys (entries tree) ↔
       edge bom_data parent_item child_item) ∧
    (∀ child_item quantity child_level children,
       PyDict.get (entries tree) child_item
       = Some (quantity, child_level, children) →
       child_level = level + 1 ∧
       (∃ row,
          last (filter (fun row => child_code row = child_item)
                  (children_rows bom_data parent_item)) = Some row ∧
          quantity = usage row) ∧
       (∃ fuel',
          build_bom_tree fuel' child_item bom_data (level + 1)
            (path ++ [parent_item]) = Built children)).
Proof.
  intros fuel parent_item bom_data level path tree Hb.
  destruct fuel as [|fuel]; [discriminate|]. simpl in Hb.
  destruct (decide (parent_item ∈ path)); [discriminate|].
  split_and!.
  - eapply build_children_NoDup; [|exact Hb]. apply NoDup_nil_2.
  - intros c.
    pose proof (build_children_get _ _ _ _ _ c Hb) as Hget.
    destruct (last (filter (fun row => child_code row = c)
                      (children_rows bom_data parent_item)))
      as [row|] eqn:Hlast.
    + apply last_filter_Some in Hlast as [Hc Hrow].
      destruct (build_children_Built _ _ _ _ _ Hb row Hrow) as [t Ht].
      rewrite Hc in Ht. rewrite Ht in Hget.
      apply list_elem_of_filter in Hrow as [Hp Hrow]. split.
      * intros _. by exists row.
      * intros _. destruct (decide (c ∈ PyDict.keys (entries tree)))
          as [Hin|Hnin]; [done|].
        apply PyDict.get_None in Hnin. congruence.
    + simpl in Hget. apply PyDict.get_None in Hget. split; [done|].
      intros (row & Hrow & Hp & Hc). exfalso.
      apply (proj1 (last_filter_None _ _) Hlast row); [|done].
      by apply list_elem_of_filter.
  - intros c quantity child_level children Hentry.
    rewrite (build_children_get _ _ _ _ _ c Hb) in Hentry.
    destruct (last (filter (fun row => child_code row = c)
                      (children_rows bom_data parent_item)))
      as [row|] eqn:Hlast; [|discriminate].
    destruct (build_bom_tree fuel c bom_data (level + 1) (path ++ [parent_item]))
      as [| |t] eqn:Ht; try discriminate.
    injection Hentry as <- <- <-.
    split_and!; [done | by exists row | by exists fuel].
Qed.

(** Two rows for one parent and child: the usage of the second stands. *)
Definition bom_repeated : list bom_row :=
  [BomRow "P" "M" 3; BomRow "P" "S" 2; BomRow "P" "M" 4].

Lemma build_bom_tree_entries_witness :
  NoDup (PyDict.keys [("M"%string, (4, 1, BomTree [])); ("S"%string, (2, 1, BomTree []))]) ∧
  (∀ child_item,
     child_item ∈ PyDict.keys [("M"%string, (4, 1, BomTree [])); ("S"%string, (2, 1, BomTree []))] ↔
     edge bom_repeated "P" child_item) ∧
  (∀ child_item quantity child_level children,
     PyDict.get [("M"%string, (4, 1, BomTree [])); ("S"%string, (2, 1, BomTree []))] child_item
     = Some (quantity, child_level, children) →
     child_level = 0 + 1 ∧
     (∃ row,
        last (filter (fun row => child_code row = child_item)
                (children_rows bom_repeated "P")) = Some row ∧
        quantity = usage row) ∧
     (∃ fuel',
        build_bom_tree fuel' child_item bom_repeated (0 + 1) ([] ++ ["P"%string])
        = Built children)).
Proof.
  apply (build_bom_tree_entries (enough_fuel bom_repeated) "P" bom_repeated 0 []
           (BomTree [("M"%string, (4, 1, BomTree [])); ("S"%string, (2, 1, BomTree []))])).
  reflexivity.
Defined.

(** *** The two results of [build], by the graph *)

Lemma build_acyclic bom_data root :
  acyclic_from bom_data root → ∃ tree, build root bom_data = Built tree.
Proof.
  intros Hacyc. pose proof (build_total root bom_data) as Htot.
  destruct (build root bom_data) as [|msg|tree] eqn:Hb;
    [done | | by exists tree].
  exfalso. unfold build in Hb.
  destruct (build_bom_tree_Circular _ _ _ _ _ _ Hb (NoDup_nil_2))
    as (anc & x & _ & Hw & Hhd & Hnd & Hx).
  simpl in *. destruct anc as [|a anc]; [by apply elem_of_nil in Hx|].
  simpl in Hhd. injection Hhd as ->.
  pose proof (Hacyc _ Hw) as Hnd'.
  change (NoDup ((root :: anc) ++ [x])) in Hnd'.
  apply NoDup_app in Hnd' as (_ & Hdisj & _).
  apply (Hdisj x Hx). apply list_elem_of_here.
Qed.

Lemma build_revisiting bom_data root w :
  walk bom_data (root :: w) → ¬ NoDup (root :: w) →
  ∃ anc x,
    revisiting_path bom_data root anc x ∧
    build root bom_data = CircularReference (cycle_message (anc ++ [x])).
Proof.
  intros Hw Hdup. pose proof (build_total root bom_data) as Htot.
  destruct (build root bom_data) as [|msg|tree] eqn:Hb; [done | |].
  - unfold build in Hb.
    destruct (build_bom_tree_Circular _ _ _ _ _ _ Hb (NoDup_nil_2))
      as (anc & x & -> & Hw' & Hhd & Hnd & Hx).
    simpl in *. by exists anc, x.
  - exfalso. apply Hdup. unfold build in Hb.
    apply (build_bom_tree_Built_NoDup _ _ _ _ [] _ Hb); [apply NoDup_nil_2 | done].
Qed.

Lemma build_Circular_message bom_data root message :
  build root bom_data = CircularReference message →
  ∃ cycle, message = cycle_message cycle.
Proof.
  intros Hb. unfold build in Hb.
  destruct (build_bom_tree_Circular _ _ _ _ _ _ Hb (NoDup_nil_2))
    as (anc & x & -> & _).
  by eexists.
Qed.

End Bom.

(* ================================================================== *)
(** ** Demand explosion: [get_all_requirements] *)
(* ================================================================== *)

Module Explosion.
Import Bom.

(** A gross-requirement record: 物料编码, 需求数量, 需求日期, 需求级别. *)
Record requirement := Requirement {
  req_item : string;
  req_quantity : Z;
  req_date : Z;
  req_level : Z
}.

(** advanced_mrp.py, [get_all_requirements]: the date is moved back by
    the production lead time of the material itself, and the children
    start from the moved date. *)
Module Advanced.
Section explosion.
Variable production_lead_time_map : list (string * Z).

Fixpoint get_all_requirements (item : string) (quantity date : Z)
    (bom_tree_node : bom_tree) (level : Z) : list requirement :=
  match bom_tree_node with
  | BomTree entries =>
      let prod_lead_time := PyDict.get_default production_lead_time_map item 0 in
      let adjusted_date := date - prod_lead_time in
      foldl
        (fun requirements entry =>
           match entry with
           | (child_item, (child_usage, _, children)) =>
               let child_quantity := quantity * child_usage in
               let child_level := level + 1 in
               requirements ++
                 get_all_requirements child_item child_quantity adjusted_date
                   children child_level
           end)
        [Requirement item quantity adjusted_date level]
        entries
  end.

End explosion.
End Advanced.

(** app.py, [get_all_requirements]: the material itself keeps the date
    it is given, and every child is dated a week earlier. *)
Module Basic.

Fixpoint get_all_requirements (item : string) (quantity date : Z)
    (bom_tree_node : bom_tree) (level : Z) : list requirement :=
  match bom_tree_node with
  | BomTree entries =>
      foldl
        (fun requirements entry =>
           match entry with
           | (child_item, (child_usage, _, children)) =>
               let child_quantity := quantity * child_usage in
               let child_level := level + 1 in
               let child_date := date - 7 in
               requirements ++
                 get_all_requirements child_item child_quantity child_date
                   children child_level
           end)
        [Requirement item quantity date level]
        entries
  end.

End Basic.

(** *** Nodes of a tree, by their chain of edges *)

(** A node below the root is named by the edges that lead to it: the
    child code and usage of each. [chains] lists the nodes of a tree,
    the root first (the empty chain), in the order of the dictionaries. *)
Fixpoint chains (t : bom_tree) : list (list (string * Z)) :=
  match t with
  | BomTree entries =>
      [] :: flat_map
              (fun entry =>
                 match entry with
                 | (child_item, (child_usage, _, children)) =>
                     map (cons (child_item, child_usage)) (chains children)
                 end)
              entries
  end.

(** [node_at t chain]: following [chain] from the root of [t] edge by
    edge stays inside the tree. *)
Inductive node_at : bom_tree → list (string * Z) → Prop :=
| node_at_root t : node_at t []
| node_at_child entries child_item child_usage lvl children chain :
    (child_item, (child_usage, lvl, children)) ∈ entries →
    node_at children chain →
    node_at (BomTree entries) ((child_item, child_usage) :: chain).

(** The material of the node a chain ends in. *)
Definition chain_item (root_item : string) (chain : list (string * Z)) : string :=
  List.last chain.*1 root_item.

(** The product of the usages along a chain. *)
Definition usage_product (chain : list (string * Z)) : Z :=
  foldr Z.mul 1 chain.*2.

(** The production lead times of the root and of every material along a
    chain, summed; a material with no record counts 0. *)
Definition lead_time_sum (production_lead_time_map : list (string * Z))
    (root_item : string) (chain : list (string * Z)) : Z :=
  foldr Z.add 0
    ((fun m => PyDict.get_default production_lead_time_map m 0)
       <$> root_item :: chain.*1).

(** Induction on trees, the subtrees of a dictionary at once. *)
Lemma bom_tree_ind' (P : bom_tree → Prop) :
  (∀ entries, Forall (fun e => P e.2.2) entries → P (BomTree entries)) →
  ∀ t, P t.
Proof.
  intros Hstep. fix IH 1. intros [entries]. apply Hstep.
  induction entries as [|[c [[q l] ch]] entries IHentries].
  - constructor.
  - constructor; [apply IH | apply IHentries].
Qed.

Lemma foldl_extend {A B} (f : B → list A) (l : list B) (acc : list A) :
  foldl (fun requirements x => requirements ++ f x) acc l
  = acc ++ flat_map f l.
Proof.
  revert acc. induction l as [|x l IH]; intros acc; simpl.
  - by rewrite app_nil_r.
  - by rewrite IH, <- app_assoc.
Qed.

Lemma flat_map_ext_Forall {A B} (f g : A → list B) (l : list A) :
  Forall (fun x => f x = g x) l → flat_map f l = flat_map g l.
Proof. induction 1 as [|x l Hx _ IH]; simpl; [done | by rewrite Hx, IH]. Qed.

Lemma map_flat_map {A B C} (h : B → C) (f : A → list B) (l : list A) :
  map h (flat_map f l) = flat_map (fun x => map h (f x)) l.
Proof.
  induction l as [|x l IH]; simpl; [done | by rewrite map_app, IH].
Qed.

Lemma chains_node_at t chain : chain ∈ chains t ↔ node_at t chain.
Proof.
  revert chain. induction t as [entries IH] using bom_tree_ind'.
  intros chain. simpl. rewrite elem_of_cons. split.
  - intros [->|Hin]; [constructor|].
    apply list_elem_of_In, in_flat_map in Hin as ([c [[q l] ch]] & He & Hin).
    apply list_elem_of_In in He.
    apply in_map_iff in Hin as (chain' & <- & Hin).
    apply list_elem_of_In in Hin.
    econstructor; [exact He|].
    rewrite Forall_forall in IH. by apply (IH _ He).
  - intros Hn. inversion Hn as [|? c q l ch chain' He Hn']; subst; [by left|].
    right. apply list_elem_of_In, in_flat_map.
    exists (c, (q, l, ch)). split; [by apply list_elem_of_In|].
    apply in_map, list_elem_of_In.
    rewrite Forall_forall in IH. by apply (IH _ He).
Qed.

Lemma foldl_extend_by {A B} (g : list A → B → list A) (f : B → list A)
    (l : list B) (acc : list A) :
  (∀ acc x, g acc x = acc ++ f x) →
  foldl g acc l = acc ++ flat_map f l.
Proof.
  intros Hg. revert acc. induction l as [|x l IH]; intros acc; simpl.
  - by rewrite app_nil_r.
  - by rewrite IH, Hg, <- app_assoc.
Qed.

(** *** The closed form of a record *)

(** The record of the node a chain ends in, for a root [item] exploded
    with [quantity], [date] and [level] (advanced_mrp.py). *)
Definition advanced_record (production_lead_time_map : list (string * Z))
    (item : string) (quantity date level : Z) (chain : list (string * Z))
  : requirement :=
  Requirement (chain_item item chain)
    (quantity * usage_product chain)
    (date - lead_time_sum production_lead_time_map item chain)
    (level + Z.of_nat (length chain)).

(** The same for app.py: a week per edge, whatever the material. *)
Definition basic_record (item : string) (quantity date level : Z)
    (chain : list (string * Z)) : requirement :=
  Requirement (chain_item item chain)
    (quantity * usage_product chain)
    (date - 7 * Z.of_nat (length chain))
    (level + Z.of_nat (length chain)).

Lemma last_cons_default {A} (x d : A) (l : list A) :
  List.last (x :: l) d = List.last l x.
Proof.
  revert x d. induction l as [|y l IH]; intros x d; [done|].
  change (List.last (y :: l) d = List.last (y :: l) x). by rewrite !IH.
Qed.

Lemma advanced_record_cons plt item quantity date level c q chain :
  advanced_record plt item quantity date level ((c, q) :: chain)
  = advanced_record plt c (quantity * q)
      (date - PyDict.get_default plt item 0) (level + 1) chain.
Proof.
  unfold advanced_record, chain_item, usage_product, lead_time_sum.
  cbn [fmap list_fmap fst snd foldr length].
  f_equal; [apply last_cons_default | lia..].
Qed.

Lemma basic_record_cons item quantity date level c q chain :
  basic_record item quantity date level ((c, q) :: chain)
  = basic_record c (quantity * q) (date - 7) (level + 1) chain.
Proof.
  unfold basic_record, chain_item, usage_product.
  cbn [fmap list_fmap fst snd foldr length].
  f_equal; [apply last_cons_default | lia..].
Qed.

Lemma advanced_explosion plt t item quantity date level :
  Advanced.get_all_requirements plt item quantity date t level
  = map (advanced_record plt item quantity date level) (chains t).
Proof.
  revert item quantity date level.
  induction t as [entries IH] using bom_tree_ind'.
  intros item quantity date level.
  cbn [Advanced.get_all_requirements chains map].
  rewrite (foldl_extend_by _
    (fun entry => Advanced.get_all_requirements plt entry.1
                    (quantity * entry.2.1.1)
                    (date - PyDict.get_default plt item 0)
                    entry.2.2 (level + 1)));
    [|by intros acc [c [[q l] ch]]].
  simpl. f_equal.
  - unfold advanced_record, chain_item, usage_product, lead_time_sum. simpl.
    f_equal; lia.
  - rewrite map_flat_map. apply flat_map_ext_Forall.
    eapply Forall_impl; [exact IH|].
    intros [c [[q l] ch]] Hch. simpl in *. rewrite Hch, map_map.
    apply map_ext. intros chain. by rewrite advanced_record_cons.
Qed.

Lemma basic_explosion t item quantity date level :
  Basic.get_all_requirements item quantity date t level
  = map (basic_record item quantity date level) (chains t).
Proof.
  revert item quantity date level.
  induction t as [entries IH] using bom_tree_ind'.
  intros item quantity date level.
  cbn [Basic.get_all_requirements chains map].
  rewrite (foldl_extend_by _
    (fun entry => Basic.get_all_requirements entry.1
                    (quantity * entry.2.1.1) (date - 7)
                    entry.2.2 (level + 1)));
    [|by intros acc [c [[q l] ch]]].
  simpl. f_equal.
  - unfold basic_record, chain_item, usage_product. simpl. f_equal; lia.
  - rewrite map_flat_map. apply flat_map_ext_Forall.
    eapply Forall_impl; [exact IH|].
    intros [c [[q l] ch]] Hch. simpl in *. rewrite Hch, map_map.
    apply map_ext. intros chain. by rewrite basic_record_cons.
Qed.

(** *** The tree against the BOM rows *)

(** [tree_of bom_data parent level t]: every entry of [t] has its
    ['level'] one above [level], its ['quantity'] is the usage of a BOM
    row from [parent] to the child, and its ['children'] are such a tree
    for the child. *)
Fixpoint tree_of (bom_data : list bom_row) (parent : string) (level : Z)
    (t : bom_tree) : Prop :=
  match t with
  | BomTree entries =>
      foldr
        (fun entry rest =>
           match entry with
           | (child_item, (child_usage, child_level, children)) =>
               child_level = level + 1 ∧
               BomRow parent child_item child_usage ∈ bom_data ∧
               tree_of bom_data child_item (level + 1) children ∧ rest
           end)
        True entries
  end.

Lemma tree_of_entries bom_data parent level entries :
  tree_of bom_data parent level (BomTree entries) ↔
  Forall (fun e => e.2.1.2 = level + 1 ∧
                   BomRow parent e.1 e.2.1.1 ∈ bom_data ∧
                   tree_of bom_data e.1 (level + 1) e.2.2) entries.
Proof.
  induction entries as [|[c [[q l] ch]] entries IH].
  - split; [constructor | done].
  - rewrite Forall_cons. rewrite <- IH. simpl. tauto.
Qed.

Lemma build_children_Forall (P : string * (Z * Z * bom_tree) → Prop)
    build level rows result tree :
  (∀ row t, row ∈ rows → build (child_code row) = Built t →
            P (child_code row, (usage row, level + 1, t))) →
  Forall P result →
  build_children build level rows result = Built tree →
  Forall P (entries tree).
Proof.
  revert result. induction rows as [|row rows IH]; intros result HP Hres Hb.
  - injection Hb as <-. done.
  - simpl in Hb. destruct (build (child_code row)) as [| |t] eqn:Hrow;
      try discriminate.
    eapply IH; [| |exact Hb].
    + intros r t' Hr. apply HP. by apply list_elem_of_further.
    + apply PyDict.Forall_set; [done|]. apply HP; [apply list_elem_of_here|done].
Qed.

Lemma build_bom_tree_tree_of bom_data fuel parent_item level path tree :
  build_bom_tree fuel parent_item bom_data level path = Built tree →
  tree_of bom_data parent_item level tree.
Proof.
  revert parent_item level path tree.
  induction fuel as [|fuel IH]; intros parent_item level path tree Hb;
    [discriminate|].
  simpl in Hb. destruct (decide (parent_item ∈ path)); [discriminate|].
  destruct tree as [es]. apply tree_of_entries.
  apply (build_children_Forall _ _ _ _ _ _) with (3 := Hb); [|constructor].
  intros [p c u] t Hrow Ht. apply list_elem_of_filter in Hrow as [Hp Hrow].
  simpl in *. subst p. split_and!; [done | done | by eapply IH].
Qed.

(** C7. For every node of an exploded tree, at depth [k] along the
    chain of edges that leads to it, the record carries the plan
    quantity times the product of the usages along that chain and the
    level [k]: the records are those of the nodes, one each and in
    order, so a material under several parent chains has one record per
    chain. This holds for the explosion of advanced_mrp.py and for that
    of app.py. In a tree built by [build_bom_tree] from level 0 the
    usages are those of the BOM rows, and each entry's stored level is
    its parent's plus 1. *)
Theorem explosion_quantity_and_level :
  (∀ production_lead_time_map item quantity date t,
     map (fun r => (req_item r, req_quantity r, req_level r))
       (Advanced.get_all_requirements production_lead_time_map
          item quantity date t 0)
     = map (fun chain => (chain_item item chain,
                          quantity * usage_product chain,
                          Z.of_nat (length chain)))
         (chains t)) ∧
  (∀ item quantity date t,
     map (fun r => (req_item r, req_quantity r, req_level r))
       (Basic.get_all_requirements item quantity date t 0)
     = map (fun chain => (chain_item item chain,
                          quantity * usage_product chain,
                          Z.of_nat (length chain)))
         (chains t)) ∧
  (∀ t chain, chain ∈ chains t ↔ node_at t chain) ∧
  (∀ fuel product bom_data t,
     build_bom_tree fuel product bom_data 0 [] = Built t →
     tree_of bom_data product 0 t).
Proof.
  split_and!.
  - intros plt item quantity date t.
    rewrite advanced_explosion, map_map. by apply map_ext.
  - intros item quantity date t.
    rewrite basic_explosion, map_map. by apply map_ext.
  - apply chains_node_at.
  - intros fuel product bom_data t. apply build_bom_tree_tree_of.
Qed.

(** A product with a component used twice, once directly and once
    inside a subassembly: the component has a record per chain. *)
Definition bom_diamond : list bom_row :=
  [BomRow "P" "S" 2; BomRow "P" "M" 3; BomRow "S" "M" 5].

Definition tree_diamond : bom_tree :=
  BomTree [("S", (2, 1, BomTree [("M", (5, 2, BomTree []))]));
           ("M", (3, 1, BomTree []))].

Example build_bom_diamond : build "P" bom_diamond = Built tree_diamond.
Proof. reflexivity. Qed.

Example explosion_diamond :
  Advanced.get_all_requirements [("S", 4)] "P" 10 100 tree_diamond 0
  = [Requirement "P" 10 100 0; Requirement "S" 20 96 1;
     Requirement "M" 100 96 2; Requirement "M" 30 100 1].
Proof. reflexivity. Qed.

Lemma explosion_quantity_and_level_witness :
  tree_of bom_diamond "P" 0 tree_diamond.
Proof.
  apply (proj2 (proj2 (proj2 explosion_quantity_and_level))
           (enough_fuel bom_diamond) "P" bom_diamond tree_diamond).
  reflexivity.
Defined.

(** C6 (as amended). In the explosion of advanced_mrp.py the record of
    the node at the end of a chain is dated the plan date minus the sum
    of the production lead times of the root and of every material along
    the chain (0 for a material with no record), each node passing its
    own moved date to its children. The explosion of app.py has no
    lead-time table: the root keeps the plan date and a node at depth
    [k] is dated [7 * k] days before it. *)
Theorem explosion_dates :
  (∀ production_lead_time_map item quantity date t level,
     map req_date
       (Advanced.get_all_requirements production_lead_time_map
          item quantity date t level)
     = map (fun chain =>
              date - lead_time_sum production_lead_time_map item chain)
         (chains t)) ∧
  (∀ item quantity date t level,
     map req_date (Basic.get_all_requirements item quantity date t level)
     = map (fun chain => date - 7 * Z.of_nat (length chain)) (chains t)).
Proof.
  split.
  - intros plt item quantity date t level.
    rewrite advanced_explosion, map_map. by apply map_ext.
  - intros item quantity date t level.
    rewrite basic_explosion, map_map. by apply map_ext.
Qed.

(** C6 as stated fails for the explosion of app.py: with no lead-time
    record at all, every lead time counts 0 and the claimed date of each
    node is the plan date, but the child is dated a week earlier. *)
Lemma basic_explosion_dates_counterexample :
  ¬ (∀ item quantity date t,
       map req_date (Basic.get_all_requirements item quantity date t 0)
       = map (fun chain => date - lead_time_sum [] item chain) (chains t)).
Proof.
  intros H.
  specialize (H "A"%string 1 10 (BomTree [("B"%string, (1, 1, BomTree []))])).
  vm_compute in H. discriminate.
Qed.

End Explosion.

(* ================================================================== *)
(** ** Net requirements: [calculate_advanced_mrp] *)
(* ================================================================== *)

Module Netting.
Import Bom Explosion.

(** *** The input tables and the result rows *)

(** 生产计划: 产品编码, 需求数量, 需求日期. *)
Record plan_row := PlanRow {
  plan_product : string; plan_quantity : Z; plan_date : Z
}.

(** 库存: 物料编码, 库存数量, 安全库存. *)
Record inventory_row := InventoryRow {
  inv_item : string; inv_on_hand : Z; inv_safety_stock : Z
}.

(** 采购订单: 物料编码, 订单数量, 预计到货日期. *)
Record purchase_row := PurchaseRow {
  po_item : string; po_quantity : Z; po_arrival : Z
}.

(** 提前期: 物料编码, 生产提前期, 采购提前期. *)
Record lead_time_row := LeadTimeRow {
  lt_item : string; lt_production : Z; lt_purchase : Z
}.

(** 批量: 物料编码, 最小批量, 批量倍数. *)
Record lot_size_row := LotSizeRow {
  ls_item : string; ls_min_lot : Z; ls_multiple : Z
}.

(** 产能约束: 资源编码, 日期, 可用产能. *)
Record capacity_row := CapacityRow {
  cap_resource : string; cap_date : Z; cap_available : Z
}.

(** The arguments of [calculate_advanced_mrp]; [None] is Python's
    [None] of an optional table. *)
Record inputs := Inputs {
  production_plan : list plan_row;
  bom_data : list bom_row;
  inventory_data : list inventory_row;
  purchase_orders : option (list purchase_row);
  lead_times : option (list lead_time_row);
  lot_sizes : option (list lot_size_row);
  capacity_constraints : option (list capacity_row)
}.

(** A row of the result: 物料编码, 需求周期, 下单日期, 总需求量, 期初库存,
    安全库存, 采购到货, 净需求量, 期末库存, 生产提前期, 采购提前期. *)
Record mrp_result := MrpResult {
  mr_item : string;
  mr_period : Z;
  mr_order_date : Z;
  mr_gross : Z;
  mr_opening : Z;
  mr_safety_stock : Z;
  mr_receipt : Z;
  mr_net : Z;
  mr_closing : Z;
  mr_production_lead_time : Z;
  mr_purchase_lead_time : Z
}.

(** *** pandas helpers *)

Definition sum_Z (l : list Z) : Z := foldr Z.add 0 l.

(** [Series.unique()]: the values in the order they first appear. *)
Definition unique {A} `{EqDecision A} (l : list A) : list A :=
  foldl (fun seen x => if decide (x ∈ seen) then seen else seen ++ [x]) [] l.

(** [sorted(..)] of day numbers. *)
Fixpoint insert_sorted (d : Z) (l : list Z) : list Z :=
  match l with
  | [] => [d]
  | d' :: l' => if d <=? d' then d :: l else d' :: insert_sorted d l'
  end.

Definition sorted (l : list Z) : list Z := foldr insert_sorted [] l.

(** [df.groupby([key1, key2]).agg({value: 'sum'}).reset_index()]: one
    row per key pair, the pairs in ascending order, the values summed. *)
Definition key_ltb (k1 k2 : string * Z) : bool :=
  match String.compare k1.1 k2.1 with
  | Lt => true
  | Gt => false
  | Eq => k1.2 <? k2.2
  end.

Fixpoint groupby_insert (k : string * Z) (v : Z)
    (rows : list ((string * Z) * Z)) : list ((string * Z) * Z) :=
  match rows with
  | [] => [(k, v)]
  | (k', v') :: rest =>
      if decide (k = k') then (k', v' + v) :: rest
      else if key_ltb k k' then (k, v) :: (k', v') :: rest
      else (k', v') :: groupby_insert k v rest
  end.

Definition groupby_sum (rows : list ((string * Z) * Z))
  : list ((string * Z) * Z) :=
  foldl (fun acc row => groupby_insert row.1 row.2 acc) [] rows.

(** [df[df[item_col] == item]] followed by
    [rows[rows[date_col] == date][value].sum() if date in ... else 0]. *)
Definition sum_on (summary : list ((string * Z) * Z)) (item : string)
    (date : Z) : Z :=
  sum_Z (snd <$> filter (fun row => row.1 = (item, date)) summary).

(** *** Steps 2 to 10 of [calculate_advanced_mrp] *)

Section run.
Variable inp : inputs.

Definition production_lead_time_map : list (string * Z) :=
  match lead_times inp with
  | Some rows => PyDict.of_zip ((fun r => (lt_item r, lt_production r)) <$> rows)
  | None => []
  end.

Definition purchase_lead_time_map : list (string * Z) :=
  match lead_times inp with
  | Some rows => PyDict.of_zip ((fun r => (lt_item r, lt_purchase r)) <$> rows)
  | None => []
  end.

Definition min_lot_size_map : list (string * Z) :=
  match lot_sizes inp with
  | Some rows => PyDict.of_zip ((fun r => (ls_item r, ls_min_lot r)) <$> rows)
  | None => []
  end.

Definition lot_multiple_map : list (string * Z) :=
  match lot_sizes inp with
  | Some rows => PyDict.of_zip ((fun r => (ls_item r, ls_multiple r)) <$> rows)
  | None => []
  end.

(** [capacity_map[resource][date] = capacity], row after row. *)
Definition capacity_map_of (rows : list capacity_row)
  : list (string * list (Z * Z)) :=
  foldl
    (fun m row =>
       PyDict.set m (cap_resource row)
         (PyDict.set (PyDict.get_default m (cap_resource row) [])
            (cap_date row) (cap_available row)))
    [] rows.

Definition capacity_map : list (string * list (Z * Z)) :=
  match capacity_constraints inp with
  | Some rows => capacity_map_of rows
  | None => []
  end.

(** Step 7: a tree per product of the plan; the first failure ends it. *)
Fixpoint build_bom_trees (products : list string)
    (bom_trees : list (string * bom_tree))
  : build_result + list (string * bom_tree) :=
  match products with
  | [] => inr bom_trees
  | product :: rest =>
      match build product (bom_data inp) with
      | Built t => build_bom_trees rest (PyDict.set bom_trees product t)
      | failure => inl failure
      end
  end.

(** Step 8: the gross requirements of every plan line. *)
Definition all_requirements (bom_trees : list (string * bom_tree))
  : list requirement :=
  flat_map
    (fun row =>
       Advanced.get_all_requirements production_lead_time_map
         (plan_product row) (plan_quantity row) (plan_date row)
         (PyDict.get_default bom_trees (plan_product row) (BomTree [])) 0)
    (production_plan inp).

(** Step 9. *)
Definition gross_requirements_summary (reqs : list requirement)
  : list ((string * Z) * Z) :=
  groupby_sum ((fun r => ((req_item r, req_date r), req_quantity r)) <$> reqs).

(** Step 10. *)
Definition inventory_map : list (string * Z) :=
  PyDict.of_zip ((fun r => (inv_item r, inv_on_hand r)) <$> inventory_data inp).

Definition safety_stock_map : list (string * Z) :=
  PyDict.of_zip ((fun r => (inv_item r, inv_safety_stock r)) <$> inventory_data inp).

Definition po_summary : list ((string * Z) * Z) :=
  match purchase_orders inp with
  | Some (row :: rows) =>
      groupby_sum ((fun r => ((po_item r, po_arrival r), po_quantity r))
                     <$> row :: rows)
  | _ => []
  end.

End run.

(** *** Step 11: the program handed to the solver, per material *)

(** What the solver call of one material depends on: [all_dates], the
    demand and the receipt of each date, the stock figures, the lot-size
    rule and the capacity map. *)
Record problem := Problem {
  pb_dates : list Z;
  pb_demand : Z → Z;
  pb_receipt : Z → Z;
  pb_inventory : Z;
  pb_safety_stock : Z;
  pb_min_lot : Z;
  pb_multiple : Z;
  pb_capacity_map : list (string * list (Z * Z))
}.

(** The [大M] constant of [solver.Add(net <= is_produced * 999999)]. *)
Definition big_M : Z := 999999.

(** A candidate solution gives each variable [net_requirements[date]]
    its value. The variables are [IntVar]s for a material with a
    lot-size rule and [NumVar]s for one without; here every value is an
    integer, as the quantities of the tables are. [Numeric] takes the
    values as the float64 numbers [SolutionValue()] gives. *)
Definition solution := Z → Z.

(** The constraints added inside the loop over the dates, but the
    inventory one: the variable's lower bound 0, the two [is_produced]
    constraints and, for a multiple above 1, the [lot_multiplier] one.
    [is_produced] and [lot_multiplier] are variables of the solver. *)
Definition lot_constraints (P : problem) (x : solution) (date : Z) : Prop :=
  0 ≤ x date ∧
  (∃ is_produced : Z,
     0 ≤ is_produced ≤ 1 ∧
     x date ≤ is_produced * big_M ∧
     is_produced * pb_min_lot P ≤ x date) ∧
  (1 < pb_multiple P →
   ∃ lot_multiplier : Z, 0 ≤ lot_multiplier ∧
     x date = lot_multiplier * pb_multiple P).

(** [inventory_level += po_on_date + net_requirements[date] - demand_on_date;
     solver.Add(inventory_level >= safety_stock)], date after date. *)
Fixpoint inventory_constraints (P : problem) (x : solution)
    (inventory_level : Z) (dates : list Z) : Prop :=
  match dates with
  | [] => True
  | date :: rest =>
      let inventory_level' :=
        inventory_level + pb_receipt P date + x date - pb_demand P date in
      pb_safety_stock P ≤ inventory_level' ∧
      inventory_constraints P x inventory_level' rest
  end.

(** [for resource, date_capacity in capacity_map.items():
       for date, capacity in date_capacity.items():
         if date in all_dates: solver.Add(net_requirements[date] <= capacity)] *)
Definition capacity_constraints_hold (P : problem) (x : solution) : Prop :=
  ∀ resource date_capacity date capacity,
    (resource, date_capacity) ∈ pb_capacity_map P →
    (date, capacity) ∈ date_capacity →
    date ∈ pb_dates P →
    x date ≤ capacity.

Definition feasible (P : problem) (x : solution) : Prop :=
  (∀ date, date ∈ pb_dates P → lot_constraints P x date) ∧
  inventory_constraints P x (pb_inventory P) (pb_dates P) ∧
  capacity_constraints_hold P x.

(** The objective: every [net_requirements[date]] with coefficient 1. *)
Definition objective (P : problem) (x : solution) : Z :=
  sum_Z (x <$> pb_dates P).

Definition optimal (P : problem) (x : solution) : Prop :=
  feasible P x ∧ ∀ y, feasible P y → objective P x ≤ objective P y.

(** [solver.Solve()] is OR-Tools': the model takes its contract, that it
    answers [OPTIMAL] with an optimal solution, whichever, when the
    program has one, and answers otherwise ([INFEASIBLE] stands for
    every status but [OPTIMAL]) when the program has no feasible point.
    Time limits and numerical tolerances are left out; for an answer
    within a tolerance see [Numeric.Solve_within]. *)
Inductive solve_status :=
| OPTIMAL (x : solution)
| INFEASIBLE.

Definition Solve (P : problem) (status : solve_status) : Prop :=
  match status with
  | OPTIMAL x => optimal P x
  | INFEASIBLE => ∀ x, ¬ feasible P x
  end.

(** *** The result loop of one material *)

Section item.
Variables (item : string) (production_lead_time purchase_lead_time : Z).
Variable P : problem.

Fixpoint result_rows (x : solution) (projected_inventory : Z)
    (dates : list Z) : list mrp_result :=
  match dates with
  | [] => []
  | date :: rest =>
      let date_req := pb_demand P date in
      let date_po := pb_receipt P date in
      let net_req := x date in
      let order_date := date - purchase_lead_time in
      let closing := projected_inventory + date_po + net_req - date_req in
      (if 0 <? net_req
       then [MrpResult item date order_date date_req projected_inventory
               (pb_safety_stock P) date_po net_req closing
               production_lead_time purchase_lead_time]
       else [])
      ++ result_rows x closing rest
  end.

(** The projected inventory after each date. *)
Fixpoint projected_inventories (x : solution) (projected_inventory : Z)
    (dates : list Z) : list Z :=
  match dates with
  | [] => []
  | date :: rest =>
      let closing :=
        projected_inventory + pb_receipt P date + x date - pb_demand P date in
      closing :: projected_inventories x closing rest
  end.

End item.

(** *** The whole function *)

(** [raise ValueError(f"无法为物料 {item} 找到最优解")] *)
Definition no_optimum_message (item : string) : string :=
  String.append "无法为物料 " (String.append item " 找到最优解").

(** The [KeyError] of [groupby] on a frame built from no record. *)
Definition key_error_message : string := "'物料编码'".

Inductive outcome :=
| Raised (message : string)
| Returned (mrp_results : list mrp_result).

Section run.
Variable inp : inputs.
Variable summary : list ((string * Z) * Z).

Definition all_items : list string := unique (summary.*1.*1).
Definition all_dates : list Z := sorted (unique (summary.*1.*2)).

Definition item_problem (item : string) : problem :=
  Problem all_dates
    (sum_on summary item)
    (sum_on (po_summary inp) item)
    (PyDict.get_default (inventory_map inp) item 0)
    (PyDict.get_default (safety_stock_map inp) item 0)
    (PyDict.get_default (min_lot_size_map inp) item 0)
    (PyDict.get_default (lot_multiple_map inp) item 1)
    (capacity_map inp).

Definition item_rows (item : string) (x : solution) : list mrp_result :=
  result_rows item
    (PyDict.get_default (production_lead_time_map inp) item 0)
    (PyDict.get_default (purchase_lead_time_map inp) item 0)
    (item_problem item) x
    (pb_inventory (item_problem item)) all_dates.

(** [for item in all_items]: a solver call each; the first material
    without an optimal solution ends the run. *)
Inductive netting_loop : list string → list mrp_result → outcome → Prop :=
| loop_done mrp_results :
    netting_loop [] mrp_results (Returned mrp_results)
| loop_optimal item items mrp_results x out :
    Solve (item_problem item) (OPTIMAL x) →
    netting_loop items (mrp_results ++ item_rows item x) out →
    netting_loop (item :: items) mrp_results out
| loop_infeasible item items mrp_results :
    Solve (item_problem item) INFEASIBLE →
    netting_loop (item :: items) mrp_results
      (Raised (no_optimum_message item)).

End run.

(** advanced_mrp.py, [calculate_advanced_mrp], as the relation between
    the arguments and what a call may end in. *)
Inductive calculate_advanced_mrp (inp : inputs) : outcome → Prop :=
| mrp_circular message :
    build_bom_trees inp (unique (plan_product <$> production_plan inp)) []
    = inl (CircularReference message) →
    calculate_advanced_mrp inp (Raised message)
| mrp_no_requirement bom_trees :
    build_bom_trees inp (unique (plan_product <$> production_plan inp)) []
    = inr bom_trees →
    all_requirements inp bom_trees = [] →
    calculate_advanced_mrp inp (Raised key_error_message)
| mrp_netting bom_trees out :
    build_bom_trees inp (unique (plan_product <$> production_plan inp)) []
    = inr bom_trees →
    all_requirements inp bom_trees ≠ [] →
    netting_loop inp
      (gross_requirements_summary (all_requirements inp bom_trees))
      (all_items (gross_requirements_summary (all_requirements inp bom_trees)))
      [] out →
    calculate_advanced_mrp inp out.

(** *** A call always ends in an outcome *)

Lemma sum_Z_nonneg (l : list Z) : Forall (fun z => 0 ≤ z) l → 0 ≤ sum_Z l.
Proof.
  induction 1 as [|z l Hz _ IH]; [done|].
  change (0 ≤ z + sum_Z l). lia.
Qed.

Lemma objective_nonneg P x : feasible P x → 0 ≤ objective P x.
Proof.
  intros (Hlot & _ & _). apply sum_Z_nonneg, Forall_fmap, Forall_forall.
  intros date Hdate. by destruct (Hlot date Hdate) as (Hx & _).
Qed.

(** The two answers of the solver cover every program: a minimum of the
    objective exists once a feasible point does, the objective being an
    integer that is never negative. *)
Lemma Solve_total P : (∃ x, Solve P (OPTIMAL x)) ∨ Solve P INFEASIBLE.
Proof.
  destruct (classic (∃ x, feasible P x)) as [[x0 H0]|Hnone].
  - left.
    assert (∀ (n : nat) x,
              feasible P x → objective P x ≤ Z.of_nat n → ∃ y, optimal P y)
      as Hdescent.
    { induction n as [|n IH]; intros x Hx Hobj.
      - exists x. split; [done|]. intros y Hy.
        pose proof (objective_nonneg P y Hy). lia.
      - destruct (classic (∃ y, feasible P y ∧ objective P y ≤ Z.of_nat n))
          as [(y & Hy & Hle)|Hno]; [by apply (IH y)|].
        exists x. split; [done|]. intros y Hy.
        destruct (Z.le_gt_cases (objective P x) (objective P y)); [done|].
        exfalso. apply Hno. exists y. split; [done | lia]. }
    apply (Hdescent (Z.to_nat (objective P x0)) x0 H0).
    pose proof (objective_nonneg P x0 H0). lia.
  - right. intros x Hx. apply Hnone. by exists x.
Qed.

Lemma netting_loop_total inp summary items mrp_results :
  ∃ out, netting_loop inp summary items mrp_results out.
Proof.
  revert mrp_results. induction items as [|item items IH]; intros mrp_results.
  - eexists. constructor.
  - destruct (Solve_total (item_problem inp summary item)) as [[x Hx]|Hnone].
    + destruct (IH (mrp_results ++ item_rows inp summary item x)) as [out Hout].
      exists out. by apply (loop_optimal _ _ _ _ _ x).
    + eexists. by apply loop_infeasible.
Qed.

Lemma build_bom_trees_failure inp products bom_trees failure :
  build_bom_trees inp products bom_trees = inl failure →
  ∃ message, failure = CircularReference message.
Proof.
  revert bom_trees. induction products as [|product rest IH]; intros bom_trees;
    simpl; [discriminate|].
  pose proof (build_total product (bom_data inp)) as Htotal.
  destruct (build product (bom_data inp)) as [|message|t]; [done | | apply IH].
  intros [= <-]. by exists message.
Qed.

Lemma calculate_advanced_mrp_total inp : ∃ out, calculate_advanced_mrp inp out.
Proof.
  destruct (build_bom_trees inp (unique (plan_product <$> production_plan inp)) [])
    as [failure|bom_trees] eqn:Hbuild.
  - destruct (build_bom_trees_failure _ _ _ _ Hbuild) as [message ->].
    eexists. by apply mrp_circular.
  - destruct (decide (all_requirements inp bom_trees = [])) as [Hnone|Hsome].
    + eexists. by apply (mrp_no_requirement _ bom_trees).
    + destruct (netting_loop_total inp
                  (gross_requirements_summary (all_requirements inp bom_trees))
                  (all_items (gross_requirements_summary
                                (all_requirements inp bom_trees))) [])
        as [out Hout].
      exists out. by apply (mrp_netting _ bom_trees).
Qed.

(** *** Every row balances and stays above the safety stock *)

(** What C4 asks of a row. *)
Definition row_consistent (r : mrp_result) : Prop :=
  mr_closing r = mr_opening r + mr_receipt r + mr_net r - mr_gross r ∧
  mr_safety_stock r ≤ mr_closing r.

Lemma inventory_constraints_projected P x inventory_level dates :
  inventory_constraints P x inventory_level dates ↔
  Forall (fun v => pb_safety_stock P ≤ v)
    (projected_inventories P x inventory_level dates).
Proof.
  revert inventory_level. induction dates as [|date rest IH];
    intros inventory_level; simpl.
  - split; [constructor | done].
  - rewrite Forall_cons, IH. done.
Qed.

Lemma result_rows_consistent item plt pult P x inventory_level dates :
  inventory_constraints P x inventory_level dates →
  Forall row_consistent (result_rows item plt pult P x inventory_level dates).
Proof.
  revert inventory_level. induction dates as [|date rest IH];
    intros inventory_level; simpl; [constructor|].
  intros [Hss Hrest]. apply Forall_app. split; [|by apply IH].
  destruct (0 <? x date); constructor; [|constructor].
  split; simpl; [lia | done].
Qed.

Lemma netting_loop_Forall (Q : mrp_result → Prop) inp summary items acc rows :
  (∀ item x, item ∈ items → Solve (item_problem inp summary item) (OPTIMAL x) →
             Forall Q (item_rows inp summary item x)) →
  Forall Q acc →
  netting_loop inp summary items acc (Returned rows) →
  Forall Q rows.
Proof.
  intros Hitem Hacc Hloop. remember (Returned rows) as out eqn:Hout.
  induction Hloop as [acc | item items acc x out Hsolve Hloop IH | ];
    [by injection Hout as -> | | discriminate].
  apply IH; [|apply Forall_app; split |done].
  - intros i y Hi. apply Hitem. by apply list_elem_of_further.
  - done.
  - apply Hitem; [apply list_elem_of_here | done].
Qed.

(** *** The end-to-end example of the specification *)

(** Material M: 20 on hand, safety stock 10, a demand of 25 on day 5,
    no receipt, no lot-size rule. *)
Definition example_inputs : inputs :=
  Inputs [PlanRow "M" 25 5] [] [InventoryRow "M" 20 10] None None None None.

Definition example_summary : list ((string * Z) * Z) := [(("M"%string, 5), 25)].

Definition example_solution : solution := fun date => if date =? 5 then 15 else 0.

Definition example_rows : list mrp_result :=
  [MrpResult "M" 5 5 25 20 10 0 15 10 0 0].

Lemma netting_loop_end inp summary acc rows :
  acc = rows → netting_loop inp summary [] acc (Returned rows).
Proof. intros ->. constructor. Qed.

Lemma example_optimal :
  Solve (item_problem example_inputs example_summary "M")
    (OPTIMAL example_solution).
Proof.
  set (P := item_problem example_inputs example_summary "M").
  assert (pb_dates P = [5]) as Hdates by reflexivity.
  assert (pb_demand P 5 = 25) as Hdemand by reflexivity.
  assert (pb_receipt P 5 = 0) as Hreceipt by reflexivity.
  assert (pb_inventory P = 20) as Hinventory by reflexivity.
  assert (pb_safety_stock P = 10) as Hsafety by reflexivity.
  assert (pb_min_lot P = 0) as Hmin by reflexivity.
  assert (pb_multiple P = 1) as Hmult by reflexivity.
  assert (pb_capacity_map P = []) as Hcap by reflexivity.
  assert (example_solution 5 = 15) as Hx by reflexivity.
  clearbody P. split.
  - split_and!.
    + intros date Hdate. rewrite Hdates in Hdate.
      apply list_elem_of_singleton in Hdate as ->.
      unfold lot_constraints, big_M. rewrite Hx, Hmin, Hmult.
      split_and!; [lia | exists 1; lia | lia].
    + rewrite Hdates. cbn [inventory_constraints].
      rewrite Hdemand, Hreceipt, Hinventory, Hsafety, Hx. lia.
    + intros resource date_capacity date capacity Hin.
      rewrite Hcap in Hin. by apply elem_of_nil in Hin.
  - intros y (_ & Hinv & _). unfold objective.
    rewrite Hdates in *. cbn [inventory_constraints] in Hinv.
    rewrite Hdemand, Hreceipt, Hinventory, Hsafety in Hinv.
    cbn [fmap list_fmap sum_Z foldr]. lia.
Qed.

Lemma example_run :
  calculate_advanced_mrp example_inputs (Returned example_rows).
Proof.
  apply (mrp_netting _ [("M"%string, BomTree [])]); [done | done |].
  change (netting_loop example_inputs example_summary ["M"%string] []
            (Returned example_rows)).
  apply (loop_optimal _ _ _ _ _ example_solution); [apply example_optimal|].
  by apply netting_loop_end.
Qed.

(** *** Only the values at the dates of the run matter *)

Lemma inventory_constraints_ext P x y inventory_level dates :
  (∀ date, date ∈ dates → x date = y date) →
  inventory_constraints P x inventory_level dates ↔
  inventory_constraints P y inventory_level dates.
Proof.
  revert inventory_level. induction dates as [|date rest IH];
    intros inventory_level Hxy; simpl; [done|].
  rewrite (Hxy date) by apply list_elem_of_here.
  rewrite IH; [done|]. intros d Hd. apply Hxy. by apply list_elem_of_further.
Qed.

Lemma result_rows_ext item plt pult P x y inventory_level dates :
  (∀ date, date ∈ dates → x date = y date) →
  result_rows item plt pult P x inventory_level dates
  = result_rows item plt pult P y inventory_level dates.
Proof.
  revert inventory_level. induction dates as [|date rest IH];
    intros inventory_level Hxy; simpl; [done|].
  rewrite (Hxy date) by apply list_elem_of_here.
  rewrite IH; [done|]. intros d Hd. apply Hxy. by apply list_elem_of_further.
Qed.

Lemma objective_ext P x y :
  (∀ date, date ∈ pb_dates P → x date = y date) →
  objective P x = objective P y.
Proof.
  intros Hxy. unfold objective. f_equal.
  apply Forall_fmap_ext, Forall_forall. exact Hxy.
Qed.

(** A run with one material whose program has a feasible point, and
    whose optimal solutions all give the same rows, can end in one way
    only. *)
Lemma single_item_outcome inp summary item x0 rows :
  feasible (item_problem inp summary item) x0 →
  (∀ x, optimal (item_problem inp summary item) x →
        item_rows inp summary item x = rows) →
  ∀ out, netting_loop inp summary [item] [] out → out = Returned rows.
Proof.
  intros Hfeas Hrows out Hloop.
  inversion Hloop as [|? ? ? x ? Hsolve Hrest|? ? ? Hsolve]; subst.
  - inversion Hrest; subst. simpl. f_equal. by apply Hrows.
  - exfalso. by apply (Hsolve x0).
Qed.

Lemma run_outcome inp bom_trees (Q : outcome → Prop) :
  build_bom_trees inp (unique (plan_product <$> production_plan inp)) []
  = inr bom_trees →
  all_requirements inp bom_trees ≠ [] →
  (∀ out,
     netting_loop inp
       (gross_requirements_summary (all_requirements inp bom_trees))
       (all_items (gross_requirements_summary
                     (all_requirements inp bom_trees)))
       [] out → Q out) →
  ∀ out, calculate_advanced_mrp inp out → Q out.
Proof.
  intros Hb Hne HQ out Hrun.
  inversion Hrun as [msg Hb'|trees Hb' He|trees ? Hb' Hne' Hloop]; subst.
  - congruence.
  - rewrite Hb in Hb'. injection Hb' as <-. done.
  - rewrite Hb in Hb'. injection Hb' as <-. by apply HQ.
Qed.

(** *** The forward pass of the specification *)

(** Written from the specification's section 4.4, to be compared with
    the solver call above. *)
Module Greedy.

(** [lot_size(raw, minLot, multiple)]: 0 for [raw ≤ 0]; else
    [base = max(raw, minLot)], rounded up to the next multiple of
    [multiple] when that is above 1. *)
Definition lot_size (raw minLot multiple : Z) : Z :=
  if raw <=? 0 then 0
  else
    let base := Z.max raw minLot in
    if 1 <? multiple
    then (base + multiple - 1) `div` multiple * multiple
    else base.

(** The pass over the sorted periods of a material: the net quantity of
    each period, the running inventory starting from the stock on hand. *)
Fixpoint greedy_pass (demand receipt : Z → Z)
    (safety_stock min_lot lot_multiple : Z)
    (running_inventory : Z) (periods : list Z) : list (Z * Z) :=
  match periods with
  | [] => []
  | t :: rest =>
      let demand_t := demand t in
      let receipt_t := receipt t in
      let raw_need :=
        Z.max 0 (safety_stock + demand_t - receipt_t - running_inventory) in
      let net_t := lot_size raw_need min_lot lot_multiple in
      (t, net_t)
      :: greedy_pass demand receipt safety_stock min_lot lot_multiple
           (running_inventory + receipt_t + net_t - demand_t) rest
  end.

(** A row is emitted iff its net quantity is positive. *)
Definition emitted (nets : list (Z * Z)) : list (Z * Z) :=
  filter (fun tn => 0 < tn.2) nets.

Section material.
Variable inp : inputs.
Variable summary : list ((string * Z) * Z).

(** The period list of a material: the dates on which it has
    aggregated demand or a scheduled receipt, sorted ascending. *)
Definition periods (item : string) : list Z :=
  sorted (unique
    ((snd ∘ fst <$> filter (fun row => row.1.1 = item) summary) ++
     (snd ∘ fst <$> filter (fun row => row.1.1 = item) (po_summary inp)))).

Definition material_nets (item : string) : list (Z * Z) :=
  greedy_pass (sum_on summary item) (sum_on (po_summary inp) item)
    (PyDict.get_default (safety_stock_map inp) item 0)
    (PyDict.get_default (min_lot_size_map inp) item 0)
    (PyDict.get_default (lot_multiple_map inp) item 1)
    (PyDict.get_default (inventory_map inp) item 0)
    (periods item).

(** Material, period and net quantity of every row the pass emits. *)
Definition net_rows : list (string * Z * Z) :=
  flat_map
    (fun item => (fun tn => (item, tn.1, tn.2)) <$> emitted (material_nets item))
    (all_items summary).

End material.

End Greedy.

(** The aggregated gross requirements of a run (steps 7 to 9). *)
Definition planned_summary (inp : inputs) : list ((string * Z) * Z) :=
  match build_bom_trees inp (unique (plan_product <$> production_plan inp)) [] with
  | inr bom_trees => gross_requirements_summary (all_requirements inp bom_trees)
  | inl _ => []
  end.

(** Material, period and net quantity of the rows of a result. *)
Definition net_quantities (rows : list mrp_result) : list (string * Z * Z) :=
  (fun r => (mr_item r, mr_period r, mr_net r)) <$> rows.

(** *** The constraints of one date, solved for [is_produced] *)

Lemma lot_constraints_iff P x date :
  lot_constraints P x date ↔
  0 ≤ x date ∧
  (x date = 0 ∨ (x date ≤ big_M ∧ pb_min_lot P ≤ x date)) ∧
  (1 < pb_multiple P →
   ∃ lot_multiplier, 0 ≤ lot_multiplier ∧ x date = lot_multiplier * pb_multiple P).
Proof.
  unfold lot_constraints. split.
  - intros (Hx & (b & Hb & Hup & Hlow) & Hm). split_and!; [done | | done].
    assert (b = 0 ∨ b = 1) as [-> | ->] by lia; [left; lia | right; lia].
  - intros (Hx & [H0 | [Hup Hlow]] & Hm); split_and!; try done.
    + exists 0. lia.
    + exists 1. lia.
Qed.

(** *** A material with a minimum lot *)

(** Material M: nothing on hand, no safety stock, a demand of 1 on day 1
    and of 10 on day 2, minimum lot 10, lot multiple 1; the capacity
    table is left open. *)
Definition lot_inputs (capacity : option (list capacity_row)) : inputs :=
  Inputs [PlanRow "M" 1 1; PlanRow "M" 10 2] [] [InventoryRow "M" 0 0]
    None None (Some [LotSizeRow "M" 10 1]) capacity.

Definition lot_summary : list ((string * Z) * Z) :=
  [(("M"%string, 1), 1); (("M"%string, 2), 10)].

Definition lot_problem (capacity : option (list capacity_row)) : problem :=
  item_problem (lot_inputs capacity) lot_summary "M".

Lemma lot_problem_feasible capacity x :
  feasible (lot_problem capacity) x ↔
  (0 ≤ x 1 ∧ (x 1 = 0 ∨ (x 1 ≤ big_M ∧ 10 ≤ x 1))) ∧
  (0 ≤ x 2 ∧ (x 2 = 0 ∨ (x 2 ≤ big_M ∧ 10 ≤ x 2))) ∧
  1 ≤ x 1 ∧ 11 ≤ x 1 + x 2 ∧
  capacity_constraints_hold (lot_problem capacity) x.
Proof.
  set (P := lot_problem capacity).
  assert (pb_dates P = [1; 2]) as Hdates by reflexivity.
  assert (pb_demand P 1 = 1) as Hd1 by reflexivity.
  assert (pb_demand P 2 = 10) as Hd2 by reflexivity.
  assert (pb_receipt P 1 = 0) as Hr1 by reflexivity.
  assert (pb_receipt P 2 = 0) as Hr2 by reflexivity.
  assert (pb_inventory P = 0) as Hinventory by reflexivity.
  assert (pb_safety_stock P = 0) as Hsafety by reflexivity.
  assert (pb_min_lot P = 10) as Hmin by reflexivity.
  assert (pb_multiple P = 1) as Hmult by reflexivity.
  clearbody P. unfold feasible. rewrite Hdates.
  cbn [inventory_constraints].
  rewrite Hd1, Hd2, Hr1, Hr2, Hinventory, Hsafety.
  assert (∀ date, lot_constraints P x date ↔
            0 ≤ x date ∧ (x date = 0 ∨ (x date ≤ big_M ∧ 10 ≤ x date))) as Hlot.
  { intros date. rewrite lot_constraints_iff, Hmin, Hmult.
    split; [tauto | intros [? ?]; split_and!; [done | done | lia]]. }
  split.
  - intros (Hl & Hinv & Hcap).
    assert (1 ∈ [1; 2]) as Hin1 by apply list_elem_of_here.
    assert (2 ∈ [1; 2]) as Hin2
      by apply list_elem_of_further, list_elem_of_here.
    apply Hl, Hlot in Hin1. apply Hl, Hlot in Hin2.
    split; [done|]. split; [done|]. split; [lia|]. split; [lia|done].
  - intros (H1 & H2 & Hi1 & Hi2 & Hcap).
    split; [|split; [lia|done]].
    intros date Hdate. apply Hlot.
    apply elem_of_cons in Hdate as [->|Hdate]; [done|].
    apply list_elem_of_singleton in Hdate as ->. done.
Qed.

Lemma lot_problem_objective capacity x :
  objective (lot_problem capacity) x = x 1 + x 2.
Proof. unfold objective. change (pb_dates _) with [1; 2]. simpl. lia. Qed.

(** Without a capacity table the program has one optimum: 11 on day 1
    and nothing on day 2. *)
Definition lot_solution : solution := fun date => if date =? 1 then 11 else 0.

Lemma lot_capacity_none x : capacity_constraints_hold (lot_problem None) x.
Proof. intros resource date_capacity date capacity Hin. by apply elem_of_nil in Hin. Qed.

Lemma lot_optimal_none x :
  optimal (lot_problem None) x ↔ x 1 = 11 ∧ x 2 = 0.
Proof.
  unfold optimal. split.
  - intros [Hfeas Hopt].
    apply lot_problem_feasible in Hfeas as (H1 & H2 & Hi1 & Hi2 & _).
    assert (feasible (lot_problem None) lot_solution) as Hfeas0.
    { apply lot_problem_feasible. unfold big_M.
      change (lot_solution 1) with 11. change (lot_solution 2) with 0.
      split_and!; [lia.. | apply lot_capacity_none]. }
    specialize (Hopt _ Hfeas0). rewrite !lot_problem_objective in Hopt.
    change (lot_solution 1) with 11 in Hopt.
    change (lot_solution 2) with 0 in Hopt. lia.
  - intros [Hx1 Hx2]. split.
    + apply lot_problem_feasible. rewrite Hx1, Hx2. unfold big_M.
      split_and!; [lia.. | apply lot_capacity_none].
    + intros y Hfeas.
      apply lot_problem_feasible in Hfeas as (H1 & H2 & Hi1 & Hi2 & _).
      rewrite !lot_problem_objective. lia.
Qed.

Definition lot_rows : list mrp_result :=
  [MrpResult "M" 1 1 1 0 0 0 11 10 0 0].

Lemma lot_item_rows_none x :
  optimal (lot_problem None) x →
  item_rows (lot_inputs None) lot_summary "M" x = lot_rows.
Proof.
  intros [Hx1 Hx2]%lot_optimal_none.
  transitivity (item_rows (lot_inputs None) lot_summary "M" lot_solution);
    [|reflexivity].
  apply result_rows_ext. intros date Hdate.
  change (all_dates lot_summary) with [1; 2] in Hdate.
  apply elem_of_cons in Hdate as [->|Hdate]; [done|].
  apply list_elem_of_singleton in Hdate as ->. done.
Qed.

(** So the run can end in one way only. *)
Lemma lot_run_none out :
  calculate_advanced_mrp (lot_inputs None) out ↔ out = Returned lot_rows.
Proof.
  split.
  - revert out.
    apply (run_outcome _ [("M"%string, BomTree [])]); [done | done |].
    apply (single_item_outcome _ _ _ lot_solution).
    + by apply lot_optimal_none.
    + apply lot_item_rows_none.
  - intros ->.
    apply (mrp_netting _ [("M"%string, BomTree [])]); [done | done |].
    change (netting_loop (lot_inputs None) lot_summary ["M"%string] []
              (Returned lot_rows)).
    apply (loop_optimal _ _ _ _ _ lot_solution); [by apply lot_optimal_none|].
    by apply netting_loop_end.
Qed.

(** C1 as stated fails: for the material with a minimum lot the run
    can only return the one row of 11 on day 1, while the forward pass
    of the specification orders a lot of 10 on day 1 and another on
    day 2. *)
Lemma solver_is_not_greedy_counterexample :
  (∀ out, calculate_advanced_mrp (lot_inputs None) out ↔
          out = Returned lot_rows) ∧
  net_quantities lot_rows = [("M"%string, 1, 11)] ∧
  Greedy.net_rows (lot_inputs None) (planned_summary (lot_inputs None))
  = [("M"%string, 1, 10); ("M"%string, 2, 10)] ∧
  net_quantities lot_rows
  ≠ Greedy.net_rows (lot_inputs None) (planned_summary (lot_inputs None)).
Proof.
  split_and!; [apply lot_run_none | reflexivity | reflexivity | discriminate].
Qed.

(** *** The dates of a run are pairwise distinct *)

Lemma NoDup_unique {A} `{EqDecision A} (l : list A) : NoDup (unique l).
Proof.
  unfold unique.
  assert (∀ seen, NoDup seen →
    NoDup (foldl (fun seen x => if decide (x ∈ seen) then seen else seen ++ [x])
             seen l)) as Hgen.
  { induction l as [|x l IH]; intros seen Hseen; simpl; [done|].
    apply IH. case_decide; [done|].
    apply NoDup_app. split_and!; [done | | apply NoDup_singleton].
    intros y Hy Hy'. apply list_elem_of_singleton in Hy' as ->. done. }
  apply Hgen, NoDup_nil_2.
Qed.

Lemma insert_sorted_Permutation d l : insert_sorted d l ≡ₚ d :: l.
Proof.
  induction l as [|d' l IH]; simpl; [done|].
  destruct (d <=? d'); [done|]. rewrite IH. apply Permutation_swap.
Qed.

Lemma sorted_Permutation l : sorted l ≡ₚ l.
Proof.
  induction l as [|d l IH]; simpl; [done|].
  by rewrite insert_sorted_Permutation, IH.
Qed.

Lemma NoDup_all_dates summary : NoDup (all_dates summary).
Proof. unfold all_dates. rewrite sorted_Permutation. apply NoDup_unique. Qed.

(** *** The forward pass over the dates of the run *)

(** The pass of the specification run over the dates of the program,
    with the demand, the receipts and the stock figures of the program. *)
Definition greedy_nets_from (P : problem) (running_inventory : Z)
    (dates : list Z) : list (Z * Z) :=
  Greedy.greedy_pass (pb_demand P) (pb_receipt P) (pb_safety_stock P)
    (pb_min_lot P) (pb_multiple P) running_inventory dates.

Definition greedy_nets (P : problem) : list (Z * Z) :=
  greedy_nets_from P (pb_inventory P) (pb_dates P).

(** The quantities of the pass as values of the solver's variables. *)
Definition greedy_solution (P : problem) : solution :=
  fun date => PyDict.get_default (greedy_nets P) date 0.

Lemma lot_size_plain raw min_lot lot_multiple :
  min_lot ≤ 0 → lot_multiple ≤ 1 → 0 ≤ raw →
  Greedy.lot_size raw min_lot lot_multiple = raw.
Proof.
  intros Hmin Hmult Hraw. unfold Greedy.lot_size.
  destruct (Z.leb_spec raw 0); [lia|].
  destruct (Z.ltb_spec 1 lot_multiple); lia.
Qed.

Section pass.
Variable P : problem.
Hypothesis Hmin : pb_min_lot P ≤ 0.
Hypothesis Hmult : pb_multiple P ≤ 1.

Let g (running_inventory : Z) (dates : list Z) : solution :=
  fun date => PyDict.get_default (greedy_nets_from P running_inventory dates) date 0.

Lemma greedy_head running_inventory t rest :
  g running_inventory (t :: rest) t
  = Z.max 0 (pb_safety_stock P + pb_demand P t - pb_receipt P t
             - running_inventory).
Proof.
  unfold g, greedy_nets_from, PyDict.get_default. cbn [Greedy.greedy_pass PyDict.get].
  rewrite decide_True by done. apply lot_size_plain; [done | done | lia].
Qed.

Lemma greedy_tail running_inventory t rest date :
  date ≠ t →
  g running_inventory (t :: rest) date
  = g (running_inventory + pb_receipt P t
       + g running_inventory (t :: rest) t - pb_demand P t) rest date.
Proof.
  intros Hne. rewrite greedy_head.
  unfold g, greedy_nets_from, PyDict.get_default.
  cbn [Greedy.greedy_pass PyDict.get].
  rewrite decide_False by done.
  rewrite lot_size_plain; [done | done | done | lia].
Qed.

Lemma greedy_tail_on running_inventory t rest :
  t ∉ rest →
  ∀ date, date ∈ rest →
    g running_inventory (t :: rest) date
    = g (running_inventory + pb_receipt P t
         + g running_inventory (t :: rest) t - pb_demand P t) rest date.
Proof. intros Ht date Hdate. apply greedy_tail. by intros ->. Qed.

Lemma greedy_nonneg running_inventory dates date :
  0 ≤ g running_inventory dates date.
Proof.
  revert running_inventory. induction dates as [|t rest IH];
    intros running_inventory; [done|].
  destruct (decide (date = t)) as [->|Hne].
  - rewrite greedy_head. lia.
  - rewrite greedy_tail by done. apply IH.
Qed.

Lemma greedy_inventory running_inventory dates :
  NoDup dates →
  inventory_constraints P (g running_inventory dates) running_inventory dates.
Proof.
  revert running_inventory. induction dates as [|t rest IH];
    intros running_inventory Hnd; [done|].
  apply NoDup_cons in Hnd as [Ht Hnd]. cbn [inventory_constraints]. split.
  - rewrite greedy_head. lia.
  - erewrite inventory_constraints_ext; [by apply IH|].
    by apply greedy_tail_on.
Qed.

Lemma greedy_total running_inventory dates :
  NoDup dates →
  sum_Z (g running_inventory dates <$> dates)
  = sum_Z (snd <$> greedy_nets_from P running_inventory dates).
Proof.
  revert running_inventory. induction dates as [|t rest IH];
    intros running_inventory Hnd; [done|].
  apply NoDup_cons in Hnd as [Ht Hnd].
  cbn [fmap list_fmap sum_Z foldr]. fold (sum_Z (g running_inventory (t :: rest) <$> rest)).
  rewrite (proj1 (Forall_fmap_ext _ _ _)
             (proj2 (Forall_forall _ _) (greedy_tail_on running_inventory t rest Ht))).
  rewrite IH by done. rewrite greedy_head.
  unfold greedy_nets_from. cbn [Greedy.greedy_pass fmap list_fmap snd foldr].
  rewrite lot_size_plain; [done | done | done | lia].
Qed.

(** No feasible point orders less in total than the pass: with at least
    as much stock at the start, it ends with at least as much. *)
Lemma greedy_lower_bound y greedy_inventory inventory_level dates :
  NoDup dates →
  greedy_inventory ≤ inventory_level →
  (∀ date, date ∈ dates → 0 ≤ y date) →
  inventory_constraints P y inventory_level dates →
  greedy_inventory + sum_Z (g greedy_inventory dates <$> dates)
  ≤ inventory_level + sum_Z (y <$> dates).
Proof.
  revert greedy_inventory inventory_level.
  induction dates as [|t rest IH];
    intros greedy_inventory inventory_level Hnd Hle Hy Hinv.
  - simpl. lia.
  - apply NoDup_cons in Hnd as [Ht Hnd]. destruct Hinv as [Hss Hinv].
    cbn [fmap list_fmap sum_Z foldr].
    fold (sum_Z (g greedy_inventory (t :: rest) <$> rest)).
    fold (sum_Z (y <$> rest)).
    rewrite (proj1 (Forall_fmap_ext _ _ _)
               (proj2 (Forall_forall _ _)
                  (greedy_tail_on greedy_inventory t rest Ht))).
    pose proof (Hy t (list_elem_of_here _ _)) as Hyt.
    pose proof (greedy_head greedy_inventory t rest) as Hgt.
    specialize (IH (greedy_inventory + pb_receipt P t
                    + g greedy_inventory (t :: rest) t - pb_demand P t)
                   (inventory_level + pb_receipt P t + y t - pb_demand P t)
                   Hnd).
    lapply IH; [clear IH; intros IH | lia].
    lapply IH; [clear IH; intros IH
               | intros d Hd; apply Hy; by apply list_elem_of_further].
    specialize (IH Hinv). lia.
Qed.

Lemma greedy_rows item plt pult running_inventory dates :
  NoDup dates →
  net_quantities
    (result_rows item plt pult P (g running_inventory dates)
       running_inventory dates)
  = (fun tn => (item, tn.1, tn.2))
      <$> Greedy.emitted (greedy_nets_from P running_inventory dates).
Proof.
  revert running_inventory. induction dates as [|t rest IH];
    intros running_inventory Hnd; [done|].
  apply NoDup_cons in Hnd as [Ht Hnd].
  cbn [result_rows]. unfold net_quantities. rewrite fmap_app.
  rewrite (result_rows_ext _ _ _ _ _ _ _ _
             (greedy_tail_on running_inventory t rest Ht)).
  fold (net_quantities
          (result_rows item plt pult P
             (g (running_inventory + pb_receipt P t
                 + g running_inventory (t :: rest) t - pb_demand P t) rest)
             (running_inventory + pb_receipt P t
              + g running_inventory (t :: rest) t - pb_demand P t) rest)).
  rewrite IH by done. rewrite greedy_head.
  unfold Greedy.emitted, greedy_nets_from. cbn [Greedy.greedy_pass].
  rewrite lot_size_plain; [| done | done | lia].
  rewrite filter_cons. cbn [snd].
  destruct (Z.ltb_spec 0 (Z.max 0 (pb_safety_stock P + pb_demand P t
                                   - pb_receipt P t - running_inventory)));
    [rewrite decide_True by done | rewrite decide_False by lia]; done.
Qed.

End pass.

(** C1 (as amended). For a material without a lot-size rule, when the
    quantities of the forward pass over the dates of the run stay within
    the bound [big_M] of the program and within every capacity bound on
    those dates, the pass is an optimal solution of the program handed
    to the solver, every solution the solver may answer with has the
    same total net requirement, and the rows computed from the pass are
    its periods with a positive quantity. *)
Theorem greedy_pass_is_an_optimum inp summary item :
  let P := item_problem inp summary item in
  pb_min_lot P ≤ 0 →
  pb_multiple P ≤ 1 →
  (∀ date, date ∈ pb_dates P → greedy_solution P date ≤ big_M) →
  capacity_constraints_hold P (greedy_solution P) →
  Solve P (OPTIMAL (greedy_solution P)) ∧
  (∀ x, Solve P (OPTIMAL x) →
        objective P x = objective P (greedy_solution P)) ∧
  net_quantities (item_rows inp summary item (greedy_solution P))
  = (fun tn => (item, tn.1, tn.2)) <$> Greedy.emitted (greedy_nets P).
Proof.
  intros P Hmin Hmult Hbig Hcap.
  assert (NoDup (pb_dates P)) as Hnd by apply NoDup_all_dates.
  assert (feasible P (greedy_solution P)) as Hfeas.
  { split_and!; [| by apply greedy_inventory | done].
    intros date Hdate. apply lot_constraints_iff.
    pose proof (greedy_nonneg P Hmin Hmult (pb_inventory P) (pb_dates P) date)
      as Hnonneg.
    split_and!; [exact Hnonneg | | lia].
    right. split; [by apply Hbig|]. etrans; [exact Hmin | exact Hnonneg]. }
  assert (∀ y, feasible P y → objective P (greedy_solution P) ≤ objective P y)
    as Hbest.
  { intros y (Hlot & Hinv & _).
    pose proof (greedy_lower_bound P Hmin Hmult y (pb_inventory P)
                  (pb_inventory P) (pb_dates P) Hnd) as Hlow.
    lapply Hlow; [clear Hlow; intros Hlow | lia].
    lapply Hlow; [clear Hlow; intros Hlow
                 | intros d Hd; apply (Hlot d Hd)].
    specialize (Hlow Hinv). unfold objective. unfold greedy_solution, greedy_nets.
    lia. }
  split_and!.
  - by split.
  - intros x [Hx Hxbest]. apply Z.le_antisymm; [by apply Hxbest | by apply Hbest].
  - by apply greedy_rows.
Qed.

Lemma greedy_pass_is_an_optimum_witness :
  Solve (item_problem example_inputs example_summary "M")
    (OPTIMAL (greedy_solution (item_problem example_inputs example_summary "M"))) ∧
  (∀ x, Solve (item_problem example_inputs example_summary "M") (OPTIMAL x) →
        objective (item_problem example_inputs example_summary "M") x
        = objective (item_problem example_inputs example_summary "M")
            (greedy_solution (item_problem example_inputs example_summary "M"))) ∧
  net_quantities
    (item_rows example_inputs example_summary "M"
       (greedy_solution (item_problem example_inputs example_summary "M")))
  = [("M"%string, 5, 15)].
Proof.
  apply (greedy_pass_is_an_optimum example_inputs example_summary "M").
  - by vm_compute.
  - by vm_compute.
  - intros date Hdate. change (date ∈ [5]) in Hdate.
    apply list_elem_of_singleton in Hdate as ->. by vm_compute.
  - intros resource date_capacity date capacity Hin. by apply elem_of_nil in Hin.
Defined.

(** The optimum need not be unique: with demands of 5 on day 1 and on
    day 2 and nothing on hand, ordering 10 on day 1 is as good for the
    program as the 5 and 5 of the forward pass. *)
Definition split_problem : problem :=
  item_problem
    (Inputs [PlanRow "M" 5 1; PlanRow "M" 5 2] [] [InventoryRow "M" 0 0]
       None None None None)
    [(("M"%string, 1), 5); (("M"%string, 2), 5)] "M".

Lemma optimum_not_unique :
  Solve split_problem (OPTIMAL (fun date => if date =? 1 then 10 else 0)) ∧
  Solve split_problem (OPTIMAL (fun _ => 5)).
Proof.
  set (P := split_problem).
  assert (pb_dates P = [1; 2]) as Hdates by reflexivity.
  assert (pb_demand P 1 = 5) as Hd1 by reflexivity.
  assert (pb_demand P 2 = 5) as Hd2 by reflexivity.
  assert (pb_receipt P 1 = 0) as Hr1 by reflexivity.
  assert (pb_receipt P 2 = 0) as Hr2 by reflexivity.
  assert (pb_inventory P = 0) as Hinventory by reflexivity.
  assert (pb_safety_stock P = 0) as Hsafety by reflexivity.
  assert (pb_min_lot P = 0) as Hmin by reflexivity.
  assert (pb_multiple P = 1) as Hmult by reflexivity.
  assert (pb_capacity_map P = []) as Hcap by reflexivity.
  clearbody P.
  assert (∀ y, feasible P y → 10 ≤ objective P y) as Hlow.
  { intros y (_ & Hinv & _). unfold objective. rewrite Hdates in *.
    cbn [inventory_constraints] in Hinv.
    rewrite Hd1, Hd2, Hr1, Hr2, Hinventory, Hsafety in Hinv.
    cbn [fmap list_fmap sum_Z foldr]. lia. }
  assert (∀ x : solution,
            (∀ date, date ∈ [1; 2] → 0 ≤ x date ≤ 10) → 5 ≤ x 1 → x 1 + x 2 = 10 →
            optimal P x) as Hopt.
  { intros x Hx Hx1 Hsum. split.
    - split_and!.
      + intros date Hdate. rewrite Hdates in Hdate. apply lot_constraints_iff.
        rewrite Hmin, Hmult. unfold big_M. pose proof (Hx date Hdate).
        split_and!; lia.
      + rewrite Hdates. cbn [inventory_constraints].
        rewrite Hd1, Hd2, Hr1, Hr2, Hinventory, Hsafety. lia.
      + intros resource date_capacity date capacity Hin.
        rewrite Hcap in Hin. by apply elem_of_nil in Hin.
    - intros y Hy. etrans; [|by apply Hlow].
      unfold objective. rewrite Hdates. cbn [fmap list_fmap sum_Z foldr]. lia. }
  split; (apply Hopt; [|done..]); intros date _; cbn beta;
    [destruct (date =? 1); lia | lia].
Qed.

(** *** Receipts between the dates of the run, and the bound of the program *)

(** Material M: nothing on hand, a receipt of 10 on day 1, a demand of
    10 on day 2. Day 1 is no date of the run, so the program never sees
    the receipt and orders 10 on day 2; the pass of the specification
    has day 1 among the periods of M and orders nothing. *)
Definition receipt_inputs : inputs :=
  Inputs [PlanRow "M" 10 2] [] [InventoryRow "M" 0 0]
    (Some [PurchaseRow "M" 10 1]) None None None.

Definition receipt_summary : list ((string * Z) * Z) := [(("M"%string, 2), 10)].

Definition receipt_rows : list mrp_result :=
  [MrpResult "M" 2 2 10 0 0 0 10 0 0 0].

Lemma receipt_optimal x :
  optimal (item_problem receipt_inputs receipt_summary "M") x ↔ x 2 = 10.
Proof.
  set (P := item_problem receipt_inputs receipt_summary "M").
  assert (pb_dates P = [2]) as Hdates by reflexivity.
  assert (pb_demand P 2 = 10) as Hdemand by reflexivity.
  assert (pb_receipt P 2 = 0) as Hreceipt by reflexivity.
  assert (pb_inventory P = 0) as Hinventory by reflexivity.
  assert (pb_safety_stock P = 0) as Hsafety by reflexivity.
  assert (pb_min_lot P = 0) as Hmin by reflexivity.
  assert (pb_multiple P = 1) as Hmult by reflexivity.
  assert (pb_capacity_map P = []) as Hcap by reflexivity.
  clearbody P.
  assert (∀ y, feasible P y ↔ 10 ≤ y 2 ≤ big_M) as Hfeas.
  { intros y. unfold feasible. rewrite Hdates. cbn [inventory_constraints].
    rewrite Hdemand, Hreceipt, Hinventory, Hsafety. split.
    - intros (Hlot & Hinv & _).
      apply (lot_constraints_iff P y 2) in Hlot; [|apply list_elem_of_here].
      rewrite Hmin in Hlot. lia.
    - intros Hy. split; [|split; [lia|]].
      + intros date ->%list_elem_of_singleton. apply lot_constraints_iff.
        rewrite Hmin, Hmult. split; [lia|]. split; [right; lia | lia].
      + intros resource date_capacity date capacity Hin.
        rewrite Hcap in Hin. by apply elem_of_nil in Hin. }
  assert (∀ y, objective P y = y 2) as Hobj.
  { intros y. unfold objective. rewrite Hdates. simpl. lia. }
  unfold optimal. split.
  - intros [Hx Hbest]. apply Hfeas in Hx.
    specialize (Hbest (fun _ => 10)). rewrite !Hobj in Hbest.
    lapply Hbest; [lia|]. apply Hfeas. unfold big_M. lia.
  - intros Hx. split; [apply Hfeas; unfold big_M; lia|].
    intros y Hy%Hfeas. rewrite !Hobj. lia.
Qed.

Lemma receipt_between_the_dates :
  (∀ out, calculate_advanced_mrp receipt_inputs out ↔
          out = Returned receipt_rows) ∧
  Greedy.net_rows receipt_inputs (planned_summary receipt_inputs) = [].
Proof.
  split; [|reflexivity]. intros out. split.
  - revert out.
    apply (run_outcome _ [("M"%string, BomTree [])]); [done | done |].
    apply (single_item_outcome _ _ _ (fun _ => 10)).
    + by apply receipt_optimal.
    + intros x Hx%receipt_optimal.
      transitivity (item_rows receipt_inputs receipt_summary "M" (fun _ => 10));
        [|reflexivity].
      apply result_rows_ext. intros date Hdate.
      change (all_dates receipt_summary) with [2] in Hdate.
      by apply list_elem_of_singleton in Hdate as ->.
  - intros ->.
    apply (mrp_netting _ [("M"%string, BomTree [])]); [done | done |].
    change (netting_loop receipt_inputs receipt_summary ["M"%string] []
              (Returned receipt_rows)).
    apply (loop_optimal _ _ _ _ _ (fun _ => 10)); [by apply receipt_optimal|].
    by apply netting_loop_end.
Qed.

(** A demand of a million: the program bounds every net quantity by
    [big_M], has no feasible point, and the call raises; the pass of the
    specification orders the million. *)
Definition million_inputs : inputs :=
  Inputs [PlanRow "M" 1000000 1] [] [InventoryRow "M" 0 0] None None None None.

Definition million_summary : list ((string * Z) * Z) :=
  [(("M"%string, 1), 1000000)].

Lemma beyond_the_bound :
  (∀ out, calculate_advanced_mrp million_inputs out ↔
          out = Raised (no_optimum_message "M")) ∧
  Greedy.net_rows million_inputs (planned_summary million_inputs)
  = [("M"%string, 1, 1000000)].
Proof.
  assert (Solve (item_problem million_inputs million_summary "M") INFEASIBLE)
    as Hnone.
  { set (P := item_problem million_inputs million_summary "M").
    assert (pb_dates P = [1]) as Hdates by reflexivity.
    assert (pb_demand P 1 = 1000000) as Hdemand by reflexivity.
    assert (pb_receipt P 1 = 0) as Hreceipt by reflexivity.
    assert (pb_inventory P = 0) as Hinventory by reflexivity.
    assert (pb_safety_stock P = 0) as Hsafety by reflexivity.
    clearbody P. intros x (Hlot & Hinv & _). rewrite Hdates in *.
    cbn [inventory_constraints] in Hinv.
    rewrite Hdemand, Hreceipt, Hinventory, Hsafety in Hinv.
    apply (lot_constraints_iff P x 1) in Hlot; [|apply list_elem_of_here].
    unfold big_M in Hlot. lia. }
  split; [|reflexivity]. intros out. split.
  - revert out.
    apply (run_outcome _ [("M"%string, BomTree [])]); [done | done |].
    intros out Hloop.
    inversion Hloop as [|? ? ? x ? [Hfeas _] _|]; subst; [|done].
    by destruct (Hnone x).
  - intros ->.
    apply (mrp_netting _ [("M"%string, BomTree [])]); [done | done |].
    change (netting_loop million_inputs million_summary ["M"%string] []
              (Raised (no_optimum_message "M"))).
    by apply loop_infeasible.
Qed.

(** *** The capacity table in the netting loop *)

(** With a capacity record of 10 on day 1 for some resource, the
    material with a minimum lot can no longer order 11 on day 1: the
    one optimum is a lot of 10 on each day. *)
Definition lot_capacity : option (list capacity_row) :=
  Some [CapacityRow "R" 1 10].

Definition lot_solution_capacity : solution := fun _ => 10.

Definition lot_rows_capacity : list mrp_result :=
  [MrpResult "M" 1 1 1 0 0 0 10 9 0 0; MrpResult "M" 2 2 10 9 0 0 10 9 0 0].

Lemma lot_capacity_bound x :
  capacity_constraints_hold (lot_problem lot_capacity) x ↔ x 1 ≤ 10.
Proof.
  unfold capacity_constraints_hold.
  change (pb_capacity_map (lot_problem lot_capacity))
    with [("R"%string, [(1, 10)])].
  change (pb_dates (lot_problem lot_capacity)) with [1; 2].
  split.
  - intros H. apply (H "R"%string [(1, 10)]);
      [apply list_elem_of_here | apply list_elem_of_here | apply list_elem_of_here].
  - intros Hx resource date_capacity date capacity Hin Hdc _.
    apply list_elem_of_singleton in Hin. injection Hin as -> ->.
    apply list_elem_of_singleton in Hdc. injection Hdc as -> ->. done.
Qed.

Lemma lot_optimal_capacity x :
  optimal (lot_problem lot_capacity) x ↔ x 1 = 10 ∧ x 2 = 10.
Proof.
  assert (feasible (lot_problem lot_capacity) lot_solution_capacity) as Hfeas0.
  { apply lot_problem_feasible. unfold big_M, lot_solution_capacity.
    split_and!; [lia.. | by apply lot_capacity_bound]. }
  unfold optimal. split.
  - intros [Hfeas Hopt].
    apply lot_problem_feasible in Hfeas as (H1 & H2 & Hi1 & Hi2 & Hcap).
    apply lot_capacity_bound in Hcap.
    specialize (Hopt _ Hfeas0). rewrite !lot_problem_objective in Hopt.
    unfold lot_solution_capacity in Hopt. lia.
  - intros [Hx1 Hx2]. split.
    + apply lot_problem_feasible. rewrite Hx1, Hx2. unfold big_M.
      split_and!; [lia.. | apply lot_capacity_bound; lia].
    + intros y Hfeas.
      apply lot_problem_feasible in Hfeas as (H1 & H2 & Hi1 & Hi2 & Hcap).
      apply lot_capacity_bound in Hcap.
      rewrite !lot_problem_objective. lia.
Qed.

Lemma lot_item_rows_capacity x :
  optimal (lot_problem lot_capacity) x →
  item_rows (lot_inputs lot_capacity) lot_summary "M" x = lot_rows_capacity.
Proof.
  intros [Hx1 Hx2]%lot_optimal_capacity.
  transitivity (item_rows (lot_inputs lot_capacity) lot_summary "M"
                  lot_solution_capacity); [|reflexivity].
  apply result_rows_ext. intros date Hdate.
  change (all_dates lot_summary) with [1; 2] in Hdate.
  apply elem_of_cons in Hdate as [->|Hdate]; [done|].
  apply list_elem_of_singleton in Hdate as ->. done.
Qed.

Lemma lot_run_capacity out :
  calculate_advanced_mrp (lot_inputs lot_capacity) out ↔
  out = Returned lot_rows_capacity.
Proof.
  split.
  - revert out.
    apply (run_outcome _ [("M"%string, BomTree [])]); [done | done |].
    apply (single_item_outcome _ _ _ lot_solution_capacity).
    + by apply lot_optimal_capacity.
    + apply lot_item_rows_capacity.
  - intros ->.
    apply (mrp_netting _ [("M"%string, BomTree [])]); [done | done |].
    change (netting_loop (lot_inputs lot_capacity) lot_summary ["M"%string] []
              (Returned lot_rows_capacity)).
    apply (loop_optimal _ _ _ _ _ lot_solution_capacity);
      [by apply lot_optimal_capacity|].
    by apply netting_loop_end.
Qed.


(** *** What the capacity table can and cannot change *)

(** The arguments of a call with another capacity table. *)
Definition with_capacity (inp : inputs)
    (capacity : option (list capacity_row)) : inputs :=
  Inputs (production_plan inp) (bom_data inp) (inventory_data inp)
    (purchase_orders inp) (lead_times inp) (lot_sizes inp) capacity.

(** A capacity table has no record on a date of the run. *)
Definition off_dates (capacity : option (list capacity_row))
    (dates : list Z) : Prop :=
  ∀ rows row, capacity = Some rows → row ∈ rows → cap_date row ∉ dates.

Lemma capacity_map_of_dates rows resource date_capacity date capacity :
  (resource, date_capacity) ∈ capacity_map_of rows →
  (date, capacity) ∈ date_capacity →
  ∃ row, row ∈ rows ∧ cap_date row = date.
Proof.
  unfold capacity_map_of.
  assert (∀ rows' m,
    (∀ resource date_capacity date capacity,
       (resource, date_capacity) ∈ m → (date, capacity) ∈ date_capacity →
       ∃ row, row ∈ rows ∧ cap_date row = date) →
    (∀ row, row ∈ rows' → row ∈ rows) →
    ∀ resource date_capacity date capacity,
      (resource, date_capacity)
        ∈ foldl
            (fun m row =>
               PyDict.set m (cap_resource row)
                 (PyDict.set (PyDict.get_default m (cap_resource row) [])
                    (cap_date row) (cap_available row)))
            m rows' →
      (date, capacity) ∈ date_capacity →
      ∃ row, row ∈ rows ∧ cap_date row = date) as Hgen.
  { induction rows' as [|row rows' IH]; intros m Hm Hsub; [exact Hm|].
    simpl. apply IH; [|intros r Hr; apply Hsub; by apply list_elem_of_further].
    intros res' dc' date' cap' Hin Hdc.
    apply PyDict.elem_of_set in Hin as [[= -> ->]|Hin]; [|by eapply Hm].
    apply PyDict.elem_of_set in Hdc as [[= -> ->]|Hdc].
    - exists row. split; [apply Hsub, list_elem_of_here | done].
    - unfold PyDict.get_default in Hdc.
      destruct (PyDict.get m (cap_resource row)) as [inner|] eqn:Hget;
        [|by apply elem_of_nil in Hdc].
      apply PyDict.get_Some_elem in Hget. by eapply Hm. }
  apply Hgen; [|done].
  intros ? ? ? ? Hin. by apply elem_of_nil in Hin.
Qed.

Lemma capacity_off_dates inp summary item x :
  off_dates (capacity_constraints inp) (all_dates summary) →
  capacity_constraints_hold (item_problem inp summary item) x.
Proof.
  intros Hoff resource dc date capacity Hin Hdc Hdate. exfalso.
  simpl in Hin. unfold capacity_map in Hin.
  destruct (capacity_constraints inp) as [rows|] eqn:Hcap;
    [|by apply elem_of_nil in Hin].
  destruct (capacity_map_of_dates _ _ _ _ _ Hin Hdc) as (row & Hrow & <-).
  by apply (Hoff rows row).
Qed.

Lemma inventory_constraints_problem P P' x inventory_level dates :
  pb_demand P = pb_demand P' → pb_receipt P = pb_receipt P' →
  pb_safety_stock P = pb_safety_stock P' →
  inventory_constraints P x inventory_level dates →
  inventory_constraints P' x inventory_level dates.
Proof.
  intros Hd Hr Hs. revert inventory_level.
  induction dates as [|date rest IH]; intros inventory_level; simpl; [done|].
  rewrite Hd, Hr, Hs. intros [? ?]. split; [done | by apply IH].
Qed.

Lemma result_rows_problem item plt pult P P' x inventory_level dates :
  pb_demand P = pb_demand P' → pb_receipt P = pb_receipt P' →
  pb_safety_stock P = pb_safety_stock P' →
  result_rows item plt pult P x inventory_level dates
  = result_rows item plt pult P' x inventory_level dates.
Proof.
  intros Hd Hr Hs. revert inventory_level.
  induction dates as [|date rest IH]; intros inventory_level; simpl; [done|].
  by rewrite Hd, Hr, Hs, IH.
Qed.

Lemma item_rows_with_capacity inp capacity1 capacity2 summary item x :
  item_rows (with_capacity inp capacity1) summary item x
  = item_rows (with_capacity inp capacity2) summary item x.
Proof. by apply result_rows_problem. Qed.

Section two_tables.
Variable inp : inputs.
Variables capacity1 capacity2 : option (list capacity_row).
Variable summary : list ((string * Z) * Z).
Hypothesis Hoff1 : off_dates capacity1 (all_dates summary).
Hypothesis Hoff2 : off_dates capacity2 (all_dates summary).

Lemma feasible_off_dates item x :
  feasible (item_problem (with_capacity inp capacity1) summary item) x →
  feasible (item_problem (with_capacity inp capacity2) summary item) x.
Proof.
  intros (Hlot & Hinv & _). split_and!; [exact Hlot | |].
  - by eapply inventory_constraints_problem; [..|exact Hinv].
  - by apply capacity_off_dates.
Qed.

End two_tables.

Lemma Solve_off_dates inp capacity1 capacity2 summary item status :
  off_dates capacity1 (all_dates summary) →
  off_dates capacity2 (all_dates summary) →
  Solve (item_problem (with_capacity inp capacity1) summary item) status →
  Solve (item_problem (with_capacity inp capacity2) summary item) status.
Proof.
  intros Hoff1 Hoff2. destruct status as [x|]; simpl.
  - intros [Hfeas Hopt]. split.
    + by eapply feasible_off_dates.
    + intros y Hy. apply (Hopt y). by eapply feasible_off_dates.
  - intros Hnone x Hx. apply (Hnone x). by eapply feasible_off_dates.
Qed.

Lemma netting_loop_off_dates inp capacity1 capacity2 summary items acc out :
  off_dates capacity1 (all_dates summary) →
  off_dates capacity2 (all_dates summary) →
  netting_loop (with_capacity inp capacity1) summary items acc out →
  netting_loop (with_capacity inp capacity2) summary items acc out.
Proof.
  intros Hoff1 Hoff2 Hloop.
  induction Hloop as [acc | item items acc x out Hsolve Hloop IH
                     | item items acc Hsolve].
  - constructor.
  - apply (loop_optimal _ _ _ _ _ x);
      [by apply (Solve_off_dates inp capacity1 capacity2)|].
    by rewrite (item_rows_with_capacity inp capacity2 capacity1).
  - apply loop_infeasible. by apply (Solve_off_dates inp capacity1 capacity2).
Qed.

Lemma run_off_dates inp capacity1 capacity2 out :
  off_dates capacity1 (all_dates (planned_summary inp)) →
  off_dates capacity2 (all_dates (planned_summary inp)) →
  calculate_advanced_mrp (with_capacity inp capacity1) out →
  calculate_advanced_mrp (with_capacity inp capacity2) out.
Proof.
  intros Hoff1 Hoff2 Hrun.
  inversion Hrun as [msg Hb|trees Hb He|trees ? Hb Hne Hloop]; subst.
  - by apply mrp_circular.
  - by apply (mrp_no_requirement _ trees).
  - apply (mrp_netting _ trees); [exact Hb | exact Hne |].
    unfold planned_summary in Hoff1, Hoff2.
    change (build_bom_trees inp (unique (plan_product <$> production_plan inp)) [])
      with (build_bom_trees (with_capacity inp capacity1)
              (unique (plan_product <$> production_plan (with_capacity inp capacity1))) [])
      in Hoff1, Hoff2.
    rewrite Hb in Hoff1, Hoff2.
    by apply (netting_loop_off_dates inp capacity1 capacity2).
Qed.

Lemma result_rows_net item plt pult P x inventory_level dates r :
  r ∈ result_rows item plt pult P x inventory_level dates →
  mr_period r ∈ dates ∧ mr_net r = x (mr_period r).
Proof.
  revert inventory_level. induction dates as [|date rest IH];
    intros inventory_level; simpl.
  - intros Hr. by apply elem_of_nil in Hr.
  - intros [Hr|Hr]%elem_of_app.
    + destruct (0 <? x date); [|by apply elem_of_nil in Hr].
      apply list_elem_of_singleton in Hr as ->. simpl.
      split; [apply list_elem_of_here | done].
    + destruct (IH _ Hr) as [Hin Hnet].
      split; [by apply list_elem_of_further | done].
Qed.



(** *** The errors of a call *)

Lemma elem_of_unique {A} `{EqDecision A} (l : list A) (x : A) :
  x ∈ unique l ↔ x ∈ l.
Proof.
  unfold unique.
  assert (∀ seen,
    x ∈ foldl (fun seen x => if decide (x ∈ seen) then seen else seen ++ [x])
          seen l ↔ x ∈ seen ∨ x ∈ l) as Hgen.
  { induction l as [|y l IH]; intros seen; simpl.
    - rewrite elem_of_nil. tauto.
    - rewrite IH, elem_of_cons. case_decide as Hy.
      + split; [tauto|]. intros [?|[->|?]]; tauto.
      + rewrite elem_of_app, list_elem_of_singleton. tauto. }
  rewrite Hgen, elem_of_nil. tauto.
Qed.

Lemma no_optimum_is_no_key_error item :
  no_optimum_message item ≠ key_error_message.
Proof. unfold no_optimum_message, key_error_message. simpl. discriminate. Qed.

Lemma cycle_is_no_key_error cycle : cycle_message cycle ≠ key_error_message.
Proof. unfold cycle_message, key_error_message. simpl. discriminate. Qed.

Lemma no_optimum_is_no_cycle item cycle :
  no_optimum_message item ≠ cycle_message cycle.
Proof. unfold no_optimum_message, cycle_message. simpl. discriminate. Qed.

Lemma build_bom_trees_message inp products bom_trees message :
  build_bom_trees inp products bom_trees = inl (CircularReference message) →
  ∃ cycle, message = cycle_message cycle.
Proof.
  revert bom_trees. induction products as [|product rest IH]; intros bom_trees;
    simpl; [discriminate|].
  destruct (build product (bom_data inp)) as [|msg|t] eqn:Hb;
    [discriminate | | apply IH].
  intros [= <-]. by apply (build_Circular_message (bom_data inp) product).
Qed.

Lemma build_bom_trees_Built inp products bom_trees :
  (∀ p, p ∈ products → ∃ t, build p (bom_data inp) = Built t) →
  ∃ trees, build_bom_trees inp products bom_trees = inr trees.
Proof.
  revert bom_trees. induction products as [|product rest IH]; intros bom_trees Hall.
  - by eexists.
  - simpl. destruct (Hall product (list_elem_of_here _ _)) as [t ->].
    apply IH. intros p Hp. apply Hall. by apply list_elem_of_further.
Qed.

Lemma build_bom_trees_first_failure inp before product after bom_trees message :
  (∀ p, p ∈ before → ∃ t, build p (bom_data inp) = Built t) →
  build product (bom_data inp) = CircularReference message →
  build_bom_trees inp (before ++ product :: after) bom_trees
  = inl (CircularReference message).
Proof.
  revert bom_trees. induction before as [|q before IH]; intros bom_trees Hall Hb.
  - simpl. by rewrite Hb.
  - simpl. destruct (Hall q (list_elem_of_here _ _)) as [t ->].
    apply IH; [|done]. intros p Hp. apply Hall. by apply list_elem_of_further.
Qed.

Lemma netting_loop_Raised inp summary items acc message :
  netting_loop inp summary items acc (Raised message) →
  ∃ item, item ∈ items ∧ message = no_optimum_message item ∧
          Solve (item_problem inp summary item) INFEASIBLE.
Proof.
  intros Hloop. remember (Raised message) as out eqn:Hout.
  induction Hloop as [acc | item items acc x out Hsolve Hloop IH
                     | item items acc Hsolve]; [discriminate | |].
  - destruct (IH Hout) as (i & Hi & Hmsg & Hnone).
    exists i. split; [by apply list_elem_of_further | done].
  - injection Hout as <-. exists item. split; [apply list_elem_of_here | done].
Qed.

Lemma get_all_requirements_head plt item quantity date t level :
  ∃ rest,
    Advanced.get_all_requirements plt item quantity date t level
    = Requirement item quantity (date - PyDict.get_default plt item 0) level
      :: rest.
Proof.
  rewrite advanced_explosion. destruct t as [entries]. simpl.
  eexists. f_equal. unfold advanced_record, chain_item, usage_product,
    lead_time_sum. simpl. f_equal; lia.
Qed.

Lemma all_requirements_nil inp bom_trees :
  all_requirements inp bom_trees = [] ↔ production_plan inp = [].
Proof.
  unfold all_requirements. split.
  - destruct (production_plan inp) as [|row plan]; [done|]. simpl.
    destruct (get_all_requirements_head (production_lead_time_map inp)
                (plan_product row) (plan_quantity row) (plan_date row)
                (PyDict.get_default bom_trees (plan_product row) (BomTree [])) 0)
      as [rest ->].
    discriminate.
  - by intros ->.
Qed.

(** X4. A call with a production plan that has no row ends in the
    [KeyError] of the [groupby] on the empty frame of requirements, and
    in nothing else; a call with a plan that has a row never ends in it. *)
Theorem key_error_on_empty_plan :
  ∀ inp,
    (calculate_advanced_mrp inp (Raised key_error_message) ↔
     production_plan inp = []) ∧
    (production_plan inp = [] →
     ∀ out, calculate_advanced_mrp inp out → out = Raised key_error_message).
Proof.
  intros inp. split; [split|].
  - intros Hrun.
    inversion Hrun as [msg Hb|trees Hb He|trees ? Hb Hne Hloop]; subst.
    + destruct (build_bom_trees_message _ _ _ _ Hb) as [cycle Hmsg].
      by destruct (cycle_is_no_key_error cycle).
    + by apply (all_requirements_nil inp trees).
    + destruct (netting_loop_Raised _ _ _ _ _ Hloop) as (item & _ & Hmsg & _).
      by destruct (no_optimum_is_no_key_error item).
  - intros Hplan. apply (mrp_no_requirement _ []).
    + by rewrite Hplan.
    + by apply all_requirements_nil.
  - intros Hplan out Hrun.
    inversion Hrun as [msg Hb|trees Hb He|trees ? Hb Hne Hloop]; subst.
    + rewrite Hplan in Hb. discriminate.
    + done.
    + by destruct Hne; apply all_requirements_nil.
Qed.

(** A call with tables for A and an empty plan. *)
Definition empty_plan_inputs : inputs :=
  Inputs [] [BomRow "A" "B" 2] [InventoryRow "A" 5 1] None None None None.

Lemma key_error_on_empty_plan_witness :
  production_plan empty_plan_inputs = [] ∧
  ∀ out,
    calculate_advanced_mrp empty_plan_inputs out →
    out = Raised key_error_message.
Proof.
  split; [reflexivity|].
  apply (proj2 (key_error_on_empty_plan empty_plan_inputs)).
  reflexivity.
Defined.

Lemma acyclic_never_circular inp :
  (∀ row, row ∈ production_plan inp →
          ∃ t, build (plan_product row) (bom_data inp) = Built t) →
  ∀ out cycle,
    calculate_advanced_mrp inp out → out ≠ Raised (cycle_message cycle).
Proof.
  intros Hbuilt out cycle Hrun ->.
  inversion Hrun as [msg Hb Hmsg| |trees ? Hb Hne Hloop]; subst.
  - destruct (build_bom_trees_Built inp
                (unique (plan_product <$> production_plan inp)) [])
      as [trees Htrees]; [|congruence].
    intros p Hp.
    apply elem_of_unique, list_elem_of_fmap in Hp as (row & -> & Hrow).
    by apply Hbuilt.
  - destruct (netting_loop_Raised _ _ _ _ _ Hloop) as (item & _ & Hmsg & _).
    by destruct (no_optimum_is_no_cycle item cycle).
Qed.

(** X5. The BOM trees are built before anything else, product after
    product in the order in which the plan first names them. The first
    product from which a path of the BOM revisits a material ends the
    call: it raises the circular-reference error of that product, with
    the path in the message, and can end no other way. When no product
    of the plan reaches a cycle the call never raises that error. *)
Theorem circular_bom_ends_the_call :
  ∀ inp,
    (∀ before product after w,
       unique (plan_product <$> production_plan inp)
       = before ++ product :: after →
       (∀ p, p ∈ before → acyclic_from (bom_data inp) p) →
       walk (bom_data inp) (product :: w) → ¬ NoDup (product :: w) →
       ∃ anc x,
         revisiting_path (bom_data inp) product anc x ∧
         ∀ out,
           calculate_advanced_mrp inp out ↔
           out = Raised (cycle_message (anc ++ [x]))) ∧
    ((∀ row, row ∈ production_plan inp →
             acyclic_from (bom_data inp) (plan_product row)) →
     ∀ out cycle,
       calculate_advanced_mrp inp out → out ≠ Raised (cycle_message cycle)).
Proof.
  intros inp. split.
  - intros before product after w Hproducts Hbefore Hw Hdup.
    destruct (build_revisiting _ _ _ Hw Hdup) as (anc & x & Hpath & Hb).
    exists anc, x. split; [done|].
    assert (build_bom_trees inp (unique (plan_product <$> production_plan inp)) []
            = inl (CircularReference (cycle_message (anc ++ [x])))) as Hfail.
    { rewrite Hproducts. apply build_bom_trees_first_failure; [|done].
      intros p Hp. by apply build_acyclic, Hbefore. }
    intros out. split.
    + intros Hrun.
      inversion Hrun as [msg Hb'|trees Hb' He|trees ? Hb' Hne Hloop]; subst;
        congruence.
    + intros ->. by apply mrp_circular.
  - intros Hacyc. apply acyclic_never_circular.
    intros row Hrow. by apply build_acyclic, Hacyc.
Qed.

(** A plan for a product of [bom_loop]. *)
Definition loop_inputs : inputs :=
  Inputs [PlanRow "A" 1 1] bom_loop [] None None None None.

Lemma circular_bom_ends_the_call_witness :
  (∃ anc x,
     revisiting_path bom_loop "A" anc x ∧
     ∀ out,
       calculate_advanced_mrp loop_inputs out ↔
       out = Raised (cycle_message (anc ++ [x]))) ∧
  (∀ out cycle,
     calculate_advanced_mrp example_inputs out →
     out ≠ Raised (cycle_message cycle)).
Proof.
  split.
  - apply (proj1 (circular_bom_ends_the_call loop_inputs)
             [] "A"%string [] ["B"; "C"; "A"]%string).
    + reflexivity.
    + intros p Hp. by apply elem_of_nil in Hp.
    + exact bom_loop_walk.
    + intros Hnd. apply NoDup_cons in Hnd as [Hnin _]. apply Hnin.
      by_evaluation.
  - apply (proj2 (circular_bom_ends_the_call example_inputs)).
    intros row Hrow w Hw.
    inversion Hw as [|? y w' He Hw']; subst; [apply NoDup_singleton|].
    destruct He as (r & Hr & _). by apply elem_of_nil in Hr.
Defined.

(** *** The forward pass as an answer of the solver *)

Lemma greedy_optimal P :
  NoDup (pb_dates P) →
  pb_min_lot P ≤ 0 →
  pb_multiple P ≤ 1 →
  (∀ date, date ∈ pb_dates P → greedy_solution P date ≤ big_M) →
  capacity_constraints_hold P (greedy_solution P) →
  optimal P (greedy_solution P).
Proof.
  intros Hnd Hmin Hmult Hbig Hcap. split.
  - split_and!; [| by apply greedy_inventory | done].
    intros date Hdate. apply lot_constraints_iff.
    pose proof (greedy_nonneg P Hmin Hmult (pb_inventory P) (pb_dates P) date)
      as Hnonneg.
    split_and!; [exact Hnonneg | | lia].
    right. split; [by apply Hbig|]. etrans; [exact Hmin | exact Hnonneg].
  - intros y (Hlot & Hinv & _).
    pose proof (greedy_lower_bound P Hmin Hmult y (pb_inventory P)
                  (pb_inventory P) (pb_dates P) Hnd) as Hlow.
    lapply Hlow; [clear Hlow; intros Hlow | lia].
    lapply Hlow; [clear Hlow; intros Hlow
                 | intros d Hd; apply (Hlot d Hd)].
    specialize (Hlow Hinv). unfold objective. unfold greedy_solution, greedy_nets.
    lia.
Qed.

(** *** The fields of a returned row *)

(** What [dict(zip(keys, values)).get(k, dflt)] gives: the value of the
    last row with the key, or the default when no row has it. *)
Definition last_of {A} (key : A → string) (value : A → Z) (rows : list A)
    (k : string) (dflt : Z) : Z :=
  match last (filter (fun r => key r = k) rows) with
  | Some r => value r
  | None => dflt
  end.

Lemma get_foldl_set {A} (key : A → string) (value : A → Z) (rows : list A)
    (d : list (string * Z)) (k : string) :
  PyDict.get
    (foldl (fun d kv => PyDict.set d kv.1 kv.2) d
       ((fun r => (key r, value r)) <$> rows)) k
  = match last (filter (fun r => key r = k) rows) with
    | Some r => Some (value r)
    | None => PyDict.get d k
    end.
Proof.
  revert d. induction rows as [|r rows IH]; intros d; [done|].
  cbn [fmap list_fmap foldl]. rewrite IH, filter_cons. cbn [fst snd].
  destruct (decide (key r = k)) as [Hk|Hk].
  - rewrite last_cons.
    destruct (last (filter (fun r => key r = k) rows)); [done|].
    by rewrite <- Hk, PyDict.get_set_eq.
  - destruct (last (filter (fun r => key r = k) rows)); [done|].
    by rewrite PyDict.get_set_ne.
Qed.

Lemma get_default_of_zip {A} (key : A → string) (value : A → Z)
    (rows : list A) (k : string) (dflt : Z) :
  PyDict.get_default (PyDict.of_zip ((fun r => (key r, value r)) <$> rows)) k dflt
  = last_of key value rows k dflt.
Proof.
  unfold PyDict.get_default, PyDict.of_zip, last_of. rewrite get_foldl_set.
  by destruct (last (filter (fun r => key r = k) rows)).
Qed.

Lemma result_rows_fields item plt pult P x inventory_level dates r :
  r ∈ result_rows item plt pult P x inventory_level dates →
  mr_item r = item ∧ 0 < mr_net r ∧
  mr_order_date r = mr_period r - pult ∧
  mr_production_lead_time r = plt ∧ mr_purchase_lead_time r = pult ∧
  mr_safety_stock r = pb_safety_stock P ∧
  mr_gross r = pb_demand P (mr_period r) ∧
  mr_receipt r = pb_receipt P (mr_period r).
Proof.
  revert inventory_level. induction dates as [|date rest IH];
    intros inventory_level; simpl.
  - intros Hr. by apply elem_of_nil in Hr.
  - intros [Hr|Hr]%elem_of_app; [|by eapply IH].
    destruct (Z.ltb_spec 0 (x date)); [|by apply elem_of_nil in Hr].
    apply list_elem_of_singleton in Hr as ->. simpl. by split_and!.
Qed.

Lemma run_rows_Forall (Q : mrp_result → Prop) inp rows :
  (∀ summary item x,
     Solve (item_problem inp summary item) (OPTIMAL x) →
     Forall Q (item_rows inp summary item x)) →
  calculate_advanced_mrp inp (Returned rows) →
  ∀ r, r ∈ rows → Q r.
Proof.
  intros Hitem Hrun. apply Forall_forall.
  inversion Hrun as [| |trees out Hb Hne Hloop]; subst.
  eapply netting_loop_Forall; [| |exact Hloop]; [|constructor].
  intros item x _. apply Hitem.
Qed.

(** X6. Every row [calculate_advanced_mrp] returns has a positive net
    quantity; its order date is its period moved back by the purchase
    lead time of its material; and its two lead times and its safety
    stock are those of the last row of the lead-time table, of the
    inventory table, for its material, or 0 when the table is not given
    or has no row for the material. *)
Theorem returned_row_fields :
  ∀ inp rows,
    calculate_advanced_mrp inp (Returned rows) →
    ∀ r, r ∈ rows →
      0 < mr_net r ∧
      mr_order_date r = mr_period r - mr_purchase_lead_time r ∧
      mr_production_lead_time r
      = last_of lt_item lt_production (default [] (lead_times inp)) (mr_item r) 0 ∧
      mr_purchase_lead_time r
      = last_of lt_item lt_purchase (default [] (lead_times inp)) (mr_item r) 0 ∧
      mr_safety_stock r
      = last_of inv_item inv_safety_stock (inventory_data inp) (mr_item r) 0.
Proof.
  intros inp rows Hrun.
  apply (run_rows_Forall _ inp rows); [|done].
  intros summary item x _. apply Forall_forall. intros r Hr.
  apply result_rows_fields in Hr
    as (-> & Hnet & Horder & Hplt & Hpult & Hss & _ & _).
  rewrite Hplt, Hpult, Hss. split_and!; [done | done | | |].
  - unfold production_lead_time_map.
    destruct (lead_times inp) as [lts|]; [apply get_default_of_zip | done].
  - unfold purchase_lead_time_map.
    destruct (lead_times inp) as [lts|]; [apply get_default_of_zip | done].
  - apply get_default_of_zip.
Qed.

(** Material M with two rows in the lead-time table. *)
Definition lead_time_inputs : inputs :=
  Inputs [PlanRow "M" 25 5] [] [InventoryRow "M" 20 10] None
    (Some [LeadTimeRow "M" 9 9; LeadTimeRow "M" 1 3]) None None.

Definition lead_time_rows : list mrp_result :=
  [MrpResult "M" 4 1 25 20 10 0 15 10 1 3].

Lemma lead_time_run :
  calculate_advanced_mrp lead_time_inputs (Returned lead_time_rows).
Proof.
  apply (mrp_netting _ [("M"%string, BomTree [])]); [done | done |].
  change (netting_loop lead_time_inputs [(("M"%string, 4), 25)] ["M"%string] []
            (Returned lead_time_rows)).
  apply (loop_optimal _ _ _ _ _
           (greedy_solution
              (item_problem lead_time_inputs [(("M"%string, 4), 25)] "M"))).
  - apply greedy_optimal.
    + apply NoDup_all_dates.
    + by vm_compute.
    + by vm_compute.
    + intros date Hdate. change (date ∈ [4]) in Hdate.
      apply list_elem_of_singleton in Hdate as ->. by vm_compute.
    + intros resource dc date capacity Hin. by apply elem_of_nil in Hin.
  - by apply netting_loop_end.
Qed.

Lemma returned_row_fields_witness :
  calculate_advanced_mrp lead_time_inputs (Returned lead_time_rows) ∧
  ∀ r, r ∈ lead_time_rows →
    0 < mr_net r ∧
    mr_order_date r = mr_period r - mr_purchase_lead_time r ∧
    mr_production_lead_time r
    = last_of lt_item lt_production
        [LeadTimeRow "M" 9 9; LeadTimeRow "M" 1 3] (mr_item r) 0 ∧
    mr_purchase_lead_time r
    = last_of lt_item lt_purchase
        [LeadTimeRow "M" 9 9; LeadTimeRow "M" 1 3] (mr_item r) 0 ∧
    mr_safety_stock r
    = last_of inv_item inv_safety_stock [InventoryRow "M" 20 10] (mr_item r) 0.
Proof.
  split; [exact lead_time_run|].
  apply (returned_row_fields lead_time_inputs lead_time_rows).
  exact lead_time_run.
Defined.

(** *** The order of the returned rows *)

(** Day numbers in strictly ascending order. *)
Fixpoint ascending (l : list Z) : Prop :=
  match l with
  | [] => True
  | d :: rest => Forall (fun d' => d < d') rest ∧ ascending rest
  end.

Lemma insert_sorted_ascending d l :
  ascending l → d ∉ l → ascending (insert_sorted d l).
Proof.
  induction l as [|d' l IH]; intros Hasc Hd; simpl.
  - split; constructor.
  - apply not_elem_of_cons in Hd as [Hne Hd]. destruct Hasc as [Hall Hasc].
    destruct (Z.leb_spec d d').
    + split; [|by split].
      constructor; [lia|]. eapply Forall_impl; [exact Hall|].
      intros z Hz. simpl in Hz. lia.
    + split; [|by apply IH].
      rewrite insert_sorted_Permutation. constructor; [lia | done].
Qed.

Lemma sorted_ascending l : NoDup l → ascending (sorted l).
Proof.
  induction 1 as [|d l Hd Hnd IH]; simpl; [done|].
  apply insert_sorted_ascending; [done|]. by rewrite sorted_Permutation.
Qed.

Lemma ascending_all_dates summary : ascending (all_dates summary).
Proof. apply sorted_ascending, NoDup_unique. Qed.

Lemma Forall_sublist_of {A} (Q : A → Prop) (l1 l2 : list A) :
  l1 `sublist_of` l2 → Forall Q l2 → Forall Q l1.
Proof.
  induction 1 as [|d l1 l2 Hsub IH|d l1 l2 Hsub IH]; [done | |].
  - intros [Hd Hall]%Forall_cons. constructor; [done | by apply IH].
  - intros [_ Hall]%Forall_cons. by apply IH.
Qed.

Lemma ascending_sublist l1 l2 :
  l1 `sublist_of` l2 → ascending l2 → ascending l1.
Proof.
  induction 1 as [|d l1 l2 Hsub IH|d l1 l2 Hsub IH]; simpl; [done | |].
  - intros [Hall Hasc]. split; [|by apply IH].
    by apply (Forall_sublist_of _ l1 l2).
  - intros [_ Hasc]. by apply IH.
Qed.

Lemma ascending_NoDup l : ascending l → NoDup l.
Proof.
  induction l as [|d l IH]; simpl; [constructor|].
  intros [Hall Hasc]. constructor; [|by apply IH].
  intros Hd. rewrite Forall_forall in Hall. specialize (Hall d Hd). lia.
Qed.

Lemma result_rows_periods item plt pult P x inventory_level dates :
  mr_period <$> result_rows item plt pult P x inventory_level dates
  `sublist_of` dates.
Proof.
  revert inventory_level. induction dates as [|date rest IH];
    intros inventory_level; simpl; [done|].
  rewrite fmap_app. destruct (0 <? x date); simpl.
  - by apply sublist_skip.
  - by apply sublist_cons.
Qed.

(** The rows of a run that returns: those of each material of
    [all_items] in turn, for a solution the solver answered with. *)
Lemma netting_loop_groups inp summary items acc rows :
  netting_loop inp summary items acc (Returned rows) →
  ∃ groups,
    rows = acc ++ concat groups ∧
    Forall2
      (fun item group =>
         ∃ x, Solve (item_problem inp summary item) (OPTIMAL x) ∧
              group = item_rows inp summary item x)
      items groups.
Proof.
  intros Hloop. remember (Returned rows) as out eqn:Hout.
  induction Hloop as [acc | item items acc x out Hsolve Hloop IH | ];
    [| |discriminate].
  - injection Hout as ->. exists []. simpl. rewrite app_nil_r.
    split; [done | constructor].
  - destruct (IH Hout) as (groups & -> & Hall).
    exists (item_rows inp summary item x :: groups). simpl.
    rewrite <- app_assoc. split; [done|]. constructor; [by exists x | done].
Qed.

(** What the rows of one material look like. *)
Definition group_of (dates : list Z) (item : string)
    (group : list mrp_result) : Prop :=
  Forall (fun r => mr_item r = item) group ∧
  mr_period <$> group `sublist_of` dates.

Lemma concat_group_item dates items groups r :
  Forall2 (group_of dates) items groups →
  r ∈ concat groups → mr_item r ∈ items.
Proof.
  induction 1 as [|item group items groups [Hitem _] Hall IH]; simpl.
  - intros Hr. by apply elem_of_nil in Hr.
  - intros [Hr|Hr]%elem_of_app.
    + rewrite Forall_forall in Hitem. rewrite (Hitem r Hr).
      apply list_elem_of_here.
    + apply list_elem_of_further. by apply IH.
Qed.

Lemma NoDup_grouped_keys dates items groups :
  ascending dates → NoDup items →
  Forall2 (group_of dates) items groups →
  NoDup ((fun r => (mr_item r, mr_period r)) <$> concat groups).
Proof.
  intros Hasc Hnd Hall.
  induction Hall as [|item group items groups Hgroup Hall IH]; simpl;
    [constructor|].
  apply NoDup_cons in Hnd as [Hi Hnd].
  rewrite fmap_app. apply NoDup_app. split_and!.
  - destruct Hgroup as [_ Hsub].
    apply (NoDup_fmap_1 snd). rewrite <- list_fmap_compose.
    apply ascending_NoDup. by apply (ascending_sublist _ dates).
  - intros [i d] Hin1 Hin2.
    apply list_elem_of_fmap in Hin1 as (r1 & [= -> ->] & Hr1).
    apply list_elem_of_fmap in Hin2 as (r2 & [= Hitem _] & Hr2).
    destruct Hgroup as [Hitems _]. rewrite Forall_forall in Hitems.
    apply Hi. rewrite <- (Hitems r1 Hr1), Hitem.
    by apply (concat_group_item dates items groups).
  - by apply IH.
Qed.

Lemma planned_summary_built inp bom_trees :
  build_bom_trees inp (unique (plan_product <$> production_plan inp)) []
  = inr bom_trees →
  planned_summary inp = gross_requirements_summary (all_requirements inp bom_trees).
Proof. intros Hb. unfold planned_summary. by rewrite Hb. Qed.

(** X7. The rows [calculate_advanced_mrp] returns come material by
    material, the materials in the order in which the aggregated
    requirements first name them and each material once; the rows of a
    material are in strictly ascending order of period, each period a
    demand date of the run. So no two rows have the same material and
    period. *)
Theorem returned_rows_order :
  ∀ inp rows,
    calculate_advanced_mrp inp (Returned rows) →
    NoDup (all_items (planned_summary inp)) ∧
    (∃ groups,
       rows = concat groups ∧
       Forall2
         (fun item group =>
            Forall (fun r => mr_item r = item) group ∧
            ascending (mr_period <$> group) ∧
            Forall (fun r => mr_period r ∈ all_dates (planned_summary inp)) group)
         (all_items (planned_summary inp)) groups) ∧
    NoDup ((fun r => (mr_item r, mr_period r)) <$> rows).
Proof.
  intros inp rows Hrun.
  inversion Hrun as [| |trees out Hb Hne Hloop]; subst.
  rewrite (planned_summary_built inp trees Hb).
  set (summary := gross_requirements_summary (all_requirements inp trees)) in *.
  destruct (netting_loop_groups _ _ _ _ _ Hloop) as (groups & -> & Hgroups).
  assert (Forall2 (group_of (all_dates summary)) (all_items summary) groups)
    as Hshape.
  { eapply Forall2_impl; [exact Hgroups|].
    intros item group (x & _ & ->). split.
    - apply Forall_forall. intros r Hr.
      by apply result_rows_fields in Hr as (-> & _).
    - apply result_rows_periods. }
  split_and!.
  - apply NoDup_unique.
  - exists groups. split; [done|].
    eapply Forall2_impl; [exact Hshape|].
    intros item group [Hitem Hsub]. split_and!; [done | |].
    + apply (ascending_sublist _ (all_dates summary)); [done|].
      apply ascending_all_dates.
    + apply Forall_forall. intros r Hr.
      assert (mr_period r ∈ mr_period <$> group) as Hin
        by by apply list_elem_of_fmap_2.
      exact (elem_of_submseteq _ _ _ Hin (sublist_submseteq _ _ Hsub)).
  - simpl. apply (NoDup_grouped_keys (all_dates summary) (all_items summary));
      [apply ascending_all_dates | apply NoDup_unique | done].
Qed.

Lemma returned_rows_order_witness :
  NoDup (all_items (planned_summary (lot_inputs lot_capacity))) ∧
  (∃ groups,
     lot_rows_capacity = concat groups ∧
     Forall2
       (fun item group =>
          Forall (fun r => mr_item r = item) group ∧
          ascending (mr_period <$> group) ∧
          Forall (fun r => mr_period r
                           ∈ all_dates (planned_summary (lot_inputs lot_capacity)))
            group)
       (all_items (planned_summary (lot_inputs lot_capacity))) groups) ∧
  NoDup ((fun r => (mr_item r, mr_period r)) <$> lot_rows_capacity).
Proof.
  apply (returned_rows_order (lot_inputs lot_capacity) lot_rows_capacity).
  by apply lot_run_capacity.
Defined.

(** *** The lot-size rule: the program, the function and the rows *)

(** X8. Within the bound 999999 of the program, the quantities the
    lot-size constraints of [calculate_advanced_mrp] admit for a date are
    exactly those [apply_lot_sizing] leaves as they are under the rule of
    the material: 0, or a quantity that reaches the minimum lot and,
    with a multiple above 1, is a multiple of it. *)
Theorem lot_constraints_are_the_fixed_points :
  ∀ P x date,
    0 ≤ x date ≤ big_M →
    (lot_constraints P x date ↔
     LotSizing.apply_lot_sizing (x date) (pb_min_lot P) (pb_multiple P)
     = x date).
Proof.
  intros P x date [H0 HM]. rewrite lot_constraints_iff. split.
  - intros (_ & Hlot & Hmult).
    destruct (decide (x date = 0)) as [->|Hne];
      [by apply LotSizing.apply_lot_sizing_nonpos|].
    destruct Hlot as [?|[_ Hmin]]; [done|].
    apply LotSizing.apply_lot_sizing_fixed; [lia | done |].
    intros Hm. destruct (Hmult Hm) as (j & _ & ->). by exists j.
  - intros Hfix. split_and!; [done | |].
    + destruct (decide (x date = 0)) as [Hz|Hnz]; [by left | right].
      split; [done|].
      pose proof (LotSizing.apply_lot_sizing_lower (x date) (pb_min_lot P)
                    (pb_multiple P) ltac:(lia)). lia.
    + intros Hm. destruct (decide (x date = 0)) as [Hz|Hnz]; [exists 0; lia|].
      destruct (LotSizing.apply_lot_sizing_round_up (x date) (pb_min_lot P)
                  (pb_multiple P) ltac:(lia) Hm) as [[j Hj] _].
      rewrite Hfix in Hj. exists j. split; [nia | done].
Qed.

Lemma lot_constraints_are_the_fixed_points_witness :
  lot_constraints (lot_problem None) lot_solution 1 ↔
  LotSizing.apply_lot_sizing 11 10 1 = 11.
Proof.
  apply (lot_constraints_are_the_fixed_points (lot_problem None) lot_solution 1).
  by vm_compute.
Defined.

(** X9. The net quantity of every returned row obeys the lot-size rule
    of its material, read from the last row of the lot-size table for it
    (minimum lot 0 and multiple 1 when there is none): it is at most
    999999, at least the minimum lot and, for a multiple above 1, a
    multiple of it; [apply_lot_sizing] would not change it. *)
Theorem returned_rows_lot_rule :
  ∀ inp rows,
    calculate_advanced_mrp inp (Returned rows) →
    ∀ r, r ∈ rows →
      let min_lot :=
        last_of ls_item ls_min_lot (default [] (lot_sizes inp)) (mr_item r) 0 in
      let multiple :=
        last_of ls_item ls_multiple (default [] (lot_sizes inp)) (mr_item r) 1 in
      mr_net r ≤ big_M ∧ min_lot ≤ mr_net r ∧
      (1 < multiple → (multiple | mr_net r)) ∧
      LotSizing.apply_lot_sizing (mr_net r) min_lot multiple = mr_net r.
Proof.
  intros inp rows Hrun.
  apply (run_rows_Forall _ inp rows); [|done].
  intros summary item x [(Hlot & _ & _) _]. apply Forall_forall. intros r Hr.
  pose proof (result_rows_fields _ _ _ _ _ _ _ _ Hr) as (-> & Hpos & _).
  apply result_rows_net in Hr as [Hperiod Hnet].
  specialize (Hlot _ Hperiod). apply lot_constraints_iff in Hlot
    as (_ & Hrule & Hmult).
  rewrite <- Hnet in Hrule, Hmult.
  assert (pb_min_lot (item_problem inp summary item)
          = last_of ls_item ls_min_lot (default [] (lot_sizes inp)) item 0)
    as Hmin.
  { simpl. unfold min_lot_size_map.
    destruct (lot_sizes inp) as [lss|]; [apply get_default_of_zip | done]. }
  assert (pb_multiple (item_problem inp summary item)
          = last_of ls_item ls_multiple (default [] (lot_sizes inp)) item 1)
    as Hmul.
  { simpl. unfold lot_multiple_map.
    destruct (lot_sizes inp) as [lss|]; [apply get_default_of_zip | done]. }
  rewrite Hmin in Hrule. rewrite Hmul in Hmult. cbv zeta.
  destruct Hrule as [?|[Hbig Hlow]]; [lia|].
  assert (1 < last_of ls_item ls_multiple (default [] (lot_sizes inp)) item 1
          → (last_of ls_item ls_multiple (default [] (lot_sizes inp)) item 1
             | mr_net r)) as Hdiv.
  { intros Hm. destruct (Hmult Hm) as (j & _ & ->). by exists j. }
  split_and!; [done | done | done |].
  by apply LotSizing.apply_lot_sizing_fixed.
Qed.

Lemma returned_rows_lot_rule_witness :
  calculate_advanced_mrp (lot_inputs None) (Returned lot_rows) ∧
  ∀ r, r ∈ lot_rows →
    let min_lot := last_of ls_item ls_min_lot [LotSizeRow "M" 10 1] (mr_item r) 0 in
    let multiple := last_of ls_item ls_multiple [LotSizeRow "M" 10 1] (mr_item r) 1 in
    mr_net r ≤ big_M ∧ min_lot ≤ mr_net r ∧
    (1 < multiple → (multiple | mr_net r)) ∧
    LotSizing.apply_lot_sizing (mr_net r) min_lot multiple = mr_net r.
Proof.
  split; [by apply lot_run_none|].
  apply (returned_rows_lot_rule (lot_inputs None) lot_rows).
  by apply lot_run_none.
Defined.

(** *** The totals behind a row *)

Lemma filter_fmap {A B} (f : A → B) (Q : B → Prop) `{∀ y, Decision (Q y)}
    (l : list A) :
  filter Q (f <$> l) = f <$> filter (fun a => Q (f a)) l.
Proof.
  induction l as [|a l IH]; [done|].
  cbn [fmap list_fmap]. rewrite !filter_cons.
  destruct (decide (Q (f a))); cbn [fmap list_fmap]; by rewrite IH.
Qed.

Lemma sum_on_cons k v rows item date :
  sum_on ((k, v) :: rows) item date
  = (if decide (k = (item, date)) then v else 0) + sum_on rows item date.
Proof.
  unfold sum_on. rewrite filter_cons. cbn [fst].
  destruct (decide (k = (item, date))); [done | lia].
Qed.

Lemma sum_on_groupby_insert k v acc item date :
  sum_on (groupby_insert k v acc) item date
  = sum_on acc item date + (if decide (k = (item, date)) then v else 0).
Proof.
  induction acc as [|[k' v'] acc IH].
  - cbn [groupby_insert]. rewrite sum_on_cons. unfold sum_on. simpl. lia.
  - cbn [groupby_insert]. destruct (decide (k = k')) as [->|Hne].
    + rewrite !sum_on_cons. destruct (decide (k' = (item, date))); lia.
    + destruct (key_ltb k k').
      * rewrite !sum_on_cons. lia.
      * rewrite !sum_on_cons, IH. lia.
Qed.

Lemma sum_on_groupby_sum rows item date :
  sum_on (groupby_sum rows) item date
  = sum_Z (snd <$> filter (fun row => row.1 = (item, date)) rows).
Proof.
  unfold groupby_sum.
  assert (∀ acc,
    sum_on (foldl (fun acc row => groupby_insert row.1 row.2 acc) acc rows)
      item date
    = sum_on acc item date
      + sum_Z (snd <$> filter (fun row => row.1 = (item, date)) rows)) as Hgen.
  { induction rows as [|[k v] rows IH]; intros acc.
    - simpl. lia.
    - cbn [foldl]. rewrite IH, sum_on_groupby_insert, filter_cons. cbn [fst snd].
      destruct (decide (k = (item, date))); [|lia].
      cbn [fmap list_fmap sum_Z foldr snd].
      fold (sum_Z (snd <$> filter (fun row => row.1 = (item, date)) rows)).
      lia. }
  rewrite Hgen. unfold sum_on. simpl. lia.
Qed.

(** The gross requirements of a run, before they are aggregated. *)
Definition planned_requirements (inp : inputs) : list requirement :=
  match build_bom_trees inp (unique (plan_product <$> production_plan inp)) [] with
  | inr bom_trees => all_requirements inp bom_trees
  | inl _ => []
  end.

(** The quantity on order for a material that arrives on a date. *)
Definition receipts (orders : option (list purchase_row)) (item : string)
    (date : Z) : Z :=
  sum_Z (po_quantity
           <$> filter (fun o => po_item o = item ∧ po_arrival o = date)
                 (default [] orders)).

Lemma sum_on_requirements reqs item date :
  sum_on (gross_requirements_summary reqs) item date
  = sum_Z (req_quantity
             <$> filter (fun q => req_item q = item ∧ req_date q = date) reqs).
Proof.
  unfold gross_requirements_summary.
  rewrite sum_on_groupby_sum, filter_fmap, <- list_fmap_compose.
  f_equal. cbn [fst]. erewrite list_filter_iff; [done|].
  intros q. split; [by intros [= -> ->] | by intros [-> ->]].
Qed.

Lemma sum_on_po_summary inp item date :
  sum_on (po_summary inp) item date = receipts (purchase_orders inp) item date.
Proof.
  unfold po_summary, receipts.
  destruct (purchase_orders inp) as [[|o orders]|]; [done | | done].
  rewrite sum_on_groupby_sum, filter_fmap, <- list_fmap_compose.
  f_equal. cbn [fst default]. erewrite list_filter_iff; [done|].
  intros q. split; [by intros [= -> ->] | by intros [-> ->]].
Qed.

(** X10. In every returned row the gross requirement is the total
    quantity of the exploded requirements of its material that are dated
    on its period, over all lines of the plan, and the receipt is the
    total quantity of the purchase orders of its material that arrive on
    its period (0 without a purchase-order table). *)
Theorem returned_row_totals :
  ∀ inp rows,
    calculate_advanced_mrp inp (Returned rows) →
    ∀ r, r ∈ rows →
      mr_gross r
      = sum_Z (req_quantity
                 <$> filter (fun q => req_item q = mr_item r ∧
                                      req_date q = mr_period r)
                       (planned_requirements inp)) ∧
      mr_receipt r = receipts (purchase_orders inp) (mr_item r) (mr_period r).
Proof.
  intros inp rows Hrun.
  inversion Hrun as [| |trees out Hb Hne Hloop]; subst.
  unfold planned_requirements. rewrite Hb.
  apply Forall_forall.
  eapply netting_loop_Forall; [| |exact Hloop]; [|constructor].
  intros item x _ _. apply Forall_forall. intros r Hr.
  apply result_rows_fields in Hr as (-> & _ & _ & _ & _ & _ & Hgross & Hreceipt).
  rewrite Hgross, Hreceipt. split.
  - apply sum_on_requirements.
  - apply sum_on_po_summary.
Qed.

(** Product P, 10 due on day 100, takes 8 days to make and is made of
    two S; S is planned on its own as well, 5 on day 92, and has 5 and 7
    on order for day 92. *)
Definition totals_inputs : inputs :=
  Inputs [PlanRow "P" 10 100; PlanRow "S" 5 92] [BomRow "P" "S" 2]
    [InventoryRow "P" 10 0] (Some [PurchaseRow "S" 5 92; PurchaseRow "S" 7 92])
    (Some [LeadTimeRow "S" 0 4; LeadTimeRow "P" 8 0]) None None.

Definition totals_rows : list mrp_result :=
  [MrpResult "S" 92 88 25 0 0 12 13 0 0 4].

Definition totals_summary : list ((string * Z) * Z) :=
  [(("P"%string, 92), 10); (("S"%string, 92), 25)].

Lemma totals_run : calculate_advanced_mrp totals_inputs (Returned totals_rows).
Proof.
  apply (mrp_netting _ [("P"%string, BomTree [("S"%string, (2, 1, BomTree []))]);
                        ("S"%string, BomTree [])]); [done | done |].
  change (netting_loop totals_inputs totals_summary ["P"%string; "S"%string] []
            (Returned totals_rows)).
  apply (loop_optimal _ _ _ _ _
           (greedy_solution (item_problem totals_inputs totals_summary "P"))).
  { apply greedy_optimal.
    - apply NoDup_all_dates.
    - by vm_compute.
    - by vm_compute.
    - intros date Hdate. change (date ∈ [92]) in Hdate.
      apply list_elem_of_singleton in Hdate as ->. by vm_compute.
    - intros resource dc date capacity Hin. by apply elem_of_nil in Hin. }
  apply (loop_optimal _ _ _ _ _
           (greedy_solution (item_problem totals_inputs totals_summary "S"))).
  { apply greedy_optimal.
    - apply NoDup_all_dates.
    - by vm_compute.
    - by vm_compute.
    - intros date Hdate. change (date ∈ [92]) in Hdate.
      apply list_elem_of_singleton in Hdate as ->. by vm_compute.
    - intros resource dc date capacity Hin. by apply elem_of_nil in Hin. }
  by apply netting_loop_end.
Qed.

Lemma returned_row_totals_witness :
  calculate_advanced_mrp totals_inputs (Returned totals_rows) ∧
  ∀ r, r ∈ totals_rows →
    mr_gross r
    = sum_Z (req_quantity
               <$> filter (fun q => req_item q = mr_item r ∧
                                    req_date q = mr_period r)
                     [Requirement "P" 10 92 0; Requirement "S" 20 92 1;
                      Requirement "S" 5 92 0]) ∧
    mr_receipt r
    = receipts (Some [PurchaseRow "S" 5 92; PurchaseRow "S" 7 92])
        (mr_item r) (mr_period r).
Proof.
  split; [exact totals_run|].
  apply (returned_row_totals totals_inputs totals_rows).
  exact totals_run.
Defined.

(** *** Positive quantities stay positive *)

Lemma usage_product_positive bom_data parent level t chain :
  (∀ row, row ∈ bom_data → 0 < usage row) →
  tree_of bom_data parent level t → node_at t chain →
  0 < usage_product chain.
Proof.
  intros Hpos Htree Hnode. revert parent level Htree.
  induction Hnode as [t|entries child_item child_usage lvl children chain Hin
                        Hnode IH]; intros parent level Htree; [done|].
  apply tree_of_entries in Htree. rewrite Forall_forall in Htree.
  destruct (Htree _ Hin) as (_ & Hrow & Hchildren). simpl in Hrow, Hchildren.
  specialize (IH _ _ Hchildren). specialize (Hpos _ Hrow). simpl in Hpos.
  unfold usage_product in *. cbn [fmap list_fmap snd foldr]. nia.
Qed.

Lemma build_bom_trees_tree_of inp products bom_trees trees :
  Forall (fun e => tree_of (bom_data inp) e.1 0 e.2) bom_trees →
  build_bom_trees inp products bom_trees = inr trees →
  Forall (fun e => tree_of (bom_data inp) e.1 0 e.2) trees.
Proof.
  revert bom_trees. induction products as [|product rest IH];
    intros bom_trees Hall; simpl.
  - by intros [= <-].
  - destruct (build product (bom_data inp)) as [| |t] eqn:Hb; try discriminate.
    apply IH. apply PyDict.Forall_set; [done|]. simpl.
    by apply (build_bom_tree_tree_of _ _ _ _ _ _ Hb).
Qed.

Lemma requirements_positive inp bom_trees :
  (∀ row, row ∈ production_plan inp → 0 < plan_quantity row) →
  (∀ row, row ∈ bom_data inp → 0 < usage row) →
  build_bom_trees inp (unique (plan_product <$> production_plan inp)) []
  = inr bom_trees →
  ∀ q, q ∈ all_requirements inp bom_trees → 0 < req_quantity q.
Proof.
  intros Hplan Hbom Hb q Hq.
  pose proof (build_bom_trees_tree_of inp _ [] bom_trees (Forall_nil_2 _) Hb)
    as Htrees.
  unfold all_requirements in Hq.
  apply list_elem_of_In, in_flat_map in Hq as (row & Hrow & Hq).
  apply list_elem_of_In in Hrow. apply list_elem_of_In in Hq.
  rewrite advanced_explosion in Hq.
  apply list_elem_of_fmap in Hq as (chain & -> & Hchain).
  apply chains_node_at in Hchain. simpl.
  assert (tree_of (bom_data inp) (plan_product row) 0
            (PyDict.get_default bom_trees (plan_product row) (BomTree [])))
    as Htree.
  { unfold PyDict.get_default.
    destruct (PyDict.get bom_trees (plan_product row)) as [t|] eqn:Hget; [|done].
    apply PyDict.get_Some_elem in Hget. rewrite Forall_forall in Htrees.
    apply (Htrees _ Hget). }
  pose proof (usage_product_positive _ _ _ _ _ Hbom Htree Hchain).
  specialize (Hplan _ Hrow). nia.
Qed.

(** *** The materials of the returned rows *)

Lemma groupby_insert_keys k v acc k' :
  k' ∈ (groupby_insert k v acc).*1 → k' = k ∨ k' ∈ acc.*1.
Proof.
  induction acc as [|[k0 v0] acc IH]; cbn [groupby_insert].
  - intros Hk. apply list_elem_of_singleton in Hk. by left.
  - destruct (decide (k = k0)) as [->|Hne]; [by right|].
    destruct (key_ltb k k0); cbn [fmap list_fmap fst].
    + intros [->|Hk]%elem_of_cons; [by left | by right].
    + intros [->|Hk]%elem_of_cons; [right; apply list_elem_of_here|].
      destruct (IH Hk) as [->|Hin]; [by left|].
      right. by apply list_elem_of_further.
Qed.

Lemma groupby_sum_keys rows k : k ∈ (groupby_sum rows).*1 → k ∈ rows.*1.
Proof.
  unfold groupby_sum.
  assert (∀ acc,
    k ∈ (foldl (fun acc row => groupby_insert row.1 row.2 acc) acc rows).*1 →
    k ∈ acc.*1 ∨ k ∈ rows.*1) as Hgen.
  { induction rows as [|[k0 v0] rows IH]; intros acc; [by left|].
    cbn [foldl fst snd fmap list_fmap]. intros Hk.
    destruct (IH _ Hk) as [Hin|Hin].
    - apply groupby_insert_keys in Hin as [->|Hin];
        [right; apply list_elem_of_here | by left].
    - right. by apply list_elem_of_further. }
  intros Hk. destruct (Hgen [] Hk) as [Hin|Hin]; [|done].
  by apply elem_of_nil in Hin.
Qed.

Lemma last_chain_item (root_item : string) (chain : list (string * Z)) :
  last (root_item :: chain.*1) = Some (chain_item root_item chain).
Proof.
  unfold chain_item. generalize (chain.*1). intros l. revert root_item.
  induction l as [|x l IH]; intros root_item; [done|].
  rewrite last_cons_cons, IH. by rewrite last_cons_default.
Qed.

Lemma tree_walk bom_data parent level t chain :
  tree_of bom_data parent level t → node_at t chain →
  walk bom_data (parent :: chain.*1).
Proof.
  intros Htree Hnode. revert parent level Htree.
  induction Hnode as [t|entries child_item child_usage lvl children chain Hin
                        Hnode IH]; intros parent level Htree; [constructor|].
  apply tree_of_entries in Htree. rewrite Forall_forall in Htree.
  destruct (Htree _ Hin) as (_ & Hrow & Hchildren). simpl in Hrow, Hchildren.
  cbn [fmap list_fmap fst]. apply walk_step; [|by eapply IH].
  by exists (BomRow parent child_item child_usage).
Qed.

Lemma requirement_walk inp bom_trees q :
  build_bom_trees inp (unique (plan_product <$> production_plan inp)) []
  = inr bom_trees →
  q ∈ all_requirements inp bom_trees →
  ∃ row w,
    row ∈ production_plan inp ∧
    walk (bom_data inp) (plan_product row :: w) ∧
    last (plan_product row :: w) = Some (req_item q).
Proof.
  intros Hb Hq.
  pose proof (build_bom_trees_tree_of inp _ [] bom_trees (Forall_nil_2 _) Hb)
    as Htrees.
  unfold all_requirements in Hq.
  apply list_elem_of_In, in_flat_map in Hq as (row & Hrow & Hq).
  apply list_elem_of_In in Hrow. apply list_elem_of_In in Hq.
  rewrite advanced_explosion in Hq.
  apply list_elem_of_fmap in Hq as (chain & -> & Hchain).
  apply chains_node_at in Hchain. simpl.
  assert (tree_of (bom_data inp) (plan_product row) 0
            (PyDict.get_default bom_trees (plan_product row) (BomTree [])))
    as Htree.
  { unfold PyDict.get_default.
    destruct (PyDict.get bom_trees (plan_product row)) as [t|] eqn:Hget; [|done].
    apply PyDict.get_Some_elem in Hget. rewrite Forall_forall in Htrees.
    apply (Htrees _ Hget). }
  exists row, (chain.*1). split_and!; [done | | apply last_chain_item].
  by apply (tree_walk _ _ 0 _ _ Htree).
Qed.

Lemma row_requirement inp rows r :
  calculate_advanced_mrp inp (Returned rows) → r ∈ rows →
  ∃ q, q ∈ planned_requirements inp ∧ req_item q = mr_item r.
Proof.
  intros Hrun Hr.
  inversion Hrun as [| |trees out Hb Hne Hloop]; subst.
  unfold planned_requirements. rewrite Hb.
  destruct (netting_loop_groups _ _ _ _ _ Hloop) as (groups & -> & Hgroups).
  assert (mr_item r ∈ all_items
            (gross_requirements_summary (all_requirements inp trees))) as Hitem.
  { apply (concat_group_item
             (all_dates (gross_requirements_summary (all_requirements inp trees)))
             _ groups); [|done].
    eapply Forall2_impl; [exact Hgroups|].
    intros item group (x & _ & ->). split.
    - apply Forall_forall. intros r' Hr'.
      by apply result_rows_fields in Hr' as (-> & _).
    - apply result_rows_periods. }
  apply elem_of_unique, list_elem_of_fmap in Hitem as ([item date] & -> & Hkey).
  apply groupby_sum_keys in Hkey.
  rewrite <- list_fmap_compose in Hkey.
  apply list_elem_of_fmap in Hkey as (q & [= -> ->] & Hq).
  by exists q.
Qed.

(** X20. Every row [calculate_advanced_mrp] returns is for a material
    of the exploded plan: a product of some plan line, or a material
    that a path of BOM rows leads to from such a product. *)
Theorem returned_rows_materials :
  ∀ inp rows,
    calculate_advanced_mrp inp (Returned rows) →
    ∀ r, r ∈ rows →
      ∃ row w,
        row ∈ production_plan inp ∧
        walk (bom_data inp) (plan_product row :: w) ∧
        last (plan_product row :: w) = Some (mr_item r).
Proof.
  intros inp rows Hrun r Hr.
  destruct (row_requirement inp rows r Hrun Hr) as (q & Hq & <-).
  inversion Hrun as [| |trees out Hb Hne Hloop]; subst.
  unfold planned_requirements in Hq. rewrite Hb in Hq.
  by apply (requirement_walk inp trees).
Qed.

Lemma returned_rows_materials_witness :
  calculate_advanced_mrp totals_inputs (Returned totals_rows) ∧
  ∀ r, r ∈ totals_rows →
    ∃ row w,
      row ∈ production_plan totals_inputs ∧
      walk (bom_data totals_inputs) (plan_product row :: w) ∧
      last (plan_product row :: w) = Some (mr_item r).
Proof.
  split; [exact totals_run|].
  apply (returned_rows_materials totals_inputs totals_rows).
  exact totals_run.
Defined.

(** *** What a call takes from the purchase orders *)

(** The arguments of a call with another purchase-order table. *)
Definition with_purchase_orders (inp : inputs)
    (orders : option (list purchase_row)) : inputs :=
  Inputs (production_plan inp) (bom_data inp) (inventory_data inp)
    orders (lead_times inp) (lot_sizes inp) (capacity_constraints inp).

Section two_order_tables.
Variable inp : inputs.
Variables orders1 orders2 : option (list purchase_row).
Variable summary : list ((string * Z) * Z).
Hypothesis Hsame :
  ∀ item date, date ∈ all_dates summary →
    receipts orders1 item date = receipts orders2 item date.

Let P1 (item : string) : problem :=
  item_problem (with_purchase_orders inp orders1) summary item.
Let P2 (item : string) : problem :=
  item_problem (with_purchase_orders inp orders2) summary item.

Lemma receipt_same item date :
  date ∈ all_dates summary → pb_receipt (P1 item) date = pb_receipt (P2 item) date.
Proof.
  intros Hdate. unfold P1, P2. cbn [pb_receipt item_problem].
  rewrite !sum_on_po_summary. by apply Hsame.
Qed.

Lemma inventory_constraints_orders item x inventory_level dates :
  (∀ date, date ∈ dates → date ∈ all_dates summary) →
  inventory_constraints (P1 item) x inventory_level dates →
  inventory_constraints (P2 item) x inventory_level dates.
Proof.
  revert inventory_level. induction dates as [|date rest IH];
    intros inventory_level Hsub; [done|].
  cbn [inventory_constraints].
  rewrite (receipt_same item date) by apply Hsub, list_elem_of_here.
  intros [Hss Hrest]. split; [exact Hss|].
  apply IH; [|exact Hrest]. intros d Hd. apply Hsub. by apply list_elem_of_further.
Qed.

Lemma result_rows_orders item plt pult x inventory_level dates :
  (∀ date, date ∈ dates → date ∈ all_dates summary) →
  result_rows item plt pult (P1 item) x inventory_level dates
  = result_rows item plt pult (P2 item) x inventory_level dates.
Proof.
  revert inventory_level. induction dates as [|date rest IH];
    intros inventory_level Hsub; [done|].
  cbn [result_rows].
  rewrite (receipt_same item date) by apply Hsub, list_elem_of_here.
  rewrite IH; [done|]. intros d Hd. apply Hsub. by apply list_elem_of_further.
Qed.

Lemma feasible_orders item x : feasible (P1 item) x → feasible (P2 item) x.
Proof.
  intros (Hlot & Hinv & Hcap). split_and!; [exact Hlot | | exact Hcap].
  by apply inventory_constraints_orders.
Qed.

End two_order_tables.

Lemma Solve_orders inp orders1 orders2 summary item status :
  (∀ item date, date ∈ all_dates summary →
     receipts orders1 item date = receipts orders2 item date) →
  Solve (item_problem (with_purchase_orders inp orders1) summary item) status →
  Solve (item_problem (with_purchase_orders inp orders2) summary item) status.
Proof.
  intros Hsame.
  assert (∀ item date, date ∈ all_dates summary →
            receipts orders2 item date = receipts orders1 item date) as Hsame'
    by (intros i d Hd; symmetry; by apply Hsame).
  destruct status as [x|]; simpl.
  - intros [Hfeas Hopt]. split.
    + by apply (feasible_orders inp orders1 orders2).
    + intros y Hy. apply (Hopt y). by apply (feasible_orders inp orders2 orders1).
  - intros Hnone x Hx. apply (Hnone x).
    by apply (feasible_orders inp orders2 orders1).
Qed.

Lemma netting_loop_orders inp orders1 orders2 summary items acc out :
  (∀ item date, date ∈ all_dates summary →
     receipts orders1 item date = receipts orders2 item date) →
  netting_loop (with_purchase_orders inp orders1) summary items acc out →
  netting_loop (with_purchase_orders inp orders2) summary items acc out.
Proof.
  intros Hsame Hloop.
  induction Hloop as [acc | item items acc x out Hsolve Hloop IH
                     | item items acc Hsolve].
  - constructor.
  - apply (loop_optimal _ _ _ _ _ x);
      [by apply (Solve_orders inp orders1 orders2)|].
    replace (item_rows (with_purchase_orders inp orders2) summary item x)
      with (item_rows (with_purchase_orders inp orders1) summary item x);
      [done|].
    by apply (result_rows_orders inp orders1 orders2).
  - apply loop_infeasible. by apply (Solve_orders inp orders1 orders2).
Qed.

Lemma run_orders inp orders1 orders2 out :
  (∀ item date, date ∈ all_dates (planned_summary inp) →
     receipts orders1 item date = receipts orders2 item date) →
  calculate_advanced_mrp (with_purchase_orders inp orders1) out →
  calculate_advanced_mrp (with_purchase_orders inp orders2) out.
Proof.
  intros Hsame Hrun.
  inversion Hrun as [msg Hb|trees Hb He|trees ? Hb Hne Hloop]; subst.
  - by apply mrp_circular.
  - by apply (mrp_no_requirement _ trees).
  - apply (mrp_netting _ trees); [exact Hb | exact Hne |].
    unfold planned_summary in Hsame.
    change (build_bom_trees inp (unique (plan_product <$> production_plan inp)) [])
      with (build_bom_trees (with_purchase_orders inp orders1)
              (unique (plan_product
                         <$> production_plan (with_purchase_orders inp orders1))) [])
      in Hsame.
    rewrite Hb in Hsame.
    by apply (netting_loop_orders inp orders1 orders2).
Qed.

Lemma filter_all_out {A} (Q : A → Prop) `{∀ a, Decision (Q a)} (l : list A) :
  (∀ a, a ∈ l → ¬ Q a) → filter Q l = [].
Proof.
  induction l as [|a l IH]; intros Hall; [done|].
  rewrite filter_cons, decide_False by apply Hall, list_elem_of_here.
  apply IH. intros b Hb. apply Hall. by apply list_elem_of_further.
Qed.

Lemma receipts_app orders extra item date :
  receipts (Some (orders ++ extra)) item date
  = receipts (Some orders) item date + receipts (Some extra) item date.
Proof.
  unfold receipts. cbn [from_option id]. rewrite filter_app, fmap_app.
  unfold sum_Z. rewrite foldr_app.
  generalize (po_quantity
                <$> filter (fun o => po_item o = item ∧ po_arrival o = date) orders).
  intros l. induction l as [|z l IH]; simpl; [lia|]. rewrite IH. lia.
Qed.

(** X11. The purchase orders enter a call through one figure only: the
    total quantity of a material that arrives on a demand date of the
    run. Two calls whose purchase-order tables give the same totals on
    those dates end in the same ways. So an order that arrives on a day
    that is no demand date of the run is never counted, neither as a
    receipt nor in the projected inventory. *)
Theorem purchase_orders_by_their_totals :
  ∀ inp,
    (∀ orders1 orders2 out,
       (∀ item date, date ∈ all_dates (planned_summary inp) →
          receipts orders1 item date = receipts orders2 item date) →
       (calculate_advanced_mrp (with_purchase_orders inp orders1) out ↔
        calculate_advanced_mrp (with_purchase_orders inp orders2) out)) ∧
    (∀ orders extra out,
       (∀ o, o ∈ extra → po_arrival o ∉ all_dates (planned_summary inp)) →
       (calculate_advanced_mrp (with_purchase_orders inp (Some (orders ++ extra))) out ↔
        calculate_advanced_mrp (with_purchase_orders inp (Some orders)) out)).
Proof.
  intros inp.
  assert (∀ orders1 orders2 out,
    (∀ item date, date ∈ all_dates (planned_summary inp) →
       receipts orders1 item date = receipts orders2 item date) →
    (calculate_advanced_mrp (with_purchase_orders inp orders1) out ↔
     calculate_advanced_mrp (with_purchase_orders inp orders2) out)) as Htotals.
  { intros orders1 orders2 out Hsame. split.
    - by apply run_orders.
    - apply run_orders. intros item date Hdate. symmetry. by apply Hsame. }
  split; [exact Htotals|].
  intros orders extra out Hoff. apply Htotals.
  intros item date Hdate. rewrite receipts_app.
  assert (receipts (Some extra) item date = 0) as ->; [|lia].
  unfold receipts. cbn [from_option id].
  assert (filter (fun o => po_item o = item ∧ po_arrival o = date) extra = [])
    as ->; [|done].
  apply filter_all_out. intros o Ho [_ Harr]. apply (Hoff o Ho). by rewrite Harr.
Qed.

Lemma purchase_orders_by_their_totals_witness :
  calculate_advanced_mrp
    (with_purchase_orders totals_inputs
       (Some ([PurchaseRow "S" 12 92] ++ [PurchaseRow "S" 100 91])))
    (Returned totals_rows) ↔
  calculate_advanced_mrp
    (with_purchase_orders totals_inputs (Some [PurchaseRow "S" 12 92]))
    (Returned totals_rows).
Proof.
  apply (proj2 (purchase_orders_by_their_totals totals_inputs)
           [PurchaseRow "S" 12 92] [PurchaseRow "S" 100 91] (Returned totals_rows)).
  intros o Ho. apply list_elem_of_singleton in Ho as ->.
  change (91 ∉ [92]). intros Hin. apply list_elem_of_singleton in Hin.
  discriminate Hin.
Defined.

End Netting.

(* ================================================================== *)
(** ** The basic computation: [calculate_mrp] *)
(* ================================================================== *)

Module BasicMrp.
Import Bom Explosion Netting.

(** The arguments of [calculate_mrp] (app.py), after the column checks
    and the date conversions of its first step. *)
Record basic_inputs := BasicInputs {
  b_production_plan : list plan_row;
  b_bom_data : list bom_row;
  b_inventory_data : list inventory_row;
  b_purchase_orders : option (list purchase_row)
}.

(** A row of the result: 物料编码, 需求周期, 总需求量, 期初库存, 安全库存,
    采购到货, 净需求量, 期末库存. *)
Record basic_result := BasicResult {
  br_item : string;
  br_period : Z;
  br_gross : Z;
  br_opening : Z;
  br_safety_stock : Z;
  br_receipt : Z;
  br_net : Z;
  br_closing : Z
}.

Inductive basic_outcome :=
| BasicRaised (message : string)
| BasicReturned (mrp_results : list basic_result).

(** The steps [calculate_mrp] shares word for word with
    [calculate_advanced_mrp] (the BOM trees, the two stock dictionaries,
    the summary of the purchase orders, the aggregation of the
    requirements) are read off the same tables given as arguments of the
    latter, without any of its optional tables. *)
Definition shared (inp : basic_inputs) : inputs :=
  Inputs (b_production_plan inp) (b_bom_data inp) (b_inventory_data inp)
    (b_purchase_orders inp) None None None.

(** Step 5: the gross requirements of every plan line, each child a
    week before its parent. *)
Definition basic_requirements (inp : basic_inputs)
    (bom_trees : list (string * bom_tree)) : list requirement :=
  flat_map
    (fun row =>
       Basic.get_all_requirements
         (plan_product row) (plan_quantity row) (plan_date row)
         (PyDict.get_default bom_trees (plan_product row) (BomTree [])) 0)
    (b_production_plan inp).

(** Step 8, the program of one material: a variable [NumVar(0, inf)] per
    date and the inventory constraints, nothing else. Of the record
    [problem] it reads the dates, the demand, the receipts and the two
    stock figures. As in [Netting], the values are integers. *)
Definition basic_problem (inp : basic_inputs)
    (summary : list ((string * Z) * Z)) (item : string) : problem :=
  item_problem (shared inp) summary item.

Definition basic_feasible (P : problem) (x : solution) : Prop :=
  (∀ date, date ∈ pb_dates P → 0 ≤ x date) ∧
  inventory_constraints P x (pb_inventory P) (pb_dates P).

Definition basic_optimal (P : problem) (x : solution) : Prop :=
  basic_feasible P x ∧
  ∀ y, basic_feasible P y → objective P x ≤ objective P y.

(** [solver.Solve()], by its contract as in [Netting]; for an answer
    within a tolerance see [Numeric.basic_Solve_within]. *)
Definition basic_Solve (P : problem) (status : solve_status) : Prop :=
  match status with
  | OPTIMAL x => basic_optimal P x
  | INFEASIBLE => ∀ x, ¬ basic_feasible P x
  end.

(** The result loop of one material. *)
Fixpoint basic_rows (item : string) (P : problem) (x : solution)
    (projected_inventory : Z) (dates : list Z) : list basic_result :=
  match dates with
  | [] => []
  | date :: rest =>
      let date_req := pb_demand P date in
      let date_po := pb_receipt P date in
      let net_req := x date in
      let closing := projected_inventory + date_po + net_req - date_req in
      (if 0 <? net_req
       then [BasicResult item date date_req projected_inventory
               (pb_safety_stock P) date_po net_req closing]
       else [])
      ++ basic_rows item P x closing rest
  end.

Section run.
Variable inp : basic_inputs.
Variable summary : list ((string * Z) * Z).

Definition basic_item_rows (item : string) (x : solution) : list basic_result :=
  basic_rows item (basic_problem inp summary item) x
    (pb_inventory (basic_problem inp summary item)) (all_dates summary).

Inductive basic_loop : list string → list basic_result → basic_outcome → Prop :=
| basic_done mrp_results :
    basic_loop [] mrp_results (BasicReturned mrp_results)
| basic_step item items mrp_results x out :
    basic_Solve (basic_problem inp summary item) (OPTIMAL x) →
    basic_loop items (mrp_results ++ basic_item_rows item x) out →
    basic_loop (item :: items) mrp_results out
| basic_no_optimum item items mrp_results :
    basic_Solve (basic_problem inp summary item) INFEASIBLE →
    basic_loop (item :: items) mrp_results
      (BasicRaised (no_optimum_message item)).

End run.

(** app.py, [calculate_mrp], steps 2 to 9, as the relation between the
    arguments and what a call may end in. *)
Inductive calculate_mrp (inp : basic_inputs) : basic_outcome → Prop :=
| basic_circular message :
    build_bom_trees (shared inp)
      (unique (plan_product <$> b_production_plan inp)) []
    = inl (CircularReference message) →
    calculate_mrp inp (BasicRaised message)
| basic_no_requirement bom_trees :
    build_bom_trees (shared inp)
      (unique (plan_product <$> b_production_plan inp)) []
    = inr bom_trees →
    basic_requirements inp bom_trees = [] →
    calculate_mrp inp (BasicRaised key_error_message)
| basic_netting bom_trees out :
    build_bom_trees (shared inp)
      (unique (plan_product <$> b_production_plan inp)) []
    = inr bom_trees →
    basic_requirements inp bom_trees ≠ [] →
    basic_loop inp
      (gross_requirements_summary (basic_requirements inp bom_trees))
      (all_items (gross_requirements_summary (basic_requirements inp bom_trees)))
      [] out →
    calculate_mrp inp out.

(** *** The program of a material always has an optimum *)

(** The largest amount by which the stock of a material would fall
    short of its safety stock at the end of a date of the run, were
    nothing ordered: the shortfall after each date, and the largest of
    them, 0 when the stock never falls short. *)
Fixpoint shortfalls (P : problem) (inventory_level : Z) (dates : list Z)
  : list Z :=
  match dates with
  | [] => []
  | date :: rest =>
      let level := inventory_level + pb_receipt P date - pb_demand P date in
      (pb_safety_stock P - level) :: shortfalls P level rest
  end.

Definition largest_shortfall (P : problem) : Z :=
  foldr Z.max 0 (shortfalls P (pb_inventory P) (pb_dates P)).

Lemma basic_rule inp summary item :
  pb_min_lot (basic_problem inp summary item) ≤ 0 ∧
  pb_multiple (basic_problem inp summary item) ≤ 1.
Proof. by split. Qed.

Lemma greedy_basic_optimal P :
  NoDup (pb_dates P) → pb_min_lot P ≤ 0 → pb_multiple P ≤ 1 →
  basic_optimal P (greedy_solution P).
Proof.
  intros Hnd Hmin Hmult. split.
  - split; [|by apply greedy_inventory].
    intros date _.
    apply (greedy_nonneg P Hmin Hmult (pb_inventory P) (pb_dates P) date).
  - intros y [Hy Hinv].
    pose proof (greedy_lower_bound P Hmin Hmult y (pb_inventory P)
                  (pb_inventory P) (pb_dates P) Hnd) as Hlow.
    lapply Hlow; [clear Hlow; intros Hlow | lia].
    specialize (Hlow Hy Hinv).
    unfold objective, greedy_solution, greedy_nets. lia.
Qed.

Lemma foldr_max_nonneg l : 0 ≤ foldr Z.max 0 l.
Proof. induction l as [|z l IH]; simpl; lia. Qed.

Lemma foldr_max_shift (n : Z) l :
  0 ≤ n →
  foldr Z.max 0 ((fun s => s - n) <$> l) = Z.max 0 (foldr Z.max 0 l - n).
Proof.
  intros Hn. induction l as [|z l IH]; cbn [fmap list_fmap foldr]; [lia|].
  rewrite IH. lia.
Qed.

Lemma shortfalls_shift P inventory_level n dates :
  shortfalls P (inventory_level + n) dates
  = (fun s => s - n) <$> shortfalls P inventory_level dates.
Proof.
  revert inventory_level. induction dates as [|date rest IH];
    intros inventory_level; [done|].
  cbn [shortfalls fmap list_fmap]. f_equal; [lia|].
  rewrite <- IH. f_equal. lia.
Qed.

(** The forward pass orders the largest shortfall in total. *)
Lemma greedy_total_shortfall P inventory_level dates :
  pb_min_lot P ≤ 0 → pb_multiple P ≤ 1 →
  sum_Z (snd <$> greedy_nets_from P inventory_level dates)
  = foldr Z.max 0 (shortfalls P inventory_level dates).
Proof.
  intros Hmin Hmult. revert inventory_level.
  induction dates as [|date rest IH]; intros inventory_level; [done|].
  unfold greedy_nets_from in *. cbn [Greedy.greedy_pass fmap list_fmap snd].
  rewrite lot_size_plain by (done || lia).
  change (sum_Z (?z :: ?l)) with (z + sum_Z l). rewrite IH.
  cbn [shortfalls foldr].
  set (n := Z.max 0 (pb_safety_stock P + pb_demand P date - pb_receipt P date
                     - inventory_level)).
  replace (inventory_level + pb_receipt P date + n - pb_demand P date)
    with (inventory_level + pb_receipt P date - pb_demand P date + n) by lia.
  rewrite shortfalls_shift, foldr_max_shift by lia.
  pose proof (foldr_max_nonneg
                (shortfalls P (inventory_level + pb_receipt P date
                               - pb_demand P date) rest)).
  lia.
Qed.

Lemma basic_objective P x :
  NoDup (pb_dates P) → pb_min_lot P ≤ 0 → pb_multiple P ≤ 1 →
  basic_optimal P x → objective P x = largest_shortfall P.
Proof.
  intros Hnd Hmin Hmult [Hfeas Hbest].
  destruct (greedy_basic_optimal P Hnd Hmin Hmult) as [Hgfeas Hgbest].
  assert (objective P x = objective P (greedy_solution P)) as ->.
  { apply Z.le_antisymm; [by apply Hbest | by apply Hgbest]. }
  unfold objective, greedy_solution, greedy_nets, largest_shortfall.
  rewrite <- greedy_total_shortfall by done.
  by apply (greedy_total P Hmin Hmult).
Qed.

(** *** The rows of a run *)

Lemma basic_rows_fields item P x inventory_level dates r :
  r ∈ basic_rows item P x inventory_level dates →
  br_item r = item ∧ 0 < br_net r ∧
  br_closing r = br_opening r + br_receipt r + br_net r - br_gross r ∧
  br_period r ∈ dates.
Proof.
  revert inventory_level. induction dates as [|date rest IH];
    intros inventory_level; simpl.
  - intros Hr. by apply elem_of_nil in Hr.
  - intros [Hr|Hr]%elem_of_app.
    + destruct (Z.ltb_spec 0 (x date)); [|by apply elem_of_nil in Hr].
      apply list_elem_of_singleton in Hr as ->. simpl.
      split_and!; [done | done | lia | apply list_elem_of_here].
    + destruct (IH _ Hr) as (? & ? & ? & ?).
      split_and!; [done.. | by apply list_elem_of_further].
Qed.

Lemma basic_rows_safety item P x inventory_level dates :
  inventory_constraints P x inventory_level dates →
  Forall (fun r => br_safety_stock r ≤ br_closing r)
    (basic_rows item P x inventory_level dates).
Proof.
  revert inventory_level. induction dates as [|date rest IH];
    intros inventory_level; simpl; [constructor|].
  intros [Hss Hrest]. apply Forall_app. split; [|by apply IH].
  destruct (0 <? x date); constructor; [done | constructor].
Qed.

Lemma basic_rows_total item P x inventory_level dates :
  (∀ date, date ∈ dates → 0 ≤ x date) →
  sum_Z (br_net <$> basic_rows item P x inventory_level dates)
  = sum_Z (x <$> dates).
Proof.
  revert inventory_level. induction dates as [|date rest IH];
    intros inventory_level Hx; [done|].
  cbn [basic_rows fmap list_fmap]. rewrite fmap_app.
  change (sum_Z (x date :: (x <$> rest))) with (x date + sum_Z (x <$> rest)).
  rewrite <- (IH (inventory_level + pb_receipt P date + x date - pb_demand P date))
    by (intros d Hd; apply Hx; by apply list_elem_of_further).
  pose proof (Hx date (list_elem_of_here _ _)).
  destruct (Z.ltb_spec 0 (x date)); simpl; [done | lia].
Qed.

Lemma basic_loop_groups inp summary items acc rows :
  basic_loop inp summary items acc (BasicReturned rows) →
  ∃ groups,
    rows = acc ++ concat groups ∧
    Forall2
      (fun item group =>
         ∃ x, basic_Solve (basic_problem inp summary item) (OPTIMAL x) ∧
              group = basic_item_rows inp summary item x)
      items groups.
Proof.
  intros Hloop. remember (BasicReturned rows) as out eqn:Hout.
  induction Hloop as [acc | item items acc x out Hsolve Hloop IH | ];
    [| |discriminate].
  - injection Hout as ->. exists []. simpl. rewrite app_nil_r.
    split; [done | constructor].
  - destruct (IH Hout) as (groups & -> & Hall).
    exists (basic_item_rows inp summary item x :: groups). simpl.
    rewrite <- app_assoc. split; [done|]. constructor; [by exists x | done].
Qed.

Lemma basic_loop_total inp summary items acc :
  ∃ rows, basic_loop inp summary items acc (BasicReturned rows).
Proof.
  revert acc. induction items as [|item items IH]; intros acc.
  - eexists. constructor.
  - destruct (IH (acc ++ basic_item_rows inp summary item
                          (greedy_solution (basic_problem inp summary item))))
      as [rows Hrows].
    exists rows. eapply basic_step; [|exact Hrows].
    apply greedy_basic_optimal; [apply NoDup_all_dates | done..].
Qed.

Lemma basic_loop_returns inp summary items acc out :
  basic_loop inp summary items acc out → ∃ rows, out = BasicReturned rows.
Proof.
  induction 1 as [acc | item items acc x out Hsolve Hloop IH
                 | item items acc Hsolve]; [by eexists | done |].
  exfalso.
  apply (Hsolve (greedy_solution (basic_problem inp summary item))).
  apply greedy_basic_optimal; [apply NoDup_all_dates | done..].
Qed.

Lemma basic_requirements_nil inp bom_trees :
  basic_requirements inp bom_trees = [] ↔ b_production_plan inp = [].
Proof.
  unfold basic_requirements. split.
  - destruct (b_production_plan inp) as [|row plan]; [done|]. simpl.
    rewrite basic_explosion.
    destruct (PyDict.get_default bom_trees (plan_product row) (BomTree []))
      as [entries]. discriminate.
  - by intros ->.
Qed.

Lemma built_plan_returns inp :
  b_production_plan inp ≠ [] →
  (∀ row, row ∈ b_production_plan inp →
          ∃ t, build (plan_product row) (b_bom_data inp) = Built t) →
  (∃ rows, calculate_mrp inp (BasicReturned rows)) ∧
  (∀ out, calculate_mrp inp out → ∃ rows, out = BasicReturned rows).
Proof.
  intros Hplan Hbuilt.
  destruct (build_bom_trees_Built (shared inp)
              (unique (plan_product <$> b_production_plan inp)) [])
    as [trees Htrees].
  { intros p Hp.
    apply elem_of_unique, list_elem_of_fmap in Hp as (row & -> & Hrow).
    by apply Hbuilt. }
  assert (basic_requirements inp trees ≠ []) as Hne
    by by rewrite basic_requirements_nil.
  split.
  - destruct (basic_loop_total inp
                (gross_requirements_summary (basic_requirements inp trees))
                (all_items (gross_requirements_summary
                              (basic_requirements inp trees))) [])
      as [rows Hrows].
    exists rows. by apply (basic_netting _ trees).
  - intros out Hrun.
    inversion Hrun as [msg Hb|trees' Hb He|trees' ? Hb Hne' Hloop]; subst.
    + congruence.
    + rewrite Htrees in Hb. injection Hb as <-. done.
    + by apply basic_loop_returns in Hloop.
Qed.

(** X12. The solver step of [calculate_mrp] cannot fail: the program
    of a material has the variables' lower bound 0 and the inventory
    constraints only, so ordering enough is always feasible. A call with
    a plan that has a row, and whose products reach no cycle of the BOM,
    returns rows and never raises; the other calls raise the [KeyError]
    of the empty plan or the circular-reference error, never the error
    of a material without an optimal solution. *)
Theorem calculate_mrp_returns :
  ∀ inp,
    (b_production_plan inp ≠ [] →
     (∀ row, row ∈ b_production_plan inp →
             acyclic_from (b_bom_data inp) (plan_product row)) →
     (∃ rows, calculate_mrp inp (BasicReturned rows)) ∧
     (∀ out, calculate_mrp inp out → ∃ rows, out = BasicReturned rows)) ∧
    (∀ out item,
       calculate_mrp inp out → out ≠ BasicRaised (no_optimum_message item)).
Proof.
  intros inp. split.
  - intros Hplan Hacyc. apply built_plan_returns; [done|].
    intros row Hrow. by apply build_acyclic, Hacyc.
  - intros out item Hrun ->.
    inversion Hrun as [msg Hb Hmsg| |trees ? Hb Hne Hloop]; subst.
    + destruct (build_bom_trees_message _ _ _ _ Hb) as [cycle Hcycle].
      by destruct (no_optimum_is_no_cycle item cycle).
    + by apply basic_loop_returns in Hloop as [rows Hrows].
Qed.

(** A plan for the product of [bom_chain]: its explosion dates B a week
    and C two weeks before A. *)
Definition chain_inputs : basic_inputs :=
  BasicInputs [PlanRow "A" 4 30] bom_chain [InventoryRow "B" 3 1] None.

Lemma calculate_mrp_returns_witness :
  (∃ rows, calculate_mrp chain_inputs (BasicReturned rows)) ∧
  (∀ out, calculate_mrp chain_inputs out → ∃ rows, out = BasicReturned rows).
Proof.
  apply (proj1 (calculate_mrp_returns chain_inputs)).
  - discriminate.
  - intros row Hrow. apply list_elem_of_singleton in Hrow as ->.
    exact bom_chain_acyclic.
Defined.

End BasicMrp.

(* ================================================================== *)
(** ** The netting in the numbers of the code: float64 and the solver's
       tolerance *)
(* ================================================================== *)

(** [Netting] and [BasicMrp] take every quantity as an integer and the
    solver's answer as exact. The code computes in float64: the tables
    may hold fractions ([validate_bom_data] accepts a usage of 0.1),
    [SolutionValue()] is a float64, and SCIP meets a constraint within its
    feasibility tolerance only. Here a quantity is a rational number,
    every sum and difference of the result loop is rounded, and the
    solver's answer meets the program within a tolerance. *)
Module Numeric.
Import QArith Lqa.
Local Open Scope Q_scope.

(** *** float64 *)

(** [rnd] is the rounding of float64: the value a sum or a difference is
    stored as. Of it the model asks one thing: a number [m * 2^e] with
    [|m| <= 2^53] and [-1074 <= e <= 970] is a float64 and is stored as
    it is. *)
Definition float64_exact (rnd : Q → Q) : Prop :=
  ∀ (q : Q) (m e : Z),
    (- 2 ^ 53 ≤ m ≤ 2 ^ 53)%Z → (- 1074 ≤ e ≤ 970)%Z →
    q == inject_Z m * 2 ^ e → rnd q = q.

(** The integers float64 holds without a gap. *)
Definition exact_range (z : Z) : Prop := (- 2 ^ 53 ≤ z ≤ 2 ^ 53)%Z.

Section float64.
Variable rnd : Q → Q.

(** [a + b] and [a - b] of two floats. *)
Definition fadd (a b : Q) : Q := rnd (a + b).
Definition fsub (a b : Q) : Q := rnd (a - b).

End float64.

(** *** The program of one material *)

(** As [Netting.problem], the quantities rational. *)
Record problem := Problem {
  pb_dates : list Z;
  pb_demand : Z → Q;
  pb_receipt : Z → Q;
  pb_inventory : Q;
  pb_safety_stock : Q;
  pb_min_lot : Q;
  pb_multiple : Q;
  pb_capacity_map : list (string * list (Z * Q))
}.

(** The value [SolutionValue()] gives for each [net_requirements[date]]. *)
Definition solution := Z → Q.

Definition big_M : Q := 999999.

Definition sum_Q (l : list Q) : Q := foldr Qplus 0 l.

(** The variables and constraints of [calculate_advanced_mrp] (lines
    221-256), each met within [tol]: the lower bound 0 of the variable,
    which is an [IntVar] for a material with a lot-size rule (line 223)
    and a [NumVar] otherwise, the two constraints on [is_produced], and
    the one on [lot_multiplier]; [is_produced] and [lot_multiplier] are
    integer variables of the solver. *)
Definition lot_within (tol : Q) (P : problem) (x : solution) (date : Z)
  : Prop :=
  - tol <= x date ∧
  (0 < pb_min_lot P ∨ 1 < pb_multiple P →
   ∃ value : Z, inject_Z value - tol <= x date ∧ x date <= inject_Z value + tol) ∧
  (∃ is_produced : Z,
     (0 ≤ is_produced ≤ 1)%Z ∧
     x date <= inject_Z is_produced * big_M + tol ∧
     inject_Z is_produced * pb_min_lot P - tol <= x date) ∧
  (1 < pb_multiple P →
   ∃ lot_multiplier : Z,
     (0 ≤ lot_multiplier)%Z ∧
     inject_Z lot_multiplier * pb_multiple P - tol <= x date ∧
     x date <= inject_Z lot_multiplier * pb_multiple P + tol).

(** [inventory_level += po_on_date + net_requirements[date] - demand_on_date;
     solver.Add(inventory_level >= safety_stock)], within [tol]. *)
Fixpoint inventory_within (tol : Q) (P : problem) (x : solution)
    (inventory_level : Q) (dates : list Z) : Prop :=
  match dates with
  | [] => True
  | date :: rest =>
      let inventory_level' :=
        inventory_level + pb_receipt P date + x date - pb_demand P date in
      pb_safety_stock P - tol <= inventory_level' ∧
      inventory_within tol P x inventory_level' rest
  end.

Definition capacity_within (tol : Q) (P : problem) (x : solution) : Prop :=
  ∀ resource date_capacity date capacity,
    (resource, date_capacity) ∈ pb_capacity_map P →
    (date, capacity) ∈ date_capacity →
    date ∈ pb_dates P →
    x date <= capacity + tol.

Definition feasible_within (tol : Q) (P : problem) (x : solution) : Prop :=
  (∀ date, date ∈ pb_dates P → lot_within tol P x date) ∧
  inventory_within tol P x (pb_inventory P) (pb_dates P) ∧
  capacity_within tol P x.

Definition objective (P : problem) (x : solution) : Q :=
  sum_Q (x <$> pb_dates P).

(** [solver.Solve()] answering [OPTIMAL] with the values [x]: they meet
    every constraint within the tolerance, and no point that meets the
    constraints exactly has an objective smaller by more than the
    tolerance. With tolerance 0 this is the contract of [Netting.Solve]. *)
Definition Solve_within (tol : Q) (P : problem) (x : solution) : Prop :=
  feasible_within tol P x ∧
  ∀ y, feasible_within 0 P y → objective P x <= objective P y + tol.

(** The program of [calculate_mrp] (app.py, lines 238-262): the lower
    bound 0 of the variables and the inventory constraints. *)
Definition basic_feasible_within (tol : Q) (P : problem) (x : solution)
  : Prop :=
  (∀ date, date ∈ pb_dates P → - tol <= x date) ∧
  inventory_within tol P x (pb_inventory P) (pb_dates P).

Definition basic_Solve_within (tol : Q) (P : problem) (x : solution) : Prop :=
  basic_feasible_within tol P x ∧
  ∀ y, basic_feasible_within 0 P y → objective P x <= objective P y + tol.

(** *** The result loops *)

(** A row of [calculate_advanced_mrp], and one of [calculate_mrp]. *)
Record mrp_result := MrpResult {
  mr_item : string;
  mr_period : Z;
  mr_order_date : Z;
  mr_gross : Q;
  mr_opening : Q;
  mr_safety_stock : Q;
  mr_receipt : Q;
  mr_net : Q;
  mr_closing : Q;
  mr_production_lead_time : Z;
  mr_purchase_lead_time : Z
}.

Record basic_result := BasicResult {
  br_item : string;
  br_period : Z;
  br_gross : Q;
  br_opening : Q;
  br_safety_stock : Q;
  br_receipt : Q;
  br_net : Q;
  br_closing : Q
}.

Section loops.
Variable rnd : Q → Q.

(** advanced_mrp.py, lines 273-304:
    [projected_inventory + date_po + net_req - date_req] is evaluated
    from the left, each step rounded. *)
Fixpoint result_rows (item : string)
    (production_lead_time purchase_lead_time : Z) (P : problem)
    (x : solution) (projected_inventory : Q) (dates : list Z)
  : list mrp_result :=
  match dates with
  | [] => []
  | date :: rest =>
      let date_req := pb_demand P date in
      let date_po := pb_receipt P date in
      let net_req := x date in
      let order_date := (date - purchase_lead_time)%Z in
      let closing :=
        fsub rnd (fadd rnd (fadd rnd projected_inventory date_po) net_req)
          date_req in
      (if Qlt_le_dec 0 net_req
       then [MrpResult item date order_date date_req projected_inventory
               (pb_safety_stock P) date_po net_req closing
               production_lead_time purchase_lead_time]
       else [])
      ++ result_rows item production_lead_time purchase_lead_time P x
           closing rest
  end.

(** The projected inventory after each date. *)
Fixpoint projected_inventories (P : problem) (x : solution)
    (projected_inventory : Q) (dates : list Z) : list Q :=
  match dates with
  | [] => []
  | date :: rest =>
      let closing :=
        fsub rnd
          (fadd rnd (fadd rnd projected_inventory (pb_receipt P date)) (x date))
          (pb_demand P date) in
      closing :: projected_inventories P x closing rest
  end.

(** app.py, lines 270-295. *)
Fixpoint basic_rows (item : string) (P : problem) (x : solution)
    (projected_inventory : Q) (dates : list Z) : list basic_result :=
  match dates with
  | [] => []
  | date :: rest =>
      let date_req := pb_demand P date in
      let date_po := pb_receipt P date in
      let net_req := x date in
      let closing :=
        fsub rnd (fadd rnd (fadd rnd projected_inventory date_po) net_req)
          date_req in
      (if Qlt_le_dec 0 net_req
       then [BasicResult item date date_req projected_inventory
               (pb_safety_stock P) date_po net_req closing]
       else [])
      ++ basic_rows item P x closing rest
  end.

End loops.

(** *** Integer quantities *)

(** A program, a row, of integer quantities. *)
Definition of_problem (P : Netting.problem) : problem :=
  Problem (Netting.pb_dates P)
    (fun date => inject_Z (Netting.pb_demand P date))
    (fun date => inject_Z (Netting.pb_receipt P date))
    (inject_Z (Netting.pb_inventory P))
    (inject_Z (Netting.pb_safety_stock P))
    (inject_Z (Netting.pb_min_lot P))
    (inject_Z (Netting.pb_multiple P))
    ((fun entry : string * list (Z * Z) =>
        (entry.1, (fun cell : Z * Z => (cell.1, inject_Z cell.2)) <$> entry.2))
       <$> Netting.pb_capacity_map P).

Definition of_result (r : Netting.mrp_result) : mrp_result :=
  MrpResult (Netting.mr_item r) (Netting.mr_period r) (Netting.mr_order_date r)
    (inject_Z (Netting.mr_gross r)) (inject_Z (Netting.mr_opening r))
    (inject_Z (Netting.mr_safety_stock r)) (inject_Z (Netting.mr_receipt r))
    (inject_Z (Netting.mr_net r)) (inject_Z (Netting.mr_closing r))
    (Netting.mr_production_lead_time r) (Netting.mr_purchase_lead_time r).

Definition of_basic_result (r : BasicMrp.basic_result) : basic_result :=
  BasicResult (BasicMrp.br_item r) (BasicMrp.br_period r)
    (inject_Z (BasicMrp.br_gross r)) (inject_Z (BasicMrp.br_opening r))
    (inject_Z (BasicMrp.br_safety_stock r)) (inject_Z (BasicMrp.br_receipt r))
    (inject_Z (BasicMrp.br_net r)) (inject_Z (BasicMrp.br_closing r)).

(** The three partial results of
    [projected_inventory + date_po + net_req - date_req], date after
    date. *)
Fixpoint partial_results (P : Netting.problem) (x : Z → Z)
    (projected_inventory : Z) (dates : list Z) : list Z :=
  match dates with
  | [] => []
  | date :: rest =>
      let s1 := (projected_inventory + Netting.pb_receipt P date)%Z in
      let s2 := (s1 + x date)%Z in
      let s3 := (s2 - Netting.pb_demand P date)%Z in
      s1 :: s2 :: s3 :: partial_results P x s3 rest
  end.

Lemma inject_Z_sub (a b : Z) : inject_Z a - inject_Z b = inject_Z (a - b).
Proof. unfold Qminus, Qplus, Qopp, inject_Z. simpl. f_equal. lia. Qed.

Lemma rnd_integer rnd z :
  float64_exact rnd → exact_range z → rnd (inject_Z z) = inject_Z z.
Proof.
  intros Hrnd Hz. apply (Hrnd _ z 0%Z); [done | lia |].
  change (2 ^ 0%Z) with 1. by rewrite Qmult_1_r.
Qed.

Lemma integer_within (tol : Q) (a b : Z) :
  tol < 1 → inject_Z a - tol <= inject_Z b → (a ≤ b)%Z.
Proof.
  intros Htol Hle. destruct (Z_le_gt_dec a b) as [H|H]; [done|]. exfalso.
  assert (inject_Z b + 1 <= inject_Z a) as Hq.
  { change 1 with (inject_Z 1). rewrite <- inject_Z_plus, <- Zle_Qle. lia. }
  lra.
Qed.

Lemma closing_integer rnd (level po net req : Z) :
  float64_exact rnd →
  exact_range (level + po) → exact_range (level + po + net) →
  exact_range (level + po + net - req) →
  fsub rnd (fadd rnd (fadd rnd (inject_Z level) (inject_Z po)) (inject_Z net))
    (inject_Z req)
  = inject_Z (level + po + net - req).
Proof.
  intros Hrnd H1 H2 H3. unfold fsub, fadd.
  rewrite <- inject_Z_plus, (rnd_integer rnd _ Hrnd H1).
  rewrite <- inject_Z_plus, (rnd_integer rnd _ Hrnd H2).
  by rewrite inject_Z_sub, (rnd_integer rnd _ Hrnd H3).
Qed.

Lemma positive_integer (z : Z) :
  (if Qlt_le_dec 0 (inject_Z z) then true else false) = (0 <? z)%Z.
Proof.
  destruct (Qlt_le_dec 0 (inject_Z z)) as [Hlt|Hle];
    destruct (Z.ltb_spec 0 z) as [Hz|Hz]; try done; exfalso.
  - change 0 with (inject_Z 0) in Hlt. rewrite <- Zlt_Qlt in Hlt. lia.
  - change 0 with (inject_Z 0) in Hle. rewrite <- Zle_Qle in Hle. lia.
Qed.

(** On integers within the exact range the loops of the code give the
    rows of [Netting] and of [BasicMrp]. *)
Lemma result_rows_integer rnd item plt pult P x xz level dates :
  float64_exact rnd →
  (∀ date, date ∈ dates → x date = inject_Z (xz date)) →
  Forall exact_range (partial_results P xz level dates) →
  result_rows rnd item plt pult (of_problem P) x (inject_Z level) dates
  = of_result <$> Netting.result_rows item plt pult P xz level dates.
Proof.
  intros Hrnd. revert level.
  induction dates as [|date rest IH]; intros level Hx Hrange; [done|].
  cbn [partial_results] in Hrange.
  apply Forall_cons in Hrange as [H1 Hrange].
  apply Forall_cons in Hrange as [H2 Hrange].
  apply Forall_cons in Hrange as [H3 Hrange].
  cbn [result_rows Netting.result_rows of_problem pb_demand pb_receipt
       pb_safety_stock].
  rewrite (Hx date) by apply list_elem_of_here.
  rewrite (closing_integer rnd _ _ _ _ Hrnd H1 H2 H3).
  rewrite fmap_app. f_equal.
  - pose proof (positive_integer (xz date)) as Hpos.
    destruct (Qlt_le_dec 0 (inject_Z (xz date)));
      destruct (0 <? xz date)%Z; try done.
  - apply IH; [|done]. intros d Hd. apply Hx. by apply list_elem_of_further.
Qed.

Lemma basic_rows_integer rnd item P x xz level dates :
  float64_exact rnd →
  (∀ date, date ∈ dates → x date = inject_Z (xz date)) →
  Forall exact_range (partial_results P xz level dates) →
  basic_rows rnd item (of_problem P) x (inject_Z level) dates
  = of_basic_result <$> BasicMrp.basic_rows item P xz level dates.
Proof.
  intros Hrnd. revert level.
  induction dates as [|date rest IH]; intros level Hx Hrange; [done|].
  cbn [partial_results] in Hrange.
  apply Forall_cons in Hrange as [H1 Hrange].
  apply Forall_cons in Hrange as [H2 Hrange].
  apply Forall_cons in Hrange as [H3 Hrange].
  cbn [basic_rows BasicMrp.basic_rows of_problem pb_demand pb_receipt
       pb_safety_stock].
  rewrite (Hx date) by apply list_elem_of_here.
  rewrite (closing_integer rnd _ _ _ _ Hrnd H1 H2 H3).
  rewrite fmap_app. f_equal.
  - pose proof (positive_integer (xz date)) as Hpos.
    destruct (Qlt_le_dec 0 (inject_Z (xz date)));
      destruct (0 <? xz date)%Z; try done.
  - apply IH; [|done]. intros d Hd. apply Hx. by apply list_elem_of_further.
Qed.

Lemma projected_inventories_integer rnd P x xz level dates :
  float64_exact rnd →
  (∀ date, date ∈ dates → x date = inject_Z (xz date)) →
  Forall exact_range (partial_results P xz level dates) →
  projected_inventories rnd (of_problem P) x (inject_Z level) dates
  = inject_Z <$> Netting.projected_inventories P xz level dates.
Proof.
  intros Hrnd. revert level.
  induction dates as [|date rest IH]; intros level Hx Hrange; [done|].
  cbn [partial_results] in Hrange.
  apply Forall_cons in Hrange as [H1 Hrange].
  apply Forall_cons in Hrange as [H2 Hrange].
  apply Forall_cons in Hrange as [H3 Hrange].
  cbn [projected_inventories Netting.projected_inventories of_problem
       pb_demand pb_receipt fmap list_fmap].
  rewrite (Hx date) by apply list_elem_of_here.
  rewrite (closing_integer rnd _ _ _ _ Hrnd H1 H2 H3).
  f_equal. apply IH; [|done]. intros d Hd. apply Hx. by apply list_elem_of_further.
Qed.

(** An integer answer that meets the inventory constraints within a
    tolerance below 1 meets them. *)
Lemma inventory_within_integer tol P x xz level dates :
  tol < 1 →
  (∀ date, date ∈ dates → x date = inject_Z (xz date)) →
  inventory_within tol (of_problem P) x (inject_Z level) dates →
  Netting.inventory_constraints P xz level dates.
Proof.
  intros Htol. revert level.
  induction dates as [|date rest IH]; intros level Hx Hinv; [done|].
  cbn [inventory_within of_problem pb_demand pb_receipt pb_safety_stock] in Hinv.
  rewrite (Hx date) in Hinv by apply list_elem_of_here.
  rewrite <- !inject_Z_plus, inject_Z_sub in Hinv.
  destruct Hinv as [Hss Hrest]. cbn [Netting.inventory_constraints]. split.
  - by apply (integer_within tol).
  - apply IH; [|done]. intros d Hd. apply Hx. by apply list_elem_of_further.
Qed.

Lemma inventory_constraints_within P y level dates :
  Netting.inventory_constraints P y level dates →
  inventory_within 0 (of_problem P) (fun date => inject_Z (y date))
    (inject_Z level) dates.
Proof.
  revert level. induction dates as [|date rest IH]; intros level Hinv; [done|].
  cbn [Netting.inventory_constraints] in Hinv. destruct Hinv as [Hss Hrest].
  cbn [inventory_within of_problem pb_demand pb_receipt pb_safety_stock].
  rewrite <- !inject_Z_plus, inject_Z_sub. split; [|by apply IH].
  unfold Qminus. rewrite Qplus_0_r. by rewrite <- Zle_Qle.
Qed.

Lemma sum_Q_inject {A} (f : A → Z) (l : list A) :
  sum_Q ((fun a => inject_Z (f a)) <$> l) = inject_Z (Netting.sum_Z (f <$> l)).
Proof.
  induction l as [|a l IH]; [done|].
  cbn [fmap list_fmap sum_Q Netting.sum_Z foldr].
  rewrite inject_Z_plus. f_equal. exact IH.
Qed.

Lemma sum_Q_integer (x : solution) (xz : Z → Z) dates :
  (∀ date, date ∈ dates → x date = inject_Z (xz date)) →
  sum_Q (x <$> dates) = inject_Z (Netting.sum_Z (xz <$> dates)).
Proof.
  induction dates as [|date rest IH]; intros Hx; [done|].
  cbn [fmap list_fmap sum_Q Netting.sum_Z foldr].
  rewrite (Hx date) by apply list_elem_of_here.
  rewrite inject_Z_plus. f_equal.
  apply IH. intros d Hd. apply Hx. by apply list_elem_of_further.
Qed.

(** *** The invariant of the rows *)

(** The specification's example as the solver sees it: material M, 20 on
    hand, safety stock 10, a demand of 25 on day 5; the answer 15. *)
Definition example_problem : Netting.problem :=
  Netting.item_problem Netting.example_inputs Netting.example_summary "M".

Definition example_answer : solution :=
  fun date => inject_Z (Netting.example_solution date).

Lemma exact_arithmetic : float64_exact (fun q => q).
Proof. by intros q m e _ _ _. Qed.

Lemma example_range :
  Forall exact_range
    (partial_results example_problem Netting.example_solution
       (Netting.pb_inventory example_problem)
       (Netting.pb_dates example_problem)).
Proof. repeat constructor; by vm_compute. Qed.

Lemma example_within : Solve_within (1 # 1000000) (of_problem example_problem)
                         example_answer.
Proof.
  split; [split_and!|].
  - intros date Hdate.
    change (pb_dates (of_problem example_problem)) with [5%Z] in Hdate.
    apply list_elem_of_singleton in Hdate as ->.
    unfold lot_within.
    change (example_answer 5%Z) with 15.
    change (pb_min_lot (of_problem example_problem)) with 0.
    change (pb_multiple (of_problem example_problem)) with 1.
    split_and!; [lra | intros [H|H]; lra | | intros H; lra].
    exists 1%Z. split; [lia|]. unfold big_M. change (inject_Z 1) with 1. lra.
  - change (10 - (1 # 1000000) <= 20 + 0 + 15 - 25 ∧ True).
    split; [lra | done].
  - intros resource date_capacity date capacity Hin.
    change (pb_capacity_map (of_problem example_problem)) with
      (@nil (string * list (Z * Q))) in Hin.
    by apply elem_of_nil in Hin.
  - intros y (_ & Hinv & _).
    change (10 - 0 <= 20 + 0 + y 5%Z - 25 ∧ True) in Hinv.
    destruct Hinv as [Hinv _].
    change (15 + 0 <= y 5%Z + 0 + (1 # 1000000)). lra.
Qed.

(** A demand of a quarter on day 1, nothing on hand, no safety stock;
    the answer a quarter less [2^-30], which meets the inventory
    constraint within [10^-6]. All the values are float64's. *)
Definition quarter_problem : problem :=
  Problem [1%Z] (fun _ => 1 # 4) (fun _ => 0) 0 0 0 1 [].

Definition quarter_answer : solution := fun _ => 268435455 # 1073741824.

Lemma rows_of_integers (zrows : list Netting.mrp_result) :
  Forall Netting.row_consistent zrows →
  ∀ r, r ∈ of_result <$> zrows →
    mr_closing r == mr_opening r + mr_receipt r + mr_net r - mr_gross r ∧
    mr_safety_stock r <= mr_closing r.
Proof.
  intros Hrows r (rz & -> & Hrz)%list_elem_of_fmap.
  rewrite Forall_forall in Hrows. destruct (Hrows rz Hrz) as [Hbalance Hsafety].
  cbn [of_result mr_closing mr_opening mr_receipt mr_net mr_gross
       mr_safety_stock].
  split.
  - rewrite <- !inject_Z_plus, inject_Z_sub, Hbalance. reflexivity.
  - by rewrite <- Zle_Qle.
Qed.

(** C4 (as amended). For a material whose stock, safety stock, demands
    and receipts are integers, when the values the solver answers with
    are integers, meet the program of [calculate_advanced_mrp] within a
    tolerance below 1, and every partial result of the result loop lies
    within [-2^53, 2^53], every row of the material has a closing
    inventory equal to opening + receipt + net - demand and not below
    the safety stock, and the inventory projected after each date is not
    below the safety stock: float64 computes these integers exactly and
    an integer answer within the tolerance is an exact one. *)
Theorem closing_inventory_invariant :
  ∀ rnd tol P x xz item production_lead_time purchase_lead_time,
    float64_exact rnd →
    tol < 1 →
    Solve_within tol (of_problem P) x →
    (∀ date, date ∈ Netting.pb_dates P → x date = inject_Z (xz date)) →
    Forall exact_range
      (partial_results P xz (Netting.pb_inventory P) (Netting.pb_dates P)) →
    (∀ r,
       r ∈ result_rows rnd item production_lead_time purchase_lead_time
             (of_problem P) x (pb_inventory (of_problem P))
             (pb_dates (of_problem P)) →
       mr_closing r == mr_opening r + mr_receipt r + mr_net r - mr_gross r ∧
       mr_safety_stock r <= mr_closing r) ∧
    Forall (fun v => pb_safety_stock (of_problem P) <= v)
      (projected_inventories rnd (of_problem P) x (pb_inventory (of_problem P))
         (pb_dates (of_problem P))).
Proof.
  intros rnd tol P x xz item plt pult Hrnd Htol [(_ & Hinv & _) _] Hx Hrange.
  cbn [of_problem pb_inventory pb_dates pb_safety_stock] in *.
  apply (inventory_within_integer tol P x xz) in Hinv; [|done..].
  split.
  - rewrite (result_rows_integer rnd item plt pult P x xz) by done.
    apply rows_of_integers.
    by apply Netting.result_rows_consistent.
  - rewrite (projected_inventories_integer rnd P x xz) by done.
    apply Forall_fmap.
    apply Netting.inventory_constraints_projected in Hinv.
    eapply Forall_impl; [exact Hinv|].
    intros v Hv. cbn. by rewrite <- Zle_Qle.
Qed.

Lemma closing_inventory_invariant_witness :
  float64_exact (fun q => q) ∧
  (1 # 1000000) < 1 ∧
  Solve_within (1 # 1000000) (of_problem example_problem) example_answer ∧
  (∀ r,
     r ∈ result_rows (fun q => q) "M" 0 0 (of_problem example_problem)
           example_answer (pb_inventory (of_problem example_problem))
           (pb_dates (of_problem example_problem)) →
     mr_closing r == mr_opening r + mr_receipt r + mr_net r - mr_gross r ∧
     mr_safety_stock r <= mr_closing r) ∧
  Forall (fun v => pb_safety_stock (of_problem example_problem) <= v)
    (projected_inventories (fun q => q) (of_problem example_problem)
       example_answer (pb_inventory (of_problem example_problem))
       (pb_dates (of_problem example_problem))).
Proof.
  split; [exact exact_arithmetic|]. split; [reflexivity|].
  split; [exact example_within|].
  apply (closing_inventory_invariant (fun q => q) (1 # 1000000) example_problem
           example_answer Netting.example_solution "M" 0%Z 0%Z).
  - exact exact_arithmetic.
  - reflexivity.
  - exact example_within.
  - done.
  - exact example_range.
Defined.

(** C4 as stated fails. The answer [quarter_answer] meets every
    constraint of the program within [10^-6] and is within [10^-6] of
    the optimum, as an answer of the solver is; the row computed from it
    closes [2^-30] below the safety stock. *)
Lemma closing_below_safety_stock_counterexample :
  Solve_within (1 # 1000000) quarter_problem quarter_answer ∧
  ∀ rnd, float64_exact rnd →
    ∃ r,
      result_rows rnd "M" 0 0 quarter_problem quarter_answer
        (pb_inventory quarter_problem) (pb_dates quarter_problem) = [r] ∧
      mr_closing r == - (1 # 1073741824) ∧
      mr_closing r < mr_safety_stock r.
Proof.
  split.
  - split; [split_and!|].
    + intros date _. unfold lot_within.
      change (quarter_answer date) with (268435455 # 1073741824).
      change (pb_min_lot quarter_problem) with 0.
      change (pb_multiple quarter_problem) with 1.
      split_and!; [lra | intros [H|H]; lra | | intros H; lra].
      exists 1%Z. split; [lia|]. unfold big_M. change (inject_Z 1) with 1. lra.
    + change (0 - (1 # 1000000) <= 0 + 0 + (268435455 # 1073741824) - (1 # 4)
              ∧ True).
      split; [lra | done].
    + intros resource date_capacity date capacity Hin.
      by apply elem_of_nil in Hin.
    + intros y (_ & Hinv & _).
      change (0 - 0 <= 0 + 0 + y 1%Z - (1 # 4) ∧ True) in Hinv.
      destruct Hinv as [Hinv _].
      change ((268435455 # 1073741824) + 0 <= y 1%Z + 0 + (1 # 1000000)). lra.
  - intros rnd Hrnd.
    assert (fadd rnd 0 0 = 0 + 0) as H1.
    { apply (Hrnd _ 0%Z 0%Z); [lia | lia | reflexivity]. }
    assert (fadd rnd (0 + 0) (268435455 # 1073741824)
            = 0 + 0 + (268435455 # 1073741824)) as H2.
    { apply (Hrnd _ 268435455%Z (-30)%Z); [lia | lia | reflexivity]. }
    assert (fsub rnd (0 + 0 + (268435455 # 1073741824)) (1 # 4)
            = 0 + 0 + (268435455 # 1073741824) - (1 # 4)) as H3.
    { apply (Hrnd _ (-1)%Z (-30)%Z); [lia | lia | reflexivity]. }
    eexists. split.
    + cbn [result_rows quarter_problem pb_dates pb_inventory pb_demand
           pb_receipt pb_safety_stock].
      change (quarter_answer 1%Z) with (268435455 # 1073741824).
      rewrite H1, H2, H3.
      destruct (Qlt_le_dec 0 (268435455 # 1073741824)) as [_|Hle];
        [reflexivity | by exfalso].
    + cbn [mr_closing mr_safety_stock]. split; reflexivity.
Qed.

(** *** The rows of [calculate_mrp] *)

Lemma basic_answer_integer tol P x xz :
  tol < 1 →
  (∀ date, date ∈ Netting.pb_dates P → x date = inject_Z (xz date)) →
  basic_Solve_within tol (of_problem P) x →
  BasicMrp.basic_optimal P xz.
Proof.
  intros Htol Hx [[Hbound Hinv] Hbest].
  cbn [of_problem pb_inventory pb_dates] in *.
  split; [split|].
  - intros date Hdate. specialize (Hbound date Hdate).
    rewrite (Hx date Hdate) in Hbound.
    apply (integer_within tol). { done. }
    change (inject_Z 0) with 0. lra.
  - by apply (inventory_within_integer tol P x xz).
  - intros y [Hy Hyinv].
    specialize (Hbest (fun date => inject_Z (y date))).
    lapply Hbest.
    + unfold objective, Netting.objective. cbn [of_problem pb_dates].
      rewrite (sum_Q_integer x xz) by done.
      rewrite (sum_Q_integer (fun date => inject_Z (y date)) y) by done.
      intros Hle. apply (integer_within tol); [done | lra].
    + split.
      * intros date Hdate. cbn [of_problem pb_dates] in Hdate.
        specialize (Hy date Hdate).
        rewrite Zle_Qle in Hy. change (inject_Z 0) with 0 in Hy. lra.
      * by apply inventory_constraints_within.
Qed.

Lemma basic_rows_of_integers (zrows : list BasicMrp.basic_result) :
  Forall (fun r =>
            (0 < BasicMrp.br_net r)%Z ∧
            BasicMrp.br_closing r
            = (BasicMrp.br_opening r + BasicMrp.br_receipt r
               + BasicMrp.br_net r - BasicMrp.br_gross r)%Z ∧
            (BasicMrp.br_safety_stock r ≤ BasicMrp.br_closing r)%Z) zrows →
  ∀ r, r ∈ of_basic_result <$> zrows →
    0 < br_net r ∧
    br_closing r == br_opening r + br_receipt r + br_net r - br_gross r ∧
    br_safety_stock r <= br_closing r.
Proof.
  intros Hrows r (rz & -> & Hrz)%list_elem_of_fmap.
  rewrite Forall_forall in Hrows.
  destruct (Hrows rz Hrz) as (Hnet & Hbalance & Hsafety).
  cbn [of_basic_result br_closing br_opening br_receipt br_net br_gross
       br_safety_stock].
  split_and!.
  - change 0 with (inject_Z 0). by rewrite <- Zlt_Qlt.
  - rewrite <- !inject_Z_plus, inject_Z_sub, Hbalance. reflexivity.
  - by rewrite <- Zle_Qle.
Qed.

(** X13. For a material whose stock, safety stock, demands and receipts
    are integers, when the values the solver answers with are integers,
    meet the program of [calculate_mrp] within a tolerance below 1, and
    every partial result of the result loop lies within [-2^53, 2^53],
    every row of the material has a positive net quantity, a closing
    inventory equal to opening + receipt + net - demand, and a closing
    inventory not below its safety stock. *)
Theorem calculate_mrp_row_balance :
  ∀ rnd tol P x xz item,
    float64_exact rnd →
    tol < 1 →
    basic_Solve_within tol (of_problem P) x →
    (∀ date, date ∈ Netting.pb_dates P → x date = inject_Z (xz date)) →
    Forall exact_range
      (partial_results P xz (Netting.pb_inventory P) (Netting.pb_dates P)) →
    ∀ r,
      r ∈ basic_rows rnd item (of_problem P) x (pb_inventory (of_problem P))
            (pb_dates (of_problem P)) →
      0 < br_net r ∧
      br_closing r == br_opening r + br_receipt r + br_net r - br_gross r ∧
      br_safety_stock r <= br_closing r.
Proof.
  intros rnd tol P x xz item Hrnd Htol Hsolve Hx Hrange.
  destruct (basic_answer_integer tol P x xz Htol Hx Hsolve) as [[_ Hinv] _].
  cbn [of_problem pb_inventory pb_dates].
  rewrite (basic_rows_integer rnd item P x xz) by done.
  apply basic_rows_of_integers.
  pose proof (BasicMrp.basic_rows_safety item P xz _ _ Hinv) as Hsafety.
  rewrite Forall_forall in Hsafety. apply Forall_forall. intros r Hr.
  destruct (BasicMrp.basic_rows_fields item P xz _ _ r Hr) as (_ & ? & ? & _).
  split_and!; [done | done | by apply Hsafety].
Qed.

(** X14. Under the conditions of X13, and whatever optimal answer
    within the tolerance the solver gives, the net quantities of the
    rows of a material add up to one figure: the largest amount by which
    its stock would fall short of its safety stock at the end of a date
    of the run if nothing were ordered, 0 if it never falls short. *)
Theorem calculate_mrp_total_net :
  ∀ rnd tol dates demand receipt inventory safety_stock x xz item,
    let P := Netting.Problem dates demand receipt inventory safety_stock 0 1 [] in
    float64_exact rnd →
    tol < 1 →
    NoDup dates →
    basic_Solve_within tol (of_problem P) x →
    (∀ date, date ∈ dates → x date = inject_Z (xz date)) →
    Forall exact_range (partial_results P xz inventory dates) →
    sum_Q (br_net <$> basic_rows rnd item (of_problem P) x
                        (pb_inventory (of_problem P)) (pb_dates (of_problem P)))
    == inject_Z (BasicMrp.largest_shortfall P).
Proof.
  intros rnd tol dates demand receipt inventory safety_stock x xz item P
    Hrnd Htol Hnd Hsolve Hx Hrange.
  pose proof (basic_answer_integer tol P x xz Htol Hx Hsolve) as Hoptimal.
  cbn [of_problem pb_inventory pb_dates].
  change (Netting.pb_inventory P) with inventory.
  change (Netting.pb_dates P) with dates.
  rewrite (basic_rows_integer rnd item P x xz) by done.
  rewrite <- list_fmap_compose.
  change (br_net ∘ of_basic_result)
    with (fun r => inject_Z (BasicMrp.br_net r)).
  rewrite sum_Q_inject.
  rewrite (BasicMrp.basic_rows_total item P xz inventory dates)
    by apply Hoptimal.
  change (Netting.sum_Z (xz <$> dates)) with (Netting.objective P xz).
  rewrite (BasicMrp.basic_objective P xz Hnd) by (done || by cbn).
  reflexivity.
Qed.

Lemma example_basic_within :
  basic_Solve_within (1 # 1000000) (of_problem example_problem) example_answer.
Proof.
  split; [split|].
  - intros date Hdate.
    change (pb_dates (of_problem example_problem)) with [5%Z] in Hdate.
    apply list_elem_of_singleton in Hdate as ->.
    change (example_answer 5%Z) with 15. lra.
  - change (10 - (1 # 1000000) <= 20 + 0 + 15 - 25 ∧ True).
    split; [lra | done].
  - intros y [_ Hinv].
    change (10 - 0 <= 20 + 0 + y 5%Z - 25 ∧ True) in Hinv.
    destruct Hinv as [Hinv _].
    change (15 + 0 <= y 5%Z + 0 + (1 # 1000000)). lra.
Qed.

Lemma calculate_mrp_row_balance_witness :
  float64_exact (fun q => q) ∧
  basic_Solve_within (1 # 1000000) (of_problem example_problem) example_answer ∧
  ∀ r,
    r ∈ basic_rows (fun q => q) "M" (of_problem example_problem) example_answer
          (pb_inventory (of_problem example_problem))
          (pb_dates (of_problem example_problem)) →
    0 < br_net r ∧
    br_closing r == br_opening r + br_receipt r + br_net r - br_gross r ∧
    br_safety_stock r <= br_closing r.
Proof.
  split; [exact exact_arithmetic|]. split; [exact example_basic_within|].
  apply (calculate_mrp_row_balance (fun q => q) (1 # 1000000) example_problem
           example_answer Netting.example_solution "M").
  - exact exact_arithmetic.
  - reflexivity.
  - exact example_basic_within.
  - done.
  - exact example_range.
Defined.

Lemma calculate_mrp_total_net_witness :
  basic_Solve_within (1 # 1000000)
    (of_problem
       (Netting.Problem [5%Z] (fun date => if (date =? 5)%Z then 25%Z else 0%Z)
          (fun _ => 0%Z) 20 10 0 1 []))
    example_answer ∧
  sum_Q (br_net <$> basic_rows (fun q => q) "M"
                      (of_problem
                         (Netting.Problem [5%Z]
                            (fun date => if (date =? 5)%Z then 25%Z else 0%Z)
                            (fun _ => 0%Z) 20 10 0 1 []))
                      example_answer 20 [5%Z])
  == 15.
Proof.
  assert (basic_Solve_within (1 # 1000000)
            (of_problem
               (Netting.Problem [5%Z]
                  (fun date => if (date =? 5)%Z then 25%Z else 0%Z)
                  (fun _ => 0%Z) 20 10 0 1 []))
            example_answer) as Hsolve.
  { split; [split|].
    - intros date Hdate. cbn [of_problem pb_dates Netting.pb_dates] in Hdate.
      apply list_elem_of_singleton in Hdate as ->.
      change (example_answer 5%Z) with 15. lra.
    - change (10 - (1 # 1000000) <= 20 + 0 + 15 - 25 ∧ True).
      split; [lra | done].
    - intros y [_ Hinv].
      change (10 - 0 <= 20 + 0 + y 5%Z - 25 ∧ True) in Hinv.
      destruct Hinv as [Hinv _].
      change (15 + 0 <= y 5%Z + 0 + (1 # 1000000)). lra. }
  split; [exact Hsolve|].
  apply (calculate_mrp_total_net (fun q => q) (1 # 1000000) [5%Z]
           (fun date => if (date =? 5)%Z then 25%Z else 0%Z) (fun _ => 0%Z)
           20%Z 10%Z example_answer Netting.example_solution "M").
  - exact exact_arithmetic.
  - reflexivity.
  - apply NoDup_singleton.
  - exact Hsolve.
  - done.
  - repeat constructor; by vm_compute.
Defined.

End Numeric.

(* ================================================================== *)
(** ** Capacity check: [check_capacity_constraints] *)
(* ================================================================== *)

Module Capacity.
Import Netting.

(** 资源需求: 物料编码, 资源编码, 单位用量. *)
Record resource_requirement_row := ResourceRequirementRow {
  rr_item : string; rr_resource : string; rr_usage : Z
}.

(** A capacity read with [.get(date, float('inf'))]. *)
Inductive capacity_value :=
| Finite (capacity : Z)
| Unlimited.

(** A row of the check: 资源编码, 日期, 资源使用量, 可用产能, 是否超出产能,
    超出量. *)
Record capacity_check_result := CapacityCheckResult {
  cc_resource : string;
  cc_date : Z;
  cc_usage : Z;
  cc_capacity : capacity_value;
  cc_violated : bool;
  cc_overage : Z
}.

(** [usage > capacity] and [max(0, usage - capacity)] against a
    capacity that may be [float('inf')]. *)
Definition exceeds (usage : Z) (capacity : capacity_value) : bool :=
  match capacity with
  | Finite c => c <? usage
  | Unlimited => false
  end.

Definition overage (usage : Z) (capacity : capacity_value) : Z :=
  match capacity with
  | Finite c => Z.max 0 (usage - c)
  | Unlimited => 0
  end.

Section check.
Variable mrp_results : list mrp_result.
Variable capacity_constraints : list capacity_row.
Variable resource_requirements : list resource_requirement_row.

(** [resource_req_map[item][resource] = usage], row after row. *)
Definition resource_req_map : list (string * list (string * Z)) :=
  foldl (fun m row => PyDict.set2 m (rr_item row) (rr_resource row) (rr_usage row))
    [] resource_requirements.

(** [capacity_map[resource][date] = capacity], row after row. *)
Definition capacity_map : list (string * list (Z * Z)) :=
  foldl (fun m row => PyDict.set2 m (cap_resource row) (cap_date row)
                        (cap_available row))
    [] capacity_constraints.

(** [resource_usage[resource][date] += total_usage], the entry made
    with 0 first when it is missing. *)
Definition add_usage (resource_usage : list (string * list (Z * Z)))
    (resource : string) (date : Z) (total_usage : Z)
  : list (string * list (Z * Z)) :=
  PyDict.set2 resource_usage resource date
    (default 0 (PyDict.get2 resource_usage resource date) + total_usage).

(** The body of [for _, row in mrp_results.iterrows()]. *)
Definition add_row_usage (resource_usage : list (string * list (Z * Z)))
    (row : mrp_result) : list (string * list (Z * Z)) :=
  let item := mr_item row in
  let date := mr_period row in
  let quantity := mr_net row in
  foldl
    (fun usage entry =>
       let total_usage := quantity * entry.2 in
       add_usage usage entry.1 date total_usage)
    resource_usage
    (PyDict.get_default resource_req_map item []).

Definition resource_usage : list (string * list (Z * Z)) :=
  foldl add_row_usage [] mrp_results.

Definition capacity_of (resource : string) (date : Z) : capacity_value :=
  match PyDict.get2 capacity_map resource date with
  | Some capacity => Finite capacity
  | None => Unlimited
  end.

(** advanced_mrp.py, [check_capacity_constraints]. *)
Definition check_capacity_constraints : list capacity_check_result :=
  flat_map
    (fun by_date =>
       (fun entry =>
          let resource := by_date.1 in
          let date := entry.1 in
          let usage := entry.2 in
          let capacity := capacity_of resource date in
          CapacityCheckResult resource date usage capacity
            (exceeds usage capacity) (overage usage capacity))
         <$> by_date.2)
    resource_usage.

(** *** What the rows are measured against *)

(** The usage per unit in force for a material and a resource: that of
    the last row of the table for the pair. *)
Definition usage_per_unit (item resource : string) : option Z :=
  PyDict.get2 resource_req_map item resource.

(** The amounts the result rows of a date add for a resource. *)
Definition contributions (rows : list mrp_result) (resource : string)
    (date : Z) : list Z :=
  flat_map
    (fun row =>
       if decide (mr_period row = date) then
         match usage_per_unit (mr_item row) resource with
         | Some usage => [mr_net row * usage]
         | None => []
         end
       else [])
    rows.

Definition consumption (resource : string) (date : Z) : Z :=
  sum_Z (contributions mrp_results resource date).

End check.

(** *** The loops, entry by entry *)

Section loops.
Variable resource_requirements : list resource_requirement_row.

Lemma wf2_foldl_set2 {A K1 K2 V} `{EqDecision K1, EqDecision K2}
    (k1 : A → K1) (k2 : A → K2) (v : A → V) (rows : list A) m :
  PyDict.wf2 m →
  PyDict.wf2 (foldl (fun m row => PyDict.set2 m (k1 row) (k2 row) (v row)) m rows).
Proof.
  revert m. induction rows as [|row rows IH]; intros m Hm; simpl; [done|].
  apply IH. by apply PyDict.wf2_set2.
Qed.

Lemma wf2_resource_req_map : PyDict.wf2 (resource_req_map resource_requirements).
Proof. apply wf2_foldl_set2, PyDict.wf2_nil. Qed.

Lemma get2_add_usage usage resource date total r d :
  PyDict.get2 (add_usage usage resource date total) r d
  = if decide (resource = r ∧ date = d)
    then Some (default 0 (PyDict.get2 usage resource date) + total)
    else PyDict.get2 usage r d.
Proof. apply PyDict.get2_set2. Qed.

Lemma wf2_add_usage usage resource date total :
  PyDict.wf2 usage → PyDict.wf2 (add_usage usage resource date total).
Proof. apply PyDict.wf2_set2. Qed.

Lemma get2_add_entries (entries : list (string * Z)) quantity date usage r d :
  NoDup (PyDict.keys entries) →
  PyDict.get2
    (foldl (fun usage entry => add_usage usage entry.1 date (quantity * entry.2))
       usage entries) r d
  = match (if decide (date = d) then PyDict.get entries r else None) with
    | Some u => Some (default 0 (PyDict.get2 usage r d) + quantity * u)
    | None => PyDict.get2 usage r d
    end.
Proof.
  unfold PyDict.keys. revert usage.
  induction entries as [|[r0 u0] entries IH]; intros usage Hnd.
  - simpl. by destruct (decide (date = d)).
  - cbn [fmap list_fmap fst] in Hnd. apply NoDup_cons in Hnd as [Hr0 Hnd].
    cbn [foldl fst snd]. rewrite IH by done. rewrite get2_add_usage.
    cbn [PyDict.get].
    destruct (decide (date = d)) as [->|Hd].
    + destruct (decide (r0 = r)) as [->|Hr].
      * rewrite decide_True by done.
        apply (PyDict.get_None entries r) in Hr0. by rewrite Hr0.
      * rewrite decide_False by tauto. done.
    + rewrite decide_False by tauto. done.
Qed.

Lemma wf2_add_entries (entries : list (string * Z)) quantity date usage :
  PyDict.wf2 usage →
  PyDict.wf2
    (foldl (fun usage entry => add_usage usage entry.1 date (quantity * entry.2))
       usage entries).
Proof.
  revert usage. induction entries as [|e entries IH]; intros usage Hwf;
    simpl; [done|].
  apply IH. by apply wf2_add_usage.
Qed.

Lemma get2_add_row_usage usage row r d :
  PyDict.get2 (add_row_usage resource_requirements usage row) r d
  = match (if decide (mr_period row = d)
           then usage_per_unit resource_requirements (mr_item row) r
           else None) with
    | Some u => Some (default 0 (PyDict.get2 usage r d) + mr_net row * u)
    | None => PyDict.get2 usage r d
    end.
Proof.
  unfold add_row_usage. rewrite get2_add_entries.
  - unfold usage_per_unit, PyDict.get2, PyDict.get_default.
    by destruct (PyDict.get (resource_req_map resource_requirements) (mr_item row)).
  - unfold PyDict.get_default.
    destruct (PyDict.get (resource_req_map resource_requirements) (mr_item row)) as [inner|] eqn:Hget;
      [|apply NoDup_nil_2].
    apply PyDict.get_Some_elem in Hget.
    destruct wf2_resource_req_map as [_ Hall].
    rewrite Forall_forall in Hall. by apply (Hall _ Hget).
Qed.

Lemma wf2_add_row_usage usage row :
  PyDict.wf2 usage →
  PyDict.wf2 (add_row_usage resource_requirements usage row).
Proof. apply wf2_add_entries. Qed.

Lemma get2_add_rows rows usage r d :
  PyDict.get2 (foldl (add_row_usage resource_requirements) usage rows) r d
  = match contributions resource_requirements rows r d with
    | [] => PyDict.get2 usage r d
    | c => Some (default 0 (PyDict.get2 usage r d) + sum_Z c)
    end.
Proof.
  revert usage. induction rows as [|row rows IH]; intros usage; [done|].
  cbn [foldl contributions flat_map]. rewrite IH, get2_add_row_usage.
  fold (contributions resource_requirements rows r d).
  destruct (decide (mr_period row = d)) as [Hd|Hd];
    [destruct (usage_per_unit resource_requirements (mr_item row) r) as [u|]|];
    destruct (contributions resource_requirements rows r d) as [|c cs];
    simpl; f_equal; lia.
Qed.

Lemma wf2_add_rows rows usage :
  PyDict.wf2 usage →
  PyDict.wf2 (foldl (add_row_usage resource_requirements) usage rows).
Proof.
  revert usage. induction rows as [|row rows IH]; intros usage Hwf;
    simpl; [done|].
  apply IH. by apply wf2_add_row_usage.
Qed.

End loops.

Lemma get2_resource_usage mrp_results resource_requirements r d :
  PyDict.get2 (resource_usage mrp_results resource_requirements) r d
  = match contributions resource_requirements mrp_results r d with
    | [] => None
    | c => Some (sum_Z c)
    end.
Proof.
  unfold resource_usage. rewrite get2_add_rows.
  destruct (contributions resource_requirements mrp_results r d);
    [done | f_equal; simpl; lia].
Qed.

Lemma wf2_resource_usage mrp_results resource_requirements :
  PyDict.wf2 (resource_usage mrp_results resource_requirements).
Proof. apply wf2_add_rows, PyDict.wf2_nil. Qed.

(** *** The capacity in force for a resource and a date *)

Section lookup.
Context {A K1 K2 V : Type} `{EqDecision K1, EqDecision K2}.
Variables (k1 : A → K1) (k2 : A → K2) (v : A → V).

Definition fill (m : list (K1 * list (K2 * V))) (rows : list A)
  : list (K1 * list (K2 * V)) :=
  foldl (fun m row => PyDict.set2 m (k1 row) (k2 row) (v row)) m rows.

Lemma get2_fill_Some rows m a b c :
  PyDict.get2 (fill m rows) a b = Some c →
  PyDict.get2 m a b = Some c ∨
  ∃ row, row ∈ rows ∧ k1 row = a ∧ k2 row = b ∧ v row = c.
Proof.
  revert m. induction rows as [|row rows IH]; intros m; simpl; [by left|].
  intros [Hm | (r & Hr & ?)]%IH.
  - rewrite PyDict.get2_set2 in Hm. case_decide as Hk; [|by left].
    destruct Hk as [<- <-]. injection Hm as <-.
    right. exists row. split; [apply list_elem_of_here | done].
  - right. exists r. split; [by apply list_elem_of_further | done].
Qed.

Lemma get2_fill_is_Some rows m a b :
  (is_Some (PyDict.get2 m a b) ∨ ∃ row, row ∈ rows ∧ k1 row = a ∧ k2 row = b) →
  is_Some (PyDict.get2 (fill m rows) a b).
Proof.
  revert m. induction rows as [|row rows IH]; intros m; simpl.
  - intros [?|(r & Hr & _)]; [done | by apply elem_of_nil in Hr].
  - intros Hm. apply IH. rewrite PyDict.get2_set2.
    destruct (decide (k1 row = a ∧ k2 row = b)) as [Hk|Hk]; [by left|].
    destruct Hm as [Hm|(r & Hr & Ha & Hb)]; [by left|].
    apply elem_of_cons in Hr as [->|Hr]; [tauto|].
    right. by exists r.
Qed.

End lookup.

Lemma capacity_of_Finite capacity_constraints resource date capacity :
  capacity_of capacity_constraints resource date = Finite capacity →
  CapacityRow resource date capacity ∈ capacity_constraints.
Proof.
  unfold capacity_of.
  destruct (PyDict.get2 _ resource date) as [c|] eqn:Hget; [|discriminate].
  intros [= ->].
  apply (get2_fill_Some cap_resource cap_date cap_available) in Hget
    as [Hget | ([r d c] & Hrow & Hr & Hd & Hc)]; [discriminate|].
  simpl in *. by subst.
Qed.

Lemma capacity_of_Unlimited capacity_constraints resource date :
  capacity_of capacity_constraints resource date = Unlimited ↔
  ∀ row, row ∈ capacity_constraints →
         ¬ (cap_resource row = resource ∧ cap_date row = date).
Proof.
  unfold capacity_of. split.
  - destruct (PyDict.get2 _ resource date) as [c|] eqn:Hget; [discriminate|].
    intros _ row Hrow [Hr Hd].
    destruct (get2_fill_is_Some cap_resource cap_date cap_available
                capacity_constraints [] resource date) as [c Hc].
    { right. by exists row. }
    unfold capacity_map, fill in *. congruence.
  - intros Hnone.
    destruct (PyDict.get2 _ resource date) as [c|] eqn:Hget; [|done].
    apply (get2_fill_Some cap_resource cap_date cap_available) in Hget
      as [Hget | (row & Hrow & Hr & Hd & _)]; [discriminate|].
    exfalso. by apply (Hnone row).
Qed.

(** *** The rows of the check *)

Lemma filter_none {A} (P : A → Prop) `{∀ x, Decision (P x)} (l : list A) :
  (∀ z, z ∈ l → ¬ P z) → filter P l = [].
Proof.
  intros Hnone. destruct (filter P l) as [|z rest] eqn:Hf; [done|].
  assert (z ∈ filter P l) as Hz by (rewrite Hf; apply list_elem_of_here).
  apply list_elem_of_filter in Hz as [HP Hz]. by destruct (Hnone z Hz).
Qed.

Lemma filter_key_once {A B} `{EqDecision B} (f : A → B) (l : list A) x :
  NoDup (f <$> l) → x ∈ l →
  length (filter (fun y => f y = f x) l) = 1%nat.
Proof.
  induction l as [|y l IH]; intros Hnd Hx; [by apply elem_of_nil in Hx|].
  cbn [fmap list_fmap] in Hnd. apply NoDup_cons in Hnd as [Hy Hnd].
  rewrite filter_cons.
  destruct (decide (f y = f x)) as [Heq|Hne].
  - simpl. f_equal. rewrite filter_none; [done|]. intros z Hz Hfz.
    apply Hy. rewrite Heq, <- Hfz. by apply list_elem_of_fmap_2.
  - apply IH; [done|].
    apply elem_of_cons in Hx as [->|Hx]; [done | done].
Qed.

Definition row_of_usage (capacity_constraints : list capacity_row)
    (t : string * Z * Z) : capacity_check_result :=
  let capacity := capacity_of capacity_constraints t.1.1 t.1.2 in
  CapacityCheckResult t.1.1 t.1.2 t.2 capacity
    (exceeds t.2 capacity) (overage t.2 capacity).

Lemma check_capacity_constraints_items mrp_results capacity_constraints
    resource_requirements :
  check_capacity_constraints mrp_results capacity_constraints resource_requirements
  = row_of_usage capacity_constraints
      <$> PyDict.items2 (resource_usage mrp_results resource_requirements).
Proof.
  unfold check_capacity_constraints, PyDict.items2.
  induction (resource_usage mrp_results resource_requirements)
    as [|[r inner] m IH]; [done|].
  cbn [flat_map]. rewrite fmap_app, <- IH. f_equal.
  rewrite <- list_fmap_compose. by apply list_fmap_ext.
Qed.

Lemma elem_of_check mrp_results capacity_constraints resource_requirements c :
  c ∈ check_capacity_constraints mrp_results capacity_constraints
        resource_requirements ↔
  contributions resource_requirements mrp_results (cc_resource c) (cc_date c) ≠ [] ∧
  c = row_of_usage capacity_constraints
        (cc_resource c, cc_date c,
         consumption mrp_results resource_requirements (cc_resource c) (cc_date c)).
Proof.
  rewrite check_capacity_constraints_items, list_elem_of_fmap. split.
  - intros ([[r d] u] & -> & Hin).
    apply PyDict.elem_of_items2 in Hin; [|apply wf2_resource_usage].
    rewrite get2_resource_usage in Hin. simpl. unfold consumption.
    destruct (contributions resource_requirements mrp_results r d) as [|x xs];
      [discriminate|].
    injection Hin as <-. done.
  - intros [Hne Hc]. eexists. split; [exact Hc|].
    apply PyDict.elem_of_items2; [apply wf2_resource_usage|].
    rewrite get2_resource_usage. unfold consumption.
    by destruct (contributions resource_requirements mrp_results
                   (cc_resource c) (cc_date c)).
Qed.

Lemma NoDup_check_keys mrp_results capacity_constraints resource_requirements :
  NoDup ((fun c => (cc_resource c, cc_date c))
           <$> check_capacity_constraints mrp_results capacity_constraints
                 resource_requirements).
Proof.
  rewrite check_capacity_constraints_items, <- list_fmap_compose.
  apply (PyDict.NoDup_items2 _ (wf2_resource_usage _ _)).
Qed.


(** *** Rows of materials that use no resource *)

Lemma resource_req_map_keys resource_requirements item :
  item ∈ PyDict.keys (resource_req_map resource_requirements) ↔
  item ∈ rr_item <$> resource_requirements.
Proof.
  unfold resource_req_map.
  assert (∀ rows (m : list (string * list (string * Z))),
    item ∈ PyDict.keys
             (foldl (fun m row =>
                       PyDict.set2 m (rr_item row) (rr_resource row) (rr_usage row))
                m rows)
    ↔ item ∈ PyDict.keys m ∨ item ∈ rr_item <$> rows) as Hgen.
  { induction rows as [|row rows IH]; intros m.
    - simpl. rewrite elem_of_nil. tauto.
    - cbn [foldl fmap list_fmap]. rewrite IH. unfold PyDict.set2.
      rewrite PyDict.keys_set, elem_of_cons. case_decide as Hk.
      + split; [tauto|]. intros [?|[->|?]]; tauto.
      + rewrite elem_of_app, list_elem_of_singleton. tauto. }
  rewrite Hgen. unfold PyDict.keys. simpl. rewrite elem_of_nil. tauto.
Qed.

Lemma add_row_usage_none resource_requirements usage row :
  mr_item row ∉ rr_item <$> resource_requirements →
  add_row_usage resource_requirements usage row = usage.
Proof.
  intros Hitem. unfold add_row_usage, PyDict.get_default.
  rewrite <- resource_req_map_keys in Hitem.
  apply PyDict.get_None in Hitem. by rewrite Hitem.
Qed.

Lemma resource_usage_filter mrp_results resource_requirements :
  resource_usage mrp_results resource_requirements
  = resource_usage
      (filter (fun row => mr_item row ∈ rr_item <$> resource_requirements)
         mrp_results)
      resource_requirements.
Proof.
  unfold resource_usage. generalize ([] : list (string * list (Z * Z))).
  induction mrp_results as [|row rows IH]; intros usage; [done|].
  rewrite filter_cons. cbn [foldl]. case_decide as Hitem.
  - cbn [foldl]. apply IH.
  - rewrite add_row_usage_none by done. apply IH.
Qed.

(** X15. [check_capacity_constraints] passes over every result row
    whose material has no row in the resource-requirement table: the
    check of a result is the check of its rows for materials that have
    one. With an empty resource-requirement table it reports nothing,
    whatever the capacity table holds. *)
Theorem rows_without_resource_requirement :
  ∀ mrp_results capacity_constraints resource_requirements,
    check_capacity_constraints mrp_results capacity_constraints
      resource_requirements
    = check_capacity_constraints
        (filter (fun row => mr_item row ∈ rr_item <$> resource_requirements)
           mrp_results)
        capacity_constraints resource_requirements ∧
    check_capacity_constraints mrp_results capacity_constraints [] = [].
Proof.
  intros mrp_results capacity_constraints resource_requirements. split.
  - unfold check_capacity_constraints. by rewrite <- resource_usage_filter.
  - unfold check_capacity_constraints.
    rewrite resource_usage_filter.
    assert (filter (fun row => mr_item row ∈ rr_item <$> []) mrp_results = [])
      as ->; [|done].
    induction mrp_results as [|row rows IH]; [done|].
    rewrite filter_cons, decide_False; [done|]. apply not_elem_of_nil.
Qed.

End Capacity.

(* ================================================================== *)
(** ** Material classes: [classify_materials] *)
(* ================================================================== *)

Module Classify.
Import Bom Netting.

(** 物料类型: 原材料, 成品, 中间件, 未知. *)
Inductive material_type :=
| RawMaterial
| FinishedGood
| IntermediateMaterial
| UnknownMaterial.

(** advanced_mrp.py, [classify_materials]; a row is a material code
    with its type. The rows come in the order in which the set
    [all_materials] is walked, which Python does not fix. *)
Definition classify_materials (bom_data : list bom_row)
    (inventory_data : list inventory_row) : list (string * material_type) :=
  let all_materials : gset string := list_to_set (inv_item <$> inventory_data) in
  let all_parents : gset string := list_to_set (parent_code <$> bom_data) in
  let all_children : gset string := list_to_set (child_code <$> bom_data) in
  let raw_materials := all_materials ∩ (all_children ∖ all_parents) in
  let finished_goods := all_materials ∩ (all_parents ∖ all_children) in
  let intermediate_materials := all_materials ∩ all_parents ∩ all_children in
  (fun material =>
     let material_type :=
       if decide (material ∈ raw_materials) then RawMaterial
       else if decide (material ∈ finished_goods) then FinishedGood
       else if decide (material ∈ intermediate_materials) then IntermediateMaterial
       else UnknownMaterial in
     (material, material_type))
    <$> elements all_materials.

(** A material is the parent, the child, of some BOM row; it has an
    inventory row. *)
Definition is_parent (bom_data : list bom_row) (material : string) : Prop :=
  material ∈ parent_code <$> bom_data.

Definition is_child (bom_data : list bom_row) (material : string) : Prop :=
  material ∈ child_code <$> bom_data.

Definition in_inventory (inventory_data : list inventory_row)
    (material : string) : Prop :=
  material ∈ inv_item <$> inventory_data.

#[global] Instance is_parent_dec bom_data material :
  Decision (is_parent bom_data material).
Proof. unfold is_parent. apply _. Defined.

#[global] Instance is_child_dec bom_data material :
  Decision (is_child bom_data material).
Proof. unfold is_child. apply _. Defined.

Lemma elem_of_codes {A} (f : A → string) (l : list A) (x : string) :
  x ∈ (list_to_set (f <$> l) : gset string) ↔ x ∈ f <$> l.
Proof. apply elem_of_list_to_set. Qed.

Lemma elem_of_classify bom_data inventory_data material t :
  (material, t) ∈ classify_materials bom_data inventory_data ↔
  in_inventory inventory_data material ∧
  t = (if decide (is_child bom_data material ∧ ¬ is_parent bom_data material)
       then RawMaterial
       else if decide (is_parent bom_data material ∧ ¬ is_child bom_data material)
       then FinishedGood
       else if decide (is_parent bom_data material ∧ is_child bom_data material)
       then IntermediateMaterial
       else UnknownMaterial).
Proof.
  unfold classify_materials. rewrite list_elem_of_fmap.
  assert (∀ m, in_inventory inventory_data m →
    (if decide (m ∈ (list_to_set (inv_item <$> inventory_data) : gset string)
                    ∩ ((list_to_set (child_code <$> bom_data) : gset string)
                       ∖ list_to_set (parent_code <$> bom_data)))
     then RawMaterial
     else if decide (m ∈ (list_to_set (inv_item <$> inventory_data) : gset string)
                         ∩ ((list_to_set (parent_code <$> bom_data) : gset string)
                            ∖ list_to_set (child_code <$> bom_data)))
     then FinishedGood
     else if decide (m ∈ (list_to_set (inv_item <$> inventory_data) : gset string)
                         ∩ list_to_set (parent_code <$> bom_data)
                         ∩ list_to_set (child_code <$> bom_data))
     then IntermediateMaterial
     else UnknownMaterial)
    = (if decide (is_child bom_data m ∧ ¬ is_parent bom_data m)
       then RawMaterial
       else if decide (is_parent bom_data m ∧ ¬ is_child bom_data m)
       then FinishedGood
       else if decide (is_parent bom_data m ∧ is_child bom_data m)
       then IntermediateMaterial
       else UnknownMaterial)) as Hlabel.
  { intros m Hm. unfold is_parent, is_child, in_inventory in *.
    repeat case_decide; try done; exfalso;
      repeat match goal with
             | H : context [_ ∈ _ ∩ _] |- _ => rewrite elem_of_intersection in H
             | H : context [_ ∈ _ ∖ _] |- _ => rewrite elem_of_difference in H
             | H : context [_ ∈ list_to_set _] |- _ =>
                 rewrite elem_of_list_to_set in H
             end; tauto. }
  split.
  - intros (m & [= -> ->] & Hm).
    apply elem_of_elements, elem_of_codes in Hm.
    split; [done | by apply Hlabel].
  - intros [Hm ->]. exists material. split.
    + f_equal. by rewrite Hlabel.
    + by apply elem_of_elements, elem_of_codes.
Qed.

Lemma classify_materials_keys bom_data inventory_data :
  (classify_materials bom_data inventory_data).*1
  = elements (list_to_set (inv_item <$> inventory_data) : gset string).
Proof.
  unfold classify_materials. rewrite <- list_fmap_compose.
  rewrite <- (list_fmap_id (elements _)) at 2. by apply list_fmap_ext.
Qed.

(** C10. [classify_materials] has one row for each material of the
    inventory and for no other. The type of a material depends on the
    sets alone: raw for a child of some BOM row that is the parent of
    none, finished for a parent that is the child of none, intermediate
    for a parent that is also a child, unknown otherwise; listing the
    BOM or the inventory rows in another order changes nothing. For the
    edges (A,B), (B,C) and the inventory A, B, C: A is finished, B
    intermediate and C raw. *)
Theorem classify_materials_spec :
  (∀ bom_data inventory_data material t,
     (material, t) ∈ classify_materials bom_data inventory_data ↔
     in_inventory inventory_data material ∧
     (t = RawMaterial ∧
        is_child bom_data material ∧ ¬ is_parent bom_data material ∨
      t = FinishedGood ∧
        is_parent bom_data material ∧ ¬ is_child bom_data material ∨
      t = IntermediateMaterial ∧
        is_parent bom_data material ∧ is_child bom_data material ∨
      t = UnknownMaterial ∧
        ¬ is_parent bom_data material ∧ ¬ is_child bom_data material)) ∧
  (∀ bom_data inventory_data,
     NoDup (classify_materials bom_data inventory_data).*1) ∧
  (∀ bom_data bom_data' inventory_data inventory_data',
     bom_data ≡ₚ bom_data' → inventory_data ≡ₚ inventory_data' →
     classify_materials bom_data inventory_data
     = classify_materials bom_data' inventory_data') ∧
  classify_materials
    [BomRow "A" "B" 1; BomRow "B" "C" 1]
    [InventoryRow "A" 0 0; InventoryRow "B" 0 0; InventoryRow "C" 0 0]
  ≡ₚ [("A"%string, FinishedGood); ("B"%string, IntermediateMaterial);
      ("C"%string, RawMaterial)].
Proof.
  split_and!.
  - intros bom_data inventory_data material t. rewrite elem_of_classify.
    split.
    + intros [Hinv ->]. split; [done|].
      repeat case_decide; tauto.
    + intros [Hinv Hcases]. split; [done|].
      destruct Hcases as [Hc|[Hc|[Hc|Hc]]]; destruct Hc as (-> & ? & ?);
        repeat case_decide; tauto.
  - intros bom_data inventory_data. rewrite classify_materials_keys.
    apply NoDup_elements.
  - intros bom_data bom_data' inventory_data inventory_data' Hbom Hinv.
    unfold classify_materials.
    rewrite (list_to_set_perm_L (C := gset string)
               (inv_item <$> inventory_data) (inv_item <$> inventory_data'))
      by by rewrite Hinv.
    rewrite (list_to_set_perm_L (C := gset string)
               (parent_code <$> bom_data) (parent_code <$> bom_data'))
      by by rewrite Hbom.
    rewrite (list_to_set_perm_L (C := gset string)
               (child_code <$> bom_data) (child_code <$> bom_data'))
      by by rewrite Hbom.
    done.
  - assert (classify_materials
              [BomRow "A" "B" 1; BomRow "B" "C" 1]
              [InventoryRow "A" 0 0; InventoryRow "B" 0 0; InventoryRow "C" 0 0]
            = [("C"%string, RawMaterial); ("A"%string, FinishedGood);
               ("B"%string, IntermediateMaterial)]) as -> by (by vm_compute).
    exact (Permutation_cons_append
             [("A"%string, FinishedGood); ("B"%string, IntermediateMaterial)]
             ("C"%string, RawMaterial)).
Qed.

End Classify.

(* ================================================================== *)
(** ** Assignments to the input tables: the validators and [calculate_mrp] *)
(* ================================================================== *)

Module Frames.

(** The value of a cell as [pd.read_csv] or a conversion leaves it: a
    string, a number, or a timestamp (kept as its day number). *)
Inductive cell :=
| Str (s : string)
| Num (z : Z)
| Time (day : Z).

#[global] Instance cell_eq_dec : EqDecision cell.
Proof. solve_decision. Defined.

(** A [DataFrame] as the dictionary of its columns, each the list of its
    cells; [df[col] = series] is [PyDict.set]. The frame a function is
    given and the frame it leaves are the same Python object: a function
    of the model returns the frame as it is after the call. *)
Definition frame : Type := list (string * list cell).

Definition column (df : frame) (col : string) : list cell :=
  PyDict.get_default df col [].

(** [not df.empty]: some column, and some row. *)
Definition non_empty (df : frame) : bool :=
  match df with
  | [] => false
  | (_, cells) :: _ => negb (bool_decide (cells = []))
  end.

(** What a validator returns, or what a function raises. *)
Inductive verdict :=
| Valid
| MissingColumns (missing : list string)
| ConversionError
| Rejected (message : string)
| CircularReference (cycle_path : list cell)
| OutOfFuel.

Definition missing_columns (df : frame) (required : list string) : list string :=
  filter (fun col => col ∉ PyDict.keys df) required.

(** [series.min() <= limit], false for a series without a value. *)
Definition values (cells : list cell) : list Z :=
  omap (fun c => match c with Num z => Some z | _ => None end) cells.

Definition min_le (cells : list cell) (limit : Z) : bool :=
  match values cells with
  | [] => false
  | z :: zs => foldr Z.min z zs <=? limit
  end.

Definition min_lt (cells : list cell) (limit : Z) : bool :=
  match values cells with
  | [] => false
  | z :: zs => foldr Z.min z zs <? limit
  end.

Section conversions.

(** [pd.to_numeric] and [pd.to_datetime] on one cell: the number, the
    day, or [None] where pandas raises. What they make of a string is
    left open; a number is a number already and a timestamp a timestamp. *)
Variable to_numeric_cell : cell → option Z.
Variable to_datetime_cell : cell → option Z.

Definition to_numeric (cells : list cell) : option (list cell) :=
  mapM (fun c => Num <$> to_numeric_cell c) cells.

Definition to_datetime (cells : list cell) : option (list cell) :=
  mapM (fun c => Time <$> to_datetime_cell c) cells.

(** [df[col] = convert(df[col])] inside [try]: the frame after the
    statement, or the frame untouched when the conversion raises. *)
Definition assign_converted (convert : list cell → option (list cell))
    (df : frame) (col : string) : frame * bool :=
  match convert (column df col) with
  | Some cells => (PyDict.set df col cells, true)
  | None => (df, false)
  end.

(** utils.py, [validate_production_plan]. *)
Definition validate_production_plan (df : frame) : frame * verdict :=
  let missing := missing_columns df ["产品编码"; "需求数量"; "需求日期"] in
  if negb (bool_decide (missing = [])) then (df, MissingColumns missing)
  else
    let (df1, ok1) := assign_converted to_numeric df "需求数量" in
    if negb ok1 then (df1, ConversionError)
    else
      let (df2, ok2) := assign_converted to_datetime df1 "需求日期" in
      if negb ok2 then (df2, ConversionError)
      else if min_le (column df2 "需求数量") 0
           then (df2, Rejected "需求数量必须大于0")
           else (df2, Valid).

(** utils.py, [validate_inventory_data]. *)
Definition validate_inventory_data (df : frame) : frame * verdict :=
  let missing := missing_columns df ["物料编码"; "库存数量"; "安全库存"] in
  if negb (bool_decide (missing = [])) then (df, MissingColumns missing)
  else
    let (df1, ok1) := assign_converted to_numeric df "库存数量" in
    if negb ok1 then (df1, ConversionError)
    else
      let (df2, ok2) := assign_converted to_numeric df1 "安全库存" in
      if negb ok2 then (df2, ConversionError)
      else if min_lt (column df2 "库存数量") 0
           then (df2, Rejected "库存数量不能为负数")
           else if min_lt (column df2 "安全库存") 0
                then (df2, Rejected "安全库存不能为负数")
                else (df2, Valid).

(** utils.py, [validate_purchase_orders]. *)
Definition validate_purchase_orders (df : frame) : frame * verdict :=
  let missing := missing_columns df ["物料编码"; "订单数量"; "预计到货日期"] in
  if negb (bool_decide (missing = [])) then (df, MissingColumns missing)
  else
    let (df1, ok1) := assign_converted to_numeric df "订单数量" in
    if negb ok1 then (df1, ConversionError)
    else
      let (df2, ok2) := assign_converted to_datetime df1 "预计到货日期" in
      if negb ok2 then (df2, ConversionError)
      else if min_le (column df2 "订单数量") 0
           then (df2, Rejected "订单数量必须大于0")
           else (df2, Valid).

End conversions.

(** *** [check_bom_circular_reference] and [validate_bom_data] *)

(** [dependency_graph[parent].append(child)], row after row. *)
Definition dependency_graph (df : frame) : list (cell * list cell) :=
  foldl
    (fun graph row =>
       PyDict.set graph row.1 (PyDict.get_default graph row.1 [] ++ [row.2]))
    []
    (zip (column df "父项编码") (column df "子项编码")).

(** [path[path.index(item):]] *)
Fixpoint from_first (item : cell) (path : list cell) : list cell :=
  match path with
  | [] => []
  | x :: rest => if decide (x = item) then path else from_first item rest
  end.

(** A loop of calls that ends at the first one that raises. *)
Fixpoint first_failure {A} (check : A → verdict) (l : list A) : verdict :=
  match l with
  | [] => Valid
  | x :: rest =>
      match check x with
      | Valid => first_failure check rest
      | failure => failure
      end
  end.

Fixpoint check_cycle (fuel : nat) (graph : list (cell * list cell))
    (item : cell) (path : list cell) : verdict :=
  match fuel with
  | O => OutOfFuel
  | S fuel' =>
      if decide (item ∈ path)
      then CircularReference (from_first item path ++ [item])
      else
        first_failure
          (fun child => check_cycle fuel' graph child (path ++ [item]))
          (PyDict.get_default graph item [])
  end.

(** utils.py, [check_bom_circular_reference]: the table is read, the
    graph is a dictionary of the function's own. *)
Definition check_bom_circular_reference (df : frame) : verdict :=
  let graph := dependency_graph df in
  first_failure
    (fun item =>
       check_cycle (S (S (length (column df "子项编码")))) graph item [])
    (PyDict.keys graph).

(** The recursion of [check_cycle] ends within the fuel it is given: a
    path never repeats an item and holds, after its first item, cells of
    the child column only. *)
Lemma first_failure_fuel {A} (check : A → verdict) (l : list A) :
  (∀ x, x ∈ l → check x ≠ OutOfFuel) → first_failure check l ≠ OutOfFuel.
Proof.
  induction l as [|x l IH]; intros Hall; [done|]. simpl.
  pose proof (Hall x (list_elem_of_here _ _)) as Hx.
  destruct (check x); try done.
  apply IH. intros y Hy. apply Hall. by apply list_elem_of_further.
Qed.

Lemma dependency_graph_children df item child :
  child ∈ PyDict.get_default (dependency_graph df) item [] →
  child ∈ column df "子项编码".
Proof.
  unfold dependency_graph.
  assert (∀ (rows : list (cell * cell)) (graph : list (cell * list cell)),
    (∀ item child, child ∈ PyDict.get_default graph item [] →
                   child ∈ column df "子项编码") →
    (∀ row, row ∈ rows → row.2 ∈ column df "子项编码") →
    ∀ item child,
      child ∈ PyDict.get_default
                (foldl (fun graph row =>
                          PyDict.set graph row.1
                            (PyDict.get_default graph row.1 [] ++ [row.2]))
                   graph rows) item [] →
      child ∈ column df "子项编码") as Hgen.
  { induction rows as [|row rows IH]; intros graph Hgraph Hrows; [exact Hgraph|].
    simpl. apply IH; [|intros r Hr; apply Hrows; by apply list_elem_of_further].
    intros i c. unfold PyDict.get_default at 1. rewrite PyDict.get_set.
    case_decide as Hi.
    - intros [Hc|Hc]%elem_of_app; [by eapply Hgraph|].
      apply list_elem_of_singleton in Hc as ->.
      apply Hrows, list_elem_of_here.
    - intros Hc. by apply (Hgraph i). }
  apply Hgen.
  - intros i c Hc. by apply elem_of_nil in Hc.
  - intros [p c] Hrow. simpl. by apply elem_of_zip_r in Hrow.
Qed.

Lemma check_cycle_total df start fuel item path :
  NoDup path →
  (∀ x, x ∈ path → x ∈ start :: column df "子项编码") →
  item ∈ start :: column df "子项编码" →
  (length (start :: column df "子项编码") < fuel + length path)%nat →
  check_cycle fuel (dependency_graph df) item path ≠ OutOfFuel.
Proof.
  revert item path.
  induction fuel as [|fuel IH]; intros item path Hnd Hsub Hitem Hlen.
  - pose proof (submseteq_length _ _ (NoDup_submseteq _ _ Hnd Hsub)) as Hle.
    exfalso. lia.
  - simpl. destruct (decide (item ∈ path)) as [Hin|Hnin]; [done|].
    apply first_failure_fuel. intros child Hchild.
    apply dependency_graph_children in Hchild.
    apply IH.
    + apply NoDup_app. split_and!; [done | | apply NoDup_singleton].
      intros x Hx Hx'. apply list_elem_of_singleton in Hx' as ->. done.
    + intros x Hx. apply elem_of_app in Hx as [Hx|Hx]; [by apply Hsub|].
      apply list_elem_of_singleton in Hx as ->. done.
    + by apply list_elem_of_further.
    + rewrite length_app. cbn [length] in *. lia.
Qed.

Lemma check_bom_circular_reference_total df :
  check_bom_circular_reference df ≠ OutOfFuel.
Proof.
  unfold check_bom_circular_reference. apply first_failure_fuel.
  intros item _. apply (check_cycle_total df item).
  - apply NoDup_nil_2.
  - intros x Hx. by apply elem_of_nil in Hx.
  - apply list_elem_of_here.
  - cbn [length]. lia.
Qed.

Section conversions_bom.
Variable to_numeric_cell : cell → option Z.
Variable to_datetime_cell : cell → option Z.

(** utils.py, [validate_bom_data]. *)
Definition validate_bom_data (df : frame) : frame * verdict :=
  let missing := missing_columns df ["父项编码"; "子项编码"; "用量"] in
  if negb (bool_decide (missing = [])) then (df, MissingColumns missing)
  else
    let (df1, ok1) := assign_converted (to_numeric to_numeric_cell) df "用量" in
    if negb ok1 then (df1, ConversionError)
    else if min_le (column df1 "用量") 0
         then (df1, Rejected "用量必须大于0")
         else (df1, check_bom_circular_reference df1).

(** app.py, [calculate_mrp], step 1: the column checks and the two
    date conversions. The steps after it build trees, frames and
    dictionaries of their own and assign to none of the four tables.
    The BOM and the inventory table are read only and are not part of
    the state returned. A verdict other than [Valid] is the error
    raised. *)
Definition calculate_mrp_preprocess (production_plan bom_data inventory_data : frame)
    (purchase_orders : option frame) : (frame * option frame) * verdict :=
  let missing_plan :=
    missing_columns production_plan ["产品编码"; "需求数量"; "需求日期"] in
  let missing_bom := missing_columns bom_data ["父项编码"; "子项编码"; "用量"] in
  let missing_inventory :=
    missing_columns inventory_data ["物料编码"; "库存数量"; "安全库存"] in
  if negb (bool_decide (missing_plan = []))
  then ((production_plan, purchase_orders), MissingColumns missing_plan)
  else if negb (bool_decide (missing_bom = []))
  then ((production_plan, purchase_orders), MissingColumns missing_bom)
  else if negb (bool_decide (missing_inventory = []))
  then ((production_plan, purchase_orders), MissingColumns missing_inventory)
  else
    let (plan1, ok1) :=
      assign_converted (to_datetime to_datetime_cell) production_plan "需求日期" in
    if negb ok1 then ((plan1, purchase_orders), ConversionError)
    else
      match purchase_orders with
      | Some orders =>
          if non_empty orders then
            if decide ("预计到货日期"%string ∈ PyDict.keys orders) then
              let (orders1, ok2) :=
                assign_converted (to_datetime to_datetime_cell) orders "预计到货日期" in
              if negb ok2 then ((plan1, Some orders1), ConversionError)
              else ((plan1, Some orders1), Valid)
            else ((plan1, Some orders), MissingColumns ["预计到货日期"%string])
          else ((plan1, Some orders), Valid)
      | None => ((plan1, None), Valid)
      end.

End conversions_bom.

(** *** Conversions of the cells of a CSV file *)

(** One way the two conversions may read strings, for the examples: a
    run of decimal digits as a number, [YYYY-MM-DD] as a date. *)
Definition digit (a : Ascii.ascii) : option Z :=
  let n := Z.of_nat (Ascii.nat_of_ascii a) - 48 in
  if (0 <=? n) && (n <=? 9) then Some n else None.

Fixpoint digits_value (acc : Z) (s : string) : option Z :=
  match s with
  | EmptyString => Some acc
  | String a rest =>
      match digit a with
      | Some d => digits_value (10 * acc + d) rest
      | None => None
      end
  end.

Definition read_number (s : string) : option Z :=
  match s with
  | EmptyString => None
  | _ => digits_value 0 s
  end.

Definition leap_year (y : Z) : bool :=
  ((y mod 4 =? 0) && negb (y mod 100 =? 0)) || (y mod 400 =? 0).

Definition days_in_month (y m : Z) : Z :=
  if m =? 2 then (if leap_year y then 29 else 28)
  else if (m =? 4) || (m =? 6) || (m =? 9) || (m =? 11) then 30
  else 31.

(** The day number of a calendar date, day 0 being 1970-01-01. *)
Definition days_from_civil (y m d : Z) : Z :=
  let y' := if m <=? 2 then y - 1 else y in
  let era := y' `div` 400 in
  let yoe := y' - era * 400 in
  let mp := (m + 9) `mod` 12 in
  let doy := (153 * mp + 2) `div` 5 + d - 1 in
  let doe := yoe * 365 + yoe `div` 4 - yoe `div` 100 + doy in
  era * 146097 + doe - 719468.

Definition read_date (s : string) : option Z :=
  match read_number (String.substring 0 4 s), read_number (String.substring 5 2 s),
        read_number (String.substring 8 2 s) with
  | Some y, Some m, Some d =>
      if bool_decide (String.length s = 10%nat)
         && bool_decide (String.substring 4 1 s = "-"%string)
         && bool_decide (String.substring 7 1 s = "-"%string)
         && (1 <=? m) && (m <=? 12) && (1 <=? d) && (d <=? days_in_month y m)
      then Some (days_from_civil y m d)
      else None
  | _, _, _ => None
  end.

Definition csv_to_numeric_cell (c : cell) : option Z :=
  match c with
  | Num z => Some z
  | Str s => read_number s
  | Time _ => None
  end.

Definition csv_to_datetime_cell (c : cell) : option Z :=
  match c with
  | Time day => Some day
  | Str s => read_date s
  | Num _ => None
  end.

Example read_date_2023_06_01 : read_date "2023-06-01" = Some 19509.
Proof. reflexivity. Qed.

(** *** What a call leaves of the table it is given *)

(** [df'] has the columns of [df], with the cells of [df] in every
    column but those of [cols]. *)
Definition untouched_except (cols : list string) (df df' : frame) : Prop :=
  PyDict.keys df' = PyDict.keys df ∧
  ∀ col, col ∉ cols → PyDict.get df' col = PyDict.get df col.

Definition numeric (cells : list cell) : Prop :=
  Forall (fun c => ∃ z, c = Num z) cells.

Definition timestamps (cells : list cell) : Prop :=
  Forall (fun c => ∃ day, c = Time day) cells.

Lemma untouched_refl cols df : untouched_except cols df df.
Proof. by split. Qed.

Lemma untouched_trans cols df df1 df2 :
  untouched_except cols df df1 → untouched_except cols df1 df2 →
  untouched_except cols df df2.
Proof.
  intros [Hk1 Hg1] [Hk2 Hg2]. split; [congruence|].
  intros col Hcol. rewrite Hg2, Hg1; done.
Qed.

Lemma untouched_weaken cols cols' df df' :
  (∀ col, col ∈ cols → col ∈ cols') →
  untouched_except cols df df' → untouched_except cols' df df'.
Proof.
  intros Hsub [Hk Hg]. split; [done|]. intros col Hcol. apply Hg.
  intros Hin. by apply Hcol, Hsub.
Qed.

Lemma required_present df required col :
  missing_columns df required = [] → col ∈ required → col ∈ PyDict.keys df.
Proof.
  unfold missing_columns. intros Hnone Hcol.
  destruct (decide (col ∈ PyDict.keys df)) as [Hin|Hnin]; [done|].
  exfalso. eapply filter_nil_not_elem_of; [exact Hnone | exact Hnin | exact Hcol].
Qed.

Lemma column_present df col :
  col ∈ PyDict.keys df → PyDict.get df col = Some (column df col).
Proof.
  intros Hin. unfold column, PyDict.get_default.
  destruct (PyDict.get df col) eqn:Hget; [done|].
  by apply PyDict.get_None in Hget.
Qed.

Section assign.
Variable convert : list cell → option (list cell).

Lemma assign_untouched df col :
  col ∈ PyDict.keys df →
  untouched_except [col] df (assign_converted convert df col).1.
Proof.
  intros Hin. unfold assign_converted.
  destruct (convert (column df col)) as [cells|]; simpl;
    [|apply untouched_refl].
  split.
  - rewrite PyDict.keys_set. by rewrite decide_True.
  - intros c Hc. apply PyDict.get_set_ne. intros ->. apply Hc.
    apply list_elem_of_here.
Qed.

Lemma assign_fixed df col :
  col ∈ PyDict.keys df →
  convert (column df col) = Some (column df col) →
  assign_converted convert df col = (df, true).
Proof.
  intros Hin Hconv. unfold assign_converted. rewrite Hconv.
  f_equal. apply PyDict.set_present. by apply column_present.
Qed.

Lemma assign_done df col df' :
  assign_converted convert df col = (df', true) →
  convert (column df col) = Some (column df' col).
Proof.
  unfold assign_converted.
  destruct (convert (column df col)) as [cells|]; [|discriminate].
  intros [= <-]. f_equal. unfold column, PyDict.get_default.
  by rewrite PyDict.get_set_eq.
Qed.

End assign.

Section idempotent.
Variable to_numeric_cell : cell → option Z.
Variable to_datetime_cell : cell → option Z.
Hypothesis to_numeric_Num : ∀ z, to_numeric_cell (Num z) = Some z.
Hypothesis to_datetime_Time : ∀ day, to_datetime_cell (Time day) = Some day.

Lemma to_numeric_numeric cells :
  numeric cells → to_numeric to_numeric_cell cells = Some cells.
Proof.
  unfold to_numeric. induction 1 as [|c cells [z ->] _ IH]; [done|].
  cbn. rewrite to_numeric_Num. cbn. by rewrite IH.
Qed.

Lemma to_datetime_timestamps cells :
  timestamps cells → to_datetime to_datetime_cell cells = Some cells.
Proof.
  unfold to_datetime. induction 1 as [|c cells [z ->] _ IH]; [done|].
  cbn. rewrite to_datetime_Time. cbn. by rewrite IH.
Qed.

End idempotent.

Lemma assign_twice conv1 conv2 df c1 c2 df1 ok1 df2 ok2 :
  c1 ∈ PyDict.keys df → c2 ∈ PyDict.keys df →
  assign_converted conv1 df c1 = (df1, ok1) →
  assign_converted conv2 df1 c2 = (df2, ok2) →
  untouched_except [c1; c2] df df1 ∧ untouched_except [c1; c2] df df2.
Proof.
  intros Hc1 Hc2 H1 H2.
  pose proof (assign_untouched conv1 df c1 Hc1) as U1. rewrite H1 in U1.
  simpl in U1.
  assert (c2 ∈ PyDict.keys df1) as Hc2' by (destruct U1 as [-> _]; done).
  pose proof (assign_untouched conv2 df1 c2 Hc2') as U2. rewrite H2 in U2.
  simpl in U2.
  assert (untouched_except [c1; c2] df df1) as U1'.
  { eapply untouched_weaken; [|exact U1].
    intros c ->%list_elem_of_singleton. apply list_elem_of_here. }
  split; [done|]. eapply untouched_trans; [exact U1'|].
  eapply untouched_weaken; [|exact U2].
  intros c ->%list_elem_of_singleton.
  apply list_elem_of_further, list_elem_of_here.
Qed.

Lemma assign_twice_fixed conv1 conv2 df c1 c2 df1 ok1 df2 ok2 :
  c1 ∈ PyDict.keys df → c2 ∈ PyDict.keys df →
  conv1 (column df c1) = Some (column df c1) →
  conv2 (column df c2) = Some (column df c2) →
  assign_converted conv1 df c1 = (df1, ok1) →
  assign_converted conv2 df1 c2 = (df2, ok2) →
  df1 = df ∧ ok1 = true ∧ df2 = df ∧ ok2 = true.
Proof.
  intros Hc1 Hc2 Hf1 Hf2 H1 H2.
  rewrite (assign_fixed conv1 df c1 Hc1 Hf1) in H1. injection H1 as <- <-.
  rewrite (assign_fixed conv2 df c2 Hc2 Hf2) in H2. injection H2 as <- <-.
  done.
Qed.

Section validators.
Variable to_numeric_cell : cell → option Z.
Variable to_datetime_cell : cell → option Z.

Ltac required_column Hmiss :=
  eapply required_present; [exact Hmiss |];
  repeat first [apply list_elem_of_here | apply list_elem_of_further].

Lemma validate_production_plan_untouched df :
  untouched_except ["需求数量"; "需求日期"]%string df
    (validate_production_plan to_numeric_cell to_datetime_cell df).1.
Proof.
  unfold validate_production_plan.
  destruct (bool_decide (missing_columns df _ = [])) eqn:Hmiss; simpl;
    [|apply untouched_refl].
  apply bool_decide_eq_true in Hmiss.
  assert ("需求数量"%string ∈ PyDict.keys df) as Hc1 by required_column Hmiss.
  assert ("需求日期"%string ∈ PyDict.keys df) as Hc2 by required_column Hmiss.
  destruct (assign_converted _ df "需求数量") as [df1 ok1] eqn:H1.
  destruct (assign_converted _ df1 "需求日期") as [df2 ok2] eqn:H2.
  destruct (assign_twice _ _ _ _ _ _ _ _ _ Hc1 Hc2 H1 H2) as [U1 U2].
  destruct ok1; simpl; [|done]. destruct ok2; simpl; [|done].
  by destruct (min_le _ 0).
Qed.

Lemma validate_inventory_data_untouched df :
  untouched_except ["库存数量"; "安全库存"]%string df
    (validate_inventory_data to_numeric_cell df).1.
Proof.
  unfold validate_inventory_data.
  destruct (bool_decide (missing_columns df _ = [])) eqn:Hmiss; simpl;
    [|apply untouched_refl].
  apply bool_decide_eq_true in Hmiss.
  assert ("库存数量"%string ∈ PyDict.keys df) as Hc1 by required_column Hmiss.
  assert ("安全库存"%string ∈ PyDict.keys df) as Hc2 by required_column Hmiss.
  destruct (assign_converted _ df "库存数量") as [df1 ok1] eqn:H1.
  destruct (assign_converted _ df1 "安全库存") as [df2 ok2] eqn:H2.
  destruct (assign_twice _ _ _ _ _ _ _ _ _ Hc1 Hc2 H1 H2) as [U1 U2].
  destruct ok1; simpl; [|done]. destruct ok2; simpl; [|done].
  destruct (min_lt _ 0); [done|]. by destruct (min_lt _ 0).
Qed.

Lemma validate_purchase_orders_untouched df :
  untouched_except ["订单数量"; "预计到货日期"]%string df
    (validate_purchase_orders to_numeric_cell to_datetime_cell df).1.
Proof.
  unfold validate_purchase_orders.
  destruct (bool_decide (missing_columns df _ = [])) eqn:Hmiss; simpl;
    [|apply untouched_refl].
  apply bool_decide_eq_true in Hmiss.
  assert ("订单数量"%string ∈ PyDict.keys df) as Hc1 by required_column Hmiss.
  assert ("预计到货日期"%string ∈ PyDict.keys df) as Hc2 by required_column Hmiss.
  destruct (assign_converted _ df "订单数量") as [df1 ok1] eqn:H1.
  destruct (assign_converted _ df1 "预计到货日期") as [df2 ok2] eqn:H2.
  destruct (assign_twice _ _ _ _ _ _ _ _ _ Hc1 Hc2 H1 H2) as [U1 U2].
  destruct ok1; simpl; [|done]. destruct ok2; simpl; [|done].
  by destruct (min_le _ 0).
Qed.

Lemma validate_bom_data_untouched df :
  untouched_except ["用量"]%string df (validate_bom_data to_numeric_cell df).1.
Proof.
  unfold validate_bom_data.
  destruct (bool_decide (missing_columns df _ = [])) eqn:Hmiss; simpl;
    [|apply untouched_refl].
  apply bool_decide_eq_true in Hmiss.
  assert ("用量"%string ∈ PyDict.keys df) as Hc1 by required_column Hmiss.
  pose proof (assign_untouched (to_numeric to_numeric_cell) df "用量" Hc1) as U1.
  destruct (assign_converted _ df "用量") as [df1 ok1].
  destruct ok1; simpl; [|done]. by destruct (min_le _ 0).
Qed.

Lemma calculate_mrp_preprocess_untouched production_plan bom_data
    inventory_data purchase_orders :
  let after :=
    (calculate_mrp_preprocess to_datetime_cell production_plan bom_data
       inventory_data purchase_orders).1 in
  untouched_except ["需求日期"]%string production_plan after.1 ∧
  match purchase_orders, after.2 with
  | Some orders, Some orders' =>
      untouched_except ["预计到货日期"]%string orders orders'
  | None, None => True
  | _, _ => False
  end.
Proof.
  unfold calculate_mrp_preprocess.
  assert (match purchase_orders with
          | Some orders => untouched_except ["预计到货日期"]%string orders orders
          | None => True
          end) as Hsame by (destruct purchase_orders; [apply untouched_refl | done]).
  destruct (bool_decide (missing_columns production_plan _ = [])) eqn:Hmiss;
    simpl; [|split; [apply untouched_refl | by destruct purchase_orders]].
  destruct (bool_decide (missing_columns bom_data _ = [])); simpl;
    [|split; [apply untouched_refl | by destruct purchase_orders]].
  destruct (bool_decide (missing_columns inventory_data _ = [])); simpl;
    [|split; [apply untouched_refl | by destruct purchase_orders]].
  apply bool_decide_eq_true in Hmiss.
  assert ("需求日期"%string ∈ PyDict.keys production_plan) as Hc1
    by required_column Hmiss.
  pose proof (assign_untouched (to_datetime to_datetime_cell) production_plan
                "需求日期" Hc1) as U1.
  destruct (assign_converted _ production_plan "需求日期") as [plan1 ok1].
  simpl in U1. destruct ok1; simpl; [|split; [done | by destruct purchase_orders]].
  destruct purchase_orders as [orders|]; [|done].
  destruct (non_empty orders); [|done].
  destruct (decide ("预计到货日期"%string ∈ PyDict.keys orders)) as [Hin|Hnin];
    [|done].
  pose proof (assign_untouched (to_datetime to_datetime_cell) orders
                "预计到货日期" Hin) as U2.
  destruct (assign_converted _ orders "预计到货日期") as [orders1 ok2].
  simpl in U2. by destruct ok2.
Qed.

End validators.

Lemma assign_twice_done conv1 conv2 df c1 c2 df1 df2 :
  c1 ≠ c2 →
  assign_converted conv1 df c1 = (df1, true) →
  assign_converted conv2 df1 c2 = (df2, true) →
  conv1 (column df c1) = Some (column df2 c1) ∧
  conv2 (column df c2) = Some (column df2 c2).
Proof.
  intros Hne H1 H2.
  pose proof (assign_done _ _ _ _ H1) as D1.
  pose proof (assign_done _ _ _ _ H2) as D2.
  assert (column df1 c2 = column df c2) as E2.
  { unfold assign_converted in H1.
    destruct (conv1 (column df c1)); [|discriminate]. injection H1 as <-.
    unfold column, PyDict.get_default. by rewrite PyDict.get_set_ne. }
  assert (column df2 c1 = column df1 c1) as E1.
  { unfold assign_converted in H2.
    destruct (conv2 (column df1 c2)); [|discriminate]. injection H2 as <-.
    unfold column, PyDict.get_default. by rewrite PyDict.get_set_ne. }
  split; congruence.
Qed.

Section converted.
Variable to_numeric_cell : cell → option Z.
Variable to_datetime_cell : cell → option Z.
Hypothesis to_numeric_Num : ∀ z, to_numeric_cell (Num z) = Some z.
Hypothesis to_datetime_Time : ∀ day, to_datetime_cell (Time day) = Some day.

Ltac required_column Hmiss :=
  eapply required_present; [exact Hmiss |];
  repeat first [apply list_elem_of_here | apply list_elem_of_further].

Lemma validate_production_plan_fixed df :
  numeric (column df "需求数量") → timestamps (column df "需求日期") →
  (validate_production_plan to_numeric_cell to_datetime_cell df).1 = df.
Proof.
  intros Hn Ht. unfold validate_production_plan.
  destruct (bool_decide (missing_columns df _ = [])) eqn:Hmiss; simpl; [|done].
  apply bool_decide_eq_true in Hmiss.
  assert ("需求数量"%string ∈ PyDict.keys df) as Hc1 by required_column Hmiss.
  assert ("需求日期"%string ∈ PyDict.keys df) as Hc2 by required_column Hmiss.
  destruct (assign_converted _ df "需求数量") as [df1 ok1] eqn:H1.
  destruct (assign_converted _ df1 "需求日期") as [df2 ok2] eqn:H2.
  destruct (assign_twice_fixed _ _ _ _ _ _ _ _ _ Hc1 Hc2
              (to_numeric_numeric _ to_numeric_Num _ Hn)
              (to_datetime_timestamps _ to_datetime_Time _ Ht) H1 H2)
    as (-> & -> & -> & ->).
  simpl. by destruct (min_le _ 0).
Qed.

Lemma validate_inventory_data_fixed df :
  numeric (column df "库存数量") → numeric (column df "安全库存") →
  (validate_inventory_data to_numeric_cell df).1 = df.
Proof.
  intros Hn Ht. unfold validate_inventory_data.
  destruct (bool_decide (missing_columns df _ = [])) eqn:Hmiss; simpl; [|done].
  apply bool_decide_eq_true in Hmiss.
  assert ("库存数量"%string ∈ PyDict.keys df) as Hc1 by required_column Hmiss.
  assert ("安全库存"%string ∈ PyDict.keys df) as Hc2 by required_column Hmiss.
  destruct (assign_converted _ df "库存数量") as [df1 ok1] eqn:H1.
  destruct (assign_converted _ df1 "安全库存") as [df2 ok2] eqn:H2.
  destruct (assign_twice_fixed _ _ _ _ _ _ _ _ _ Hc1 Hc2
              (to_numeric_numeric _ to_numeric_Num _ Hn)
              (to_numeric_numeric _ to_numeric_Num _ Ht) H1 H2)
    as (-> & -> & -> & ->).
  simpl. destruct (min_lt _ 0); [done|]. by destruct (min_lt _ 0).
Qed.

Lemma validate_purchase_orders_fixed df :
  numeric (column df "订单数量") → timestamps (column df "预计到货日期") →
  (validate_purchase_orders to_numeric_cell to_datetime_cell df).1 = df.
Proof.
  intros Hn Ht. unfold validate_purchase_orders.
  destruct (bool_decide (missing_columns df _ = [])) eqn:Hmiss; simpl; [|done].
  apply bool_decide_eq_true in Hmiss.
  assert ("订单数量"%string ∈ PyDict.keys df) as Hc1 by required_column Hmiss.
  assert ("预计到货日期"%string ∈ PyDict.keys df) as Hc2 by required_column Hmiss.
  destruct (assign_converted _ df "订单数量") as [df1 ok1] eqn:H1.
  destruct (assign_converted _ df1 "预计到货日期") as [df2 ok2] eqn:H2.
  destruct (assign_twice_fixed _ _ _ _ _ _ _ _ _ Hc1 Hc2
              (to_numeric_numeric _ to_numeric_Num _ Hn)
              (to_datetime_timestamps _ to_datetime_Time _ Ht) H1 H2)
    as (-> & -> & -> & ->).
  simpl. by destruct (min_le _ 0).
Qed.

Lemma validate_bom_data_fixed df :
  numeric (column df "用量") →
  (validate_bom_data to_numeric_cell df).1 = df.
Proof.
  intros Hn. unfold validate_bom_data.
  destruct (bool_decide (missing_columns df _ = [])) eqn:Hmiss; simpl; [|done].
  apply bool_decide_eq_true in Hmiss.
  assert ("用量"%string ∈ PyDict.keys df) as Hc1 by required_column Hmiss.
  rewrite (assign_fixed _ df "用量" Hc1
             (to_numeric_numeric _ to_numeric_Num _ Hn)).
  simpl. by destruct (min_le _ 0).
Qed.

Lemma calculate_mrp_preprocess_fixed production_plan bom_data inventory_data
    purchase_orders :
  timestamps (column production_plan "需求日期") →
  (∀ orders, purchase_orders = Some orders →
             timestamps (column orders "预计到货日期")) →
  (calculate_mrp_preprocess to_datetime_cell production_plan bom_data
     inventory_data purchase_orders).1
  = (production_plan, purchase_orders).
Proof.
  intros Ht Ho. unfold calculate_mrp_preprocess.
  destruct (bool_decide (missing_columns production_plan _ = [])) eqn:Hmiss;
    simpl; [|done].
  destruct (bool_decide (missing_columns bom_data _ = [])); simpl; [|done].
  destruct (bool_decide (missing_columns inventory_data _ = [])); simpl;
    [|done].
  apply bool_decide_eq_true in Hmiss.
  assert ("需求日期"%string ∈ PyDict.keys production_plan) as Hc1
    by required_column Hmiss.
  rewrite (assign_fixed _ production_plan "需求日期" Hc1
             (to_datetime_timestamps _ to_datetime_Time _ Ht)).
  simpl. destruct purchase_orders as [orders|]; [|done].
  destruct (non_empty orders); [|done].
  destruct (decide ("预计到货日期"%string ∈ PyDict.keys orders)) as [Hin|Hnin];
    [|done].
  rewrite (assign_fixed _ orders "预计到货日期" Hin
             (to_datetime_timestamps _ to_datetime_Time _ (Ho _ eq_refl))).
  done.
Qed.

End converted.

Section written.
Variable to_numeric_cell : cell → option Z.
Variable to_datetime_cell : cell → option Z.

Lemma validate_production_plan_written df :
  (validate_production_plan to_numeric_cell to_datetime_cell df).2 = Valid →
  let df' := (validate_production_plan to_numeric_cell to_datetime_cell df).1 in
  to_numeric to_numeric_cell (column df "需求数量")
  = Some (column df' "需求数量") ∧
  to_datetime to_datetime_cell (column df "需求日期")
  = Some (column df' "需求日期").
Proof.
  unfold validate_production_plan.
  destruct (bool_decide (missing_columns df _ = [])); simpl; [|discriminate].
  destruct (assign_converted _ df "需求数量") as [df1 ok1] eqn:H1.
  destruct ok1; simpl; [|discriminate].
  destruct (assign_converted _ df1 "需求日期") as [df2 ok2] eqn:H2.
  destruct ok2; simpl; [|discriminate].
  destruct (min_le _ 0); simpl; [discriminate|]. intros _.
  assert ("需求数量"%string ≠ "需求日期"%string) as Hne by discriminate.
  exact (assign_twice_done _ _ _ _ _ _ _ Hne H1 H2).
Qed.

Lemma calculate_mrp_preprocess_written production_plan bom_data inventory_data
    purchase_orders :
  (calculate_mrp_preprocess to_datetime_cell production_plan bom_data
     inventory_data purchase_orders).2 = Valid →
  to_datetime to_datetime_cell (column production_plan "需求日期")
  = Some (column
            (calculate_mrp_preprocess to_datetime_cell production_plan bom_data
               inventory_data purchase_orders).1.1 "需求日期").
Proof.
  unfold calculate_mrp_preprocess.
  destruct (bool_decide (missing_columns production_plan _ = [])); simpl;
    [|discriminate].
  destruct (bool_decide (missing_columns bom_data _ = [])); simpl;
    [|discriminate].
  destruct (bool_decide (missing_columns inventory_data _ = [])); simpl;
    [|discriminate].
  destruct (assign_converted _ production_plan "需求日期") as [plan1 ok1] eqn:H1.
  destruct ok1; simpl; [|discriminate].
  pose proof (assign_done _ _ _ _ H1) as D1.
  destruct purchase_orders as [orders|]; [|done].
  destruct (non_empty orders); [|done].
  destruct (decide ("预计到货日期"%string ∈ PyDict.keys orders)); [|discriminate].
  destruct (assign_converted _ orders "预计到货日期") as [orders1 ok2].
  by destruct ok2.
Qed.

End written.

(** *** The cells a call writes *)

(** What [df[c] = conv(df[c])] inside a [try] leaves of the table, and
    what two such assignments one after the other leave: the converted
    cells in each column whose conversion is reached and does not raise.
    The first column stays written when the second conversion raises. *)
Definition written_once (conv : list cell → option (list cell)) (c : string)
    (df df' : frame) (v : verdict) : Prop :=
  (conv (column df c) = None → df' = df ∧ v = ConversionError) ∧
  (∀ cells, conv (column df c) = Some cells → df' = PyDict.set df c cells) ∧
  (v = Valid → ∃ cells, conv (column df c) = Some cells).

Definition written_twice (conv1 conv2 : list cell → option (list cell))
    (c1 c2 : string) (df df' : frame) (v : verdict) : Prop :=
  (conv1 (column df c1) = None → df' = df ∧ v = ConversionError) ∧
  (∀ cells1, conv1 (column df c1) = Some cells1 →
     (conv2 (column df c2) = None →
      df' = PyDict.set df c1 cells1 ∧ v = ConversionError) ∧
     (∀ cells2, conv2 (column df c2) = Some cells2 →
        df' = PyDict.set (PyDict.set df c1 cells1) c2 cells2)) ∧
  (v = Valid →
   ∃ cells1 cells2,
     conv1 (column df c1) = Some cells1 ∧ conv2 (column df c2) = Some cells2).

Lemma column_set_ne df c1 c2 cells :
  c1 ≠ c2 → column (PyDict.set df c1 cells) c2 = column df c2.
Proof.
  intros Hne. unfold column, PyDict.get_default.
  by rewrite PyDict.get_set_ne.
Qed.

Section assigned.
Variable to_numeric_cell : cell → option Z.
Variable to_datetime_cell : cell → option Z.

Lemma validate_production_plan_assigns df :
  let call := validate_production_plan to_numeric_cell to_datetime_cell df in
  let missing := missing_columns df ["产品编码"; "需求数量"; "需求日期"]%string in
  (missing ≠ [] → call = (df, MissingColumns missing)) ∧
  (missing = [] →
   written_twice (to_numeric to_numeric_cell) (to_datetime to_datetime_cell)
     "需求数量" "需求日期" df call.1 call.2).
Proof.
  intros call missing. subst call missing. unfold validate_production_plan.
  split.
  - intros Hmiss. by rewrite bool_decide_eq_false_2.
  - intros Hmiss. rewrite bool_decide_eq_true_2 by done. cbn [negb].
    unfold assign_converted.
    destruct (to_numeric to_numeric_cell (column df "需求数量"))
      as [cells1|] eqn:H1; cbn [negb fst snd].
    2:{ unfold written_twice. split_and!;
          [done | intros cells Hcells; congruence | discriminate]. }
    rewrite column_set_ne by discriminate.
    destruct (to_datetime to_datetime_cell (column df "需求日期"))
      as [cells2|] eqn:H2; cbn [negb fst snd].
    2:{ unfold written_twice. split_and!; [congruence | | discriminate].
        intros cells Hcells. assert (cells = cells1) as -> by congruence.
        split; [done | intros cells Hcells'; congruence]. }
    unfold written_twice. split_and!; [congruence | |].
    + intros cells Hcells. assert (cells = cells1) as -> by congruence.
      split; [congruence|].
      intros cells Hcells'. assert (cells = cells2) as -> by congruence.
      by destruct (min_le _ 0).
    + intros _. by exists cells1, cells2.
Qed.

Lemma validate_inventory_data_assigns df :
  let call := validate_inventory_data to_numeric_cell df in
  let missing := missing_columns df ["物料编码"; "库存数量"; "安全库存"]%string in
  (missing ≠ [] → call = (df, MissingColumns missing)) ∧
  (missing = [] →
   written_twice (to_numeric to_numeric_cell) (to_numeric to_numeric_cell)
     "库存数量" "安全库存" df call.1 call.2).
Proof.
  intros call missing. subst call missing. unfold validate_inventory_data.
  split.
  - intros Hmiss. by rewrite bool_decide_eq_false_2.
  - intros Hmiss. rewrite bool_decide_eq_true_2 by done. cbn [negb].
    unfold assign_converted.
    destruct (to_numeric to_numeric_cell (column df "库存数量"))
      as [cells1|] eqn:H1; cbn [negb fst snd].
    2:{ unfold written_twice. split_and!;
          [done | intros cells Hcells; congruence | discriminate]. }
    rewrite column_set_ne by discriminate.
    destruct (to_numeric to_numeric_cell (column df "安全库存"))
      as [cells2|] eqn:H2; cbn [negb fst snd].
    2:{ unfold written_twice. split_and!; [congruence | | discriminate].
        intros cells Hcells. assert (cells = cells1) as -> by congruence.
        split; [done | intros cells Hcells'; congruence]. }
    unfold written_twice. split_and!; [congruence | |].
    + intros cells Hcells. assert (cells = cells1) as -> by congruence.
      split; [congruence|].
      intros cells Hcells'. assert (cells = cells2) as -> by congruence.
      destruct (min_lt _ 0); [done|]. by destruct (min_lt _ 0).
    + intros _. by exists cells1, cells2.
Qed.

Lemma validate_purchase_orders_assigns df :
  let call := validate_purchase_orders to_numeric_cell to_datetime_cell df in
  let missing := missing_columns df ["物料编码"; "订单数量"; "预计到货日期"]%string in
  (missing ≠ [] → call = (df, MissingColumns missing)) ∧
  (missing = [] →
   written_twice (to_numeric to_numeric_cell) (to_datetime to_datetime_cell)
     "订单数量" "预计到货日期" df call.1 call.2).
Proof.
  intros call missing. subst call missing. unfold validate_purchase_orders.
  split.
  - intros Hmiss. by rewrite bool_decide_eq_false_2.
  - intros Hmiss. rewrite bool_decide_eq_true_2 by done. cbn [negb].
    unfold assign_converted.
    destruct (to_numeric to_numeric_cell (column df "订单数量"))
      as [cells1|] eqn:H1; cbn [negb fst snd].
    2:{ unfold written_twice. split_and!;
          [done | intros cells Hcells; congruence | discriminate]. }
    rewrite column_set_ne by discriminate.
    destruct (to_datetime to_datetime_cell (column df "预计到货日期"))
      as [cells2|] eqn:H2; cbn [negb fst snd].
    2:{ unfold written_twice. split_and!; [congruence | | discriminate].
        intros cells Hcells. assert (cells = cells1) as -> by congruence.
        split; [done | intros cells Hcells'; congruence]. }
    unfold written_twice. split_and!; [congruence | |].
    + intros cells Hcells. assert (cells = cells1) as -> by congruence.
      split; [congruence|].
      intros cells Hcells'. assert (cells = cells2) as -> by congruence.
      by destruct (min_le _ 0).
    + intros _. by exists cells1, cells2.
Qed.

Lemma validate_bom_data_assigns df :
  let call := validate_bom_data to_numeric_cell df in
  let missing := missing_columns df ["父项编码"; "子项编码"; "用量"]%string in
  (missing ≠ [] → call = (df, MissingColumns missing)) ∧
  (missing = [] →
   written_once (to_numeric to_numeric_cell) "用量" df call.1 call.2).
Proof.
  intros call missing. subst call missing. unfold validate_bom_data.
  split.
  - intros Hmiss. by rewrite bool_decide_eq_false_2.
  - intros Hmiss. rewrite bool_decide_eq_true_2 by done. cbn [negb].
    unfold assign_converted.
    destruct (to_numeric to_numeric_cell (column df "用量"))
      as [cells1|] eqn:H1; cbn [negb fst snd].
    2:{ unfold written_once. split_and!;
          [done | intros cells Hcells; congruence | discriminate]. }
    unfold written_once. split_and!; [congruence | |].
    + intros cells Hcells. assert (cells = cells1) as -> by congruence.
      by destruct (min_le _ 0).
    + intros _. by exists cells1.
Qed.

End assigned.

(** *** The tables of the two MRP functions *)

(** app.py, [calculate_mrp]: the four tables as a call leaves them, and
    the error it raises in its first step, if any. The function assigns
    to the production plan and to the purchase orders (lines 106 and
    108); no statement of it assigns to the BOM or to the inventory
    table, which it reads. *)
Definition calculate_mrp_tables (to_datetime_cell : cell → option Z)
    (production_plan bom_data inventory_data : frame)
    (purchase_orders : option frame)
  : (frame * frame * frame * option frame) * verdict :=
  let call :=
    calculate_mrp_preprocess to_datetime_cell production_plan bom_data
      inventory_data purchase_orders in
  ((call.1.1, bom_data, inventory_data, call.1.2), call.2).

(** The arguments of [calculate_advanced_mrp]. *)
Record tables := Tables {
  t_production_plan : frame;
  t_bom_data : frame;
  t_inventory_data : frame;
  t_purchase_orders : option frame;
  t_lead_times : option frame;
  t_lot_sizes : option frame;
  t_capacity_constraints : option frame
}.

(** [if table is not None: if not all(col in table.columns for col in
    cols): raise ValueError(message)] *)
Definition optional_columns (table : option frame) (cols : list string)
    (message : string) : verdict :=
  match table with
  | Some df =>
      if bool_decide (missing_columns df cols = []) then Valid
      else Rejected message
  | None => Valid
  end.

(** advanced_mrp.py, [calculate_advanced_mrp], steps 1 to 4 on the
    tables: the column checks of lines 24-34, 37-40, 51-54 and 65-68,
    with the tables as the call leaves them. The function holds no
    assignment to a table it is given: the dictionaries of steps 2 to 4
    and 10, the trees, the requirement frame and the two [groupby]
    summaries are objects of its own, and the tables are only read. *)
Definition calculate_advanced_mrp_preprocess (t : tables) : tables * verdict :=
  let missing_plan :=
    missing_columns (t_production_plan t) ["产品编码"; "需求数量"; "需求日期"] in
  let missing_bom :=
    missing_columns (t_bom_data t) ["父项编码"; "子项编码"; "用量"] in
  let missing_inventory :=
    missing_columns (t_inventory_data t) ["物料编码"; "库存数量"; "安全库存"] in
  if negb (bool_decide (missing_plan = [])) then (t, MissingColumns missing_plan)
  else if negb (bool_decide (missing_bom = []))
  then (t, MissingColumns missing_bom)
  else if negb (bool_decide (missing_inventory = []))
  then (t, MissingColumns missing_inventory)
  else
    match optional_columns (t_lead_times t)
            ["物料编码"; "生产提前期"; "采购提前期"]
            "提前期数据缺少必要的列: 物料编码, 生产提前期, 采购提前期" with
    | Valid =>
        match optional_columns (t_lot_sizes t)
                ["物料编码"; "最小批量"; "批量倍数"]
                "批量大小数据缺少必要的列: 物料编码, 最小批量, 批量倍数" with
        | Valid =>
            (t, optional_columns (t_capacity_constraints t)
                  ["资源编码"; "日期"; "可用产能"]
                  "产能约束数据缺少必要的列: 资源编码, 日期, 可用产能")
        | failure => (t, failure)
        end
    | failure => (t, failure)
    end.

Lemma calculate_advanced_mrp_preprocess_same t :
  (calculate_advanced_mrp_preprocess t).1 = t.
Proof.
  unfold calculate_advanced_mrp_preprocess.
  repeat (case_match; try done).
Qed.

Lemma calculate_mrp_preprocess_assigns to_datetime_cell production_plan
    bom_data inventory_data purchase_orders :
  let call :=
    calculate_mrp_preprocess to_datetime_cell production_plan bom_data
      inventory_data purchase_orders in
  (missing_columns production_plan ["产品编码"; "需求数量"; "需求日期"]%string ≠ [] ∨
   missing_columns bom_data ["父项编码"; "子项编码"; "用量"]%string ≠ [] ∨
   missing_columns inventory_data ["物料编码"; "库存数量"; "安全库存"]%string ≠ [] →
   call.1 = (production_plan, purchase_orders)) ∧
  (missing_columns production_plan ["产品编码"; "需求数量"; "需求日期"]%string = [] →
   missing_columns bom_data ["父项编码"; "子项编码"; "用量"]%string = [] →
   missing_columns inventory_data ["物料编码"; "库存数量"; "安全库存"]%string = [] →
   (to_datetime to_datetime_cell (column production_plan "需求日期") = None →
    call = ((production_plan, purchase_orders), ConversionError)) ∧
   (∀ cells,
      to_datetime to_datetime_cell (column production_plan "需求日期")
      = Some cells →
      call.1.1 = PyDict.set production_plan "需求日期" cells ∧
      match purchase_orders with
      | None => call.1.2 = None
      | Some orders =>
          if non_empty orders then
            "预计到货日期"%string ∈ PyDict.keys orders →
            match to_datetime to_datetime_cell (column orders "预计到货日期") with
            | Some arrivals =>
                call.1.2 = Some (PyDict.set orders "预计到货日期" arrivals)
            | None => call.1.2 = Some orders ∧ call.2 = ConversionError
            end
          else call.1.2 = Some orders
      end)).
Proof.
  intros call. subst call. unfold calculate_mrp_preprocess. split.
  - intros Hmiss.
    destruct (decide (missing_columns production_plan
                        ["产品编码"; "需求数量"; "需求日期"]%string = []))
      as [Hplan|Hplan];
      [rewrite (bool_decide_eq_true_2 _ Hplan)
      |by rewrite (bool_decide_eq_false_2 _ Hplan)].
    destruct (decide (missing_columns bom_data
                        ["父项编码"; "子项编码"; "用量"]%string = []))
      as [Hbom|Hbom];
      [rewrite (bool_decide_eq_true_2 _ Hbom)
      |by rewrite (bool_decide_eq_false_2 _ Hbom)].
    destruct (decide (missing_columns inventory_data
                        ["物料编码"; "库存数量"; "安全库存"]%string = []))
      as [Hinv|Hinv];
      [|by rewrite (bool_decide_eq_false_2 _ Hinv)].
    tauto.
  - intros Hplan Hbom Hinv.
    rewrite (bool_decide_eq_true_2 _ Hplan), (bool_decide_eq_true_2 _ Hbom),
      (bool_decide_eq_true_2 _ Hinv). cbn [negb].
    unfold assign_converted.
    destruct (to_datetime to_datetime_cell (column production_plan "需求日期"))
      as [cells|] eqn:H1; cbn [negb fst snd].
    2:{ split; [done | discriminate]. }
    split; [discriminate|]. intros ? [= <-].
    destruct purchase_orders as [orders|]; [|done].
    destruct (non_empty orders); [|done].
    destruct (decide ("预计到货日期"%string ∈ PyDict.keys orders)) as [Hin|Hnin].
    + destruct (to_datetime to_datetime_cell (column orders "预计到货日期"));
        cbn [negb fst snd]; by split.
    + by split.
Qed.

(** C9 (as amended). The validators and [calculate_mrp] assign to the
    table they are given. A validator whose table lacks a required
    column leaves it as it is. Otherwise it writes the converted cells
    into each column whose conversion it reaches and that does not
    raise: [validate_production_plan] into 需求数量, then 需求日期;
    [validate_bom_data] into 用量; [validate_inventory_data] into
    库存数量, then 安全库存; [validate_purchase_orders] into 订单数量,
    then 预计到货日期; the first column stays written when the second
    conversion raises, and on a [Valid] verdict every converted column
    has been written. [calculate_mrp], when the three tables have their
    columns, writes the converted dates into 需求日期 of the production
    plan and, for purchase orders that are given and not empty, into
    their 预计到货日期; the BOM and the inventory table are as they were.
    After each of these calls the table has the same columns, every
    other column holds the cells it held, and a table whose converted
    columns hold numbers and timestamps already is the table it was.
    After the column checks of [calculate_advanced_mrp] its seven tables
    are as they were. *)
Theorem input_tables_after_a_call
    (to_numeric_cell to_datetime_cell : cell → option Z) :
  (∀ z, to_numeric_cell (Num z) = Some z) →
  (∀ day, to_datetime_cell (Time day) = Some day) →
  (∀ df,
     let call := validate_production_plan to_numeric_cell to_datetime_cell df in
     let missing := missing_columns df ["产品编码"; "需求数量"; "需求日期"]%string in
     untouched_except ["需求数量"; "需求日期"]%string df call.1 ∧
     (numeric (column df "需求数量") → timestamps (column df "需求日期") →
      call.1 = df) ∧
     (missing ≠ [] → call = (df, MissingColumns missing)) ∧
     (missing = [] →
      written_twice (to_numeric to_numeric_cell) (to_datetime to_datetime_cell)
        "需求数量" "需求日期" df call.1 call.2)) ∧
  (∀ df,
     let call := validate_bom_data to_numeric_cell df in
     let missing := missing_columns df ["父项编码"; "子项编码"; "用量"]%string in
     untouched_except ["用量"]%string df call.1 ∧
     (numeric (column df "用量") → call.1 = df) ∧
     (missing ≠ [] → call = (df, MissingColumns missing)) ∧
     (missing = [] →
      written_once (to_numeric to_numeric_cell) "用量" df call.1 call.2)) ∧
  (∀ df,
     let call := validate_inventory_data to_numeric_cell df in
     let missing := missing_columns df ["物料编码"; "库存数量"; "安全库存"]%string in
     untouched_except ["库存数量"; "安全库存"]%string df call.1 ∧
     (numeric (column df "库存数量") → numeric (column df "安全库存") →
      call.1 = df) ∧
     (missing ≠ [] → call = (df, MissingColumns missing)) ∧
     (missing = [] →
      written_twice (to_numeric to_numeric_cell) (to_numeric to_numeric_cell)
        "库存数量" "安全库存" df call.1 call.2)) ∧
  (∀ df,
     let call := validate_purchase_orders to_numeric_cell to_datetime_cell df in
     let missing := missing_columns df ["物料编码"; "订单数量"; "预计到货日期"]%string in
     untouched_except ["订单数量"; "预计到货日期"]%string df call.1 ∧
     (numeric (column df "订单数量") → timestamps (column df "预计到货日期") →
      call.1 = df) ∧
     (missing ≠ [] → call = (df, MissingColumns missing)) ∧
     (missing = [] →
      written_twice (to_numeric to_numeric_cell) (to_datetime to_datetime_cell)
        "订单数量" "预计到货日期" df call.1 call.2)) ∧
  (∀ production_plan bom_data inventory_data purchase_orders,
     let call :=
       calculate_mrp_tables to_datetime_cell production_plan bom_data
         inventory_data purchase_orders in
     let plan' := call.1.1.1.1 in
     let bom' := call.1.1.1.2 in
     let inventory' := call.1.1.2 in
     let orders' := call.1.2 in
     bom' = bom_data ∧ inventory' = inventory_data ∧
     untouched_except ["需求日期"]%string production_plan plan' ∧
     match purchase_orders, orders' with
     | Some orders, Some after =>
         untouched_except ["预计到货日期"]%string orders after
     | None, None => True
     | _, _ => False
     end ∧
     (timestamps (column production_plan "需求日期") →
      (∀ orders, purchase_orders = Some orders →
                 timestamps (column orders "预计到货日期")) →
      plan' = production_plan ∧ orders' = purchase_orders) ∧
     (missing_columns production_plan ["产品编码"; "需求数量"; "需求日期"]%string = [] →
      missing_columns bom_data ["父项编码"; "子项编码"; "用量"]%string = [] →
      missing_columns inventory_data ["物料编码"; "库存数量"; "安全库存"]%string = [] →
      ∀ cells,
        to_datetime to_datetime_cell (column production_plan "需求日期")
        = Some cells →
        plan' = PyDict.set production_plan "需求日期" cells ∧
        ∀ orders arrivals,
          purchase_orders = Some orders → non_empty orders = true →
          "预计到货日期"%string ∈ PyDict.keys orders →
          to_datetime to_datetime_cell (column orders "预计到货日期")
          = Some arrivals →
          orders' = Some (PyDict.set orders "预计到货日期" arrivals)) ∧
     (call.2 = Valid →
      ∃ cells,
        to_datetime to_datetime_cell (column production_plan "需求日期")
        = Some cells ∧
        plan' = PyDict.set production_plan "需求日期" cells)) ∧
  (∀ t, (calculate_advanced_mrp_preprocess t).1 = t).
Proof.
  intros Hnum Htime. split_and!.
  - intros df call missing.
    destruct (validate_production_plan_assigns to_numeric_cell to_datetime_cell df)
      as [Hmissing Hwritten].
    split_and!; [| | exact Hmissing | exact Hwritten].
    + apply validate_production_plan_untouched.
    + by apply validate_production_plan_fixed.
  - intros df call missing.
    destruct (validate_bom_data_assigns to_numeric_cell df)
      as [Hmissing Hwritten].
    split_and!; [| | exact Hmissing | exact Hwritten].
    + apply validate_bom_data_untouched.
    + by apply validate_bom_data_fixed.
  - intros df call missing.
    destruct (validate_inventory_data_assigns to_numeric_cell df)
      as [Hmissing Hwritten].
    split_and!; [| | exact Hmissing | exact Hwritten].
    + apply validate_inventory_data_untouched.
    + by apply validate_inventory_data_fixed.
  - intros df call missing.
    destruct (validate_purchase_orders_assigns to_numeric_cell to_datetime_cell df)
      as [Hmissing Hwritten].
    split_and!; [| | exact Hmissing | exact Hwritten].
    + apply validate_purchase_orders_untouched.
    + by apply validate_purchase_orders_fixed.
  - intros production_plan bom_data inventory_data purchase_orders
      call plan' bom' inventory' orders'.
    subst call plan' bom' inventory' orders'. unfold calculate_mrp_tables.
    cbn [fst snd].
    pose proof (calculate_mrp_preprocess_untouched to_datetime_cell
                  production_plan bom_data inventory_data purchase_orders)
      as [U1 U2].
    destruct (calculate_mrp_preprocess_assigns to_datetime_cell
                production_plan bom_data inventory_data purchase_orders)
      as [_ Hassigns].
    split_and!; [done | done | exact U1 | exact U2 | | |].
    + intros Hplan Horders.
      by rewrite (calculate_mrp_preprocess_fixed to_datetime_cell Htime
                    production_plan bom_data inventory_data purchase_orders
                    Hplan Horders).
    + intros Hp Hb Hi cells Hcells.
      destruct (Hassigns Hp Hb Hi) as [_ Hsome].
      destruct (Hsome cells Hcells) as [Hplan' Horders']. split; [done|].
      intros orders arrivals -> Hne Hin Harrivals.
      rewrite Hne in Horders'. specialize (Horders' Hin).
      by rewrite Harrivals in Horders'.
    + intros Hvalid.
      destruct (decide (missing_columns production_plan
                          ["产品编码"; "需求数量"; "需求日期"]%string = []))
        as [Hp|Hp].
      2:{ exfalso. revert Hvalid. unfold calculate_mrp_preprocess.
          by rewrite (bool_decide_eq_false_2 _ Hp). }
      destruct (decide (missing_columns bom_data
                          ["父项编码"; "子项编码"; "用量"]%string = []))
        as [Hb|Hb].
      2:{ exfalso. revert Hvalid. unfold calculate_mrp_preprocess.
          by rewrite (bool_decide_eq_true_2 _ Hp), (bool_decide_eq_false_2 _ Hb). }
      destruct (decide (missing_columns inventory_data
                          ["物料编码"; "库存数量"; "安全库存"]%string = []))
        as [Hi|Hi].
      2:{ exfalso. revert Hvalid. unfold calculate_mrp_preprocess.
          by rewrite (bool_decide_eq_true_2 _ Hp), (bool_decide_eq_true_2 _ Hb),
            (bool_decide_eq_false_2 _ Hi). }
      destruct (Hassigns Hp Hb Hi) as [Hnone Hsome].
      destruct (to_datetime to_datetime_cell (column production_plan "需求日期"))
        as [cells|].
      * exists cells. split; [done|]. by destruct (Hsome cells eq_refl).
      * exfalso. rewrite (Hnone eq_refl) in Hvalid. discriminate.
  - apply calculate_advanced_mrp_preprocess_same.
Qed.

(** *** The tables of a CSV upload *)

(** A production plan as [pd.read_csv] gives it: the quantity a number,
    the date a string. *)
Definition plan_csv : frame :=
  [("产品编码"%string, [Str "P001"]);
   ("需求数量"%string, [Num 100]);
   ("需求日期"%string, [Str "2023-06-01"])].

Definition plan_converted : frame :=
  [("产品编码"%string, [Str "P001"]);
   ("需求数量"%string, [Num 100]);
   ("需求日期"%string, [Time 19509])].

Definition bom_csv : frame :=
  [("父项编码"%string, [Str "P001"]);
   ("子项编码"%string, [Str "C001"]);
   ("用量"%string, [Num 2])].

Definition inventory_csv : frame :=
  [("物料编码"%string, [Str "P001"; Str "C001"]);
   ("库存数量"%string, [Num 20; Num 50]);
   ("安全库存"%string, [Num 10; Num 20])].

(** C9 as stated fails: after [validate_production_plan], and after
    [calculate_mrp], the production plan passed in holds timestamps
    where it held strings. *)
Lemma input_tables_change_counterexample :
  validate_production_plan csv_to_numeric_cell csv_to_datetime_cell plan_csv
  = (plan_converted, Valid) ∧
  calculate_mrp_preprocess csv_to_datetime_cell plan_csv bom_csv inventory_csv None
  = ((plan_converted, None), Valid) ∧
  plan_converted ≠ plan_csv.
Proof. split_and!; [reflexivity | reflexivity | discriminate]. Qed.

Lemma input_tables_after_a_call_witness :
  untouched_except ["需求数量"; "需求日期"]%string plan_csv
    (validate_production_plan csv_to_numeric_cell csv_to_datetime_cell plan_csv).1 ∧
  (validate_production_plan csv_to_numeric_cell csv_to_datetime_cell
     plan_converted).1 = plan_converted ∧
  written_twice (to_numeric csv_to_numeric_cell) (to_datetime csv_to_datetime_cell)
    "需求数量" "需求日期" plan_csv
    (validate_production_plan csv_to_numeric_cell csv_to_datetime_cell plan_csv).1
    (validate_production_plan csv_to_numeric_cell csv_to_datetime_cell plan_csv).2 ∧
  written_once (to_numeric csv_to_numeric_cell) "用量" bom_csv
    (validate_bom_data csv_to_numeric_cell bom_csv).1
    (validate_bom_data csv_to_numeric_cell bom_csv).2.
Proof.
  assert (∀ z, csv_to_numeric_cell (Num z) = Some z) as Hnum by done.
  assert (∀ day, csv_to_datetime_cell (Time day) = Some day) as Htime by done.
  pose proof (input_tables_after_a_call csv_to_numeric_cell csv_to_datetime_cell
                Hnum Htime) as (Hplan & Hbom & _).
  destruct (Hplan plan_csv) as (Huntouched & _ & _ & Hwritten).
  destruct (Hplan plan_converted) as (_ & Hfixed & _).
  destruct (Hbom bom_csv) as (_ & _ & _ & Hbom_written).
  split_and!.
  - exact Huntouched.
  - apply Hfixed.
    + repeat constructor. by exists 100.
    + repeat constructor. by exists 19509.
  - by apply Hwritten.
  - by apply Hbom_written.
Defined.

(** *** The graph [check_bom_circular_reference] walks *)

(** The rows of the table as [iterrows] gives them to the loop: parent
    and child. *)
Definition code_rows (df : frame) : list (cell * cell) :=
  zip (column df "父项编码") (column df "子项编码").

(** A non-empty sequence of codes, each the parent of the next in some
    row. *)
Inductive cell_walk (df : frame) : list cell → Prop :=
| cell_walk_one x : cell_walk df [x]
| cell_walk_step x y w :
    (x, y) ∈ code_rows df → cell_walk df (y :: w) →
    cell_walk df (x :: y :: w).

Lemma graph_children_iff (rows : list (cell * cell))
    (graph : list (cell * list cell)) (p c : cell) :
  c ∈ PyDict.get_default
        (foldl (fun graph row =>
                  PyDict.set graph row.1
                    (PyDict.get_default graph row.1 [] ++ [row.2]))
           graph rows) p []
  ↔ c ∈ PyDict.get_default graph p [] ∨ (p, c) ∈ rows.
Proof.
  revert graph. induction rows as [|[p0 c0] rows IH]; intros graph.
  - simpl. rewrite elem_of_nil. tauto.
  - cbn [foldl fst snd]. rewrite IH, elem_of_cons.
    unfold PyDict.get_default at 1. rewrite PyDict.get_set.
    case_decide as Hp.
    + subst p0. rewrite elem_of_app, list_elem_of_singleton. split.
      * intros [[?| ->]|?]; auto.
      * intros [?|[Heq|?]]; [auto | injection Heq as ->; auto | auto].
    + fold (PyDict.get_default graph p []). split; [tauto|].
      intros [?|[Heq|?]]; [tauto | by injection Heq as -> -> | tauto].
Qed.

Lemma graph_keys_iff (rows : list (cell * cell))
    (graph : list (cell * list cell)) (p : cell) :
  p ∈ PyDict.keys
        (foldl (fun graph row =>
                  PyDict.set graph row.1
                    (PyDict.get_default graph row.1 [] ++ [row.2]))
           graph rows)
  ↔ p ∈ PyDict.keys graph ∨ p ∈ rows.*1.
Proof.
  revert graph. induction rows as [|[p0 c0] rows IH]; intros graph.
  - simpl. rewrite elem_of_nil. tauto.
  - cbn [foldl fmap list_fmap fst snd]. rewrite IH, elem_of_cons.
    rewrite PyDict.keys_set. case_decide as Hk.
    + split; [tauto|]. intros [?|[->|?]]; tauto.
    + rewrite elem_of_app, list_elem_of_singleton. tauto.
Qed.

Lemma dependency_graph_edge df p c :
  c ∈ PyDict.get_default (dependency_graph df) p [] ↔ (p, c) ∈ code_rows df.
Proof.
  unfold dependency_graph. rewrite graph_children_iff.
  unfold PyDict.get_default at 1. simpl. rewrite elem_of_nil. tauto.
Qed.

Lemma dependency_graph_parent df p :
  p ∈ PyDict.keys (dependency_graph df) ↔ p ∈ (code_rows df).*1.
Proof.
  unfold dependency_graph. rewrite graph_keys_iff.
  unfold PyDict.keys at 1. simpl. rewrite elem_of_nil. tauto.
Qed.

Lemma first_failure_Valid {A} (check : A → verdict) (l : list A) :
  first_failure check l = Valid ↔ ∀ x, x ∈ l → check x = Valid.
Proof.
  induction l as [|x l IH]; simpl.
  - split; [|done]. intros _ x Hx. by apply elem_of_nil in Hx.
  - split.
    + intros Hf y Hy. destruct (check x) eqn:Hx; try discriminate.
      apply elem_of_cons in Hy as [->|Hy]; [done | by apply IH].
    + intros Hall. rewrite (Hall x (list_elem_of_here _ _)).
      apply IH. intros y Hy. apply Hall. by apply list_elem_of_further.
Qed.

Lemma first_failure_failure {A} (check : A → verdict) (l : list A) v :
  first_failure check l = v → v ≠ Valid → ∃ x, x ∈ l ∧ check x = v.
Proof.
  induction l as [|x l IH]; simpl; [congruence|].
  intros Hf Hv. destruct (check x) eqn:Hx;
    try (exists x; split; [apply list_elem_of_here | congruence]).
  destruct (IH Hf Hv) as (y & Hy & Hcy).
  exists y. split; [by apply list_elem_of_further | done].
Qed.

(** What [check_cycle] can end in. *)
Definition cycle_verdict (v : verdict) : Prop :=
  match v with
  | Valid | CircularReference _ | OutOfFuel => True
  | _ => False
  end.

Lemma first_failure_verdict {A} (check : A → verdict) (l : list A) :
  (∀ x, cycle_verdict (check x)) → cycle_verdict (first_failure check l).
Proof.
  intros Hall. induction l as [|x l IH]; simpl; [done|].
  pose proof (Hall x) as Hx. by destruct (check x).
Qed.

Lemma check_cycle_verdict fuel graph item path :
  cycle_verdict (check_cycle fuel graph item path).
Proof.
  revert item path. induction fuel as [|fuel IH]; intros item path; [done|].
  cbn [check_cycle]. case_decide; [done|].
  apply first_failure_verdict. intros child. apply IH.
Qed.

Lemma NoDup_snoc {A} (l : list A) (x : A) :
  NoDup l → x ∉ l → NoDup (l ++ [x]).
Proof.
  intros Hnd Hx. apply NoDup_app. split_and!; [done | | apply NoDup_singleton].
  intros y Hy Hy'. apply list_elem_of_singleton in Hy' as ->. done.
Qed.

Lemma check_cycle_Valid df fuel item path :
  check_cycle fuel (dependency_graph df) item path = Valid →
  NoDup path →
  ∀ w, cell_walk df (item :: w) → NoDup (path ++ item :: w).
Proof.
  revert item path.
  induction fuel as [|fuel IH]; intros item path Hc Hnd w Hw; [discriminate|].
  cbn [check_cycle] in Hc.
  destruct (decide (item ∈ path)) as [Hin|Hnin]; [discriminate|].
  pose proof (NoDup_snoc path item Hnd Hnin) as Hnd'.
  inversion Hw as [|x y w' He Hw']; subst; [done|].
  rewrite first_failure_Valid in Hc.
  specialize (Hc y (proj2 (dependency_graph_edge df item y) He)).
  pose proof (IH _ _ Hc Hnd' _ Hw') as Hres.
  by rewrite <- app_assoc in Hres.
Qed.

Lemma check_cycle_Circular df fuel item path cycle_path :
  check_cycle fuel (dependency_graph df) item path
  = CircularReference cycle_path →
  NoDup path →
  ∃ chain x,
    cell_walk df (chain ++ [x]) ∧ head (chain ++ [x]) = Some item ∧
    NoDup (path ++ chain) ∧ x ∈ path ++ chain ∧
    cycle_path = from_first x (path ++ chain) ++ [x].
Proof.
  revert item path.
  induction fuel as [|fuel IH]; intros item path Hc Hnd; [discriminate|].
  cbn [check_cycle] in Hc.
  destruct (decide (item ∈ path)) as [Hin|Hnin].
  - injection Hc as <-. exists [], item. simpl. rewrite app_nil_r.
    split_and!; [constructor | done..].
  - pose proof (NoDup_snoc path item Hnd Hnin) as Hnd'.
    apply first_failure_failure in Hc as (child & Hchild & Hc); [|done].
    apply dependency_graph_edge in Hchild.
    destruct (IH _ _ Hc Hnd') as (chain & x & Hw & Hhd & Hnd'' & Hx & ->).
    exists (item :: chain), x.
    rewrite <- !app_assoc in *. simpl in *.
    split_and!; [| done..].
    destruct (chain ++ [x]) as [|y rest] eqn:Hch; [discriminate|].
    injection Hhd as ->. by apply cell_walk_step.
Qed.

Lemma from_first_split (x : cell) (l : list cell) :
  x ∈ l → ∃ pre inner, l = pre ++ x :: inner ∧ from_first x l = x :: inner.
Proof.
  induction l as [|y l IH]; [by intros ?%elem_of_nil|].
  intros Hx. simpl. destruct (decide (y = x)) as [->|Hne].
  - by exists [], l.
  - apply elem_of_cons in Hx as [->|Hx]; [done|].
    destruct (IH Hx) as (pre & inner & -> & Hfrom).
    by exists (y :: pre), inner.
Qed.

Lemma cell_walk_suffix df l1 l2 :
  cell_walk df (l1 ++ l2) → l2 ≠ [] → cell_walk df l2.
Proof.
  induction l1 as [|x l1 IH]; [done|]. intros Hw Hne. apply IH; [|done].
  simpl in Hw. inversion Hw as [? Heq|? y w He Hw' Heq]; [|done].
  destruct l1; [by destruct l2 | done].
Qed.

Lemma check_reference_Valid df :
  check_bom_circular_reference df = Valid ↔ ∀ w, cell_walk df w → NoDup w.
Proof.
  unfold check_bom_circular_reference. split.
  - intros Hc w Hw. inversion Hw as [x|x y w' He Hw']; subst;
      [apply NoDup_singleton|].
    rewrite first_failure_Valid in Hc.
    assert (x ∈ PyDict.keys (dependency_graph df)) as Hx.
    { apply dependency_graph_parent. apply list_elem_of_fmap. by exists (x, y). }
    exact (check_cycle_Valid df _ x [] (Hc x Hx) (NoDup_nil_2) _ Hw).
  - intros Hacyc.
    pose proof (check_bom_circular_reference_total df) as Htotal.
    unfold check_bom_circular_reference in Htotal.
    destruct (first_failure _ (PyDict.keys (dependency_graph df)))
      as [| | | |cycle_path|] eqn:Hc; try done.
    + apply first_failure_failure in Hc as (x & _ & Hx); [|done].
      pose proof (check_cycle_verdict (S (S (length (column df "子项编码"))))
                    (dependency_graph df) x []) as Hv.
      by rewrite Hx in Hv.
    + apply first_failure_failure in Hc as (x & _ & Hx); [|done].
      pose proof (check_cycle_verdict (S (S (length (column df "子项编码"))))
                    (dependency_graph df) x []) as Hv.
      by rewrite Hx in Hv.
    + apply first_failure_failure in Hc as (x & _ & Hx); [|done].
      pose proof (check_cycle_verdict (S (S (length (column df "子项编码"))))
                    (dependency_graph df) x []) as Hv.
      by rewrite Hx in Hv.
    + exfalso. apply first_failure_failure in Hc as (item & _ & Hc); [|done].
      destruct (check_cycle_Circular df _ _ _ _ Hc (NoDup_nil_2))
        as (chain & x & Hw & _ & Hnd & Hx & _).
      simpl in *. pose proof (Hacyc _ Hw) as Hnd'.
      apply NoDup_app in Hnd' as (_ & Hdisj & _).
      apply (Hdisj x Hx). apply list_elem_of_here.
Qed.

Lemma check_reference_cycle df cycle_path :
  check_bom_circular_reference df = CircularReference cycle_path →
  ∃ x inner,
    cycle_path = x :: inner ++ [x] ∧ cell_walk df cycle_path ∧
    NoDup (x :: inner).
Proof.
  unfold check_bom_circular_reference. intros Hc.
  apply first_failure_failure in Hc as (item & _ & Hc); [|done].
  destruct (check_cycle_Circular df _ _ _ _ Hc (NoDup_nil_2))
    as (chain & x & Hw & _ & Hnd & Hx & ->).
  simpl in *. destruct (from_first_split x chain Hx) as (pre & inner & -> & ->).
  exists x, inner. split_and!; [done | |].
  - rewrite <- app_assoc in Hw. by apply cell_walk_suffix in Hw.
  - by apply NoDup_app in Hnd as (_ & _ & Hnd).
Qed.

(** *** A table with string codes, against its rows *)

(** The three columns of the table hold the codes and the usages of
    the rows; the codes are strings. *)
Definition holds_bom (df : frame) (rows : list Bom.bom_row) : Prop :=
  column df "父项编码" = (fun row => Str (Bom.parent_code row)) <$> rows ∧
  column df "子项编码" = (fun row => Str (Bom.child_code row)) <$> rows ∧
  column df "用量" = (fun row => Num (Bom.usage row)) <$> rows.

Lemma holds_bom_rows df rows :
  holds_bom df rows →
  code_rows df
  = (fun row => (Str (Bom.parent_code row), Str (Bom.child_code row))) <$> rows.
Proof.
  intros (Hp & Hc & _). unfold code_rows. rewrite Hp, Hc.
  clear. induction rows as [|row rows IH]; [done|].
  cbn [fmap list_fmap zip zip_with]. f_equal. exact IH.
Qed.

Lemma holds_bom_edge df rows p c :
  holds_bom df rows →
  (p, c) ∈ code_rows df ↔
  ∃ p' c', p = Str p' ∧ c = Str c' ∧ Bom.edge rows p' c'.
Proof.
  intros Hdf. rewrite (holds_bom_rows df rows Hdf), list_elem_of_fmap. split.
  - intros (row & [= -> ->] & Hrow).
    exists (Bom.parent_code row), (Bom.child_code row).
    split_and!; [done | done |]. by exists row.
  - intros (p' & c' & -> & -> & row & Hrow & <- & <-). by exists row.
Qed.

Lemma typed_walk_is_cell_walk df rows w :
  holds_bom df rows → Bom.walk rows w → cell_walk df (Str <$> w).
Proof.
  intros Hdf. induction 1 as [x|x y w He Hw IH]; [constructor|].
  cbn [fmap list_fmap] in *. apply cell_walk_step; [|exact IH].
  apply (holds_bom_edge df rows); [done|]. by exists x, y.
Qed.

Lemma cell_walk_is_typed_walk df rows x y w :
  holds_bom df rows → cell_walk df (x :: y :: w) →
  ∃ ws, x :: y :: w = Str <$> ws ∧ Bom.walk rows ws.
Proof.
  intros Hdf. revert x y. induction w as [|z w IH]; intros x y Hw.
  - inversion Hw as [|? ? ? He Hw']; subst.
    apply (holds_bom_edge df rows _ _ Hdf) in He as (p & c & -> & -> & He).
    exists [p; c]. split; [done|]. apply Bom.walk_step; [done | constructor].
  - inversion Hw as [|? ? ? He Hw']; subst.
    apply (holds_bom_edge df rows _ _ Hdf) in He as (p & c & -> & -> & He).
    destruct (IH _ _ Hw') as (ws & Heq & Hws).
    destruct ws as [|c' ws]; [discriminate|].
    cbn [fmap list_fmap] in Heq. injection Heq as Hc Heq.
    assert (c' = c) as -> by congruence.
    exists (p :: c :: ws). split.
    + cbn [fmap list_fmap]. by rewrite Heq.
    + by apply Bom.walk_step.
Qed.

#[global] Instance Str_inj : Inj (=) (=) Str.
Proof. by intros s1 s2 [= ->]. Qed.

Lemma check_bom_circular_reference_acyclic df rows :
  holds_bom df rows →
  (check_bom_circular_reference df = Valid ↔
   ∀ w, Bom.walk rows w → NoDup w).
Proof.
  intros Hdf. rewrite check_reference_Valid. split.
  - intros Hacyc w Hw. apply (NoDup_fmap_1 Str). apply Hacyc.
    by apply (typed_walk_is_cell_walk df rows).
  - intros Hacyc w Hw. destruct w as [|x [|y w]].
    + inversion Hw.
    + apply NoDup_singleton.
    + destruct (cell_walk_is_typed_walk df rows x y w Hdf Hw) as (ws & -> & Hws).
      apply (NoDup_fmap_2 _). by apply Hacyc.
Qed.

(** X16. On a BOM table whose codes are strings,
    [check_bom_circular_reference] returns without an error exactly when
    no path of the BOM, from whatever material, comes back to a material
    it has passed. *)
Theorem check_bom_circular_reference_accepts :
  ∀ df rows,
    holds_bom df rows →
    (check_bom_circular_reference df = Valid ↔
     ∀ w, Bom.walk rows w → NoDup w).
Proof. exact check_bom_circular_reference_acyclic. Qed.

(** The table of [Bom.bom_loop] and that of [Bom.bom_chain]. *)
Definition bom_table (rows : list Bom.bom_row) : frame :=
  [("父项编码"%string, (fun row => Str (Bom.parent_code row)) <$> rows);
   ("子项编码"%string, (fun row => Str (Bom.child_code row)) <$> rows);
   ("用量"%string, (fun row => Num (Bom.usage row)) <$> rows)].

Lemma holds_bom_table rows : holds_bom (bom_table rows) rows.
Proof. by split_and!. Qed.

Lemma check_bom_circular_reference_accepts_witness :
  check_bom_circular_reference (bom_table Bom.bom_chain) = Valid ↔
  ∀ w, Bom.walk Bom.bom_chain w → NoDup w.
Proof.
  apply (check_bom_circular_reference_accepts (bom_table Bom.bom_chain)
           Bom.bom_chain).
  apply holds_bom_table.
Defined.

(** *** From the validator to the computations *)

Lemma foldr_min_le z zs v : v ∈ z :: zs → foldr Z.min z zs ≤ v.
Proof.
  induction zs as [|z' zs IH]; simpl.
  - intros Hv. apply list_elem_of_singleton in Hv as ->. lia.
  - intros [->|[->|Hv]%elem_of_cons]%elem_of_cons; [| lia |].
    + specialize (IH (list_elem_of_here _ _)). lia.
    + specialize (IH (list_elem_of_further _ _ _ Hv)). lia.
Qed.

Lemma min_le_false cells z :
  min_le cells 0 = false → Num z ∈ cells → 0 < z.
Proof.
  unfold min_le. intros Hmin Hz.
  assert (z ∈ values cells) as Hv.
  { unfold values. apply list_elem_of_omap. by exists (Num z). }
  destruct (values cells) as [|v vs]; [by apply elem_of_nil in Hv|].
  pose proof (foldr_min_le v vs z Hv).
  destruct (Z.leb_spec (foldr Z.min v vs) 0); [done | lia].
Qed.



(** The three columns of a production plan hold the rows, converted. *)
Definition holds_plan (df : frame) (rows : list Netting.plan_row) : Prop :=
  column df "产品编码" = (fun row => Str (Netting.plan_product row)) <$> rows ∧
  column df "需求数量" = (fun row => Num (Netting.plan_quantity row)) <$> rows ∧
  column df "需求日期" = (fun row => Time (Netting.plan_date row)) <$> rows.

Lemma validate_production_plan_accepts to_numeric_cell to_datetime_cell df df' :
  validate_production_plan to_numeric_cell to_datetime_cell df = (df', Valid) →
  min_le (column df' "需求数量") 0 = false.
Proof.
  unfold validate_production_plan.
  destruct (bool_decide (missing_columns df _ = [])); simpl; [|discriminate].
  destruct (assign_converted _ df "需求数量") as [df1 ok1].
  destruct ok1; simpl; [|discriminate].
  destruct (assign_converted _ df1 "需求日期") as [df2 ok2].
  destruct ok2; simpl; [|discriminate].
  destruct (min_le (column df2 "需求数量") 0) eqn:Hmin; [discriminate|].
  by intros [= <-].
Qed.

Lemma validate_bom_data_accepts to_numeric_cell df df' :
  validate_bom_data to_numeric_cell df = (df', Valid) →
  min_le (column df' "用量") 0 = false ∧
  check_bom_circular_reference df' = Valid.
Proof.
  unfold validate_bom_data.
  destruct (bool_decide (missing_columns df _ = [])); simpl; [|discriminate].
  destruct (assign_converted _ df "用量") as [df1 ok1].
  destruct ok1; simpl; [|discriminate].
  destruct (min_le (column df1 "用量") 0) eqn:Hmin; [discriminate|].
  by intros [= <- ->].
Qed.


Definition plan_table (rows : list Netting.plan_row) : frame :=
  [("产品编码"%string, (fun row => Str (Netting.plan_product row)) <$> rows);
   ("需求数量"%string, (fun row => Num (Netting.plan_quantity row)) <$> rows);
   ("需求日期"%string, (fun row => Time (Netting.plan_date row)) <$> rows)].

(** The diamond of [Explosion.bom_diamond], 10 of P on day 100. *)
Definition diamond_inputs : Netting.inputs :=
  Netting.Inputs [Netting.PlanRow "P" 10 100] Explosion.bom_diamond []
    None None None None.


(** X17. When [check_bom_circular_reference] raises on a BOM table
    whose codes are strings, the path in its message is a cycle of the
    BOM and nothing more: it starts and ends with the same material,
    each material on it is the parent of the next in some row, and but
    for its two ends no material is on it twice. *)
Theorem check_bom_circular_reference_cycle :
  ∀ df rows cycle_path,
    holds_bom df rows →
    check_bom_circular_reference df = CircularReference cycle_path →
    ∃ x inner,
      cycle_path = Str <$> (x :: inner ++ [x]) ∧
      Bom.walk rows (x :: inner ++ [x]) ∧
      NoDup (x :: inner).
Proof.
  intros df rows cycle_path Hdf Hc.
  destruct (check_reference_cycle df cycle_path Hc)
    as (x & inner & -> & Hw & Hnd).
  assert (∃ y rest, inner ++ [x] = y :: rest) as (y & rest & Hrest).
  { destruct inner as [|y inner]; [by exists x, [] | by exists y, (inner ++ [x])]. }
  rewrite Hrest in Hw.
  destruct (cell_walk_is_typed_walk df rows x y rest Hdf Hw) as (ws & Heq & Hws).
  rewrite <- Hrest in Heq.
  destruct ws as [|x' ws]; [discriminate|].
  cbn [fmap list_fmap] in Heq. injection Heq as -> Heq.
  assert (∃ inner', ws = inner' ++ [x'] ∧ inner = Str <$> inner')
    as (inner' & -> & ->).
  { clear -Heq. revert ws Heq. induction inner as [|c inner IH]; intros ws Heq.
    - destruct ws as [|a [|b ws]]; try discriminate.
      injection Heq as [= <-]. by exists [].
    - destruct ws as [|a ws]; [discriminate|].
      cbn [fmap list_fmap] in Heq. injection Heq as -> Heq.
      destruct (IH _ Heq) as (inner' & -> & ->). by exists (a :: inner'). }
  exists x', inner'. split_and!; [| done |].
  - cbn [fmap list_fmap]. by rewrite fmap_app.
  - change (NoDup (Str <$> x' :: inner')) in Hnd. by apply NoDup_fmap_1 in Hnd.
Qed.

Lemma check_bom_circular_reference_cycle_witness :
  check_bom_circular_reference (bom_table Bom.bom_loop)
  = CircularReference [Str "A"; Str "B"; Str "C"; Str "A"] ∧
  ∃ x inner,
    [Str "A"; Str "B"; Str "C"; Str "A"] = Str <$> (x :: inner ++ [x]) ∧
    Bom.walk Bom.bom_loop (x :: inner ++ [x]) ∧
    NoDup (x :: inner).
Proof.
  split; [reflexivity|].
  apply (check_bom_circular_reference_cycle (bom_table Bom.bom_loop) Bom.bom_loop).
  - apply holds_bom_table.
  - reflexivity.
Defined.

End Frames.

(* ================================================================== *)
(** ** Consistency of the tables: [check_data_consistency] *)
(* ================================================================== *)

Module Consistency.
Import Bom Explosion Netting Classify.

(** The two messages of [check_data_consistency], each with the set of
    codes it lists. The message joins the codes in the order in which
    Python walks the set, which the code does not fix. *)
Inductive issue :=
| UndefinedProducts (products : gset string)
| MissingInventory (materials : gset string).

(** utils.py, [check_data_consistency]. *)
Definition check_data_consistency (production_plan : list plan_row)
    (bom_data : list bom_row) (inventory_data : list inventory_row)
  : bool * list issue :=
  let issues : list issue := [] in
  let production_items : gset string :=
    list_to_set (plan_product <$> production_plan) in
  let bom_parents : gset string := list_to_set (parent_code <$> bom_data) in
  let bom_children : gset string := list_to_set (child_code <$> bom_data) in
  let inventory_items : gset string :=
    list_to_set (inv_item <$> inventory_data) in
  let all_items := production_items ∪ bom_parents ∪ bom_children in
  let undefined_products := production_items ∖ bom_parents in
  let issues :=
    if decide (undefined_products = ∅) then issues
    else issues ++ [UndefinedProducts undefined_products] in
  let missing_inventory := all_items ∖ inventory_items in
  let issues :=
    if decide (missing_inventory = ∅) then issues
    else issues ++ [MissingInventory missing_inventory] in
  (Nat.eqb (length issues) 0, issues).

(** A material the tables speak of: a product of the plan, or the
    parent or the child of a BOM row. *)
Definition named (production_plan : list plan_row) (bom_data : list bom_row)
    (material : string) : Prop :=
  material ∈ plan_product <$> production_plan ∨
  is_parent bom_data material ∨ is_child bom_data material.

Lemma difference_empty (X Y : gset string) : X ∖ Y = ∅ ↔ ∀ x, x ∈ X → x ∈ Y.
Proof.
  split.
  - intros Hempty x Hx. destruct (decide (x ∈ Y)) as [|Hnin]; [done|].
    assert (x ∈ X ∖ Y) as Hin by by apply elem_of_difference.
    rewrite Hempty in Hin. by apply elem_of_empty in Hin.
  - intros Hsub. apply set_eq. intros x.
    rewrite elem_of_difference, elem_of_empty. split; [|done].
    intros [Hx Hnin]. by apply Hnin, Hsub.
Qed.

Lemma consistent_iff production_plan bom_data inventory_data :
  (check_data_consistency production_plan bom_data inventory_data).1 = true ↔
  (∀ row, row ∈ production_plan → is_parent bom_data (plan_product row)) ∧
  (∀ material, named production_plan bom_data material →
               in_inventory inventory_data material).
Proof.
  unfold check_data_consistency, named, is_parent, is_child, in_inventory.
  cbn [fst].
  set (production_items := list_to_set (plan_product <$> production_plan)
                           : gset string).
  set (bom_parents := list_to_set (parent_code <$> bom_data) : gset string).
  set (bom_children := list_to_set (child_code <$> bom_data) : gset string).
  set (inventory_items := list_to_set (inv_item <$> inventory_data)
                          : gset string).
  assert (production_items ∖ bom_parents = ∅ ↔
          ∀ row, row ∈ production_plan →
                 plan_product row ∈ parent_code <$> bom_data) as H1.
  { rewrite difference_empty. unfold production_items, bom_parents. split.
    - intros Hsub row Hrow. specialize (Hsub (plan_product row)).
      rewrite !elem_of_list_to_set in Hsub. apply Hsub.
      by apply list_elem_of_fmap_2.
    - intros Hall x. rewrite !elem_of_list_to_set.
      intros (row & -> & Hrow)%list_elem_of_fmap. by apply Hall. }
  assert ((production_items ∪ bom_parents ∪ bom_children) ∖ inventory_items = ∅ ↔
          ∀ material,
            material ∈ plan_product <$> production_plan ∨
            material ∈ parent_code <$> bom_data ∨
            material ∈ child_code <$> bom_data →
            material ∈ inv_item <$> inventory_data) as H2.
  { rewrite difference_empty.
    unfold production_items, bom_parents, bom_children, inventory_items. split.
    - intros Hsub m Hm. specialize (Hsub m).
      rewrite !elem_of_union, !elem_of_list_to_set in Hsub. tauto.
    - intros Hall x. rewrite !elem_of_union, !elem_of_list_to_set.
      intros Hx. apply Hall. tauto. }
  rewrite <- H1, <- H2.
  destruct (decide (production_items ∖ bom_parents = ∅));
    destruct (decide ((production_items ∪ bom_parents ∪ bom_children)
                        ∖ inventory_items = ∅)); simpl; split;
    try done; try (by intros [? ?]).
Qed.

(** X21. [check_data_consistency] answers that the tables are
    consistent exactly when every product of the plan is the parent of
    some BOM row and every material the plan or the BOM names has an
    inventory row. Its issues are, in this order, the set of plan
    products that are no BOM parent and the set of named materials
    without an inventory row, each listed when it is not empty. *)
Theorem check_data_consistency_spec :
  ∀ production_plan bom_data inventory_data,
    let result :=
      check_data_consistency production_plan bom_data inventory_data in
    (result.1 = true ↔
     (∀ row, row ∈ production_plan → is_parent bom_data (plan_product row)) ∧
     (∀ material, named production_plan bom_data material →
                  in_inventory inventory_data material)) ∧
    (result.1 = true ↔ result.2 = []) ∧
    (∀ products,
       UndefinedProducts products ∈ result.2 ↔
       products ≠ ∅ ∧
       ∀ material,
         material ∈ products ↔
         material ∈ plan_product <$> production_plan ∧
         ¬ is_parent bom_data material) ∧
    (∀ materials,
       MissingInventory materials ∈ result.2 ↔
       materials ≠ ∅ ∧
       ∀ material,
         material ∈ materials ↔
         named production_plan bom_data material ∧
         ¬ in_inventory inventory_data material) ∧
    (∀ i j products materials,
       result.2 !! i = Some (UndefinedProducts products) →
       result.2 !! j = Some (MissingInventory materials) → (i < j)%nat).
Proof.
  intros production_plan bom_data inventory_data result.
  split; [apply consistent_iff|].
  subst result. unfold check_data_consistency, named, is_parent, is_child,
    in_inventory. cbn [fst snd].
  set (production_items := list_to_set (plan_product <$> production_plan)
                           : gset string).
  set (bom_parents := list_to_set (parent_code <$> bom_data) : gset string).
  set (bom_children := list_to_set (child_code <$> bom_data) : gset string).
  set (inventory_items := list_to_set (inv_item <$> inventory_data)
                          : gset string).
  assert (∀ material,
    material ∈ production_items ∖ bom_parents ↔
    material ∈ plan_product <$> production_plan ∧
    ¬ material ∈ parent_code <$> bom_data) as Hundefined.
  { intros m. unfold production_items, bom_parents.
    by rewrite elem_of_difference, !elem_of_list_to_set. }
  assert (∀ material,
    material ∈ (production_items ∪ bom_parents ∪ bom_children) ∖ inventory_items ↔
    (material ∈ plan_product <$> production_plan ∨
     material ∈ parent_code <$> bom_data ∨
     material ∈ child_code <$> bom_data) ∧
    ¬ material ∈ inv_item <$> inventory_data) as Hmissing.
  { intros m.
    unfold production_items, bom_parents, bom_children, inventory_items.
    rewrite elem_of_difference, !elem_of_union, !elem_of_list_to_set. tauto. }
  assert (∀ (X Y : gset string),
            (∀ m, m ∈ X ↔ m ∈ Y) → X = Y) as Hext
    by (intros X Y HXY; by apply set_eq).
  assert (∀ products,
    products ≠ ∅ ∧
    (∀ material, material ∈ products ↔
       material ∈ plan_product <$> production_plan ∧
       ¬ material ∈ parent_code <$> bom_data) ↔
    products = production_items ∖ bom_parents ∧
    production_items ∖ bom_parents ≠ ∅) as Hu.
  { intros products. split.
    - intros [Hne Hiff].
      assert (products = production_items ∖ bom_parents) as ->; [|done].
      apply Hext. intros m. by rewrite Hiff, Hundefined.
    - intros [-> Hne]. split; [done | exact Hundefined]. }
  assert (∀ materials,
    materials ≠ ∅ ∧
    (∀ material, material ∈ materials ↔
       (material ∈ plan_product <$> production_plan ∨
        material ∈ parent_code <$> bom_data ∨
        material ∈ child_code <$> bom_data) ∧
       ¬ material ∈ inv_item <$> inventory_data) ↔
    materials = (production_items ∪ bom_parents ∪ bom_children) ∖ inventory_items ∧
    (production_items ∪ bom_parents ∪ bom_children) ∖ inventory_items ≠ ∅) as Hm.
  { intros materials. split.
    - intros [Hne Hiff].
      assert (materials
              = (production_items ∪ bom_parents ∪ bom_children) ∖ inventory_items)
        as ->; [|done].
      apply Hext. intros m. by rewrite Hiff, Hmissing.
    - intros [-> Hne]. split; [done | exact Hmissing]. }
  destruct (decide (production_items ∖ bom_parents = ∅)) as [He1|Hn1];
    destruct (decide ((production_items ∪ bom_parents ∪ bom_children)
                        ∖ inventory_items = ∅)) as [He2|Hn2];
    cbn [app length Nat.eqb].
  - split_and!.
    + done.
    + intros products. rewrite Hu, elem_of_nil. split; [done | by intros [_ ?]].
    + intros materials. rewrite Hm, elem_of_nil. split; [done | by intros [_ ?]].
    + intros i j products materials Hi. by rewrite lookup_nil in Hi.
  - split_and!.
    + done.
    + intros products. rewrite Hu, list_elem_of_singleton.
      split; [done | by intros [_ ?]].
    + intros materials. rewrite Hm, list_elem_of_singleton.
      split; [by intros [= ->] | by intros [-> _]].
    + intros i j products materials Hi.
      destruct i as [|i]; simpl in Hi; discriminate.
  - split_and!.
    + done.
    + intros products. rewrite Hu, list_elem_of_singleton.
      split; [by intros [= ->] | by intros [-> _]].
    + intros materials. rewrite Hm, list_elem_of_singleton.
      split; [done | by intros [_ ?]].
    + intros i j products materials Hi Hj.
      destruct j as [|j]; simpl in Hj; discriminate.
  - split_and!.
    + done.
    + intros products. rewrite Hu, elem_of_cons, list_elem_of_singleton.
      split; [by intros [[= ->]|[=]] | intros [-> _]; by left].
    + intros materials. rewrite Hm, elem_of_cons, list_elem_of_singleton.
      split; [by intros [[=]|[= ->]] | intros [-> _]; by right].
    + intros i j products materials Hi Hj.
      destruct i as [|[|i]]; simpl in Hi; [|discriminate..].
      destruct j as [|[|j]]; simpl in Hj; [discriminate | lia | discriminate].
Qed.

(** *** Consistent tables in the computations *)

Lemma walk_last_child bom_data x y w z :
  walk bom_data (x :: y :: w) → last (x :: y :: w) = Some z →
  is_child bom_data z.
Proof.
  revert x y. induction w as [|y' w IH]; intros x y Hw Hlast.
  - injection Hlast as <-.
    inversion Hw as [|? ? ? (row & Hrow & _ & <-) _]; subst.
    unfold is_child. by apply list_elem_of_fmap_2.
  - inversion Hw as [|? ? ? _ Hw']; subst.
    rewrite last_cons_cons in Hlast. by apply (IH y y').
Qed.

(** X22. When [check_data_consistency] accepts the tables, every row
    [calculate_advanced_mrp] returns from them is for a material that
    has an inventory row, so that no stock figure of a row is the
    default 0 of a material the inventory does not know; and
    [classify_materials] has a row for every material the plan or the
    BOM names, none of them of type unknown, the products of the plan
    being finished or intermediate. *)
Theorem consistent_tables :
  ∀ inp,
    (check_data_consistency (production_plan inp) (bom_data inp)
       (inventory_data inp)).1 = true →
    (∀ rows r,
       calculate_advanced_mrp inp (Returned rows) → r ∈ rows →
       in_inventory (inventory_data inp) (mr_item r)) ∧
    (∀ material,
       named (production_plan inp) (bom_data inp) material →
       ∃ t, (material, t) ∈ classify_materials (bom_data inp) (inventory_data inp) ∧
            t ≠ UnknownMaterial) ∧
    (∀ row, row ∈ production_plan inp →
       (plan_product row, FinishedGood)
         ∈ classify_materials (bom_data inp) (inventory_data inp) ∨
       (plan_product row, IntermediateMaterial)
         ∈ classify_materials (bom_data inp) (inventory_data inp)).
Proof.
  intros inp [Hproducts Hinventory]%consistent_iff. split_and!.
  - intros rows r Hrun Hr.
    destruct (row_requirement inp rows r Hrun Hr) as (q & Hq & <-).
    inversion Hrun as [| |trees out Hb Hne Hloop]; subst.
    unfold planned_requirements in Hq. rewrite Hb in Hq.
    destruct (requirement_walk inp trees q Hb Hq) as (row & w & Hrow & Hw & Hlast).
    apply Hinventory. destruct w as [|y w].
    + injection Hlast as <-. left. by apply list_elem_of_fmap_2.
    + right. right. by apply (walk_last_child _ _ _ _ _ Hw).
  - intros material Hnamed.
    eexists. split; [apply elem_of_classify; split; [by apply Hinventory | done]|].
    assert (is_parent (bom_data inp) material ∨ is_child (bom_data inp) material)
      as Hbom.
    { destruct Hnamed as [Hplan|[?|?]]; [left | by left | by right].
      apply list_elem_of_fmap in Hplan as (row & -> & Hrow). by apply Hproducts. }
    repeat case_decide; try done; tauto.
  - intros row Hrow.
    pose proof (Hproducts row Hrow) as Hparent.
    assert (in_inventory (inventory_data inp) (plan_product row)) as Hinv.
    { apply Hinventory. left. by apply list_elem_of_fmap_2. }
    destruct (decide (is_child (bom_data inp) (plan_product row))) as [Hc|Hc].
    + right. apply elem_of_classify. split; [done|].
      repeat case_decide; try done; tauto.
    + left. apply elem_of_classify. split; [done|].
      repeat case_decide; try done; tauto.
Qed.

(** The tables of [totals_inputs] with an inventory row for each of the
    two materials. *)
Definition consistent_inputs : inputs :=
  Inputs [PlanRow "P" 10 100] [BomRow "P" "S" 2]
    [InventoryRow "P" 10 0; InventoryRow "S" 3 1] None None None None.

Lemma consistent_tables_witness :
  (check_data_consistency (production_plan consistent_inputs)
     (bom_data consistent_inputs) (inventory_data consistent_inputs)).1 = true ∧
  (∀ rows r,
     calculate_advanced_mrp consistent_inputs (Returned rows) → r ∈ rows →
     in_inventory (inventory_data consistent_inputs) (mr_item r)) ∧
  (∀ material,
     named (production_plan consistent_inputs) (bom_data consistent_inputs)
       material →
     ∃ t, (material, t)
            ∈ classify_materials (bom_data consistent_inputs)
                (inventory_data consistent_inputs) ∧
          t ≠ UnknownMaterial) ∧
  (∀ row, row ∈ production_plan consistent_inputs →
     (plan_product row, FinishedGood)
       ∈ classify_materials (bom_data consistent_inputs)
           (inventory_data consistent_inputs) ∨
     (plan_product row, IntermediateMaterial)
       ∈ classify_materials (bom_data consistent_inputs)
           (inventory_data consistent_inputs)).
Proof.
  split; [by vm_compute|].
  apply (consistent_tables consistent_inputs). by vm_compute.
Defined.

End Consistency.

(* ================================================================== *)
(** ** The shape of the BOM: [analyze_bom_structure] *)
(* ================================================================== *)

Module BomStructure.
Import Bom Netting Classify.

(** The two variables the nested [calculate_level] updates: the
    dictionary [level_map] and the [nonlocal max_level]. *)
Record levels := Levels {
  level_map : list (string * Z);
  max_level : Z
}.

(** [set(bom_data['父项编码'])], [set(bom_data['子项编码'])] and the three
    sets computed from them. *)
Definition all_parents (bom_data : list bom_row) : gset string :=
  list_to_set (parent_code <$> bom_data).

Definition all_children (bom_data : list bom_row) : gset string :=
  list_to_set (child_code <$> bom_data).

Definition raw_materials (bom_data : list bom_row) : gset string :=
  all_children bom_data ∖ all_parents bom_data.

Definition finished_goods (bom_data : list bom_row) : gset string :=
  all_parents bom_data ∖ all_children bom_data.

Definition intermediate_materials (bom_data : list bom_row) : gset string :=
  all_parents bom_data ∩ all_children bom_data.

(** [bom_data[bom_data['父项编码'] == item]['子项编码'].unique()] *)
Definition children_of (bom_data : list bom_row) (item : string) : list string :=
  unique (child_code <$> children_rows bom_data item).

(** [child not in level_map or level_map[child] < current_level + 1] *)
Definition to_update (level_map : list (string * Z)) (child : string)
    (current_level : Z) : bool :=
  match PyDict.get level_map child with
  | None => true
  | Some level => bool_decide (level < current_level + 1)
  end.

(** The loop [for child in children] of [calculate_level], over the
    recursive call. *)
Fixpoint visit_children (calculate_level : string → Z → levels → option levels)
    (all_parents : gset string) (current_level : Z) (children : list string)
    (s : levels) : option levels :=
  match children with
  | [] => Some s
  | child :: children' =>
      if to_update (level_map s) child current_level then
        let s1 :=
          Levels (PyDict.set (level_map s) child (current_level + 1))
            (max_level s) in
        if decide (child ∈ all_parents) then
          match calculate_level child (current_level + 1) s1 with
          | Some s2 =>
              visit_children calculate_level all_parents current_level
                children' s2
          | None => None
          end
        else
          visit_children calculate_level all_parents current_level children' s1
      else visit_children calculate_level all_parents current_level children' s
  end.

(** utils.py, [calculate_level] of [analyze_bom_structure]; [None] is a
    recursion that does not end within the fuel. The recursion limit of
    the interpreter is not modelled. *)
Fixpoint calculate_level (fuel : nat) (bom_data : list bom_row)
    (all_parents : gset string) (item : string) (current_level : Z)
    (s : levels) : option levels :=
  match fuel with
  | O => None
  | S fuel' =>
      visit_children (calculate_level fuel' bom_data all_parents) all_parents
        current_level (children_of bom_data item)
        (Levels (level_map s) (Z.max (max_level s) current_level))
  end.

(** [for item in finished_goods: calculate_level(item)] *)
Fixpoint calculate_levels (fuel : nat) (bom_data : list bom_row)
    (all_parents : gset string) (items : list string) (s : levels)
  : option levels :=
  match items with
  | [] => Some s
  | item :: items' =>
      match calculate_level fuel bom_data all_parents item 0 s with
      | Some s' => calculate_levels fuel bom_data all_parents items' s'
      | None => None
      end
  end.

(** [for item in finished_goods: level_map[item] = 0] *)
Definition initial_levels (finished_order : list string)
  : list (string * Z) :=
  foldl (fun level_map item => PyDict.set level_map item 0) [] finished_order.

(** [if level not in level_counts: level_counts[level] = 0] and
    [level_counts[level] += 1]. *)
Definition count_level (level_counts : list (Z * Z)) (level : Z)
  : list (Z * Z) :=
  let level_counts :=
    if decide (level ∈ PyDict.keys level_counts) then level_counts
    else PyDict.set level_counts level 0 in
  PyDict.set level_counts level (PyDict.get_default level_counts level 0 + 1).

(** [for item, level in level_map.items()] *)
Definition count_levels (level_map : list (string * Z)) : list (Z * Z) :=
  foldl (fun level_counts entry => count_level level_counts entry.2) []
    level_map.

(** The dictionary [analyze_bom_structure] returns. *)
Record analysis := Analysis {
  raw_materials_count : Z;
  finished_goods_count : Z;
  intermediate_materials_count : Z;
  total_items_count : Z;
  max_bom_level : Z;
  level_distribution : list (Z * Z)
}.

(** utils.py, [analyze_bom_structure]. Python does not fix the order in
    which the two loops [for item in finished_goods] walk the set:
    [finished_order] is that order, the same in both loops, the set being
    the same object and unchanged between them. *)
Definition analyze_bom_structure (finished_order : list string) (fuel : nat)
    (bom_data : list bom_row) : option analysis :=
  match calculate_levels fuel bom_data (all_parents bom_data) finished_order
          (Levels (initial_levels finished_order) 0) with
  | None => None
  | Some s =>
      Some (Analysis
              (Z.of_nat (size (raw_materials bom_data)))
              (Z.of_nat (size (finished_goods bom_data)))
              (Z.of_nat (size (intermediate_materials bom_data)))
              (Z.of_nat (size (all_parents bom_data ∪ all_children bom_data)))
              (max_level s) (count_levels (level_map s)))
  end.

(** *** Depth of a material *)

(** A finished good is the parent of some BOM row and the child of
    none. *)
Definition is_finished (bom_data : list bom_row) (material : string) : Prop :=
  is_parent bom_data material ∧ ¬ is_child bom_data material.

(** [w] is a path of the BOM from a finished good to [material]. *)
Definition path_to (bom_data : list bom_row) (material : string)
    (w : list string) : Prop :=
  walk bom_data w ∧
  (∃ root, head w = Some root ∧ is_finished bom_data root) ∧
  last w = Some material.

(** [depth bom_data material level]: the longest path from a finished
    good to [material] has [level] rows. *)
Definition depth (bom_data : list bom_row) (material : string) (level : Z)
  : Prop :=
  (∃ w, path_to bom_data material w ∧ Z.of_nat (length w) = level + 1) ∧
  ∀ w, path_to bom_data material w → Z.of_nat (length w) ≤ level + 1.

(** *** Paths *)

Lemma walk_snoc bom_data w x c :
  walk bom_data w → last w = Some x → edge bom_data x c →
  walk bom_data (w ++ [c]).
Proof.
  intros Hw. revert x. induction Hw as [x0|x0 y w He Hw IH]; intros x Hlast Hedge.
  - injection Hlast as ->. apply walk_step; [done | constructor].
  - rewrite last_cons_cons in Hlast. simpl. apply walk_step; [done|].
    by apply (IH x).
Qed.

Lemma walk_snoc_inv bom_data w c :
  walk bom_data (w ++ [c]) → w ≠ [] →
  walk bom_data w ∧ ∃ q, last w = Some q ∧ edge bom_data q c.
Proof.
  induction w as [|a w IH]; intros Hw Hne; [done|].
  destruct w as [|b w].
  - simpl in Hw. inversion Hw as [|? ? ? He _]; subst.
    split; [constructor | by exists a].
  - simpl in Hw. inversion Hw as [|? ? ? He Hw']; subst.
    destruct (IH Hw') as (Hwb & q & Hq & Hqc); [done|].
    split; [by apply walk_step|]. exists q. by rewrite last_cons_cons.
Qed.

Lemma edge_parent bom_data p c : edge bom_data p c → is_parent bom_data p.
Proof.
  intros (row & Hrow & <- & _). unfold is_parent. by apply list_elem_of_fmap_2.
Qed.

Lemma edge_child bom_data p c : edge bom_data p c → is_child bom_data c.
Proof.
  intros (row & Hrow & _ & <-). unfold is_child. by apply list_elem_of_fmap_2.
Qed.

Lemma parent_edge bom_data p : is_parent bom_data p → ∃ c, edge bom_data p c.
Proof.
  intros (row & -> & Hrow)%list_elem_of_fmap.
  exists (child_code row). by exists row.
Qed.

Lemma elem_of_children_of bom_data item c :
  c ∈ children_of bom_data item ↔ edge bom_data item c.
Proof.
  unfold children_of, children_rows. rewrite elem_of_unique, list_elem_of_fmap.
  split.
  - intros (row & -> & [Hp Hrow]%list_elem_of_filter). by exists row.
  - intros (row & Hrow & Hp & <-). exists row. split; [done|].
    by apply list_elem_of_filter.
Qed.

Lemma elem_of_all_parents bom_data m :
  m ∈ all_parents bom_data ↔ is_parent bom_data m.
Proof. apply elem_of_list_to_set. Qed.

Lemma elem_of_all_children bom_data m :
  m ∈ all_children bom_data ↔ is_child bom_data m.
Proof. apply elem_of_list_to_set. Qed.

Lemma elem_of_finished_goods bom_data m :
  m ∈ finished_goods bom_data ↔ is_finished bom_data m.
Proof.
  unfold finished_goods, is_finished.
  by rewrite elem_of_difference, elem_of_all_parents, elem_of_all_children.
Qed.

(** *** What the recursion keeps *)

Section levels.
Variable bom_data : list bom_row.

(** No level of [lm] is lost or lowered in [lm']. *)
Definition below (lm lm' : list (string * Z)) : Prop :=
  ∀ m l, PyDict.get lm m = Some l →
         ∃ l', PyDict.get lm' m = Some l' ∧ l ≤ l'.

(** The components of [a] lie at least one level below [a]. *)
Definition relaxed (lm : list (string * Z)) (a : string) : Prop :=
  ∀ l, PyDict.get lm a = Some l →
       ∀ c, edge bom_data a c →
            ∃ lc, PyDict.get lm c = Some lc ∧ l + 1 ≤ lc.

(** A material whose level differs between [lm] and [lm'] is a child,
    and its components have been brought below it. *)
Definition changed (lm lm' : list (string * Z)) : Prop :=
  ∀ a, PyDict.get lm' a ≠ PyDict.get lm a →
       is_child bom_data a ∧ relaxed lm' a.

(** Every level is the number of rows of some path from a finished
    good. *)
Definition witnessed (lm : list (string * Z)) : Prop :=
  ∀ m l, PyDict.get lm m = Some l →
         ∃ w, path_to bom_data m w ∧ Z.of_nat (length w) = l + 1.

(** [max_level] is the greatest level of a parent. *)
Definition max_inv (s : levels) : Prop :=
  0 ≤ max_level s ∧
  (∀ p l, is_parent bom_data p → PyDict.get (level_map s) p = Some l →
          l ≤ max_level s) ∧
  (max_level s = 0 ∨
   ∃ p, is_parent bom_data p ∧ PyDict.get (level_map s) p = Some (max_level s)).

Definition post (s s' : levels) : Prop :=
  below (level_map s) (level_map s') ∧
  changed (level_map s) (level_map s') ∧
  witnessed (level_map s') ∧
  max_inv s' ∧
  (NoDup (PyDict.keys (level_map s)) → NoDup (PyDict.keys (level_map s'))).

Lemma below_refl lm : below lm lm.
Proof. intros m l Hm. exists l. split; [done | lia]. Qed.

Lemma below_trans lm1 lm2 lm3 : below lm1 lm2 → below lm2 lm3 → below lm1 lm3.
Proof.
  intros H12 H23 m l Hm.
  destruct (H12 m l Hm) as (l2 & Hm2 & Hle2).
  destruct (H23 m l2 Hm2) as (l3 & Hm3 & Hle3).
  exists l3. split; [done | lia].
Qed.

Lemma relaxed_below lm lm' a :
  relaxed lm a → below lm lm' → PyDict.get lm' a = PyDict.get lm a →
  relaxed lm' a.
Proof.
  intros Hrel Hbelow Heq l Hl c Hedge.
  rewrite Heq in Hl.
  destruct (Hrel l Hl c Hedge) as (lc & Hc & Hle).
  destruct (Hbelow c lc Hc) as (lc' & Hc' & Hle').
  exists lc'. split; [done | lia].
Qed.

Lemma changed_refl lm : changed lm lm.
Proof. by intros a Ha. Qed.

Lemma changed_trans lm1 lm2 lm3 :
  changed lm1 lm2 → changed lm2 lm3 → below lm2 lm3 → changed lm1 lm3.
Proof.
  intros H12 H23 Hbelow a Ha.
  destruct (decide (PyDict.get lm3 a = PyDict.get lm2 a)) as [Heq|Hne].
  - destruct (H12 a) as [Hchild Hrel]; [congruence|].
    split; [done|]. by apply (relaxed_below lm2).
  - by apply H23.
Qed.

Lemma post_trans s1 s2 s3 : post s1 s2 → post s2 s3 → post s1 s3.
Proof.
  intros (Hb12 & Hc12 & _ & _ & Hnd12) (Hb23 & Hc23 & Hw & Hmax & Hnd23).
  split_and!; [by apply (below_trans _ (level_map s2)) | | done | done | tauto].
  by apply (changed_trans _ (level_map s2)).
Qed.

Lemma below_set lm child level :
  (∀ l, PyDict.get lm child = Some l → l ≤ level) →
  below lm (PyDict.set lm child level).
Proof.
  intros Hold m l Hm. rewrite PyDict.get_set.
  destruct (decide (child = m)) as [->|Hne].
  - exists level. split; [done | by apply Hold].
  - exists l. split; [done | lia].
Qed.

Lemma to_update_true lm child current_level :
  to_update lm child current_level = true →
  ∀ l, PyDict.get lm child = Some l → l < current_level + 1.
Proof.
  unfold to_update. intros Hup l Hl. rewrite Hl in Hup.
  by apply bool_decide_eq_true in Hup.
Qed.

Lemma to_update_false lm child current_level :
  to_update lm child current_level = false →
  ∃ l, PyDict.get lm child = Some l ∧ current_level + 1 ≤ l.
Proof.
  unfold to_update. destruct (PyDict.get lm child) as [l|]; [|done].
  intros Hup%bool_decide_eq_false. exists l. split; [done | lia].
Qed.

(** The loop over the components of [item], the recursive call keeping
    its contract. *)
Lemma visit_children_post call item current_level w :
  (∀ child s s',
     call child (current_level + 1) s = Some s' →
     PyDict.get (level_map s) child = Some (current_level + 1) →
     witnessed (level_map s) →
     max_inv (Levels (level_map s)
                (Z.max (max_level s) (current_level + 1))) →
     post s s' ∧ relaxed (level_map s') child) →
  path_to bom_data item w → Z.of_nat (length w) = current_level + 1 →
  ∀ children s s',
    visit_children call (all_parents bom_data) current_level children s
    = Some s' →
    (∀ c, c ∈ children → edge bom_data item c) →
    witnessed (level_map s) → max_inv s →
    post s s' ∧
    ∀ c, c ∈ children →
         ∃ lc, PyDict.get (level_map s') c = Some lc ∧ current_level + 1 ≤ lc.
Proof.
  intros Hcall (Hw & Hroot & Hlast) Hlen.
  induction children as [|child children IH]; intros s s' Hv Hedges Hwit Hmax.
  { injection Hv as <-. split.
    - split_and!; [apply below_refl | apply changed_refl | done..].
    - intros c Hc. by apply elem_of_nil in Hc. }
  assert (edge bom_data item child) as Hedge
    by apply Hedges, list_elem_of_here.
  assert (∀ c, c ∈ children → edge bom_data item c) as Hedges'.
  { intros c Hc. apply Hedges. by apply list_elem_of_further. }
  simpl in Hv.
  destruct (to_update (level_map s) child current_level) eqn:Hup.
  2:{ destruct (IH s s' Hv Hedges' Hwit Hmax) as [Hpost Hlevels].
      split; [done|].
      intros c [->|Hc]%elem_of_cons; [|by apply Hlevels].
      destruct (to_update_false _ _ _ Hup) as (l & Hl & Hle).
      destruct Hpost as (Hbelow & _).
      destruct (Hbelow child l Hl) as (l' & Hl' & Hle').
      exists l'. split; [done | lia]. }
  pose proof (to_update_true _ _ _ Hup) as Hold.
  set (lm1 := PyDict.set (level_map s) child (current_level + 1)) in *.
  assert (below (level_map s) lm1) as Hbelow1.
  { apply below_set. intros l Hl. specialize (Hold l Hl). lia. }
  assert (witnessed lm1) as Hwit1.
  { intros m l. unfold lm1. rewrite PyDict.get_set.
    destruct (decide (child = m)) as [<-|Hne]; [|by apply Hwit].
    intros [= <-]. exists (w ++ [child]). split.
    - split_and!.
      + by apply (walk_snoc _ _ item).
      + destruct Hroot as (root & Hhd & Hfin). exists root. split; [|done].
        destruct w; [done | done].
      + by rewrite last_snoc.
    - rewrite length_app. simpl. lia. }
  assert (NoDup (PyDict.keys (level_map s)) → NoDup (PyDict.keys lm1)) as Hnd1
    by apply PyDict.NoDup_keys_set.
  destruct (decide (child ∈ all_parents bom_data)) as [Hparent|Hparent].
  - destruct (call child (current_level + 1) (Levels lm1 (max_level s)))
      as [s2|] eqn:Hs2; [|discriminate].
    destruct (Hcall _ _ _ Hs2) as [(Hb2 & Hc2 & Hw2 & Hm2 & Hnd2) Hrel2].
    + apply PyDict.get_set_eq.
    + done.
    + destruct Hmax as (H0 & Hle & Hatt). unfold max_inv.
      cbn [level_map max_level]. split_and!.
      * lia.
      * intros p l Hp. unfold lm1. rewrite PyDict.get_set.
        destruct (decide (child = p)) as [<-|Hne].
        -- intros [= <-]. lia.
        -- intros Hl. specialize (Hle p l Hp Hl). lia.
      * destruct (Z.max_spec (max_level s) (current_level + 1))
          as [[Hlt ->]|[Hge ->]].
        -- right. exists child. split.
           ++ by apply elem_of_all_parents.
           ++ apply PyDict.get_set_eq.
        -- destruct Hatt as [Hzero|(p & Hp & Hl)]; [by left|].
           right. exists p. split; [done|].
           unfold lm1. rewrite PyDict.get_set.
           destruct (decide (child = p)) as [<-|Hne]; [|done].
           specialize (Hold _ Hl). lia.
    + cbn [level_map] in *.
      destruct (IH s2 s' Hv Hedges' Hw2 Hm2) as [Hpost Hlevels].
      assert (post s s2) as Hpost2.
      { split_and!; [by apply (below_trans _ lm1) | | done | done | tauto].
        intros a Ha.
        destruct (decide (PyDict.get (level_map s2) a = PyDict.get lm1 a))
          as [Heq|Hne]; [|by apply Hc2].
        assert (a = child) as ->.
        { destruct (decide (child = a)) as [->|Hne]; [done|].
          exfalso. apply Ha. rewrite Heq. unfold lm1.
          by rewrite PyDict.get_set_ne. }
        split; [by apply (edge_child _ item) | done]. }
      split; [by apply (post_trans _ s2)|].
      intros c [->|Hc]%elem_of_cons; [|by apply Hlevels].
      destruct (Hb2 child (current_level + 1)) as (l2 & Hl2 & Hle2);
        [apply PyDict.get_set_eq|].
      destruct Hpost as (Hbelow & _).
      destruct (Hbelow child l2 Hl2) as (l' & Hl' & Hle').
      exists l'. split; [done | lia].
  - assert (max_inv (Levels lm1 (max_level s))) as Hmax1.
    { destruct Hmax as (H0 & Hle & Hatt). unfold max_inv.
      cbn [level_map max_level].
      assert (∀ p, is_parent bom_data p →
                   PyDict.get lm1 p = PyDict.get (level_map s) p) as Hsame.
      { intros p Hp. unfold lm1. apply PyDict.get_set_ne. intros ->.
        by apply Hparent, elem_of_all_parents. }
      split_and!; [done | |].
      - intros p l Hp. rewrite (Hsame p Hp). by apply Hle.
      - destruct Hatt as [Hzero|(p & Hp & Hl)]; [by left|].
        right. exists p. split; [done|]. by rewrite (Hsame p Hp). }
    destruct (IH _ s' Hv Hedges' Hwit1 Hmax1) as [Hpost Hlevels].
    cbn [level_map] in *.
    assert (post s (Levels lm1 (max_level s))) as Hpost1.
    { split_and!; [done | | done | done | done].
      intros a Ha. cbn [level_map] in Ha.
      assert (a = child) as ->.
      { destruct (decide (child = a)) as [->|Hne]; [done|].
        exfalso. apply Ha. unfold lm1. by rewrite PyDict.get_set_ne. }
      split; [by apply (edge_child _ item)|].
      intros l _ c Hc. exfalso.
      by apply Hparent, elem_of_all_parents, (edge_parent _ _ c). }
    split; [by apply (post_trans _ (Levels lm1 (max_level s)))|].
    intros c [->|Hc]%elem_of_cons; [|by apply Hlevels].
    destruct Hpost as (Hbelow & _).
    destruct (Hbelow child (current_level + 1)) as (l' & Hl' & Hle');
      [apply PyDict.get_set_eq|].
    by exists l'.
Qed.

(** A call of [calculate_level] for a material that stands at
    [current_level]. *)
Lemma calculate_level_post fuel item current_level s s' :
  calculate_level fuel bom_data (all_parents bom_data) item current_level s
  = Some s' →
  PyDict.get (level_map s) item = Some current_level →
  witnessed (level_map s) →
  max_inv (Levels (level_map s) (Z.max (max_level s) current_level)) →
  post s s' ∧ relaxed (level_map s') item.
Proof.
  revert item current_level s s'.
  induction fuel as [|fuel IH]; intros item current_level s s' Hcall Hitem
    Hwit Hmax; [discriminate|].
  simpl in Hcall.
  destruct (Hwit item current_level Hitem) as (w & Hw & Hlen).
  destruct (visit_children_post _ item current_level w
              (fun child s s' => IH child (current_level + 1) s s')
              Hw Hlen _ _ _ Hcall) as [Hpost Hlevels]; [| done | done |].
  { intros c Hc. by apply elem_of_children_of. }
  split; [exact Hpost|].
  destruct Hpost as (Hbelow & Hchanged & _). cbn [level_map] in *.
  intros l Hl c Hedge.
  destruct (decide (l = current_level)) as [->|Hne].
  - apply Hlevels. by apply elem_of_children_of.
  - destruct (Hchanged item) as [_ Hrel]; [congruence|].
    by apply (Hrel l).
Qed.

(** The calls for the finished goods, one after another. *)
Lemma calculate_levels_post fuel items s s' :
  calculate_levels fuel bom_data (all_parents bom_data) items s = Some s' →
  (∀ x, x ∈ items → is_finished bom_data x) →
  (∀ x, x ∈ items → PyDict.get (level_map s) x = Some 0) →
  witnessed (level_map s) → max_inv s →
  post s s' ∧ ∀ x, x ∈ items → relaxed (level_map s') x.
Proof.
  revert s. induction items as [|item items IH]; intros s Hrun Hfin Hzero
    Hwit Hmax.
  { injection Hrun as <-. split.
    - split_and!; [apply below_refl | apply changed_refl | done..].
    - intros x Hx. by apply elem_of_nil in Hx. }
  simpl in Hrun.
  destruct (calculate_level fuel bom_data (all_parents bom_data) item 0 s)
    as [s1|] eqn:Hs1; [|discriminate].
  destruct (calculate_level_post _ _ _ _ _ Hs1) as [Hpost1 Hrel1].
  { apply Hzero, list_elem_of_here. }
  { done. }
  { destruct Hmax as (H0 & ?). destruct s as [lm ml]. cbn [level_map max_level] in *.
    rewrite Z.max_l by lia. by split. }
  pose proof Hpost1 as (Hb1 & Hc1 & Hw1 & Hm1 & Hnd1).
  assert (∀ x, is_finished bom_data x →
               PyDict.get (level_map s1) x = PyDict.get (level_map s) x)
    as Hsame1.
  { intros x [_ Hx].
    destruct (decide (PyDict.get (level_map s1) x = PyDict.get (level_map s) x))
      as [Heq|Hne]; [done|].
    by destruct (Hc1 x Hne) as [Hchild _]. }
  destruct (IH s1 Hrun) as [Hpost Hrel]; [| | done | done |].
  { intros x Hx. apply Hfin. by apply list_elem_of_further. }
  { intros x Hx. rewrite Hsame1.
    - apply Hzero. by apply list_elem_of_further.
    - apply Hfin. by apply list_elem_of_further. }
  split; [by apply (post_trans _ s1)|].
  intros x [->|Hx]%elem_of_cons; [|by apply Hrel].
  destruct Hpost as (Hb & Hc & _).
  apply (relaxed_below (level_map s1)); [done | done |].
  destruct (decide (PyDict.get (level_map s') item = PyDict.get (level_map s1) item))
    as [Heq|Hne]; [done|].
  destruct (Hc item Hne) as [Hchild _].
  exfalso. by apply (Hfin item (list_elem_of_here _ _)).
Qed.

Lemma initial_levels_get finished_order m :
  PyDict.get (initial_levels finished_order) m
  = if decide (m ∈ finished_order) then Some 0 else None.
Proof.
  unfold initial_levels.
  assert (∀ lm,
    PyDict.get (foldl (fun level_map item => PyDict.set level_map item 0) lm
                  finished_order) m
    = if decide (m ∈ finished_order) then Some 0 else PyDict.get lm m) as Hgen.
  { induction finished_order as [|x l IH]; intros lm; cbn [foldl].
    - case_decide as Hm; [by apply elem_of_nil in Hm | done].
    - rewrite IH, PyDict.get_set.
      destruct (decide (m ∈ l)) as [Hin|Hnin];
        destruct (decide (m ∈ x :: l)) as [Hin'|Hnin']; try done.
      + exfalso. apply Hnin'. by apply list_elem_of_further.
      + apply elem_of_cons in Hin' as [->|Hin']; [|done].
        by rewrite decide_True.
      + apply not_elem_of_cons in Hnin' as [Hne _].
        by rewrite decide_False. }
  apply Hgen.
Qed.

Lemma initial_levels_NoDup finished_order :
  NoDup (PyDict.keys (initial_levels finished_order)).
Proof.
  unfold initial_levels.
  assert (∀ lm, NoDup (PyDict.keys lm) →
    NoDup (PyDict.keys
             (foldl (fun level_map item => PyDict.set level_map item 0) lm
                finished_order))) as Hgen.
  { induction finished_order as [|x l IH]; intros lm Hlm; simpl; [done|].
    apply IH. by apply PyDict.NoDup_keys_set. }
  apply Hgen. apply NoDup_nil_2.
Qed.

(** The state in which the calls leave the two variables. *)
Definition final_levels (s : levels) : Prop :=
  NoDup (PyDict.keys (level_map s)) ∧
  (∀ x, is_finished bom_data x → PyDict.get (level_map s) x = Some 0) ∧
  (∀ a, relaxed (level_map s) a) ∧
  witnessed (level_map s) ∧
  max_inv s.

Lemma calculate_levels_final finished_order fuel s :
  (∀ x, x ∈ finished_order ↔ is_finished bom_data x) →
  calculate_levels fuel bom_data (all_parents bom_data) finished_order
    (Levels (initial_levels finished_order) 0) = Some s →
  final_levels s.
Proof.
  intros Horder Hrun.
  destruct (calculate_levels_post _ _ _ _ Hrun)
    as [(Hbelow & Hchanged & Hwit & Hmax & Hnd) Hrel].
  - intros x Hx. by apply Horder.
  - intros x Hx. cbn [level_map]. rewrite initial_levels_get.
    by rewrite decide_True.
  - intros m l. cbn [level_map]. rewrite initial_levels_get.
    case_decide as Hm; [|done]. intros [= <-]. exists [m]. split; [|done].
    split_and!; [constructor | | done].
    exists m. split; [done | by apply Horder].
  - unfold max_inv. cbn [level_map max_level]. split_and!; [done | | by left].
    intros p l _. rewrite initial_levels_get. case_decide; [|done].
    intros [= <-]. done.
  - cbn [level_map] in *.
    assert (∀ x, is_finished bom_data x →
                 PyDict.get (level_map s) x = Some 0) as Hzero.
    { intros x Hx.
      destruct (decide (PyDict.get (level_map s) x
                        = PyDict.get (initial_levels finished_order) x))
        as [Heq|Hne].
      - rewrite Heq, initial_levels_get. rewrite decide_True; [done|].
        by apply Horder.
      - destruct (Hchanged x Hne) as [Hchild _]. by destruct Hx. }
    split_and!; [apply Hnd, initial_levels_NoDup | done | | done | done].
    intros a.
    destruct (decide (PyDict.get (level_map s) a
                      = PyDict.get (initial_levels finished_order) a))
      as [Heq|Hne]; [|by apply Hchanged].
    rewrite initial_levels_get in Heq. case_decide as Ha.
    + by apply Hrel.
    + intros l Hl. congruence.
Qed.

(** *** The levels are the depths *)

Lemma relaxed_walk lm x w :
  (∀ a, relaxed lm a) →
  walk bom_data (x :: w) →
  ∀ l, PyDict.get lm x = Some l →
    (∀ y, last (x :: w) = Some y →
          ∃ ly, PyDict.get lm y = Some ly ∧ l + Z.of_nat (length w) ≤ ly) ∧
    (∀ y, y ∈ w → ∃ ly, PyDict.get lm y = Some ly ∧ l < ly) ∧
    NoDup (x :: w).
Proof.
  intros Hrel. revert x. induction w as [|y w IH]; intros x Hw l Hl.
  - split_and!.
    + intros y [= <-]. exists l. split; [done | simpl; lia].
    + intros y Hy. by apply elem_of_nil in Hy.
    + apply NoDup_singleton.
  - inversion Hw as [|? ? ? Hedge Hw']; subst.
    destruct (Hrel x l Hl y Hedge) as (ly & Hy & Hle).
    destruct (IH y Hw' ly Hy) as (Hlast & Hall & Hnd).
    assert (∀ z, z ∈ y :: w → ∃ lz, PyDict.get lm z = Some lz ∧ l < lz) as Hall'.
    { intros z [->|Hz]%elem_of_cons.
      - exists ly. split; [done | lia].
      - destruct (Hall z Hz) as (lz & Hz' & Hlt). exists lz. split; [done | lia]. }
    split_and!.
    + intros z Hz. rewrite last_cons_cons in Hz.
      destruct (Hlast z Hz) as (lz & Hz' & Hle').
      exists lz. split; [done|]. cbn [length]. lia.
    + done.
    + apply NoDup_cons. split; [|done].
      intros Hx. destruct (Hall' x Hx) as (lx & Hx' & Hlt).
      rewrite Hl in Hx'. injection Hx' as <-. lia.
Qed.

Lemma final_levels_path s m w :
  final_levels s → path_to bom_data m w →
  ∃ l, PyDict.get (level_map s) m = Some l ∧ Z.of_nat (length w) ≤ l + 1.
Proof.
  intros (_ & Hzero & Hrel & _) (Hw & (root & Hhd & Hroot) & Hlast).
  destruct w as [|x w]; [done|]. injection Hhd as ->.
  destruct (relaxed_walk _ _ _ Hrel Hw 0 (Hzero root Hroot)) as (Hl & _).
  destruct (Hl m Hlast) as (l & Hm & Hle).
  exists l. split; [done|]. cbn [length]. lia.
Qed.

Lemma final_levels_depth s m l :
  final_levels s →
  PyDict.get (level_map s) m = Some l ↔ depth bom_data m l.
Proof.
  intros Hfinal. pose proof Hfinal as (_ & _ & _ & Hwit & _). split.
  - intros Hm. split; [by apply Hwit|].
    intros w Hw.
    destruct (final_levels_path _ _ _ Hfinal Hw) as (l' & Hm' & Hle).
    rewrite Hm in Hm'. by injection Hm' as <-.
  - intros [(w & Hw & Hlen) Hlongest].
    destruct (final_levels_path _ _ _ Hfinal Hw) as (l' & Hm' & Hle).
    destruct (Hwit m l' Hm') as (w' & Hw' & Hlen').
    specialize (Hlongest w' Hw').
    rewrite Hm'. f_equal. lia.
Qed.

Lemma final_levels_acyclic s root :
  final_levels s → is_finished bom_data root →
  acyclic_from bom_data root.
Proof.
  intros (_ & Hzero & Hrel & _) Hroot w Hw.
  by destruct (relaxed_walk _ _ _ Hrel Hw 0 (Hzero root Hroot)) as (_ & _ & Hnd).
Qed.

(** *** The recursion ends on a BOM without a cycle *)

Lemma visit_children_total call parents current_level children s :
  (∀ c, c ∈ children → ∀ s, call c (current_level + 1) s ≠ None) →
  visit_children call parents current_level children s ≠ None.
Proof.
  revert s. induction children as [|child children IH]; intros s Hcall; [done|].
  assert (∀ s, visit_children call parents current_level children s ≠ None)
    as IH'.
  { intros s0. apply IH. intros c Hc. apply Hcall. by apply list_elem_of_further. }
  simpl. destruct (to_update (level_map s) child current_level); [|apply IH'].
  destruct (decide (child ∈ parents)); [|apply IH'].
  pose proof (Hcall child (list_elem_of_here _ _)
                (Levels (PyDict.set (level_map s) child (current_level + 1))
                   (max_level s))) as Hchild.
  destruct (call child (current_level + 1) _); [apply IH' | done].
Qed.

Lemma walk_children x w :
  walk bom_data (x :: w) → ∀ y, y ∈ w → is_child bom_data y.
Proof.
  revert x. induction w as [|z w IH]; intros x Hw y Hy.
  - by apply elem_of_nil in Hy.
  - inversion Hw as [|? ? ? Hedge Hw']; subst.
    apply elem_of_cons in Hy as [->|Hy]; [by apply (edge_child _ x)|].
    by apply (IH z).
Qed.

Lemma calculate_level_total root parents fuel path item current_level s :
  acyclic_from bom_data root →
  walk bom_data (path ++ [item]) → head (path ++ [item]) = Some root →
  (length (materials bom_data root) < fuel + length path)%nat →
  calculate_level fuel bom_data parents item current_level s ≠ None.
Proof.
  intros Hacyclic. revert path item current_level s.
  induction fuel as [|fuel IH]; intros path item current_level s Hw Hhd Hlen.
  - exfalso.
    destruct (path ++ [item]) as [|x w] eqn:Hpath; [done|].
    injection Hhd as ->.
    pose proof (Hacyclic w Hw) as Hnd.
    assert (root :: w ⊆ materials bom_data root) as Hsub.
    { intros y [->|Hy]%elem_of_cons; [apply list_elem_of_here|].
      apply list_elem_of_further. by apply (walk_children root w). }
    pose proof (submseteq_length _ _ (NoDup_submseteq _ _ Hnd Hsub)) as Hle.
    rewrite <- Hpath, length_app in Hle.
    change (length [item]) with 1%nat in Hle. lia.
  - simpl. apply visit_children_total. intros c Hc s0.
    apply elem_of_children_of in Hc.
    apply (IH (path ++ [item])).
    + apply (walk_snoc _ _ item); [done | by rewrite last_snoc | done].
    + by destruct path.
    + rewrite length_app. change (length [item]) with 1%nat. lia.
Qed.

Lemma calculate_levels_total parents fuel items s :
  (∀ x, x ∈ items → acyclic_from bom_data x) →
  (enough_fuel bom_data ≤ fuel)%nat →
  calculate_levels fuel bom_data parents items s ≠ None.
Proof.
  intros Hacyclic Hfuel. revert s.
  induction items as [|item items IH]; intros s; [done|].
  simpl.
  pose proof (calculate_level_total item parents fuel [] item 0 s) as Hitem.
  destruct (calculate_level fuel bom_data parents item 0 s) as [s'|].
  - apply IH. intros x Hx. apply Hacyclic. by apply list_elem_of_further.
  - apply Hitem; [apply Hacyclic, list_elem_of_here | constructor | done |].
    unfold materials, enough_fuel in *. simpl. rewrite length_fmap. lia.
Qed.

End levels.

(** *** The count of the levels *)

Lemma count_level_get level_counts level l :
  PyDict.get (count_level level_counts level) l
  = if decide (level = l)
    then Some (PyDict.get_default level_counts level 0 + 1)
    else PyDict.get level_counts l.
Proof.
  unfold count_level.
  destruct (decide (level ∈ PyDict.keys level_counts)) as [Hin|Hnin].
  - by rewrite PyDict.get_set.
  - assert (PyDict.get level_counts level = None) as Hnone
      by by apply PyDict.get_None.
    rewrite PyDict.get_set. unfold PyDict.get_default.
    rewrite PyDict.get_set_eq, Hnone.
    case_decide as Hl; [done|]. by rewrite PyDict.get_set_ne.
Qed.

Lemma count_level_NoDup level_counts level :
  NoDup (PyDict.keys level_counts) →
  NoDup (PyDict.keys (count_level level_counts level)).
Proof.
  intros Hnd. unfold count_level. apply PyDict.NoDup_keys_set.
  case_decide; [done | by apply PyDict.NoDup_keys_set].
Qed.

Lemma count_levels_get level_map l :
  PyDict.get (count_levels level_map) l
  = if decide (filter (fun entry => entry.2 = l) level_map = []) then None
    else Some (Z.of_nat (length (filter (fun entry => entry.2 = l) level_map))).
Proof.
  unfold count_levels.
  assert (∀ acc,
    PyDict.get
      (foldl (fun level_counts entry => count_level level_counts entry.2) acc
         level_map) l
    = if decide (filter (fun entry : string * Z => entry.2 = l) level_map = [])
      then PyDict.get acc l
      else Some (PyDict.get_default acc l 0
                 + Z.of_nat (length (filter (fun entry : string * Z =>
                                               entry.2 = l) level_map))))
    as Hgen.
  { induction level_map as [|entry level_map IH]; intros acc; [done|].
    cbn [foldl]. rewrite IH, filter_cons.
    unfold PyDict.get_default at 1. rewrite count_level_get.
    destruct (decide (entry.2 = l)) as [Hl|Hl].
    - rewrite (decide_False (P := _ :: _ = [])) by done.
      case_decide as Hnil.
      + rewrite Hnil. simpl. f_equal. rewrite Hl. lia.
      + f_equal. rewrite Hl. cbn [length]. lia.
    - case_decide as Hnil; [done|]. done. }
  rewrite Hgen. case_decide; [done|]. done.
Qed.

Lemma count_levels_NoDup level_map : NoDup (PyDict.keys (count_levels level_map)).
Proof.
  unfold count_levels.
  assert (∀ acc, NoDup (PyDict.keys acc) →
    NoDup (PyDict.keys
             (foldl (fun level_counts (entry : string * Z) =>
                       count_level level_counts entry.2) acc level_map)))
    as Hgen.
  { induction level_map as [|entry level_map IH]; intros acc Hacc; [done|].
    cbn [foldl]. apply IH. by apply count_level_NoDup. }
  apply Hgen. apply NoDup_nil_2.
Qed.

(** *** What [analyze_bom_structure] returns *)

Lemma order_finished bom_data finished_order :
  finished_order ≡ₚ elements (finished_goods bom_data) →
  ∀ x, x ∈ finished_order ↔ is_finished bom_data x.
Proof.
  intros Horder x. rewrite Horder, elem_of_elements.
  apply elem_of_finished_goods.
Qed.

Lemma analyze_final finished_order fuel bom_data r :
  finished_order ≡ₚ elements (finished_goods bom_data) →
  analyze_bom_structure finished_order fuel bom_data = Some r →
  ∃ s, final_levels bom_data s ∧
       max_bom_level r = max_level s ∧
       level_distribution r = count_levels (level_map s).
Proof.
  intros Horder Hrun. unfold analyze_bom_structure in Hrun.
  destruct (calculate_levels _ _ _ _ _) as [s|] eqn:Hs; [|discriminate].
  injection Hrun as <-. exists s. split; [|done].
  apply (calculate_levels_final bom_data finished_order fuel); [|done].
  by apply order_finished.
Qed.

Lemma final_levels_bound bom_data s m l :
  final_levels bom_data s → PyDict.get (level_map s) m = Some l →
  l ≤ max_level s + 1.
Proof.
  intros Hfinal Hm.
  pose proof Hfinal as (_ & _ & _ & Hwit & (H0 & Hle & _)).
  destruct (Hwit m l Hm) as (w & (Hw & (root & Hhd & Hroot) & Hlast) & Hlen).
  apply last_Some in Hlast as [w' ->].
  destruct w' as [|x w'].
  { simpl in Hlen. lia. }
  destruct (walk_snoc_inv _ _ _ Hw) as (Hw' & q & Hq & Hedge); [done|].
  destruct (final_levels_path bom_data s q (x :: w') Hfinal)
    as (lq & Hlq & Hlen').
  { split_and!; [done | by exists root | done]. }
  pose proof (Hle q lq (edge_parent _ _ _ Hedge) Hlq).
  rewrite length_app in Hlen. simpl in Hlen. cbn [length] in Hlen'. lia.
Qed.

(** A product with two components, one of which is also a component
    of the other. *)
Definition bom_skew : list bom_row :=
  [BomRow "P" "B" 1; BomRow "P" "A" 1; BomRow "A" "B" 2].

Definition skew_analysis : analysis :=
  Analysis 1 1 1 3 1 [(0, 1); (2, 1); (1, 1)].

Lemma skew_order : ["P"%string] ≡ₚ elements (finished_goods bom_skew).
Proof.
  assert (elements (finished_goods bom_skew) = ["P"%string]) as ->
    by (by vm_compute).
  done.
Qed.

Lemma skew_run :
  analyze_bom_structure ["P"%string] (enough_fuel bom_skew) bom_skew
  = Some skew_analysis.
Proof. by vm_compute. Qed.

(** X23. [analyze_bom_structure] returns exactly when no path of the
    BOM that starts at a finished good comes back to a material it has
    passed; on such a BOM the recursion of [calculate_level] is never
    deeper than the BOM has rows, plus one. A cycle that no finished good
    leads to is never entered. *)
Theorem analyze_bom_structure_returns :
  ∀ finished_order bom_data,
    finished_order ≡ₚ elements (finished_goods bom_data) →
    ((∃ fuel r, analyze_bom_structure finished_order fuel bom_data = Some r) ↔
     ∀ root, is_finished bom_data root → acyclic_from bom_data root) ∧
    ((∀ root, is_finished bom_data root → acyclic_from bom_data root) →
     ∀ fuel, (enough_fuel bom_data ≤ fuel)%nat →
       ∃ r, analyze_bom_structure finished_order fuel bom_data = Some r).
Proof.
  intros finished_order bom_data Horder.
  assert ((∀ root, is_finished bom_data root → acyclic_from bom_data root) →
          ∀ fuel, (enough_fuel bom_data ≤ fuel)%nat →
            ∃ r, analyze_bom_structure finished_order fuel bom_data = Some r)
    as Hreturns.
  { intros Hacyclic fuel Hfuel. unfold analyze_bom_structure.
    pose proof (calculate_levels_total bom_data (all_parents bom_data) fuel
                  finished_order (Levels (initial_levels finished_order) 0))
      as Htotal.
    destruct (calculate_levels _ _ _ _ _) as [s|]; [by eexists|].
    exfalso. apply Htotal; [|done..].
    intros x Hx. apply Hacyclic. by apply (order_finished _ finished_order). }
  split; [split|done].
  - intros (fuel & r & Hrun) root Hroot.
    destruct (analyze_final _ _ _ _ Horder Hrun) as (s & Hfinal & _).
    by apply (final_levels_acyclic bom_data s).
  - intros Hacyclic. exists (enough_fuel bom_data).
    by apply Hreturns.
Qed.

Lemma analyze_bom_structure_returns_witness :
  ["P"%string] ≡ₚ elements (finished_goods bom_skew) ∧
  ((∃ fuel r, analyze_bom_structure ["P"%string] fuel bom_skew = Some r) ↔
   ∀ root, is_finished bom_skew root → acyclic_from bom_skew root) ∧
  ((∀ root, is_finished bom_skew root → acyclic_from bom_skew root) →
   ∀ fuel, (enough_fuel bom_skew ≤ fuel)%nat →
     ∃ r, analyze_bom_structure ["P"%string] fuel bom_skew = Some r).
Proof.
  split; [exact skew_order|].
  apply (analyze_bom_structure_returns ["P"%string] bom_skew).
  exact skew_order.
Defined.

(** X24. In the [level_distribution] that [analyze_bom_structure]
    returns, the count of a level is the number of materials whose
    longest path from a finished good has that many rows: a material that
    several paths lead to is counted once, at its deepest place, and a
    material that no finished good leads to is not counted. A level
    without such a material is no key of the dictionary. *)
Theorem level_distribution_counts_depths :
  ∀ finished_order fuel bom_data r,
    finished_order ≡ₚ elements (finished_goods bom_data) →
    analyze_bom_structure finished_order fuel bom_data = Some r →
    NoDup (PyDict.keys (level_distribution r)) ∧
    ∀ level, ∃ items,
      NoDup items ∧
      (∀ m, m ∈ items ↔ depth bom_data m level) ∧
      PyDict.get (level_distribution r) level
      = if decide (items = []) then None
        else Some (Z.of_nat (length items)).
Proof.
  intros finished_order fuel bom_data r Horder Hrun.
  destruct (analyze_final _ _ _ _ Horder Hrun) as (s & Hfinal & _ & ->).
  split; [apply count_levels_NoDup|].
  intros level.
  pose proof Hfinal as (Hnd & _).
  exists (filter (fun entry => entry.2 = level) (level_map s)).*1.
  split_and!.
  - apply (sublist_NoDup _ (PyDict.keys (level_map s))); [done|].
    apply fmap_sublist, sublist_filter.
  - intros m. rewrite <- (final_levels_depth bom_data s m level Hfinal).
    rewrite list_elem_of_fmap. split.
    + intros ([m' l] & -> & [Hl Hin]%list_elem_of_filter). simpl in *. subst l.
      by apply PyDict.elem_get_Some.
    + intros Hm%PyDict.get_Some_elem. exists (m, level). split; [done|].
      by apply list_elem_of_filter.
  - rewrite count_levels_get, length_fmap.
    destruct (filter (fun entry => entry.2 = level) (level_map s)); done.
Qed.

Lemma level_distribution_counts_depths_witness :
  ["P"%string] ≡ₚ elements (finished_goods bom_skew) ∧
  analyze_bom_structure ["P"%string] (enough_fuel bom_skew) bom_skew
  = Some skew_analysis ∧
  NoDup (PyDict.keys (level_distribution skew_analysis)) ∧
  ∀ level, ∃ items,
    NoDup items ∧
    (∀ m, m ∈ items ↔ depth bom_skew m level) ∧
    PyDict.get (level_distribution skew_analysis) level
    = if decide (items = []) then None
      else Some (Z.of_nat (length items)).
Proof.
  split; [exact skew_order|]. split; [exact skew_run|].
  exact (level_distribution_counts_depths ["P"%string] (enough_fuel bom_skew)
           bom_skew skew_analysis skew_order skew_run).
Defined.

(** X25. The [max_bom_level] that [analyze_bom_structure] returns is
    the greatest depth of a material that has components, for
    [max_level] is raised on entering [calculate_level] only and the
    function is entered for parents only. So when the BOM has a finished
    good, the deepest level of [level_distribution] is [max_bom_level]
    + 1. Without a finished good [max_bom_level] is 0 and
    [level_distribution] is empty. *)
Theorem max_bom_level_is_of_a_parent :
  ∀ finished_order fuel bom_data r,
    finished_order ≡ₚ elements (finished_goods bom_data) →
    analyze_bom_structure finished_order fuel bom_data = Some r →
    (∀ p l, is_parent bom_data p → depth bom_data p l → l ≤ max_bom_level r) ∧
    ((∃ root, is_finished bom_data root) →
     (∃ p, is_parent bom_data p ∧ depth bom_data p (max_bom_level r)) ∧
     (∃ m, depth bom_data m (max_bom_level r + 1)) ∧
     (∀ m l, depth bom_data m l → l ≤ max_bom_level r + 1)) ∧
    ((∀ root, ¬ is_finished bom_data root) →
     max_bom_level r = 0 ∧ level_distribution r = []).
Proof.
  intros finished_order fuel bom_data r Horder Hrun.
  split_and!.
  - destruct (analyze_final _ _ _ _ Horder Hrun) as (s & Hfinal & -> & _).
    intros p l Hp Hl%(final_levels_depth bom_data s); [|done].
    destruct Hfinal as (_ & _ & _ & _ & (_ & Hle & _)). by apply (Hle p).
  - destruct (analyze_final _ _ _ _ Horder Hrun) as (s & Hfinal & -> & _).
    intros (root & Hroot).
    pose proof Hfinal as (_ & Hzero & Hrel & _ & (H0 & Hle & Hatt)).
    assert (∃ p, is_parent bom_data p ∧
                 PyDict.get (level_map s) p = Some (max_level s))
      as (p & Hp & Hlevel).
    { destruct Hatt as [Hmax|Hatt]; [|done].
      exists root. split; [by destruct Hroot|].
      rewrite Hmax. by apply Hzero. }
    split_and!.
    + exists p. split; [done|]. by apply (final_levels_depth bom_data s).
    + destruct (parent_edge _ _ Hp) as (c & Hedge).
      destruct (Hrel p _ Hlevel c Hedge) as (lc & Hc & Hlc).
      pose proof (final_levels_bound _ _ _ _ Hfinal Hc) as Hbound.
      exists c. apply (final_levels_depth bom_data s); [done|].
      rewrite Hc. f_equal. lia.
    + intros m l Hl%(final_levels_depth bom_data s); [|done].
      by apply (final_levels_bound bom_data s m).
  - intros Hnone.
    assert (finished_order = []) as ->.
    { destruct finished_order as [|x l]; [done|].
      exfalso. apply (Hnone x).
      apply (order_finished _ (x :: l)); [done | apply list_elem_of_here]. }
    unfold analyze_bom_structure in Hrun. simpl in Hrun.
    by injection Hrun as <-.
Qed.

Lemma skew_finished : is_finished bom_skew "P".
Proof.
  apply elem_of_finished_goods, elem_of_elements.
  rewrite <- skew_order. apply list_elem_of_here.
Qed.

Lemma max_bom_level_is_of_a_parent_witness :
  ["P"%string] ≡ₚ elements (finished_goods bom_skew) ∧
  analyze_bom_structure ["P"%string] (enough_fuel bom_skew) bom_skew
  = Some skew_analysis ∧
  (∃ p, is_parent bom_skew p ∧ depth bom_skew p 1) ∧
  (∃ m, depth bom_skew m 2) ∧
  (∀ m l, depth bom_skew m l → l ≤ 2).
Proof.
  split; [exact skew_order|]. split; [exact skew_run|].
  apply (max_bom_level_is_of_a_parent ["P"%string] (enough_fuel bom_skew)
           bom_skew skew_analysis skew_order skew_run).
  exists "P"%string. exact skew_finished.
Defined.

(** *** The counts and [classify_materials] *)

Lemma size_parts (X Y : gset string) :
  size (X ∪ Y) = (size (Y ∖ X) + size (X ∖ Y) + size (X ∩ Y))%nat.
Proof.
  rewrite size_union_alt.
  assert (size X = (size (X ∖ Y) + size (X ∩ Y))%nat) as ->; [|lia].
  rewrite <- size_union.
  2:{ apply elem_of_disjoint. intros x.
      rewrite elem_of_difference, elem_of_intersection. tauto. }
  f_equal. apply set_eq. intros x.
  rewrite elem_of_union, elem_of_difference, elem_of_intersection.
  destruct (decide (x ∈ Y)); tauto.
Qed.

#[global] Instance material_type_eq_dec : EqDecision material_type.
Proof. solve_decision. Defined.

Lemma count_of_type bom_data inventory_data t (X : gset string) :
  (∀ m, m ∈ X ↔ (m, t) ∈ classify_materials bom_data inventory_data) →
  length (filter (fun row => row.2 = t)
            (classify_materials bom_data inventory_data))
  = size X.
Proof.
  intros HX.
  rewrite <- (length_fmap fst). unfold size, set_size. simpl.
  apply Permutation_length, NoDup_Permutation.
  - apply (sublist_NoDup _ (classify_materials bom_data inventory_data).*1).
    + rewrite classify_materials_keys. apply NoDup_elements.
    + apply fmap_sublist, sublist_filter.
  - apply NoDup_elements.
  - intros m. rewrite elem_of_elements, HX, list_elem_of_fmap. split.
    + intros ([m' t'] & -> & [Ht Hin]%list_elem_of_filter). simpl in *.
      by subst t'.
    + intros Hin. exists (m, t). split; [done|]. by apply list_elem_of_filter.
Qed.

(** X26. The four counts [analyze_bom_structure] returns: the total is
    the sum of the other three, no material being counted under two
    types. When every material of the BOM has an inventory row, the
    counts are the numbers of rows that [classify_materials] gives the
    types raw, finished and intermediate. *)
Theorem analyze_bom_structure_counts :
  ∀ finished_order fuel bom_data r,
    analyze_bom_structure finished_order fuel bom_data = Some r →
    total_items_count r
    = raw_materials_count r + finished_goods_count r
      + intermediate_materials_count r ∧
    ∀ inventory_data,
      (∀ m, is_parent bom_data m ∨ is_child bom_data m →
            in_inventory inventory_data m) →
      let rows_of t :=
        Z.of_nat (length (filter (fun row => row.2 = t)
                            (classify_materials bom_data inventory_data))) in
      raw_materials_count r = rows_of RawMaterial ∧
      finished_goods_count r = rows_of FinishedGood ∧
      intermediate_materials_count r = rows_of IntermediateMaterial.
Proof.
  intros finished_order fuel bom_data r Hrun.
  unfold analyze_bom_structure in Hrun.
  destruct (calculate_levels _ _ _ _ _) as [s|]; [|discriminate].
  injection Hrun as <-. cbn [total_items_count raw_materials_count
    finished_goods_count intermediate_materials_count].
  split.
  - unfold raw_materials, finished_goods, intermediate_materials.
    rewrite size_parts. lia.
  - intros inventory_data Hinv. cbv zeta.
    split_and!; f_equal; symmetry; apply count_of_type; intros m;
      rewrite elem_of_classify;
      unfold raw_materials, finished_goods, intermediate_materials;
      rewrite ?elem_of_difference, ?elem_of_intersection,
        !elem_of_all_parents, !elem_of_all_children;
      specialize (Hinv m); repeat case_decide; split; try tauto;
      intros [_ ?]; done.
Qed.

Lemma analyze_bom_structure_counts_witness :
  analyze_bom_structure ["P"%string] (enough_fuel bom_skew) bom_skew
  = Some skew_analysis ∧
  total_items_count skew_analysis
  = raw_materials_count skew_analysis + finished_goods_count skew_analysis
    + intermediate_materials_count skew_analysis.
Proof.
  split; [exact skew_run|].
  apply (analyze_bom_structure_counts ["P"%string] (enough_fuel bom_skew)
           bom_skew skew_analysis skew_run).
Defined.

End BomStructure.
